(** * stylus-sprite: registry, layout and placeholder substitution

    A shallow embedding of [lib/stylus-sprite.js] (the [Sprite] object:
    [validate], [spritefunc], [build], [processImage], [makeMap]) and the
    properties of its option parser, its signature cache and its layout
    arithmetic.

    Modelling conventions.
    - A JavaScript string is a [string]: a sequence of code units below 256.
    - A JavaScript number is a [num]: [NaN], an infinity, an integer or an
      odd integer over a power of 2.  The numbers of JavaScript are the
      binary64 values among them ([double]).  [StringToNumber]
      (ECMAScript 5, 9.3.1) rounds the value of a numeral to the nearest
      of them, ties to even, and [num_to_string] (9.8.1) writes the
      shortest decimal that reads back as the number.  The two zeros are
      one number.
    - The arithmetic of [processImage] and [makeMap] is on integers: with
      a fraction or an infinity among the attributes of an image the model
      of [build] has no outcome.  Nor has it one with the [pngcrush]
      command or with a placeholder prefix that has a regular-expression
      operator in it; the statements that depend on this say so.
    - An object used as a record is an association list in property
      insertion order ([object]); an exception is the [Throw] case of
      [result].
    - The image library and the file system are parameters ([gd_open],
      [path_join]); what is drawn and which callbacks are made is recorded
      as a list of events.  A callback is taken to return normally.
    - [console.log] output is not modelled. *)

From Stdlib Require Import ZArith List String Ascii Bool Lia ZifyBool.
From Stdlib Require Import Permutation Sorted DecimalString DecimalZ DecimalPos.
From Stdlib Require Import OrdersEx.
From Stdlib Require Import RelationClasses.
Import ListNotations.

Open Scope string_scope.
Open Scope Z_scope.

(* ===================================================================== *)
(** * Definitions *)
(* ===================================================================== *)

(** ** JavaScript primitives used by the source *)

Module JS.

(** Exceptions: [throw new Error(msg)]. *)
Inductive result (A : Type) : Type :=
| Ok (a : A)
| Throw (msg : string).
Arguments Ok {A} a.
Arguments Throw {A} msg.

Definition bind {A B} (r : result A) (k : A -> result B) : result B :=
  match r with
  | Ok a => k a
  | Throw m => Throw m
  end.

(** A JavaScript number: [NaN], an infinity, an integer, or a fraction
    [m / 2^e] in lowest terms ([m] odd).  The numbers of JavaScript are the
    binary64 values, which [double] singles out; the two zeros are one
    number here, as the source never divides by a number it has read and
    neither [==] nor the conversion to a string tells them apart. *)
Inductive num : Type :=
| NaN
| Inf (negative : bool)
| Int (z : Z)
| Frac (negative : bool) (m e : positive).

Inductive value : Type :=
| VNum (n : num)
| VStr (s : string)
| VBool (b : bool).

Definition code (c : ascii) : N := N_of_ascii c.

(** WhiteSpace and LineTerminator code units: TAB, LF, VT, FF, CR, SP,
    NBSP. *)
Definition is_space (c : ascii) : bool :=
  existsb (N.eqb (code c)) [9; 10; 11; 12; 13; 32; 160]%N.

Fixpoint trim_left (s : string) : string :=
  match s with
  | EmptyString => EmptyString
  | String c s' => if is_space c then trim_left s' else s
  end.

Fixpoint trim_right (s : string) : string :=
  match s with
  | EmptyString => EmptyString
  | String c s' =>
      match trim_right s' with
      | EmptyString => if is_space c then EmptyString else String c EmptyString
      | t => String c t
      end
  end.

(** [String.prototype.trim] *)
Definition trim (s : string) : string := trim_right (trim_left s).

Definition lower_char (c : ascii) : ascii :=
  let n := code c in
  if ((65 <=? n) && (n <=? 90)
      || (192 <=? n) && (n <=? 222) && negb (n =? 215))%N
  then ascii_of_N (n + 32) else c.

(** [String.prototype.toLowerCase] *)
Fixpoint toLowerCase (s : string) : string :=
  match s with
  | EmptyString => EmptyString
  | String c s' => String (lower_char c) (toLowerCase s')
  end.

(** [String.prototype.split] with a one-character separator. *)
Fixpoint split (sep : ascii) (s : string) : list string :=
  match s with
  | EmptyString => [EmptyString]
  | String c s' =>
      if Ascii.eqb c sep then EmptyString :: split sep s'
      else match split sep s' with
           | hd :: tl => String c hd :: tl
           | [] => [String c EmptyString]
           end
  end.

(** [Array.prototype.join] *)
Definition join (sep : string) (l : list string) : string :=
  String.concat sep l.

(** [Array.prototype.pop] on a non-empty array: the last element. *)
Definition pop (l : list string) : string := List.last l EmptyString.

(** *** Numbers *)

Definition digit_val (c : ascii) : option Z :=
  let n := code c in
  if ((48 <=? n) && (n <=? 57))%N then Some (Z.of_N n - 48) else None.

Definition hex_val (c : ascii) : option Z :=
  let n := code c in
  if ((48 <=? n) && (n <=? 57))%N then Some (Z.of_N n - 48)
  else if ((97 <=? n) && (n <=? 102))%N then Some (Z.of_N n - 87)
  else if ((65 <=? n) && (n <=? 70))%N then Some (Z.of_N n - 55)
  else None.

Fixpoint digits_val (base : Z) (dv : ascii -> option Z) (acc : Z)
         (s : string) : option Z :=
  match s with
  | EmptyString => Some acc
  | String c s' =>
      match dv c with
      | Some d => digits_val base dv (base * acc + d) s'
      | None => None
      end
  end.

Definition negate (n : num) : num :=
  match n with
  | NaN => NaN
  | Inf b => Inf (negb b)
  | Int z => Int (- z)
  | Frac b m e => Frac (negb b) m e
  end.

Definition num_eqb (a b : num) : bool :=
  match a, b with
  | Int x, Int y => x =? y
  | Inf x, Inf y => Bool.eqb x y
  | Frac x m e, Frac y m' e' => Bool.eqb x y && (m =? m')%positive && (e =? e')%positive
  | _, _ => false
  end.

(** [m / 2^e] in lowest terms. *)
Fixpoint halve (m : positive) (e : nat) {struct e} : num :=
  match e, m with
  | O, _ => Int (Z.pos m)
  | S e', xO m' => halve m' e'
  | S _, _ => Frac false m (Pos.of_nat e)
  end.

(** [q * 2^e] *)
Definition dyadic (q e : Z) : num :=
  if q <=? 0 then Int 0
  else if 0 <=? e then Int (q * 2 ^ e)
  else halve (Z.to_pos q) (Z.to_nat (- e)).

(** The whole part of the binary logarithm of [n / d]. *)
Definition floor_log2 (n d : Z) : Z :=
  let l := Z.log2 n - Z.log2 d in
  if (if 0 <=? l then n <? d * 2 ^ l else n * 2 ^ (- l) <? d)
  then l - 1 else l.

(** The integer nearest to [a / b]; of two equally near, the even one. *)
Definition nearest_even (a b : Z) : Z :=
  let q := a / b in
  let r := a mod b in
  if 2 * r <? b then q
  else if b <? 2 * r then q + 1
  else if Z.even q then q else q + 1.

(** The Number value for [n / d], [0 < n] and [0 < d]: the nearest
    multiple of [2^e], ties to the even one, [e] being such that 53 bits
    are kept but not below -1074; [Infinity] from [2^1024] on. *)
Definition to_double (n d : Z) : num :=
  let e := Z.max (floor_log2 n d - 52) (-1074) in
  let q := if 0 <=? e then nearest_even n (d * 2 ^ e)
           else nearest_even (n * 2 ^ (- e)) d in
  if (971 <? e) || ((e =? 971) && (q =? 2 ^ 53)) then Inf false
  else dyadic q e.

(** The Number value for [c * 10^p], [0 <= c]. *)
Definition decimal (c p : Z) : num :=
  if c <=? 0 then Int 0
  else if 0 <=? p then to_double (c * 10 ^ p) 1
  else to_double c (10 ^ (- p)).

(** HexIntegerLiteral, after its [0x]. *)
Definition numeral (base : Z) (dv : ascii -> option Z) (s : string) : num :=
  match s with
  | EmptyString => NaN
  | _ => match digits_val base dv 0 s with
         | Some z => decimal z 0
         | None => NaN
         end
  end.

(** The DecimalDigits at the head of [s]: the number they make after the
    digits of [acc], [count] raised by how many they are, and the rest of
    [s]. *)
Fixpoint scan_digits (acc count : Z) (s : string) : Z * Z * string :=
  match s with
  | EmptyString => (acc, count, s)
  | String c s' =>
      match digit_val c with
      | Some d => scan_digits (10 * acc + d) (count + 1) s'
      | None => (acc, count, s)
      end
  end.

Definition decimal_digits (s : string) : option Z :=
  match scan_digits 0 0 s with
  | (v, count, EmptyString) => if 0 <? count then Some v else None
  | _ => None
  end.

(** SignedInteger *)
Definition signed_integer (s : string) : option Z :=
  match s with
  | String "+" r => decimal_digits r
  | String "-" r => option_map Z.opp (decimal_digits r)
  | _ => decimal_digits s
  end.

(** ExponentPart, or nothing *)
Definition exponent_part (s : string) : option Z :=
  match s with
  | EmptyString => Some 0
  | String "e" r | String "E" r => signed_integer r
  | _ => None
  end.

(** StrUnsignedDecimalLiteral: [Infinity], or digits with a [.] among
    them or not, then an exponent or not; at least one digit. *)
Definition unsigned_literal (s : string) : num :=
  if (s =? "Infinity")%string then Inf false
  else
    let '(i, ni, r1) := scan_digits 0 0 s in
    let '(c, nf, r2) := match r1 with
                        | String "." r => scan_digits i 0 r
                        | _ => (i, 0, r1)
                        end in
    if ni + nf =? 0 then NaN
    else match exponent_part r2 with
         | Some e => decimal c (e - nf)
         | None => NaN
         end.

Definition str_numeric_literal (s : string) : num :=
  match s with
  | String "+" r => unsigned_literal r
  | String "-" r => negate (unsigned_literal r)
  | String "0" (String "x" r) => numeral 16 hex_val r
  | String "0" (String "X" r) => numeral 16 hex_val r
  | _ => unsigned_literal s
  end.

(** The abstract operation StringToNumber (ECMAScript 5, 9.3.1). *)
Definition StringToNumber (s : string) : num :=
  match trim s with
  | EmptyString => Int 0
  | t => str_numeric_literal t
  end.

Definition ToNumber (v : value) : num :=
  match v with
  | VNum n => n
  | VStr s => StringToNumber s
  | VBool b => Int (if b then 1 else 0)
  end.

Definition isNaN (n : num) : bool :=
  match n with NaN => true | _ => false end.

Definition Z_to_string (z : Z) : string :=
  NilEmpty.string_of_int (Z.to_int z).

(** The magnitude of a finite number as a fraction. *)
Definition ratio (v : num) : Z * Z :=
  match v with
  | Int z => (Z.abs z, 1)
  | Frac _ m e => (Z.pos m, 2 ^ Z.pos e)
  | _ => (0, 1)
  end.

Definition is_negative (v : num) : bool :=
  match v with
  | Int z => z <? 0
  | Frac b _ _ => b
  | Inf b => b
  | NaN => false
  end.

(** The number of decimal digits of [z]. *)
Definition ndigits (z : Z) : Z := Z.of_nat (String.length (Z_to_string z)).

(** The [n] with [10^(n-1) <= a / b < 10^n]. *)
Definition magnitude (a b : Z) : Z :=
  let k := ndigits a - ndigits b in
  if (if 0 <=? k then b * 10 ^ k <=? a else b <=? a * 10 ^ (- k))
  then k + 1 else k.

(** The decimal of [k] digits, if there is one, that the conversion to a
    Number takes to [v]: [s * 10^p] is returned as [(s, p)].  [a / b] is
    the value of [v] and [n] its magnitude.  The decimals to try are the
    two next to [a / b], the upper one being [10^n] when [k] nines come
    below it; of two that do, the nearer is taken, the even one if they
    are equally near. *)
Definition candidate (v : num) (a b n k : Z) : option (Z * Z) :=
  let p := n - k in
  let '(a', b') := if 0 <=? p then (a, b * 10 ^ p) else (a * 10 ^ (- p), b) in
  let lo := (a' / b', p) in
  let hi := if a' / b' + 1 =? 10 ^ k then (1, n) else (a' / b' + 1, p) in
  let r := a' mod b' in
  let fits sp := num_eqb (decimal (fst sp) (snd sp)) v in
  match fits lo, fits hi with
  | true, true =>
      if 2 * r <? b' then Some lo
      else if b' <? 2 * r then Some hi
      else if Z.even (fst lo) then Some lo else Some hi
  | true, false => Some lo
  | false, true => Some hi
  | false, false => None
  end.

(** The shortest such decimal, trying [k], [k + 1], ... digits. *)
Fixpoint shortest (tries : nat) (v : num) (a b n k : Z) : option (Z * Z) :=
  match tries with
  | O => None
  | S tries' =>
      match candidate v a b n k with
      | Some r => Some r
      | None => shortest tries' v a b n (k + 1)
      end
  end.

Fixpoint zeros (n : nat) : string :=
  match n with
  | O => EmptyString
  | S n' => String "0" (zeros n')
  end.

(** The digits [ds] of [s] laid out for [s * 10^p] (ECMAScript 5, 9.8.1,
    steps 6 to 10). *)
Definition layout (ds : string) (p : Z) : string :=
  let k := Z.of_nat (String.length ds) in
  let n := p + k in
  if (k <=? n) && (n <=? 21) then ds ++ zeros (Z.to_nat (n - k))
  else if (0 <? n) && (n <=? 21)
  then substring 0 (Z.to_nat n) ds ++ "."
         ++ substring (Z.to_nat n) (Z.to_nat (k - n)) ds
  else if (-6 <? n) && (n <=? 0) then "0." ++ zeros (Z.to_nat (- n)) ++ ds
  else
    let e := n - 1 in
    let exponent := (if 0 <=? e then "e+" else "e-") ++ Z_to_string (Z.abs e) in
    match ds with
    | String c EmptyString => ds ++ exponent
    | String c r => String c ("." ++ r) ++ exponent
    | EmptyString => ds
    end.

(** ToString applied to a finite number above 0.  Seventeen digits tell
    any Number from its neighbours, so the search finds a decimal; the
    full expansion of [v] stands where it is not known to. *)
Definition positive_to_string (v : num) : string :=
  let '(a, b) := ratio v in
  let '(s, p) :=
    match shortest 17 v a b (magnitude a b) 1 with
    | Some r => r
    | None =>
        match v with
        | Frac _ m e => (Z.pos m * 5 ^ Z.pos e, - Z.pos e)
        | _ => (a, 0)
        end
    end in
  layout (Z_to_string s) p.

(** ToString applied to a Number (ECMAScript 5, 9.8.1). *)
Definition num_to_string (n : num) : string :=
  match n with
  | NaN => "NaN"
  | Inf false => "Infinity"
  | Inf true => "-Infinity"
  | Int 0 => "0"
  | _ => if is_negative n then "-" ++ positive_to_string (negate n)
         else positive_to_string n
  end.

(** The binary64 values among the numbers. *)
Definition double (n : num) : bool :=
  match n with
  | NaN | Inf _ => true
  | Int z =>
      (Z.abs z <? 2 ^ 1024)
      && (Z.abs z mod 2 ^ Z.max 0 (Z.log2 (Z.abs z) - 52) =? 0)
  | Frac _ m e =>
      negb (Z.even (Z.pos m)) && (Z.pos m <? 2 ^ 53) && (Z.pos e <=? 1074)
  end.

(** String concatenation [""+v]. *)
Definition ToString (v : value) : string :=
  match v with
  | VNum n => num_to_string n
  | VStr s => s
  | VBool true => "true"
  | VBool false => "false"
  end.

Definition ToBoolean (v : value) : bool :=
  match v with
  | VNum NaN => false
  | VNum (Int 0) => false
  | VNum _ => true
  | VStr EmptyString => false
  | VStr _ => true
  | VBool b => b
  end.

(** [v == s] for a string literal [s] (loose equality). *)
Definition loose_eq_str (v : value) (s : string) : bool :=
  match v with
  | VStr t => (t =? s)%string
  | VNum n => num_eqb n (StringToNumber s)
  | VBool b => num_eqb (Int (if b then 1 else 0)) (StringToNumber s)
  end.

(** [a && b] and [a || b] on values. *)
Definition and_ (a b : value) : value := if ToBoolean a then b else a.
Definition or_ (a b : value) : value := if ToBoolean a then a else b.

(** *** Objects as records *)

Definition object : Type := list (string * value).

Fixpoint get (k : string) (o : object) : option value :=
  match o with
  | [] => None
  | (k', v) :: o' => if (k' =? k)%string then Some v else get k o'
  end.

(** [o[k] = v] on an ordinary property: update in place, else append. *)
Fixpoint set (k : string) (v : value) (o : object) : object :=
  match o with
  | [] => [(k, v)]
  | (k', v') :: o' =>
      if (k' =? k)%string then (k, v) :: o' else (k', v') :: set k v o'
  end.

(** [Object.keys] *)
Definition keys_of (o : object) : list string := map fst o.

(** [Array.prototype.sort] without comparator: code-unit order. *)
Definition str_leb (a b : string) : bool :=
  match String_as_OT.compare a b with
  | Gt => false
  | _ => true
  end.

Fixpoint insert_sorted (k : string) (l : list string) : list string :=
  match l with
  | [] => [k]
  | x :: l' => if str_leb k x then k :: l else x :: insert_sorted k l'
  end.

Fixpoint sort (l : list string) : list string :=
  match l with
  | [] => []
  | x :: l' => insert_sorted x (sort l')
  end.

(** [Math.max] on integers. *)
Definition max (a b : Z) : Z := Z.max a b.

(** [Math.round(a/2 - b/2)] on integers: halves round up. *)
Definition round_half_diff (a b : Z) : Z := (a - b + 1) / 2.

(** [Math.floor(a/2)] on integers. *)
Definition floor_half (a : Z) : Z := a / 2.

End JS.

Import JS.

Notation "x <- r ;; k" := (JS.bind r (fun x => k))
  (at level 61, r at next level, right associativity).

(** ** The Sprite object: option schema and registry *)

Inductive key_type : Type :=
| TNumber
| TPredefined (values : list string)
| TBoolean.

(** [Sprite.prototype.keys] *)
Definition keys : list (string * key_type) :=
  [ ("width", TNumber);
    ("height", TNumber);
    ("align", TPredefined ["block"; "left"; "center"; "right"]);
    ("valign", TPredefined ["block"; "bottom"; "middle"; "top"]);
    ("resize", TBoolean);
    ("repeat", TPredefined ["no"; "x"; "y"]);
    ("limit-repeat-x", TNumber);
    ("limit-repeat-y", TNumber);
    ("totalwidth", TNumber);
    ("totalheight", TNumber);
    ("padwidth", TNumber);
    ("padheight", TNumber) ].

(** [Sprite.prototype.defaults] *)
Definition defaults : object :=
  [ ("width", VNum (Int 0));
    ("height", VNum (Int 0));
    ("align", VStr "block");
    ("valign", VStr "block");
    ("resize", VBool false);
    ("repeat", VStr "no");
    ("limit-repeat-y", VNum (Int 300));
    ("limit-repeat-x", VNum (Int 0)) ].

(** [Sprite.prototype.getDefaults]: a fresh copy, key by key. *)
Definition getDefaults : object :=
  fold_left
    (fun d k => match JS.get k defaults with
                | Some v => JS.set k v d
                | None => d
                end)
    (keys_of defaults) [].

(** What [this.keys[key]] evaluates to.  [keys] is an object literal, so a
    name that is not an own property is still looked up on
    [Object.prototype]; the members found there are truthy and carry no
    [type] field. *)
Inductive schema_entry : Type :=
| Own (t : key_type)
| Inherited
| Undefined.

(** The names of the members of [Object.prototype]. *)
Definition object_prototype : list string :=
  [ "constructor"; "__proto__"; "hasOwnProperty"; "isPrototypeOf";
    "propertyIsEnumerable"; "toLocaleString"; "toString"; "valueOf";
    "__defineGetter__"; "__defineSetter__"; "__lookupGetter__";
    "__lookupSetter__" ].

Fixpoint assoc {A : Type} (k : string) (l : list (string * A)) : option A :=
  match l with
  | [] => None
  | (k', a) :: l' => if (k' =? k)%string then Some a else assoc k l'
  end.

Definition keys_get (key : string) : schema_entry :=
  match assoc key keys with
  | Some t => Own t
  | None =>
      if existsb (String.eqb key) object_prototype then Inherited
      else Undefined
  end.

(** [values.indexOf(value)]: strict equality, so only a string can be
    found. *)
Fixpoint index_from (i : Z) (s : string) (l : list string) : Z :=
  match l with
  | [] => -1
  | x :: l' => if (x =? s)%string then i else index_from (i + 1) s l'
  end.

Definition indexOf (v : value) (l : list string) : Z :=
  match v with
  | VStr s => index_from 0 s l
  | _ => -1
  end.

(** [Sprite.prototype.validate] *)
Definition validate (key : string) (value : JS.value) : result JS.value :=
  match keys_get key with
  | Undefined => Throw ("Invalid key '" ++ key ++ "'")
  | Inherited => Ok value
  | Own TNumber =>
      let value := ToNumber value in
      if isNaN value
      then Throw ("Invalid number value '" ++ key ++ "' for " ++ key)
      else Ok (VNum value)
  | Own (TPredefined values) =>
      if indexOf value values <? 0
      then Throw ("Unknown value '" ++ ToString value ++ "' for " ++ key
                  ++ ", allowed: " ++ join "," values)
      else Ok value
  | Own TBoolean =>
      Ok (VBool (if loose_eq_str value "false" || loose_eq_str value "0"
                    || negb (ToBoolean value)
                 then false else true))
  end.

(** The Stylus node handed over for the file name: its value and its
    source line. *)
Record node : Type := { val : string; node_lineno : Z }.

(** An image record while it waits in [this.images]: the attribute
    properties present when the signature is taken, then [hash],
    [_img_id] and [lineno]. *)
Record entry : Type :=
  { attrs : object;
    hash : string;
    entry_id : Z;
    entry_lineno : Z }.

Inductive opened : Type :=
| OpenError (message : string)
| Image (width height : Z).

(** Attributes of an image record once its file has been opened. *)
Module Img.
Record t : Type :=
  { _img_id : Z;
    lineno : Z;
    filename : string;
    width : Z;
    height : Z;
    align : string;
    valign : string;
    resize : bool;
    repeat : string;
    limit_repeat_x : Z;
    limit_repeat_y : Z;
    totalwidth : option Z;
    totalheight : option Z;
    padwidth : option Z;
    padheight : option Z;
    imageWidth : Z;
    imageHeight : Z;
    blockWidth : value;
    blockHeight : Z }.
End Img.

Record Sprite : Type :=
  { images : list entry;
    processedImages : list Img.t;
    _img_id : Z;
    canvasWidth : Z;
    canvasHeight : Z;
    padding : Z;
    image_root : string;
    output_file : string;
    placeholder : string;
    output_format : string;
    pngcrush : option string }.

Record options : Type :=
  { opt_image_root : option string;
    opt_output_file : option string;
    opt_placeholder : option string;
    opt_pngcrush : option string }.

Definition no_options : options :=
  {| opt_image_root := None; opt_output_file := None;
     opt_placeholder := None; opt_pngcrush := None |}.

(** [o || d] for an optional string property. *)
Definition or_default (o : option string) (d : string) : string :=
  match o with
  | Some EmptyString | None => d
  | Some s => s
  end.

(** The constructor [Sprite(options)]. *)
Definition new_Sprite (o : options) : result Sprite :=
  let output_file := or_default (opt_output_file o) "sprite.png" in
  let output_format :=
    or_default (Some (toLowerCase (pop (split "." output_file)))) "png" in
  let pngcrush :=
    if (output_format =? "png")%string
    then match opt_pngcrush o with
         | Some EmptyString | None => None
         | Some c => Some c
         end
    else None in
  if index_from 0 output_format ["png"; "jpeg"; "jpg"; "gif"] <? 0
  then Throw ("Invalid output format '" ++ output_format ++ "'")
  else Ok {| images := [];
             processedImages := [];
             _img_id := 0;
             canvasWidth := 0;
             canvasHeight := 0;
             padding := 10;
             image_root := or_default (opt_image_root o) "";
             output_file := output_file;
             placeholder := or_default (opt_placeholder o) "SPRITE_PLACEHOLDER";
             output_format := output_format;
             pngcrush := pngcrush |}.

(** One [key: value] part of the option string: the key and the raw value
    ([0] when there is no colon). *)
Definition clause (opts : string) : string * value :=
  match split ":" opts with
  | [] => (EmptyString, VNum (Int 0))
  | p0 :: parts =>
      match p0 with
      | EmptyString => (EmptyString, VStr (trim (join ":" (p0 :: parts))))
      | _ =>
          (toLowerCase (trim p0),
           match parts with
           | [] => VNum (Int 0)
           | _ => VStr (trim (join ":" parts))
           end)
      end
  end.

(** [imgdata[key] = v]: assigning a primitive to [__proto__] is ignored. *)
Definition assign (key : string) (v : value) (imgdata : object) : object :=
  if (key =? "__proto__")%string then imgdata else JS.set key v imgdata.

(** The body of the [forEach] over the parts of the option string. *)
Definition apply_clause (imgdata : result object) (opts : string)
  : result object :=
  d <- imgdata ;;
  let (key, value) := clause opts in
  match key with
  | EmptyString => Ok d
  | _ => v <- validate key value ;; Ok (assign key v d)
  end.

(** The record [spritefunc] builds before it takes the signature. *)
Definition merged (filename : string) (options : option string)
  : result object :=
  let imgdata := JS.set "filename" (VStr filename) getDefaults in
  fold_left apply_clause (split ";" (or_default options "")) (Ok imgdata).

(** [imgdata[k]] as it is appended to a string. *)
Definition valstr (imgdata : object) (k : string) : string :=
  match JS.get k imgdata with
  | Some v => ToString v
  | None => "undefined"
  end.

(** One [key=value] item of the signature. *)
Definition render (imgdata : object) (k : string) : string :=
  k ++ "=" ++ valstr imgdata k.

(** The signature: sorted keys, [key=value] items joined by [;]. *)
Definition signature (imgdata : object) : string :=
  join ";" (map (render imgdata) (sort (keys_of imgdata))).

(** The [filter] callback keeps the last record with the same hash. *)
Definition cached (h : string) (imgs : list entry) : option entry :=
  fold_left (fun found elm => if (hash elm =? h)%string then Some elm else found)
            imgs None.

Definition token (prefix : string) (id : Z) : string :=
  prefix ++ "(" ++ Z_to_string id ++ ")".

(** [Sprite.prototype.spritefunc] *)
Definition spritefunc (this : Sprite) (filename : node)
           (options : option string) : result (string * Sprite) :=
  imgdata <- merged (val filename) options ;;
  let h := signature imgdata in
  match cached h (images this) with
  | Some elm => Ok (token (placeholder this) (entry_id elm), this)
  | None =>
      let id := _img_id this + 1 in
      let e := {| attrs := imgdata; hash := h; entry_id := id;
                  entry_lineno := node_lineno filename |} in
      Ok (token (placeholder this) id,
          {| images := images this ++ [e];
             processedImages := processedImages this;
             _img_id := id;
             canvasWidth := canvasWidth this;
             canvasHeight := canvasHeight this;
             padding := padding this;
             image_root := image_root this;
             output_file := output_file this;
             placeholder := placeholder this;
             output_format := output_format this;
             pngcrush := pngcrush this |})
  end.

(** ** The layout engine *)

Definition obind {A B} (o : option A) (k : A -> option B) : option B :=
  match o with
  | Some a => k a
  | None => None
  end.

Notation "x <-? o ;; k" := (obind o (fun x => k))
  (at level 61, o at next level, right associativity).
Notation "' p <-? o ;; k" := (obind o (fun x => let 'p := x in k))
  (at level 61, p strict pattern, o at next level, right associativity).

(** Reading a property that holds an integer, a string or a boolean.  A
    property holding an infinity or a fraction has no counterpart in the
    integer layout arithmetic: reading it gives [None]. *)
Definition int_attr (k : string) (o : object) : option Z :=
  match JS.get k o with
  | Some (VNum (Int z)) => Some z
  | _ => None
  end.

Definition opt_int_attr (k : string) (o : object) : option (option Z) :=
  match JS.get k o with
  | None => Some None
  | Some (VNum (Int z)) => Some (Some z)
  | Some _ => None
  end.

Definition str_attr (k : string) (o : object) : option string :=
  match JS.get k o with
  | Some (VStr s) => Some s
  | _ => None
  end.

Definition bool_attr (k : string) (o : object) : option bool :=
  match JS.get k o with
  | Some v => Some (ToBoolean v)
  | None => None
  end.

(** Truth value of an optional numeric property. *)
Definition given (o : option Z) : bool :=
  match o with
  | Some z => negb (z =? 0)
  | None => false
  end.

Definition number_of (v : value) : option Z :=
  match v with
  | VNum (Int z) => Some z
  | _ => None
  end.

(** The right-hand side of [imgdata.blockWidth = ...], operator by
    operator: [(repeat=="x" && limit || "100%") || (align!="block" &&
    "100%") || width]. *)
Definition blockWidth_expr (repeat align : string) (limit_repeat_x width : Z)
  : value :=
  or_ (or_ (or_ (and_ (VBool (repeat =? "x")%string)
                      (VNum (Int limit_repeat_x)))
                (VStr "100%"))
           (and_ (VBool (negb (align =? "block")%string)) (VStr "100%")))
      (VNum (Int width)).

(** [(repeat=="y" && limit) || height] *)
Definition blockHeight_expr (repeat : string) (limit_repeat_y height : Z)
  : value :=
  or_ (and_ (VBool (repeat =? "y")%string) (VNum (Int limit_repeat_y)))
      (VNum (Int height)).

Definition set_images (l : list entry) (this : Sprite) : Sprite :=
  {| images := l;
     processedImages := processedImages this;
     _img_id := _img_id this;
     canvasWidth := canvasWidth this;
     canvasHeight := canvasHeight this;
     padding := padding this;
     image_root := image_root this;
     output_file := output_file this;
     placeholder := placeholder this;
     output_format := output_format this;
     pngcrush := pngcrush this |}.

Definition set_layout (done : list Img.t) (w h : Z) (this : Sprite) : Sprite :=
  {| images := images this;
     processedImages := done;
     _img_id := _img_id this;
     canvasWidth := w;
     canvasHeight := h;
     padding := padding this;
     image_root := image_root this;
     output_file := output_file this;
     placeholder := placeholder this;
     output_format := output_format this;
     pngcrush := pngcrush this |}.

(** The success branch of the callback in [Sprite.prototype.processImage],
    for an opened image of size [img_width] x [img_height]. *)
Definition processImage (this : Sprite) (imgdata : entry)
           (img_width img_height : Z) : option Sprite :=
  let o := attrs imgdata in
  filename <-? str_attr "filename" o ;;
  width <-? int_attr "width" o ;;
  height <-? int_attr "height" o ;;
  align <-? str_attr "align" o ;;
  valign <-? str_attr "valign" o ;;
  resize <-? bool_attr "resize" o ;;
  repeat <-? str_attr "repeat" o ;;
  limit_repeat_x <-? int_attr "limit-repeat-x" o ;;
  limit_repeat_y <-? int_attr "limit-repeat-y" o ;;
  totalwidth <-? opt_int_attr "totalwidth" o ;;
  totalheight <-? opt_int_attr "totalheight" o ;;
  padwidth <-? opt_int_attr "padwidth" o ;;
  padheight <-? opt_int_attr "padheight" o ;;
  let width := if width =? 0 then img_width else width in
  let height := if height =? 0 then img_height else height in
  let blockWidth := blockWidth_expr repeat align limit_repeat_x width in
  blockHeight <-? number_of (blockHeight_expr repeat limit_repeat_y height) ;;
  let blockHeight := if blockHeight <? height then height else blockHeight in
  let canvasWidth :=
    match blockWidth with
    | VNum (Int bw) => if bw >? canvasWidth this then bw else canvasWidth this
    | _ => canvasWidth this
    end in
  let canvasWidth := if width >? canvasWidth then width else canvasWidth in
  let canvasHeight := canvasHeight this + (blockHeight + padding this) in
  Some (set_layout
          (processedImages this ++
             [ {| Img._img_id := entry_id imgdata;
                  Img.lineno := entry_lineno imgdata;
                  Img.filename := filename;
                  Img.width := width;
                  Img.height := height;
                  Img.align := align;
                  Img.valign := valign;
                  Img.resize := resize;
                  Img.repeat := repeat;
                  Img.limit_repeat_x := limit_repeat_x;
                  Img.limit_repeat_y := limit_repeat_y;
                  Img.totalwidth := totalwidth;
                  Img.totalheight := totalheight;
                  Img.padwidth := padwidth;
                  Img.padheight := padheight;
                  Img.imageWidth := img_width;
                  Img.imageHeight := img_height;
                  Img.blockWidth := blockWidth;
                  Img.blockHeight := blockHeight |} ])
          canvasWidth canvasHeight this).

(** Calls made on the image library while drawing. *)
Inductive draw : Type :=
| BlockResampled (id dstWidth dstHeight srcWidth srcHeight : Z)
| BlockCopy (id dstX dstY srcWidth srcHeight : Z)
| SpriteCopy (id dstX dstY width height : Z).

Inductive event : Type :=
| CallbackError (message : string)
| CallbackDone (css : string)
| SaveImage (format file : string) (width height : Z) (drawn : list draw).

(** How a run of [build] ends: with the last callback made, or with an
    exception nobody catches. *)
Inductive outcome : Type :=
| Completed (this : Sprite) (trace : list event)
| Uncaught (msg : string) (this : Sprite) (trace : list event).

(** [Sprite.prototype.createImage]: the size of the image it creates. *)
Definition createImage (width height : Z) : Z * Z :=
  (JS.max width 5, JS.max height 5).

(** The [while] loop of [repeat:x]; [None] when [fuel] iterations were not
    enough. *)
Fixpoint tile_x (fuel : nat) (id width height blockWidth curX curY : Z)
         (drawn : list draw) : option (Z * list draw) :=
  if curX <? blockWidth then
    match fuel with
    | O => None
    | S fuel' =>
        let remainder :=
          if curX + width <? blockWidth then width else blockWidth - curX in
        tile_x fuel' id width height blockWidth (curX + width) curY
               (drawn ++ [SpriteCopy id curX curY remainder height])
    end
  else Some (curX, drawn).

(** The [while] loop of [repeat:y]. *)
Fixpoint tile_y (fuel : nat) (id width height blockHeight startY curX curY : Z)
         (drawn : list draw) : option (Z * list draw) :=
  if curY <? startY + blockHeight then
    match fuel with
    | O => None
    | S fuel' =>
        let remainder :=
          if curY + height <? startY + blockHeight then height
          else startY + blockHeight - curY in
        tile_y fuel' id width height blockHeight startY curX (curY + remainder)
               (drawn ++ [SpriteCopy id curX curY width remainder])
    end
  else Some (curY, drawn).

(** Characters with a meaning of their own in a regular expression. *)
Definition regex_special (c : ascii) : bool :=
  existsb (Ascii.eqb c)
    ["\"; "^"; "$"; "."; "|"; "?"; "*"; "+"; "("; ")"; "["; "]"; "{"; "}"]%char.

Fixpoint regex_plain (s : string) : bool :=
  match s with
  | EmptyString => true
  | String c s' => negb (regex_special c) && regex_plain s'
  end.

(** [s.replace(new RegExp(pat, "g"), rep)] for a pattern that matches the
    literal text [pat] and a replacement without [$]: matches are taken
    from the left and do not overlap.  [skip] counts the characters of a
    match still to be dropped. *)
Fixpoint replace_from (pat rep : string) (skip : nat) (s : string) : string :=
  match s with
  | EmptyString => EmptyString
  | String c s' =>
      match skip with
      | S k => replace_from pat rep k s'
      | O =>
          if String.prefix pat s
          then rep ++ replace_from pat rep (String.length pat - 1) s'
          else String c (replace_from pat rep 0 s')
      end
  end.

Definition replace_all (pat rep s : string) : string :=
  match pat with
  | EmptyString => s
  | _ => replace_from pat rep 0 s
  end.

(** The text of the regular expression built for one image. *)
Definition quoted_token (prefix : string) (id : Z) : string :=
  "'" ++ prefix ++ "(" ++ Z_to_string id ++ ")'".

(** The [totalwidth]/[totalheight] declarations appended to a position. *)
Definition appendMargin (d : Img.t) : string :=
  match Img.totalwidth d, Img.totalheight d with
  | Some totalwidth, Some totalheight =>
      if given (Some totalwidth) && given (Some totalheight) then
        let imgw := Img.imageWidth d in
        let imgh := Img.imageHeight d in
        let margw := totalwidth - imgw in
        let margh := totalheight - imgh in
        let margtop := floor_half (margh + 1) in
        let margright := floor_half margw in
        let margbottom := floor_half margh in
        let margleft := floor_half (margw + 1) in
        let imgw := match Img.padwidth d with
                    | Some p => if given (Some p) then imgw + p else imgw
                    | None => imgw
                    end in
        let imgh := match Img.padheight d with
                    | Some p => if given (Some p) then imgh + p else imgh
                    | None => imgh
                    end in
        ";margin:" ++ Z_to_string margtop ++ "px " ++ Z_to_string margright
          ++ "px " ++ Z_to_string margbottom ++ "px " ++ Z_to_string margleft
          ++ "px !important;" ++ "height:" ++ Z_to_string imgh
          ++ "px !important;" ++ "width:" ++ Z_to_string imgw
          ++ "px !important"
      else ""
  | _, _ => ""
  end.

(** The text put in place of the placeholder of [d]. *)
Definition replacement (d : Img.t) (startX startY : Z) : string :=
  let cssPlacementX :=
    if (Img.align d =? "right")%string then "100%"
    else if (Img.align d =? "center")%string then "center"
    else "-" ++ Z_to_string startX ++ "px" in
  let cssPlacementY := "-" ++ Z_to_string startY ++ "px" in
  cssPlacementX ++ " " ++ cssPlacementY ++ appendMargin d.

(** [d.blockWidth = v] *)
Definition set_blockWidth (v : value) (d : Img.t) : Img.t :=
  {| Img._img_id := Img._img_id d;
     Img.lineno := Img.lineno d;
     Img.filename := Img.filename d;
     Img.width := Img.width d;
     Img.height := Img.height d;
     Img.align := Img.align d;
     Img.valign := Img.valign d;
     Img.resize := Img.resize d;
     Img.repeat := Img.repeat d;
     Img.limit_repeat_x := Img.limit_repeat_x d;
     Img.limit_repeat_y := Img.limit_repeat_y d;
     Img.totalwidth := Img.totalwidth d;
     Img.totalheight := Img.totalheight d;
     Img.padwidth := Img.padwidth d;
     Img.padheight := Img.padheight d;
     Img.imageWidth := Img.imageWidth d;
     Img.imageHeight := Img.imageHeight d;
     Img.blockWidth := v;
     Img.blockHeight := Img.blockHeight d |}.

(** The variables of [makeMap] that live across iterations of its [for]
    loop, with what the loop has produced so far. *)
Record cursor : Type :=
  { text : string;
    curY : Z;
    drawn : list draw;
    placed : list Img.t;
    replaced : list (Z * string) }.

(** One iteration of the [for] loop of [makeMap]. *)
Definition place (fuel : nat) (this : Sprite) (c : cursor)
           (currentImageData : Img.t) : option cursor :=
  let d := currentImageData in
  let id := Img._img_id d in
  blockWidth <-? (if loose_eq_str (Img.blockWidth d) "100%"
                  then Some (canvasWidth this)
                  else number_of (Img.blockWidth d)) ;;
  let posX :=
    if Img.width d >? Img.imageWidth d
    then round_half_diff (Img.width d) (Img.imageWidth d) else 0 in
  let posY :=
    if Img.height d >? Img.imageHeight d then
      if (Img.valign d =? "top")%string then 0
      else if (Img.valign d =? "bottom")%string
           then Img.height d - Img.imageHeight d
           else round_half_diff (Img.height d) (Img.imageHeight d)
    else 0 in
  let block :=
    if Img.resize d
    then BlockResampled id (Img.width d) (Img.height d)
                        (Img.imageWidth d) (Img.imageHeight d)
    else BlockCopy id posX posY (Img.imageWidth d) (Img.imageHeight d) in
  let curX :=
    if (Img.align d =? "center")%string
    then round_half_diff (canvasWidth this) (Img.width d)
    else if (Img.align d =? "right")%string
         then canvasWidth this - Img.width d
         else 0 in
  let startX := curX in
  let startY := curY c in
  let drawn := (drawn c ++ [block])%list in
  (* repeat: no *)
  let '(curY1, drawn) :=
    if (Img.repeat d =? "no")%string
    then (curY c + (Img.height d + padding this),
          (drawn ++ [SpriteCopy id curX (curY c) (Img.width d) (Img.height d)])%list)
    else (curY c, drawn) in
  (* repeat: x *)
  '(startX, curX, curY2, drawn) <-?
    (if (Img.repeat d =? "x")%string
     then '(x, drawn') <-? tile_x fuel id (Img.width d) (Img.height d)
                                   blockWidth 0 curY1 drawn ;;
          Some (0, x, curY1 + (Img.height d + padding this), drawn')
     else Some (startX, curX, curY1, drawn)) ;;
  (* repeat: y *)
  '(curY3, drawn) <-?
    (if (Img.repeat d =? "y")%string
     then '(y, drawn') <-? tile_y fuel id (Img.width d) (Img.height d)
                                   (Img.blockHeight d) startY curX curY2 drawn ;;
          Some (y + padding this, drawn')
     else Some (curY2, drawn)) ;;
  let position := replacement d startX startY in
  Some {| text := replace_all (quoted_token (placeholder this) id) position (text c);
          curY := curY3;
          drawn := drawn;
          placed := placed c ++ [set_blockWidth (VNum (Int blockWidth)) d];
          replaced := replaced c ++ [(id, position)] |}.

Fixpoint place_all (fuel : nat) (this : Sprite) (c : cursor)
         (l : list Img.t) : option cursor :=
  match l with
  | [] => Some c
  | d :: l' => c' <-? place fuel this c d ;; place_all fuel this c' l'
  end.

(** [Sprite.prototype.makeMap].  Not covered: a placeholder prefix with
    regular-expression operators in it, and the external [pngcrush]
    command. *)
Definition makeMap (fuel : nat) (this : Sprite) (css : string)
           (trace : list event) : option outcome :=
  if negb (regex_plain (placeholder this)) then None
  else match pngcrush this with
  | Some _ => None
  | None =>
      c <-? place_all fuel this
              {| text := css; curY := 0; drawn := []; placed := [];
                 replaced := [] |}
              (processedImages this) ;;
      Some (Completed
              (set_layout (placed c) (canvasWidth this) (canvasHeight this) this)
              (trace ++
                 [ SaveImage (output_format this) (output_file this)
                             (fst (createImage (canvasWidth this)
                                               (canvasHeight this)))
                             (snd (createImage (canvasWidth this)
                                               (canvasHeight this)))
                             (drawn c);
                   CallbackDone (text c) ]))
  end.

Section Build.

(** The world outside: [path.join] and the image files as the [open*]
    functions of the image library find them. *)
Variable path_join : string -> string -> string.
Variable gd_open : string -> string -> opened.

(** [Sprite.prototype.openImage] *)
Definition openImage (image : string) : result opened :=
  let ext := toLowerCase (pop (split "." image)) in
  if (ext =? "png")%string then Ok (gd_open "openPng" image)
  else if (ext =? "gif")%string then Ok (gd_open "openGif" image)
  else if (ext =? "jpg")%string || (ext =? "jpeg")%string
       then Ok (gd_open "openJpeg" image)
       else Throw "Unknown file type".

(** [Sprite.prototype.build] with [processImage] calling back into it.
    [pending] is [this.images]; each call takes its first element off. *)
Fixpoint build_pending (fuel : nat) (pending : list entry) (this : Sprite)
         (css : string) (err : option string) (trace : list event)
  : option outcome :=
  let trace := match err with
               | Some message => (trace ++ [CallbackError message])%list
               | None => trace
               end in
  match pending with
  | imgdata :: rest =>
      let this := set_images rest this in
      filename <-? str_attr "filename" (attrs imgdata) ;;
      match openImage (path_join (image_root this) filename) with
      | Throw msg => Some (Uncaught msg this trace)
      | Ok (OpenError message) =>
          let message :=
            match message with
            | EmptyString => message
            | _ => message ++ "; CSS line nr #"
                     ++ Z_to_string (entry_lineno imgdata)
            end in
          build_pending fuel rest this css (Some message) trace
      | Ok (Image w h) =>
          this' <-? processImage this imgdata w h ;;
          build_pending fuel rest this' css None trace
      end
  | [] => makeMap fuel this css trace
  end.

Definition build (fuel : nat) (this : Sprite) (css : string)
           (err : option string) : option outcome :=
  build_pending fuel (images this) this css err [].

End Build.

(** ** [build] under a callback that throws

    The callback of the README throws the error it is handed
    ([if (err) throw err;]).  The exception then leaves [build] at its
    first statement, and nobody catches it. *)

Section Rethrowing.

Variable path_join : string -> string -> string.
Variable gd_open : string -> string -> opened.

Fixpoint build_pending_rethrowing (fuel : nat) (pending : list entry)
         (this : Sprite) (css : string) (err : option string)
         (trace : list event) : option outcome :=
  match err with
  | Some message => Some (Uncaught message this (trace ++ [CallbackError message]))
  | None =>
      match pending with
      | imgdata :: rest =>
          let this := set_images rest this in
          filename <-? str_attr "filename" (attrs imgdata) ;;
          match openImage gd_open (path_join (image_root this) filename) with
          | Throw msg => Some (Uncaught msg this trace)
          | Ok (OpenError message) =>
              let message :=
                match message with
                | EmptyString => message
                | _ => message ++ "; CSS line nr #"
                         ++ Z_to_string (entry_lineno imgdata)
                end in
              build_pending_rethrowing fuel rest this css (Some message) trace
          | Ok (Image w h) =>
              this' <-? processImage this imgdata w h ;;
              build_pending_rethrowing fuel rest this' css None trace
          end
      | [] => makeMap fuel this css trace
      end
  end.

Definition build_rethrowing (fuel : nat) (this : Sprite) (css : string)
  : option outcome :=
  build_pending_rethrowing fuel (images this) this css None [].

End Rethrowing.

(** ** node-gd: the wrappers around the image library

    [node-gd.js] defines an [open...] function and a [save...] method for
    the formats of its table.  A wrapper takes the file name off its
    arguments, looks for its callback at a fixed place among the others,
    and works asynchronously, calling back, only when it finds a function
    there. *)

Module Gd.

Inductive arg : Type :=
| Fn
| Num (z : Z)
| Str (s : string).

(** [formats]: for each format the [len] of its [open] wrapper and of its
    [save] wrapper. *)
Definition formats : list (string * (Z * Z)) :=
  [ ("jpeg", (1, 2)); ("png", (1, 2)); ("gif", (1, 1)); ("gd", (1, 1));
    ("gd2", (1, 1)); ("gd2Part", (5, -1)); ("WBMP", (1, 1)) ].

(** [format.replace(/^[a-z]/, function(m0){ return m0.toUpperCase() })] *)
Definition upper_first (format : string) : string :=
  match format with
  | EmptyString => EmptyString
  | String c r =>
      if ((97 <=? code c) && (code c <=? 122))%N
      then String (ascii_of_N (code c - 32)) r
      else format
  end.

(** The wrappers the loop over [formats] defines, each with its [len]. *)
Definition open_wrappers : list (string * Z) :=
  flat_map (fun f => if fst (snd f) >=? 0
                     then [("open" ++ upper_first (fst f), fst (snd f))]
                     else [])
           formats.

Definition save_wrappers : list (string * Z) :=
  flat_map (fun f => if snd (snd f) >=? 0
                     then [("save" ++ upper_first (fst f), snd (snd f))]
                     else [])
           formats.

(** [typeof args[len-1] == 'function'], with [args] the arguments after
    the file name. *)
Definition callback_at (len : Z) (arguments : list arg) : bool :=
  match arguments with
  | [] => false
  | _ :: args =>
      if len - 1 <? 0 then false
      else match nth_error args (Z.to_nat (len - 1)) with
           | Some Fn => true
           | _ => false
           end
  end.

Inductive mode : Type :=
| Asynchronous
| Synchronous
| NotDefined.

(** How a call of the wrapper [name] goes. *)
Definition call (wrappers : list (string * Z)) (name : string)
           (arguments : list arg) : mode :=
  match assoc name wrappers with
  | Some len => if callback_at len arguments then Asynchronous else Synchronous
  | None => NotDefined
  end.

End Gd.

(** The call [openImage] makes on the image library. *)
Definition open_call (image : string) : result (string * list Gd.arg) :=
  let ext := toLowerCase (pop (split "." image)) in
  if (ext =? "png")%string then Ok ("openPng", [Gd.Str image; Gd.Fn])
  else if (ext =? "gif")%string then Ok ("openGif", [Gd.Str image; Gd.Fn])
  else if (ext =? "jpg")%string || (ext =? "jpeg")%string
       then Ok ("openJpeg", [Gd.Str image; Gd.Fn])
       else Throw "Unknown file type".

(** The call that saves the sprite at the end of [makeMap]. *)
Definition save_call (this : Sprite) : string * list Gd.arg :=
  if (output_format this =? "gif")%string
  then ("saveGif", [Gd.Str (output_file this); Gd.Fn])
  else if (output_format this =? "jpg")%string
          || (output_format this =? "jpeg")%string
       then ("saveJpeg", [Gd.Str (output_file this); Gd.Num 80; Gd.Fn])
       else ("savePng", [Gd.Str (output_file this); Gd.Num 0; Gd.Fn]).

(** ** Vocabulary of the statements *)

(** *** Calls and registries *)

(** [later this this']: [this'] is [this] after some successful calls of
    [spritefunc] (a call that throws leaves the object as it was). *)
Inductive later (this : Sprite) : Sprite -> Prop :=
| later_refl : later this this
| later_call this1 filename options tok this2 :
    later this this1 ->
    spritefunc this1 filename options = Ok (tok, this2) ->
    later this this2.

(** A Sprite on which nothing but [spritefunc] has run since [new]. *)
Definition registered (this : Sprite) : Prop :=
  exists o this0, new_Sprite o = Ok this0 /\ later this0 this.

(** The ids [first], [first + 1], ... of [n] records in a row. *)
Fixpoint ids_from (first : Z) (n : nat) : list Z :=
  match n with
  | O => []
  | S n' => first :: ids_from (first + 1) n'
  end.

(** What holds of the registry between calls of [spritefunc]: ids are
    handed out in order from 1, and no two records share a hash. *)
Definition registry_ok (this : Sprite) : Prop :=
  map entry_id (images this) = ids_from 1 (List.length (images this))
  /\ _img_id this = Z.of_nat (List.length (images this))
  /\ NoDup (map hash (images this)).

(** Two Sprites that differ at most in the registry ([images] and the id
    counter). *)
Definition same_but_registry (this this' : Sprite) : Prop :=
  processedImages this' = processedImages this
  /\ canvasWidth this' = canvasWidth this
  /\ canvasHeight this' = canvasHeight this
  /\ padding this' = padding this
  /\ image_root this' = image_root this
  /\ output_file this' = output_file this
  /\ placeholder this' = placeholder this
  /\ output_format this' = output_format this
  /\ pngcrush this' = pngcrush this.

(** Two Sprites with the same settings. *)
Definition same_config (this this' : Sprite) : Prop :=
  padding this' = padding this
  /\ image_root this' = image_root this
  /\ output_file this' = output_file this
  /\ placeholder this' = placeholder this
  /\ output_format this' = output_format this
  /\ pngcrush this' = pngcrush this.

(** *** Records and signatures *)

(** Two records with the same properties. *)
Definition same_record (r1 r2 : object) : Prop :=
  forall k, JS.get k r1 = JS.get k r2.

(** Two results that agree: both throw, or both are records with the same
    properties. *)
Definition agree (a b : result object) : Prop :=
  match a, b with
  | Ok r1, Ok r2 => same_record r1 r2
  | Throw _, Throw _ => True
  | _, _ => False
  end.

(** The names a record can have as properties when every part of the
    option string names a schema key, in the order [sort] puts them. *)
Definition attribute_names : list string :=
  sort ("filename" :: map fst keys).

(** The properties every record has. *)
Definition default_names : list string :=
  "filename" :: keys_of defaults.

(** A record whose properties are the file name and schema attributes
    only. *)
Definition schema_only (r : object) : bool :=
  forallb (fun k => existsb (String.eqb k) attribute_names) (keys_of r).

(** The value of property [k] has the form [validate] gives it. *)
Definition typed_ok (k : string) (v : value) : bool :=
  match assoc k keys with
  | Some TNumber =>
      match v with
      | VNum n => negb (isNaN n) && double n
      | _ => false
      end
  | Some (TPredefined values) =>
      match v with
      | VStr s => existsb (String.eqb s) values
      | _ => false
      end
  | Some TBoolean =>
      match v with
      | VBool _ => true
      | _ => false
      end
  | None =>
      (k =? "filename")%string
      && match v with
         | VStr _ => true
         | _ => false
         end
  end.

(** A record as [merged] builds them: distinct keys, the default
    properties all present, and every value either in the form its schema
    entry prescribes or stored under a name inherited from
    [Object.prototype]. *)
Definition well_formed (r : object) : Prop :=
  NoDup (keys_of r)
  /\ (forall k, In k default_names -> In k (keys_of r))
  /\ (forall k v, JS.get k r = Some v ->
                  typed_ok k v = true \/ In k object_prototype).

(** Code-unit order on strings, strict. *)
Definition str_lt (a b : string) : Prop := String_as_OT.compare a b = Lt.

(** The items after the first, each behind its [;]. *)
Fixpoint tail_join (l : list string) : string :=
  match l with
  | [] => EmptyString
  | x :: l' => ";" ++ x ++ tail_join l'
  end.

Fixpoint has_char (c : ascii) (s : string) : bool :=
  match s with
  | EmptyString => false
  | String a s' => Ascii.eqb a c || has_char c s'
  end.

(** [pat] occurs somewhere in [s]. *)
Fixpoint occurs (pat s : string) : bool :=
  String.prefix pat s
  || match s with
     | EmptyString => false
     | String _ s' => occurs pat s'
     end.

(** *** Option strings *)

(** The keys named by the parts of an option string, empty parts left
    out. *)
Definition clause_keys (o : string) : list string :=
  filter (fun k => negb (k =? "")%string)
         (map (fun c => fst (clause c)) (split ";" o)).

(** No two parts of the list name the same key. *)
Definition keys_distinct (l : list string) : Prop :=
  NoDup (filter (fun k => negb (k =? "")%string)
                (map (fun c => fst (clause c)) l)).

Fixpoint blank (w : string) : bool :=
  match w with
  | EmptyString => true
  | String c w' => is_space c && blank w'
  end.

(** Two parts of an option string that differ only in white space around
    the key and around the value. *)
Inductive ws_variant : string -> string -> Prop :=
| ws_pair k v a b c d a' b' c' d' :
    blank a = true -> blank b = true -> blank c = true -> blank d = true ->
    blank a' = true -> blank b' = true -> blank c' = true ->
    blank d' = true ->
    has_char ":" k = false ->
    ws_variant (a ++ k ++ b ++ ":" ++ c ++ v ++ d)
               (a' ++ k ++ b' ++ ":" ++ c' ++ v ++ d')
| ws_bare k a b a' b' :
    blank a = true -> blank b = true ->
    blank a' = true -> blank b' = true ->
    has_char ":" k = false ->
    ws_variant (a ++ k ++ b) (a' ++ k ++ b').

(** *** Layout and drawing *)

Definition total (l : list Z) : Z := fold_right Z.add 0 l.

(** What holds of the accumulators while images are resolved. *)
Definition layout_ok (this : Sprite) : Prop :=
  canvasHeight this
  = total (map (fun d => Img.blockHeight d + padding this)
               (processedImages this))
  /\ Forall (fun d => Img.width d <= canvasWidth this) (processedImages this).

(** The copies the [repeat:x] loop is meant to make with [n] iterations
    left and the next copy due at [curX]: full copies [width] apart, the
    last one cut at [blockWidth]. *)
Fixpoint x_tiles (id width height blockWidth curY : Z) (n : nat) (curX : Z)
  : list draw :=
  match n with
  | O => []
  | S n' =>
      SpriteCopy id curX curY
                 (match n' with
                  | O => blockWidth - curX
                  | S _ => width
                  end)
                 height
      :: x_tiles id width height blockWidth curY n' (curX + width)
  end.

Definition copy_width (d : draw) : Z :=
  match d with
  | SpriteCopy _ _ _ w _ => w
  | _ => 0
  end.

(** The first column to the right of a copy. *)
Definition copy_right (d : draw) : Z :=
  match d with
  | SpriteCopy _ x _ w _ => x + w
  | _ => 0
  end.

(** *** Callbacks and replacements *)

Definition is_error (e : event) : bool :=
  match e with
  | CallbackError _ => true
  | _ => false
  end.

(** The callback [build] makes first when it is handed an error. *)
Definition error_event (err : option string) : list event :=
  match err with
  | Some message => [CallbackError message]
  | None => []
  end.

(** The text after a list of replacements, first to last. *)
Definition replace_each (l : list (string * string)) (s : string) : string :=
  fold_left (fun s pr => replace_all (fst pr) (snd pr) s) l s.

(** A replacement as [makeMap] makes them. *)
Definition position_text (rep : string) : Prop :=
  has_char "'" rep = false /\ has_char " " rep = true.

(** *** Parts of option strings and numerals *)

(** A part of an option string with nothing but white space before its
    first colon, or altogether. *)
Definition keyless (opts : string) : bool := blank (hd "" (split ":" opts)).

Definition is_digit (c : ascii) : bool :=
  match digit_val c with
  | Some _ => true
  | None => false
  end.

Fixpoint all_digits (s : string) : bool :=
  match s with
  | EmptyString => true
  | String c s' => is_digit c && all_digits s'
  end.

(** A value as JavaScript has them: its number, if it is one, is a
    binary64 value. *)
Definition proper (v : value) : bool :=
  match v with
  | VNum n => double n
  | _ => true
  end.

(** A finite number above 0. *)
Definition positive_finite (v : num) : bool :=
  match v with
  | Int z => 0 <? z
  | Frac b _ _ => negb b
  | _ => false
  end.

(** [n / d < 2^x] *)
Definition below (n d x : Z) : Prop :=
  n * 2 ^ Z.max 0 (- x) < d * 2 ^ Z.max 0 x.

(** The number a string of digits writes after the digits of [acc]. *)
Fixpoint dec (acc : Z) (a : string) : Z :=
  match a with
  | EmptyString => acc
  | String c a' =>
      dec (10 * acc + match digit_val c with Some d => d | None => 0 end) a'
  end.

Definition starts_digit (s : string) : bool :=
  match s with
  | EmptyString => false
  | String c _ => is_digit c
  end.

Fixpoint no_space (s : string) : bool :=
  match s with
  | EmptyString => true
  | String c s' => negb (is_space c) && no_space s'
  end.

Definition len (s : string) : Z := Z.of_nat (String.length s).

(** The exponent part [layout] writes. *)
Definition exponent (e : Z) : string :=
  (if 0 <=? e then "e+" else "e-") ++ Z_to_string (Z.abs e).

(** A string that does not go on with the [x] of a literal in base 16. *)
Definition not_hex (r : string) : Prop :=
  forall r', r <> String "x" r' /\ r <> String "X" r'.

(** A numeral as [layout] writes them: it begins with a digit, has no
    white space in it and is not taken for a literal in base 16. *)
Definition numeral_shape (t : string) : Prop :=
  no_space t = true
  /\ exists c r, t = String c r /\ is_digit c = true /\ not_hex r.

(** *** The loop of [makeMap] *)

(** [currentImageData.blockWidth] after the first statement of the loop of
    [makeMap]. *)
Definition resolved_blockWidth (this : Sprite) (d : Img.t) : option Z :=
  if loose_eq_str (Img.blockWidth d) "100%" then Some (canvasWidth this)
  else number_of (Img.blockWidth d).

(** [curX] after the [switch] on [align] in [makeMap]. *)
Definition aligned_x (this : Sprite) (d : Img.t) : Z :=
  if (Img.align d =? "center")%string
  then round_half_diff (canvasWidth this) (Img.width d)
  else if (Img.align d =? "right")%string
       then canvasWidth this - Img.width d
       else 0.

(** [posX] and [posY] in [makeMap]. *)
Definition posX (d : Img.t) : Z :=
  if Img.width d >? Img.imageWidth d
  then round_half_diff (Img.width d) (Img.imageWidth d) else 0.

Definition posY (d : Img.t) : Z :=
  if Img.height d >? Img.imageHeight d then
    if (Img.valign d =? "top")%string then 0
    else if (Img.valign d =? "bottom")%string
         then Img.height d - Img.imageHeight d
         else round_half_diff (Img.height d) (Img.imageHeight d)
  else 0.

(** The call that puts the image file into its block. *)
Definition block_draw (d : Img.t) : draw :=
  if Img.resize d
  then BlockResampled (Img._img_id d) (Img.width d) (Img.height d)
                      (Img.imageWidth d) (Img.imageHeight d)
  else BlockCopy (Img._img_id d) (posX d) (posY d)
                 (Img.imageWidth d) (Img.imageHeight d).

(** A copy of image [id] onto the sprite that stays within the columns
    [0 .. width) and the rows [top .. bottom). *)
Definition within (id width top bottom : Z) (t : draw) : Prop :=
  match t with
  | SpriteCopy i x y w h =>
      i = id /\ 0 <= x /\ x + w <= width /\ top <= y /\ y + h <= bottom
  | _ => True
  end.

(** A copy onto the sprite that begins on the canvas and does not reach
    beyond [width] x [height]; whether it has a size is [has_size]. *)
Definition inside (width height : Z) (t : draw) : Prop :=
  match t with
  | SpriteCopy _ x y w h => 0 <= x /\ x + w <= width /\ 0 <= y /\ y + h <= height
  | _ => True
  end.

(** A copy onto the sprite of a rectangle: no negative width or height. *)
Definition has_size (t : draw) : Prop :=
  match t with
  | SpriteCopy _ _ _ w h => 0 <= w /\ 0 <= h
  | _ => True
  end.

(** A copy onto the sprite of a rectangle that lies within
    [width] x [height]. *)
Definition on_canvas (width height : Z) (t : draw) : Prop :=
  match t with
  | SpriteCopy _ x y w h =>
      0 <= x /\ 0 <= w /\ x + w <= width /\ 0 <= y /\ 0 <= h /\ y + h <= height
  | _ => True
  end.

(** Two copies onto the sprite of different images, the second at least
    [padding] rows below the first. *)
Definition apart (padding : Z) (a b : draw) : Prop :=
  match a, b with
  | SpriteCopy i _ y _ h, SpriteCopy j _ y' _ _ => i <> j -> y + h + padding <= y'
  | _, _ => True
  end.

(** An image of which [makeMap] makes at least one copy onto the sprite:
    one that is not repeated, or a repeated one whose block has room. *)
Definition copied (d : Img.t) : Prop :=
  Img.repeat d = "no"
  \/ (Img.repeat d = "x"
      /\ exists bw, Img.blockWidth d = VNum (Int bw) /\ 0 < bw)
  \/ (Img.repeat d = "y" /\ 0 < Img.blockHeight d).

(** The copies the [repeat:y] loop is meant to make with [n] iterations
    left and the next copy due at [curY]: full copies [height] apart, the
    last one cut at [bottom]. *)
Fixpoint y_tiles (id width height bottom curX : Z) (n : nat) (curY : Z)
  : list draw :=
  match n with
  | O => []
  | S n' =>
      SpriteCopy id curX curY width
                 (match n' with
                  | O => bottom - curY
                  | S _ => height
                  end)
      :: y_tiles id width height bottom curX n' (curY + height)
  end.

Definition copy_height (d : draw) : Z :=
  match d with
  | SpriteCopy _ _ _ _ h => h
  | _ => 0
  end.

(** *** What [build] keeps on its way to [makeMap] *)

(** What [processImage] has made sure of for a processed image: the canvas
    is as wide as its width and as its block width when that is a number,
    and its block is as high as its height. *)
Definition fits (this : Sprite) (d : Img.t) : Prop :=
  Img.width d <= canvasWidth this
  /\ (forall bw, Img.blockWidth d = VNum (Int bw) -> bw <= canvasWidth this)
  /\ Img.height d <= Img.blockHeight d.

(** What holds of the accumulators and the processed images while [build]
    works through the pending records of a Sprite with the padding of the
    constructor. *)
Definition resolution_ok (this : Sprite) : Prop :=
  layout_ok this
  /\ Forall (fits this) (processedImages this)
  /\ padding this = 10.

(** What holds of the copies made so far when the loop of [makeMap] has
    come down to row [curY]. *)
Definition drawing_ok (this : Sprite) (c : cursor) : Prop :=
  0 <= curY c
  /\ Forall (inside (canvasWidth this) (curY c - padding this)) (drawn c)
  /\ StronglySorted (apart (padding this)) (drawn c).

(** The width an image needs of the canvas: its width, and for
    [repeat:x] with a limit other than 0 that limit as well. *)
Definition needed_width (d : Img.t) : Z :=
  if (Img.repeat d =? "x")%string && negb (Img.limit_repeat_x d =? 0)
  then Z.max (Img.limit_repeat_x d) (Img.width d)
  else Img.width d.

Definition widest (l : list Img.t) : Z :=
  fold_right Z.max 0 (map needed_width l).

(** A record whose numbers are all integers. *)
Definition finite (o : object) : Prop :=
  forall k n, JS.get k o = Some (VNum n) -> exists z, n = Int z.

(** A processed image the loops of [makeMap] come to an end on: positive
    sizes, a block as high as the image, and a block width that is a
    number or [100%]. *)
Definition drawable (d : Img.t) : Prop :=
  0 < Img.width d /\ 0 < Img.height d <= Img.blockHeight d
  /\ (Img.blockWidth d = VStr "100%" \/ exists bw, Img.blockWidth d = VNum (Int bw)).

(** *** Style sheets *)

(** A style sheet as Stylus hands it to [build]: text, then references to
    images, each followed by text. *)
Record sheet : Type := { lead : string; refs : list (Z * string) }.

Fixpoint write_refs (f : Z -> string) (l : list (Z * string)) : string :=
  match l with
  | [] => EmptyString
  | (id, s) :: l' => f id ++ s ++ write_refs f l'
  end.

(** The text of a sheet in which the reference to image [id] is written
    [f id]. *)
Definition write (f : Z -> string) (s : sheet) : string :=
  lead s ++ write_refs f (refs s).

(** The first text listed for [id], and the quoted token of [id] when none
    is. *)
Fixpoint position_of (prefix : string) (reps : list (Z * string)) (id : Z)
  : string :=
  match reps with
  | [] => quoted_token prefix id
  | (i, rep) :: reps' => if i =? id then rep else position_of prefix reps' id
  end.

(** Texts after references: no quote in them, and none is the bare token
    of an image. *)
Definition plain_refs (prefix : string) (l : list (Z * string)) : Prop :=
  Forall (fun r => has_char "'" (snd r) = false
                   /\ forall id, snd r <> token prefix id) l.

Definition plain_sheet (prefix : string) (s : sheet) : Prop :=
  has_char "'" (lead s) = false /\ plain_refs prefix (refs s).

(** *** Opening the files *)

Definition is_done (e : event) : bool :=
  match e with
  | CallbackDone _ => true
  | _ => false
  end.

Definition is_save (e : event) : bool :=
  match e with
  | SaveImage _ _ _ _ _ => true
  | _ => false
  end.

Section Opening.

Variable path_join : string -> string -> string.
Variable gd_open : string -> string -> opened.

(** The message [build] is handed when the file of [imgdata] does not
    open. *)
Definition open_failure (root : string) (imgdata : entry) : option string :=
  match str_attr "filename" (attrs imgdata) with
  | Some filename =>
      match openImage gd_open (path_join root filename) with
      | Ok (OpenError message) =>
          Some match message with
               | EmptyString => message
               | _ => message ++ "; CSS line nr #"
                        ++ Z_to_string (entry_lineno imgdata)
               end
      | _ => None
      end
  | None => None
  end.

Definition open_failures (root : string) (l : list entry) : list string :=
  flat_map (fun e => match open_failure root e with
                     | Some message => [message]
                     | None => []
                     end) l.

Definition opens (root : string) (e : entry) : bool :=
  match open_failure root e with
  | Some _ => false
  | None => true
  end.

(** The file of [imgdata] has a name [openImage] does not take. *)
Definition unknown_type (root : string) (imgdata : entry) : Prop :=
  exists filename,
    str_attr "filename" (attrs imgdata) = Some filename
    /\ openImage gd_open (path_join root filename) = Throw "Unknown file type".

(** A pending record with integers for numbers and no negative size,
    whose file opens as an image of positive size or does not open. *)
Definition resolvable (root : string) (e : entry) : Prop :=
  finite (attrs e)
  /\ (forall z, int_attr "width" (attrs e) = Some z -> 0 <= z)
  /\ (forall z, int_attr "height" (attrs e) = Some z -> 0 <= z)
  /\ forall filename,
       str_attr "filename" (attrs e) = Some filename ->
       match openImage gd_open (path_join root filename) with
       | Ok (Image w h) => 0 < w /\ 0 < h
       | Ok (OpenError _) => True
       | Throw _ => False
       end.

End Opening.

(** *** A world to run the code in *)

(** A small world to run the code in: two image files, [a.png] of 20x20
    and [b.png] of 10x10, and nothing else. *)
Module Example.

Definition path_join (root file : string) : string :=
  match root with
  | EmptyString => file
  | _ => root ++ "/" ++ file
  end.

Definition gd_open (func image : string) : opened :=
  if (image =? "a.png")%string then Image 20 20
  else if (image =? "b.png")%string then Image 10 10
  else OpenError ("ENOENT, no such file or directory '" ++ image ++ "'").

(** [new Sprite()] *)
Definition sprite : Sprite :=
  {| images := [];
     processedImages := [];
     _img_id := 0;
     canvasWidth := 0;
     canvasHeight := 0;
     padding := 10;
     image_root := "";
     output_file := "sprite.png";
     placeholder := "SPRITE_PLACEHOLDER";
     output_format := "png";
     pngcrush := None |}.

Definition file (name : string) : node :=
  {| val := name; node_lineno := 1 |}.

(** The Sprite after a list of calls of [spritefunc], with the tokens
    they returned. *)
Fixpoint calls (this : Sprite) (l : list (string * option string))
  : result (list string * Sprite) :=
  match l with
  | [] => Ok ([], this)
  | (name, options) :: l' =>
      r <- spritefunc this (file name) options ;;
      r' <- calls (snd r) l' ;;
      Ok (fst r :: fst r', snd r')
  end.

Definition after (l : list (string * option string)) : Sprite :=
  match calls sprite l with
  | Ok (_, this) => this
  | Throw _ => sprite
  end.

(** A 20x20 image asked for with [repeat:x; width:7], as [processImage]
    leaves it. *)
Definition stripe : Img.t :=
  {| Img._img_id := 1;
     Img.lineno := 1;
     Img.filename := "a.png";
     Img.width := 7;
     Img.height := 20;
     Img.align := "block";
     Img.valign := "block";
     Img.resize := false;
     Img.repeat := "x";
     Img.limit_repeat_x := 0;
     Img.limit_repeat_y := 300;
     Img.totalwidth := None;
     Img.totalheight := None;
     Img.padwidth := None;
     Img.padheight := None;
     Img.imageWidth := 20;
     Img.imageHeight := 20;
     Img.blockWidth := VStr "100%";
     Img.blockHeight := 20 |}.

(** The variables of [makeMap] before its loop. *)
Definition start (css : string) : cursor :=
  {| text := css; curY := 0; drawn := []; placed := []; replaced := [] |}.

(** Options that name an output file in capitals and a [pngcrush]
    command. *)

(** The 10x10 image asked for with [align:right; height:40], as
    [processImage] leaves it. *)
Definition tall : Img.t :=
  {| Img._img_id := 2;
     Img.lineno := 1;
     Img.filename := "b.png";
     Img.width := 10;
     Img.height := 40;
     Img.align := "right";
     Img.valign := "block";
     Img.resize := false;
     Img.repeat := "no";
     Img.limit_repeat_x := 0;
     Img.limit_repeat_y := 300;
     Img.totalwidth := None;
     Img.totalheight := None;
     Img.padwidth := None;
     Img.padheight := None;
     Img.imageWidth := 10;
     Img.imageHeight := 10;
     Img.blockWidth := VStr "100%";
     Img.blockHeight := 40 |}.

(** The same image asked for with [repeat:y; height:40;
    limit-repeat-y:95]. *)
Definition column : Img.t :=
  {| Img._img_id := 2;
     Img.lineno := 1;
     Img.filename := "b.png";
     Img.width := 10;
     Img.height := 40;
     Img.align := "block";
     Img.valign := "block";
     Img.resize := false;
     Img.repeat := "y";
     Img.limit_repeat_x := 0;
     Img.limit_repeat_y := 95;
     Img.totalwidth := None;
     Img.totalheight := None;
     Img.padwidth := None;
     Img.padheight := None;
     Img.imageWidth := 10;
     Img.imageHeight := 10;
     Img.blockWidth := VStr "100%";
     Img.blockHeight := 95 |}.

(** The same image asked for with [repeat:y; height:-5]. *)
Definition sunken : Img.t :=
  {| Img._img_id := 2;
     Img.lineno := 1;
     Img.filename := "b.png";
     Img.width := 10;
     Img.height := -5;
     Img.align := "block";
     Img.valign := "block";
     Img.resize := false;
     Img.repeat := "y";
     Img.limit_repeat_x := 0;
     Img.limit_repeat_y := 300;
     Img.totalwidth := None;
     Img.totalheight := None;
     Img.padwidth := None;
     Img.padheight := None;
     Img.imageWidth := 10;
     Img.imageHeight := 10;
     Img.blockWidth := VStr "100%";
     Img.blockHeight := 300 |}.

(** The same image asked for with [totalwidth:25; totalheight:16;
    padwidth:2]. *)
Definition framed : Img.t :=
  {| Img._img_id := 2;
     Img.lineno := 1;
     Img.filename := "b.png";
     Img.width := 10;
     Img.height := 10;
     Img.align := "block";
     Img.valign := "block";
     Img.resize := false;
     Img.repeat := "no";
     Img.limit_repeat_x := 0;
     Img.limit_repeat_y := 300;
     Img.totalwidth := Some 25;
     Img.totalheight := Some 16;
     Img.padwidth := Some 2;
     Img.padheight := None;
     Img.imageWidth := 10;
     Img.imageHeight := 10;
     Img.blockWidth := VStr "100%";
     Img.blockHeight := 10 |}.

(** A style sheet with references to the images 1 and 2. *)
Definition two_rules : sheet :=
  {| lead := "a{background:";
     refs := [(1, "} b{background:"); (2, "}")] |}.

End Example.

(* ===================================================================== *)
(** * Properties *)
(* ===================================================================== *)

Lemma new_Sprite_default : new_Sprite no_options = Ok Example.sprite.
Proof. reflexivity. Qed.

Lemma registered_new : registered Example.sprite.
Proof.
  exists no_options, Example.sprite. split; [reflexivity | constructor].
Qed.

(** ** Strings *)

Lemma append_nil_r s : s ++ "" = s.
Proof. induction s; simpl; congruence. Qed.

Lemma append_assoc s1 s2 s3 : (s1 ++ s2) ++ s3 = s1 ++ (s2 ++ s3).
Proof. induction s1; simpl; congruence. Qed.

Lemma length_append s1 s2 :
  String.length (s1 ++ s2) = (String.length s1 + String.length s2)%nat.
Proof. induction s1; simpl; congruence. Qed.

Lemma append_inv_head s a b : s ++ a = s ++ b -> a = b.
Proof. induction s; simpl; intros H; [exact H | injection H; auto]. Qed.

Lemma append_inv_tail t : forall s1 s2, s1 ++ t = s2 ++ t -> s1 = s2.
Proof.
  induction s1 as [| c s1 IH]; intros [| c' s2] H; simpl in H.
  - reflexivity.
  - apply (f_equal String.length) in H. simpl in H.
    rewrite length_append in H. lia.
  - apply (f_equal String.length) in H. simpl in H.
    rewrite length_append in H. lia.
  - injection H as -> H. f_equal. auto.
Qed.

Lemma has_char_app c s1 s2 :
  has_char c (s1 ++ s2) = has_char c s1 || has_char c s2.
Proof.
  induction s1 as [| a s1 IH]; simpl; [reflexivity |].
  rewrite IH, orb_assoc. reflexivity.
Qed.

Lemma has_char_uint c u :
  has_char c "0123456789" = false ->
  has_char c (NilEmpty.string_of_uint u) = false.
Proof.
  intros H. simpl in H.
  repeat match type of H with
         | (_ || _)%bool = false =>
             apply orb_false_iff in H; let H1 := fresh "Hd" in
                                       destruct H as [H1 H]
         end.
  induction u; simpl; rewrite ?IHu; rewrite ?orb_false_r; auto.
Qed.

Lemma has_char_Z_to_string c z :
  has_char c "-0123456789" = false ->
  has_char c (Z_to_string z) = false.
Proof.
  intros H. simpl in H. apply orb_false_iff in H. destruct H as [Hm Hd].
  unfold Z_to_string, NilEmpty.string_of_int.
  destruct (Z.to_int z); simpl; rewrite ?Hm;
    apply has_char_uint; exact Hd.
Qed.

Lemma prefix_cons a s b t :
  String.prefix (String a s) (String b t) = true <->
  a = b /\ String.prefix s t = true.
Proof.
  simpl. destruct (ascii_dec a b) as [-> | Hne].
  - tauto.
  - split; [discriminate | intros [? _]; contradiction].
Qed.

Lemma Z_to_string_inj a b : Z_to_string a = Z_to_string b -> a = b.
Proof.
  unfold Z_to_string. intros H.
  assert (Hi : Z.to_int a = Z.to_int b).
  { pose proof (NilEmpty.isi (Z.to_int a)) as Ha.
    pose proof (NilEmpty.isi (Z.to_int b)) as Hb.
    rewrite H in Ha. rewrite Ha in Hb. injection Hb. auto. }
  rewrite <- (DecimalZ.of_to a), <- (DecimalZ.of_to b), Hi. reflexivity.
Qed.

Lemma token_inj p a b : token p a = token p b -> a = b.
Proof.
  unfold token. intros H.
  apply append_inv_head in H. simpl in H. injection H as H.
  apply append_inv_tail in H. apply Z_to_string_inj. exact H.
Qed.

(** ** Numbers *)

Lemma num_eqb_eq a b : num_eqb a b = true -> a = b.
Proof.
  destruct a as [|x|x|x m e], b as [|y|y|y m' e']; simpl; try discriminate.
  - intros H. apply Bool.eqb_prop in H. congruence.
  - intros H. apply Z.eqb_eq in H. congruence.
  - intros H. apply andb_true_iff in H. destruct H as [H He].
    apply andb_true_iff in H. destruct H as [Hb Hm].
    apply Bool.eqb_prop in Hb. apply Pos.eqb_eq in Hm, He. congruence.
Qed.

Lemma negate_involutive n : negate (negate n) = n.
Proof.
  destruct n as [|b|z|b m e]; simpl; rewrite ?negb_involutive, ?Z.opp_involutive;
    reflexivity.
Qed.

Lemma double_negate n : double (negate n) = double n.
Proof.
  destruct n as [|b|z|b m e]; simpl; rewrite ?Z.abs_opp; reflexivity.
Qed.

(** *** The binary64 values *)

(** Integers up to [2^53] are binary64 values. *)
Lemma double_small z : Z.abs z <= 2 ^ 53 -> double (Int z) = true.
Proof.
  intros H. cbn [double]. apply andb_true_iff. split.
  - apply Z.ltb_lt. eapply Z.le_lt_trans; [exact H |].
    apply Z.pow_lt_mono_r; lia.
  - apply Z.eqb_eq.
    destruct (Z.le_gt_cases (Z.log2 (Z.abs z)) 52) as [Hl | Hl].
    + replace (Z.max 0 (Z.log2 (Z.abs z) - 52)) with 0 by lia.
      apply Z.mod_1_r.
    + assert (H0 : 0 < Z.abs z).
      { destruct (Z.le_gt_cases (Z.abs z) 0) as [H0 | H0]; [| exact H0].
        rewrite Z.log2_nonpos in Hl by exact H0. lia. }
      assert (H53 : 2 ^ 53 <= Z.abs z).
      { apply Z.log2_le_pow2; lia. }
      assert (E : Z.abs z = 2 ^ 53) by lia.
      rewrite E. vm_compute. reflexivity.
Qed.

Lemma halve_double e : forall m,
  Z.pos m <= 2 ^ 53 -> Z.of_nat e <= 1074 -> double (halve m e) = true.
Proof.
  induction e as [| e IH]; intros m Hm He.
  - cbn [halve]. apply double_small. lia.
  - change (2 ^ 53) with 9007199254740992 in Hm.
    assert (Hpos : (Z.pos (Pos.of_nat (S e)) <=? 1074) = true).
    { apply Z.leb_le. rewrite <- Pos.of_nat_succ, Zpos_P_of_succ_nat. lia. }
    destruct m as [m | m | ]; cbn [halve].
    + cbn [double]. rewrite Hpos.
      change (2 ^ 53) with 9007199254740992.
      cbn [Z.even negb andb]. rewrite Pos2Z.inj_xI in *. lia.
    + apply IH; [| lia]. change (2 ^ 53) with 9007199254740992. lia.
    + cbn [double]. rewrite Hpos. reflexivity.
Qed.

Lemma shiftl_nat_pos m k :
  Z.pos (Pos.shiftl_nat m k) = Z.pos m * 2 ^ Z.of_nat k.
Proof.
  induction k as [| k IH].
  - simpl. lia.
  - change (Pos.shiftl_nat m (S k)) with (xO (Pos.shiftl_nat m k)).
    rewrite Pos2Z.inj_xO, IH, Nat2Z.inj_succ, Z.pow_succ_r by lia. lia.
Qed.

Lemma halve_shift k : forall m j,
  halve (Pos.shiftl_nat m k) (k + j) = halve m j.
Proof.
  induction k as [| k IH]; intros m j; [reflexivity |].
  change (Pos.shiftl_nat m (S k)) with (xO (Pos.shiftl_nat m k)).
  cbn [Nat.add halve]. apply IH.
Qed.

Lemma halve_scaled a k j :
  0 < a -> 0 <= k -> 0 <= j ->
  halve (Z.to_pos (a * 2 ^ k)) (Z.to_nat (k + j)) = halve (Z.to_pos a) (Z.to_nat j).
Proof.
  intros Ha Hk Hj.
  rewrite Z2Nat.inj_add by lia.
  rewrite <- (halve_shift (Z.to_nat k) (Z.to_pos a) (Z.to_nat j)).
  f_equal. apply Pos2Z.inj.
  assert (0 < a * 2 ^ k)
    by (apply Z.mul_pos_pos; [lia |]; apply Z.pow_pos_nonneg; lia).
  rewrite shiftl_nat_pos, !Z2Pos.id, Z2Nat.id; lia.
Qed.

Lemma halve_odd m e :
  Z.even (Z.pos m) = false -> halve m (Pos.to_nat e) = Frac false m e.
Proof.
  intros Hodd. destruct (Pos2Nat.is_succ e) as (n & Hn). rewrite Hn.
  destruct m as [m | m |]; cbn [halve]; try (rewrite <- Hn, Pos2Nat.id; reflexivity).
  rewrite Pos2Z.inj_xO, Z.even_mul in Hodd. discriminate Hodd.
Qed.

(** *** Rounding to 53 bits *)

Lemma below_mono n d x y :
  0 < n -> 0 < d -> below n d x -> x <= y -> below n d y.
Proof.
  unfold below. intros Hn Hd H Hxy.
  assert (P : forall a b, 0 <= a -> 0 <= b -> 2 ^ (a + b) = 2 ^ a * 2 ^ b)
    by (intros; apply Z.pow_add_r; lia).
  assert (Q : forall a, 0 <= a -> 0 < 2 ^ a)
    by (intros; apply Z.pow_pos_nonneg; lia).
  destruct (Z.le_gt_cases 0 x) as [Hx | Hx].
  - replace (Z.max 0 (- x)) with 0 in H by lia.
    replace (Z.max 0 x) with x in H by lia.
    replace (Z.max 0 (- y)) with 0 by lia.
    replace (Z.max 0 y) with (x + (y - x)) by lia.
    rewrite P by lia. pose proof (Q x Hx). pose proof (Q (y - x)). 
    rewrite Z.pow_0_r in *. nia.
  - replace (Z.max 0 (- x)) with (- x) in H by lia.
    replace (Z.max 0 x) with 0 in H by lia.
    rewrite Z.pow_0_r in H.
    destruct (Z.le_gt_cases 0 y) as [Hy | Hy].
    + replace (Z.max 0 (- y)) with 0 by lia.
      replace (Z.max 0 y) with y by lia.
      pose proof (Q (- x)). pose proof (Q y Hy). rewrite Z.pow_0_r. nia.
    + replace (Z.max 0 (- y)) with (- y) by lia.
      replace (Z.max 0 y) with 0 by lia. rewrite Z.pow_0_r.
      replace (- x) with (- y + (y - x)) in H by lia.
      rewrite P in H by lia. pose proof (Q (- y)). pose proof (Q (y - x)). nia.
Qed.

Lemma floor_log2_below n d :
  0 < n -> 0 < d -> below n d (floor_log2 n d + 1).
Proof.
  intros Hn Hd. unfold floor_log2, below.
  assert (P : forall a b, 0 <= a -> 0 <= b -> 2 ^ (a + b) = 2 ^ a * 2 ^ b)
    by (intros; apply Z.pow_add_r; lia).
  assert (Q : forall a, 0 <= a -> 0 < 2 ^ a)
    by (intros; apply Z.pow_pos_nonneg; lia).
  pose proof (Z.log2_nonneg n) as Hln. pose proof (Z.log2_nonneg d) as Hld.
  destruct (Z.log2_spec n Hn) as [_ Hnu]. destruct (Z.log2_spec d Hd) as [Hdl _].
  rewrite <- Z.add_1_r in Hnu.
  set (ln := Z.log2 n) in *. set (ld := Z.log2 d) in *.
  set (l := ln - ld).
  destruct (Z.le_gt_cases 0 l) as [Hl | Hl].
  - replace (0 <=? l) with true by lia.
    destruct (n <? d * 2 ^ l) eqn:T.
    + replace (l - 1 + 1) with l by lia.
      replace (Z.max 0 (- l)) with 0 by lia. replace (Z.max 0 l) with l by lia.
      rewrite Z.pow_0_r. lia.
    + replace (Z.max 0 (- (l + 1))) with 0 by lia.
      replace (Z.max 0 (l + 1)) with (l + 1) by lia. rewrite Z.pow_0_r.
      replace (ln + 1) with (ld + (l + 1)) in Hnu by lia.
      rewrite P in Hnu by lia. pose proof (Q (l + 1)). nia.
  - replace (0 <=? l) with false by lia.
    destruct (n * 2 ^ (- l) <? d) eqn:T.
    + replace (l - 1 + 1) with l by lia.
      replace (Z.max 0 (- l)) with (- l) by lia. replace (Z.max 0 l) with 0 by lia.
      rewrite Z.pow_0_r. lia.
    + destruct (Z.eq_dec l (-1)) as [E | E].
      * replace (l + 1) with 0 by lia. cbn [Z.opp Z.max Z.compare].
        rewrite Z.pow_0_r. replace (ln + 1) with ld in Hnu by lia. lia.
      * replace (Z.max 0 (- (l + 1))) with (- (l + 1)) by lia.
        replace (Z.max 0 (l + 1)) with 0 by lia. rewrite Z.pow_0_r.
        replace ld with ((ln + 1) + (- (l + 1))) in Hdl by lia.
        rewrite P in Hdl by lia. pose proof (Q (- (l + 1))). nia.
Qed.

Lemma nearest_even_bounds a b K :
  0 <= a -> 0 < b -> a < b * K -> 0 <= nearest_even a b <= K.
Proof.
  intros Ha Hb H. unfold nearest_even.
  assert (0 <= a / b) by (apply Z.div_pos; lia).
  assert (a / b < K) by (apply Z.div_lt_upper_bound; lia).
  destruct (2 * (a mod b) <? b); [lia |].
  destruct (b <? 2 * (a mod b)); [lia |].
  destruct (Z.even (a / b)); lia.
Qed.

Lemma nearest_even_exact q b : 0 < b -> nearest_even (q * b) b = q.
Proof.
  intros Hb. unfold nearest_even.
  rewrite Z.mod_mul, Z.div_mul by lia.
  replace (2 * 0 <? b) with true by lia. reflexivity.
Qed.

Lemma dyadic_double q e :
  0 <= q <= 2 ^ 53 -> -1074 <= e <= 971 -> (e = 971 -> q <> 2 ^ 53) ->
  double (dyadic q e) = true.
Proof.
  intros Hq He Hov. unfold dyadic.
  destruct (q <=? 0) eqn:Q0; [reflexivity |].
  destruct (0 <=? e) eqn:E0.
  - assert (Hpe : 0 < 2 ^ e) by (apply Z.pow_pos_nonneg; lia).
    cbn [double]. rewrite Z.abs_eq by nia.
    apply andb_true_iff. split.
    + apply Z.ltb_lt.
      destruct (Z.eq_dec e 971) as [-> | Hne].
      * specialize (Hov eq_refl).
        replace (2 ^ 1024) with (2 ^ 53 * 2 ^ 971)
          by (rewrite <- Z.pow_add_r by lia; reflexivity).
        nia.
      * assert (2 ^ e <= 2 ^ 970) by (apply Z.pow_le_mono_r; lia).
        replace (2 ^ 1024) with (2 * (2 ^ 53 * 2 ^ 970))
          by (rewrite <- Z.pow_add_r, <- Z.pow_succ_r by lia; reflexivity).
        assert (0 < 2 ^ 53) by (apply Z.pow_pos_nonneg; lia). nia.
    + apply Z.eqb_eq.
      assert (Hlog : Z.log2 (q * 2 ^ e) = Z.log2 q + e).
      { rewrite <- Z.shiftl_mul_pow2 by lia. apply Z.log2_shiftl; lia. }
      rewrite Hlog.
      destruct (Z.le_gt_cases (Z.log2 q) 52) as [Hl | Hl].
      * destruct (Z.le_gt_cases (Z.log2 q + e - 52) 0) as [Hs | Hs].
        { replace (Z.max 0 (Z.log2 q + e - 52)) with 0 by lia. apply Z.mod_1_r. }
        replace (Z.max 0 (Z.log2 q + e - 52)) with (Z.log2 q + e - 52) by lia.
        replace e with ((e - (Z.log2 q + e - 52)) + (Z.log2 q + e - 52)) at 1 by lia.
        rewrite Z.pow_add_r by lia. rewrite Z.mul_assoc. apply Z.mod_mul.
        apply Z.pow_nonzero; lia.
      * assert (2 ^ 53 <= q) by (apply Z.log2_le_pow2; lia).
        assert (Eq : q = 2 ^ 53) by lia. rewrite Eq.
        change (Z.log2 (2 ^ 53)) with 53.
        replace (Z.max 0 (53 + e - 52)) with (e + 1) by lia.
        replace (2 ^ 53 * 2 ^ e) with (2 ^ 52 * 2 ^ (e + 1)).
        { apply Z.mod_mul. apply Z.pow_nonzero; lia. }
        rewrite !(Z.pow_add_r 2 e 1) by lia. 
        change (2 ^ 53) with (2 ^ 52 * 2 ^ 1). lia.
  - apply halve_double; [rewrite Z2Pos.id by lia; lia | lia].
Qed.

Lemma to_double_double n d :
  0 < n -> 0 < d -> double (to_double n d) = true.
Proof.
  intros Hn Hd. unfold to_double.
  set (e := Z.max (floor_log2 n d - 52) (-1074)).
  set (q := if 0 <=? e then nearest_even n (d * 2 ^ e)
            else nearest_even (n * 2 ^ (- e)) d).
  destruct ((971 <? e) || ((e =? 971) && (q =? 2 ^ 53))) eqn:Ov; [reflexivity |].
  assert (Hb : below n d (e + 53)).
  { apply (below_mono n d (floor_log2 n d + 1)); try assumption; [| lia].
    apply floor_log2_below; assumption. }
  assert (Hq : 0 <= q <= 2 ^ 53).
  { unfold q, below in *.
    assert (Q : forall a, 0 <= a -> 0 < 2 ^ a)
      by (intros; apply Z.pow_pos_nonneg; lia).
    destruct (0 <=? e) eqn:E0.
    - apply nearest_even_bounds; [lia | pose proof (Q e); nia |].
      replace (Z.max 0 (- (e + 53))) with 0 in Hb by lia.
      replace (Z.max 0 (e + 53)) with (e + 53) in Hb by lia.
      rewrite Z.pow_add_r in Hb by lia. rewrite Z.pow_0_r in Hb. lia.
    - apply nearest_even_bounds; [pose proof (Q (- e)); nia | lia |].
      destruct (Z.le_gt_cases 0 (e + 53)) as [H53 | H53].
      + replace (Z.max 0 (- (e + 53))) with 0 in Hb by lia.
        replace (Z.max 0 (e + 53)) with (e + 53) in Hb by lia.
        rewrite Z.pow_0_r in Hb.
        replace (2 ^ 53) with (2 ^ (e + 53) * 2 ^ (- e))
          by (rewrite <- Z.pow_add_r by lia; f_equal; lia).
        pose proof (Q (- e)). nia.
      + replace (Z.max 0 (- (e + 53))) with (- (e + 53)) in Hb by lia.
        replace (Z.max 0 (e + 53)) with 0 in Hb by lia.
        rewrite Z.pow_0_r in Hb.
        replace (- e) with (- (e + 53) + 53) by lia.
        rewrite Z.pow_add_r by lia.
        assert (0 < 2 ^ 53) by (apply Q; lia). nia. }
  apply dyadic_double; [exact Hq | lia |].
  intros E1 E2. rewrite E1, E2 in Ov. 
  rewrite Z.eqb_refl, Z.eqb_refl in Ov. rewrite orb_true_r in Ov. discriminate.
Qed.

Lemma decimal_double c p : double (decimal c p) = true.
Proof.
  unfold decimal. destruct (c <=? 0) eqn:C; [reflexivity |].
  destruct (0 <=? p) eqn:P; apply to_double_double; try lia;
    try (apply Z.mul_pos_pos; [lia |]); apply Z.pow_pos_nonneg; lia.
Qed.

Lemma unsigned_literal_double s : double (unsigned_literal s) = true.
Proof.
  unfold unsigned_literal. destruct (s =? "Infinity")%string; [reflexivity |].
  destruct (scan_digits 0 0 s) as [[i ni] r1].
  destruct (match r1 with
            | String "." r => scan_digits i 0 r
            | _ => (i, 0, r1)
            end) as [[c nf] r2].
  destruct (ni + nf =? 0); [reflexivity |].
  destruct (exponent_part r2); [apply decimal_double | reflexivity].
Qed.

Lemma numeral_double base dv s : double (numeral base dv s) = true.
Proof.
  unfold numeral. destruct s; [reflexivity |].
  destruct (digits_val _ _ _ _); [apply decimal_double | reflexivity].
Qed.

Lemma str_numeric_literal_double s : double (str_numeric_literal s) = true.
Proof.
  unfold str_numeric_literal.
  repeat match goal with
         | |- double (match ?x with _ => _ end) = true => destruct x
         | |- double (if ?x then _ else _) = true => destruct x
         end;
    rewrite ?double_negate;
    first [apply unsigned_literal_double | apply numeral_double].
Qed.

(** Every string converts to a binary64 value. *)
Lemma StringToNumber_double s : double (StringToNumber s) = true.
Proof.
  unfold StringToNumber. destruct (trim s); [reflexivity |].
  apply str_numeric_literal_double.
Qed.

(** *** A number is its own rounding *)

Lemma floor_log2_Int z : 0 < z -> floor_log2 z 1 = Z.log2 z.
Proof.
  intros Hz. unfold floor_log2. change (Z.log2 1) with 0. rewrite Z.sub_0_r.
  pose proof (Z.log2_nonneg z). destruct (Z.log2_spec z Hz) as [Hl _].
  replace (0 <=? Z.log2 z) with true by lia.
  replace (z <? 1 * 2 ^ Z.log2 z) with false by lia. reflexivity.
Qed.

(** A binary64 value is its own rounding. *)
Lemma to_double_Int z : 0 < z -> double (Int z) = true -> to_double z 1 = Int z.
Proof.
  intros Hz Hd. cbn [double] in Hd. rewrite Z.abs_eq in Hd by lia.
  apply andb_true_iff in Hd. destruct Hd as [Hlt Hmod].
  apply Z.ltb_lt in Hlt. apply Z.eqb_eq in Hmod.
  assert (Hl : Z.log2 z < 1024) by (apply Z.log2_lt_pow2; lia).
  pose proof (Z.log2_nonneg z) as Hl0.
  unfold to_double. rewrite (floor_log2_Int z Hz).
  replace (Z.max (Z.log2 z - 52) (-1074)) with (Z.log2 z - 52) by lia.
  set (e := Z.log2 z - 52) in *.
  destruct (Z.le_gt_cases 0 e) as [He | He].
  - replace (0 <=? e) with true by lia.
    replace (Z.max 0 e) with e in Hmod by lia.
    assert (Hp : 0 < 2 ^ e) by (apply Z.pow_pos_nonneg; lia).
    assert (Ez : z = z / 2 ^ e * 2 ^ e).
    { rewrite (Z.div_mod z (2 ^ e)) at 1 by lia. lia. }
    set (q := z / 2 ^ e) in *. clearbody q.
    assert (Hn : nearest_even z (1 * 2 ^ e) = q).
    { rewrite Z.mul_1_l, Ez. apply nearest_even_exact. lia. }
    rewrite Hn.
    assert (Hq : 0 < q) by nia.
    assert (Hq53 : e = 971 -> q < 2 ^ 53).
    { intros E. rewrite E in Ez.
      replace (2 ^ 1024) with (2 ^ 53 * 2 ^ 971) in Hlt
        by (rewrite <- Z.pow_add_r by lia; reflexivity).
      rewrite E in Hp. nia. }
    replace (971 <? e) with false by lia.
    replace ((e =? 971) && (q =? 2 ^ 53)) with false.
    2:{ destruct (Z.eqb_spec e 971) as [E | E]; [| reflexivity].
        specialize (Hq53 E). cbn [andb]. symmetry. apply Z.eqb_neq. lia. }
    cbn [orb]. unfold dyadic.
    replace (q <=? 0) with false by lia. replace (0 <=? e) with true by lia.
    rewrite <- Ez. reflexivity.
  - replace (0 <=? e) with false by lia.
    assert (Hp : 0 < 2 ^ (- e)) by (apply Z.pow_pos_nonneg; lia).
    pose proof (nearest_even_exact (z * 2 ^ (- e)) 1 ltac:(lia)) as Hn.
    rewrite Z.mul_1_r in Hn. rewrite Hn.
    replace (971 <? e) with false by lia.
    replace (e =? 971) with false by lia. cbn [orb andb].
    unfold dyadic.
    replace (z * 2 ^ (- e) <=? 0) with false by nia.
    replace (0 <=? e) with false by lia.
    replace (Z.to_nat (- e)) with (Z.to_nat (- e + 0)) by (f_equal; lia).
    rewrite halve_scaled by lia. cbn [Z.to_nat halve].
    rewrite Z2Pos.id by lia. reflexivity.
Qed.

Lemma to_double_Frac m e :
  double (Frac false m e) = true ->
  to_double (Z.pos m) (2 ^ Z.pos e) = Frac false m e.
Proof.
  intros Hd. cbn [double] in Hd.
  apply andb_true_iff in Hd. destruct Hd as [Hd He].
  apply andb_true_iff in Hd. destruct Hd as [Hodd Hm].
  apply negb_true_iff in Hodd. apply Z.ltb_lt in Hm. apply Z.leb_le in He.
  assert (Q : forall a, 0 <= a -> 0 < 2 ^ a)
    by (intros; apply Z.pow_pos_nonneg; lia).
  assert (P : forall a b, 0 <= a -> 0 <= b -> 2 ^ (a + b) = 2 ^ a * 2 ^ b)
    by (intros; apply Z.pow_add_r; lia).
  set (pe := Z.pos e) in *. assert (Hpe : 0 < pe) by (unfold pe; lia).
  set (lm := Z.log2 (Z.pos m)).
  assert (Hlm : 0 <= lm < 53).
  { split; [apply Z.log2_nonneg |]. apply Z.log2_lt_pow2; lia. }
  destruct (Z.log2_spec (Z.pos m)) as [Hlo _]; [lia |]. fold lm in Hlo.
  assert (Hfl : floor_log2 (Z.pos m) (2 ^ pe) = lm - pe).
  { unfold floor_log2. rewrite Z.log2_pow2 by lia. fold lm.
    destruct (Z.le_gt_cases 0 (lm - pe)) as [Hl | Hl].
    - replace (0 <=? lm - pe) with true by lia.
      rewrite <- P by lia. replace (pe + (lm - pe)) with lm by lia.
      replace (Z.pos m <? 2 ^ lm) with false by lia. reflexivity.
    - replace (0 <=? lm - pe) with false by lia.
      replace (Z.pos m * 2 ^ (- (lm - pe)) <? 2 ^ pe) with false; [reflexivity |].
      symmetry. apply Z.ltb_ge.
      replace pe with (lm + (- (lm - pe))) at 1 by lia.
      rewrite P by lia. pose proof (Q (- (lm - pe))). nia. }
  unfold to_double. rewrite Hfl.
  set (E := Z.max (lm - pe - 52) (-1074)).
  assert (HE : -1074 <= E <= - pe) by lia.
  replace (0 <=? E) with false by lia.
  assert (Hn : nearest_even (Z.pos m * 2 ^ (- E)) (2 ^ pe)
               = Z.pos m * 2 ^ (- E - pe)).
  { rewrite <- (nearest_even_exact (Z.pos m * 2 ^ (- E - pe)) (2 ^ pe))
      by (apply Q; lia).
    f_equal. rewrite <- Z.mul_assoc, <- P by lia. do 2 f_equal. lia. }
  rewrite Hn.
  replace (971 <? E) with false by lia. replace (E =? 971) with false by lia.
  cbn [orb andb]. unfold dyadic.
  pose proof (Q (- E - pe)).
  replace (Z.pos m * 2 ^ (- E - pe) <=? 0) with false by nia.
  replace (0 <=? E) with false by lia.
  replace (Z.to_nat (- E)) with (Z.to_nat ((- E - pe) + pe)) by (f_equal; lia).
  rewrite halve_scaled by lia.
  unfold pe. change (Z.to_pos (Z.pos m)) with m.
  change (Z.to_nat (Z.pos e)) with (Pos.to_nat e).
  apply halve_odd. exact Hodd.
Qed.

Lemma to_double_ratio v :
  double v = true -> positive_finite v = true ->
  to_double (fst (ratio v)) (snd (ratio v)) = v.
Proof.
  destruct v as [| b | z | b m e]; cbn [positive_finite ratio fst snd];
    intros Hd Hp; try discriminate Hp.
  - rewrite Z.abs_eq by lia. apply to_double_Int; [lia | exact Hd].
  - destruct b; [discriminate Hp |]. apply to_double_Frac. exact Hd.
Qed.

(** *** The rounding depends on the value only *)

Lemma floor_log2_not_below n d :
  0 < n -> 0 < d -> ~ below n d (floor_log2 n d).
Proof.
  intros Hn Hd. unfold floor_log2, below.
  assert (P : forall a b, 0 <= a -> 0 <= b -> 2 ^ (a + b) = 2 ^ a * 2 ^ b)
    by (intros; apply Z.pow_add_r; lia).
  assert (Q : forall a, 0 <= a -> 0 < 2 ^ a)
    by (intros; apply Z.pow_pos_nonneg; lia).
  pose proof (Z.log2_nonneg n) as Hln. pose proof (Z.log2_nonneg d) as Hld.
  destruct (Z.log2_spec n Hn) as [Hnl _]. destruct (Z.log2_spec d Hd) as [_ Hdu].
  rewrite <- Z.add_1_r in Hdu.
  set (ln := Z.log2 n) in *. set (ld := Z.log2 d) in *.
  set (l := ln - ld).
  destruct (Z.le_gt_cases 0 l) as [Hl | Hl].
  - replace (0 <=? l) with true by lia.
    destruct (n <? d * 2 ^ l) eqn:T.
    + destruct (Z.eq_dec l 0) as [E | E].
      * replace (l - 1) with (-1) by lia. cbn [Z.opp Z.max Z.compare].
        rewrite Z.pow_0_r. replace ln with ld in Hnl by lia.
        rewrite (P ld 1) in Hdu by lia. change (2 ^ 1) with 2 in *. lia.
      * replace (Z.max 0 (- (l - 1))) with 0 by lia.
        replace (Z.max 0 (l - 1)) with (l - 1) by lia. rewrite Z.pow_0_r.
        replace ln with ((ld + 1) + (l - 1)) in Hnl by lia.
        rewrite P in Hnl by lia. pose proof (Q (l - 1)). nia.
    + replace (Z.max 0 (- l)) with 0 by lia. replace (Z.max 0 l) with l by lia.
      rewrite Z.pow_0_r. lia.
  - replace (0 <=? l) with false by lia.
    destruct (n * 2 ^ (- l) <? d) eqn:T.
    + replace (Z.max 0 (- (l - 1))) with (- (l - 1)) by lia.
      replace (Z.max 0 (l - 1)) with 0 by lia. rewrite Z.pow_0_r.
      replace (ld + 1) with (ln + (- (l - 1))) in Hdu by lia.
      rewrite P in Hdu by lia. pose proof (Q (- (l - 1))). nia.
    + replace (Z.max 0 (- l)) with (- l) by lia. replace (Z.max 0 l) with 0 by lia.
      rewrite Z.pow_0_r. lia.
Qed.

Lemma below_scale c n d x : 0 < c -> below (c * n) (c * d) x <-> below n d x.
Proof.
  intros Hc. unfold below. rewrite <- !Z.mul_assoc.
  symmetry. apply Z.mul_lt_mono_pos_l. exact Hc.
Qed.

Lemma floor_log2_scale c n d :
  0 < c -> 0 < n -> 0 < d -> floor_log2 (c * n) (c * d) = floor_log2 n d.
Proof.
  intros Hc Hn Hd.
  assert (Hcn : 0 < c * n) by nia. assert (Hcd : 0 < c * d) by nia.
  pose proof (floor_log2_not_below _ _ Hcn Hcd) as A1.
  pose proof (floor_log2_below _ _ Hcn Hcd) as A2.
  pose proof (floor_log2_not_below _ _ Hn Hd) as B1.
  pose proof (floor_log2_below _ _ Hn Hd) as B2.
  rewrite below_scale in A1, A2 by exact Hc.
  set (x := floor_log2 (c * n) (c * d)) in *. set (y := floor_log2 n d) in *.
  destruct (Z.lt_trichotomy x y) as [H | [H | H]]; [| exact H |]; exfalso.
  - apply B1. apply (below_mono n d (x + 1)); try assumption. lia.
  - apply A1. apply (below_mono n d (y + 1)); try assumption. lia.
Qed.

Lemma nearest_even_scale c a b :
  0 < c -> 0 < b -> nearest_even (c * a) (c * b) = nearest_even a b.
Proof.
  intros Hc Hb. unfold nearest_even.
  rewrite Z.div_mul_cancel_l, Z.mul_mod_distr_l by lia.
  replace (2 * (c * (a mod b)) <? c * b) with (2 * (a mod b) <? b) by nia.
  replace (c * b <? 2 * (c * (a mod b))) with (b <? 2 * (a mod b)) by nia.
  reflexivity.
Qed.

(** The rounding depends on the value of the fraction only. *)
Lemma to_double_scale c n d :
  0 < c -> 0 < n -> 0 < d -> to_double (c * n) (c * d) = to_double n d.
Proof.
  intros Hc Hn Hd. unfold to_double.
  rewrite floor_log2_scale by assumption.
  set (e := Z.max (floor_log2 n d - 52) (-1074)).
  destruct (0 <=? e) eqn:E.
  - rewrite <- (Z.mul_assoc c d), nearest_even_scale; [reflexivity | lia |].
    apply Z.mul_pos_pos; [lia |]. apply Z.pow_pos_nonneg; lia.
  - rewrite <- (Z.mul_assoc c n), nearest_even_scale; [reflexivity | lia | lia].
Qed.

(** The full expansion of a number in decimal. *)
Lemma decimal_expansion v :
  double v = true -> positive_finite v = true ->
  decimal (fst (match v with
                | Frac _ m e => (Z.pos m * 5 ^ Z.pos e, - Z.pos e)
                | _ => (fst (ratio v), 0)
                end))
          (snd (match v with
                | Frac _ m e => (Z.pos m * 5 ^ Z.pos e, - Z.pos e)
                | _ => (fst (ratio v), 0)
                end)) = v.
Proof.
  intros Hd Hp. pose proof (to_double_ratio v Hd Hp) as H.
  destruct v as [| b | z | b m e]; try discriminate Hp;
    cbn [positive_finite ratio fst snd] in *.
  - unfold decimal. replace (Z.abs z <=? 0) with false by lia.
    cbn [Z.leb Z.compare]. rewrite Z.pow_0_r, Z.mul_1_r. exact H.
  - unfold decimal.
    assert (H5 : 0 < 5 ^ Z.pos e) by (apply Z.pow_pos_nonneg; lia).
    replace (Z.pos m * 5 ^ Z.pos e <=? 0) with false by nia.
    replace (0 <=? - Z.pos e) with false by lia.
    rewrite Z.opp_involutive. change 10 with (5 * 2).
    rewrite Z.pow_mul_l, (Z.mul_comm (Z.pos m)).
    rewrite to_double_scale; [exact H | lia | lia |].
    apply Z.pow_pos_nonneg; lia.
Qed.

(** *** The shortest decimal *)

Lemma candidate_fits v a b n k s p :
  candidate v a b n k = Some (s, p) -> decimal s p = v.
Proof.
  unfold candidate.
  destruct (if 0 <=? n - k then (a, b * 10 ^ (n - k))
            else (a * 10 ^ (- (n - k)), b)) as [a' b'].
  set (lo := (a' / b', n - k)).
  set (hi := if a' / b' + 1 =? 10 ^ k then (1, n) else (a' / b' + 1, n - k)).
  intros H.
  assert (X : (Some lo = Some (s, p) /\ decimal (fst lo) (snd lo) = v)
              \/ (Some hi = Some (s, p) /\ decimal (fst hi) (snd hi) = v)).
  { revert H.
    destruct (num_eqb (decimal (fst lo) (snd lo)) v) eqn:L;
      destruct (num_eqb (decimal (fst hi) (snd hi)) v) eqn:U;
      try apply num_eqb_eq in L; try apply num_eqb_eq in U;
      repeat match goal with
             | |- (if ?c then _ else _) = _ -> _ => destruct c
             end;
      intros H; try discriminate H; auto. }
  clearbody lo hi.
  destruct X as [[E D] | [E D]]; injection E as E; rewrite E in D; exact D.
Qed.

Lemma shortest_fits tries : forall v a b n k s p,
  shortest tries v a b n k = Some (s, p) -> decimal s p = v.
Proof.
  induction tries as [| t IH]; intros v a b n k s p; cbn [shortest];
    [discriminate |].
  destruct (candidate v a b n k) as [[s' p'] |] eqn:C.
  - intros H. injection H as <- <-. eapply candidate_fits; eauto.
  - apply IH.
Qed.

(** What is laid out for a number is a decimal that converts to it. *)
Lemma positive_to_string_decimal v :
  double v = true -> positive_finite v = true ->
  exists s p, 0 < s /\ decimal s p = v
              /\ positive_to_string v = layout (Z_to_string s) p.
Proof.
  intros Hd Hp. unfold positive_to_string.
  destruct (ratio v) as [a b] eqn:R.
  assert (Hs : forall s p, decimal s p = v -> 0 < s).
  { intros s p E. destruct (Z.ltb_spec 0 s) as [H | H]; [exact H |].
    unfold decimal in E. replace (s <=? 0) with true in E by lia.
    rewrite <- E in Hp. discriminate Hp. }
  destruct (shortest 17 v a b (magnitude a b) 1) as [[s p] |] eqn:S.
  - pose proof (shortest_fits _ _ _ _ _ _ _ _ S) as E.
    exists s, p. split; [eapply Hs; eauto |]. split; [exact E | reflexivity].
  - pose proof (decimal_expansion v Hd Hp) as E.
    replace a with (fst (ratio v)) by (rewrite R; reflexivity).
    destruct (match v with
              | Frac _ m e => (Z.pos m * 5 ^ Z.pos e, - Z.pos e)
              | _ => (fst (ratio v), 0)
              end) as [s p] eqn:X.
    cbn [fst snd] in E.
    exists s, p. split; [eapply Hs; eauto |]. split; [exact E |].
    destruct v; inversion X; subst; reflexivity.
Qed.

(** *** Strings of digits *)

Lemma len_app a b : len (a ++ b) = len a + len b.
Proof.
  unfold len. induction a as [| c a IH]; cbn [append String.length]; [lia |].
  rewrite !Nat2Z.inj_succ. lia.
Qed.

Lemma len_nonneg a : 0 <= len a.
Proof. unfold len. lia. Qed.

Lemma scan_digits_app a : forall r acc count,
  all_digits a = true ->
  scan_digits acc count (a ++ r) = scan_digits (dec acc a) (count + len a) r.
Proof.
  induction a as [| c a IH]; intros r acc count H.
  - cbn [append dec]. unfold len. cbn [String.length]. f_equal. lia.
  - cbn [all_digits] in H. apply andb_true_iff in H. destruct H as [Hc Ha].
    cbn [append scan_digits dec]. unfold is_digit in Hc.
    destruct (digit_val c) as [d |]; [| discriminate Hc].
    rewrite IH by exact Ha. f_equal. unfold len. cbn [String.length].
    rewrite Nat2Z.inj_succ. lia.
Qed.

Lemma scan_digits_stop r acc count :
  starts_digit r = false -> scan_digits acc count r = (acc, count, r).
Proof.
  destruct r as [| c r]; [reflexivity |]. cbn [starts_digit scan_digits].
  unfold is_digit. destruct (digit_val c); [discriminate | reflexivity].
Qed.

Lemma dec_app a : forall b acc, dec acc (a ++ b) = dec (dec acc a) b.
Proof.
  induction a as [| c a IH]; intros b acc; [reflexivity |].
  cbn [append dec]. apply IH.
Qed.

Lemma dec_scale a : forall acc, dec acc a = acc * 10 ^ len a + dec 0 a.
Proof.
  induction a as [| c a IH]; intros acc.
  - cbn [dec]. unfold len. cbn [String.length Z.of_nat]. rewrite Z.pow_0_r. lia.
  - cbn [dec]. rewrite IH. rewrite (IH (10 * 0 + _)).
    unfold len. cbn [String.length]. rewrite Nat2Z.inj_succ, Z.pow_succ_r by lia.
    lia.
Qed.

Lemma all_digits_app a b :
  all_digits (a ++ b) = all_digits a && all_digits b.
Proof.
  induction a as [| c a IH]; [reflexivity |].
  cbn [append all_digits]. rewrite IH, andb_assoc. reflexivity.
Qed.

Lemma no_space_app a b : no_space (a ++ b) = no_space a && no_space b.
Proof.
  induction a as [| c a IH]; [reflexivity |].
  cbn [append no_space]. rewrite IH, andb_assoc. reflexivity.
Qed.

Lemma digit_not_space c : is_digit c = true -> is_space c = false.
Proof.
  destruct c as [[] [] [] [] [] [] [] []]; intros H; try discriminate H; reflexivity.
Qed.

Lemma all_digits_no_space a : all_digits a = true -> no_space a = true.
Proof.
  induction a as [| c a IH]; [reflexivity |]. cbn [all_digits no_space].
  intros H. apply andb_true_iff in H. destruct H as [Hc Ha].
  rewrite (digit_not_space _ Hc), (IH Ha). reflexivity.
Qed.

Lemma trim_left_no_space s : no_space s = true -> trim_left s = s.
Proof.
  destruct s as [| c s]; [reflexivity |]. cbn [no_space trim_left].
  intros H. apply andb_true_iff in H. destruct H as [H _].
  apply negb_true_iff in H. rewrite H. reflexivity.
Qed.

Lemma trim_right_no_space s : no_space s = true -> trim_right s = s.
Proof.
  induction s as [| c s IH]; [reflexivity |]. cbn [no_space trim_right].
  intros H. apply andb_true_iff in H. destruct H as [Hc Hs].
  apply negb_true_iff in Hc. rewrite (IH Hs), Hc. destruct s; reflexivity.
Qed.

Lemma trim_no_space s : no_space s = true -> trim s = s.
Proof.
  intros H. unfold trim. rewrite (trim_left_no_space _ H).
  apply trim_right_no_space, H.
Qed.

(** *** The digits of an integer *)

Lemma uint_all_digits d : all_digits (NilEmpty.string_of_uint d) = true.
Proof.
  induction d; simpl; [reflexivity | ..]; exact IHd.
Qed.

Lemma dec_uint_acc d : forall acc,
  dec (Z.pos acc) (NilEmpty.string_of_uint d) = Z.pos (Pos.of_uint_acc d acc).
Proof.
  induction d; intros acc; cbn [NilEmpty.string_of_uint dec Pos.of_uint_acc];
    [reflexivity | ..];
    match goal with
    | |- context [digit_val ?c] =>
        let v := eval vm_compute in (digit_val c) in
        change (digit_val c) with v; cbv iota
    end; rewrite <- IHd; f_equal; lia.
Qed.

Lemma dec_uint d : dec 0 (NilEmpty.string_of_uint d) = Z.of_uint d.
Proof.
  unfold Z.of_uint.
  induction d; cbn [NilEmpty.string_of_uint dec Pos.of_uint];
    [reflexivity | ..];
    match goal with
    | |- context [digit_val ?c] =>
        let v := eval vm_compute in (digit_val c) in
        change (digit_val c) with v; cbv iota
    end; [exact IHd | ..];
    match goal with
    | |- dec ?a _ = Z.of_N (N.pos (Pos.of_uint_acc _ ?p)) =>
        change a with (Z.pos p); apply dec_uint_acc
    end.
Qed.

Lemma Z_to_string_pos z :
  0 <= z ->
  all_digits (Z_to_string z) = true
  /\ dec 0 (Z_to_string z) = z
  /\ Z_to_string z <> "".
Proof.
  intros Hz. unfold Z_to_string.
  assert (E : exists d, Z.to_int z = Decimal.Pos d /\ d <> Decimal.Nil).
  { destruct z as [| p | p]; [| | lia].
    - exists (Decimal.D0 Decimal.Nil). split; [reflexivity | discriminate].
    - exists (Pos.to_uint p). split; [reflexivity |]. apply Unsigned.to_uint_nonnil. }
  destruct E as (d & E & Hd).
  pose proof (DecimalZ.of_to z) as Hz'. rewrite E in *.
  cbn [NilEmpty.string_of_int Z.of_int] in *.
  split; [apply uint_all_digits |]. split; [rewrite dec_uint; exact Hz' |].
  destruct d; [congruence | ..]; discriminate.
Qed.

Lemma zeros_digits n : all_digits (zeros n) = true.
Proof. induction n as [| n IH]; [reflexivity | exact IH]. Qed.

Lemma len_zeros n : len (zeros n) = Z.of_nat n.
Proof.
  unfold len. f_equal. induction n as [| n IH]; [reflexivity |].
  cbn [zeros String.length]. f_equal. exact IH.
Qed.

Lemma dec_zeros n acc : dec acc (zeros n) = acc * 10 ^ Z.of_nat n.
Proof.
  rewrite dec_scale, len_zeros.
  replace (dec 0 (zeros n)) with 0; [lia |].
  induction n as [| n IH]; [reflexivity | exact IH].
Qed.

(** *** Cutting a string in two *)

Lemma substring_all s : substring 0 (String.length s) s = s.
Proof.
  induction s as [| c s IH]; [reflexivity |].
  cbn [String.length substring]. f_equal. exact IH.
Qed.

Lemma substring_split s : forall n,
  (n <= String.length s)%nat ->
  substring 0 n s ++ substring n (String.length s - n) s = s.
Proof.
  induction s as [| c s IH]; intros n Hn.
  - destruct n; reflexivity.
  - destruct n as [| n].
    + cbn [substring append]. apply (substring_all (String c s)).
    + cbn [String.length] in *. cbn [substring append Nat.sub].
      f_equal. apply IH. lia.
Qed.

Lemma len_substring s : forall n,
  (n <= String.length s)%nat -> String.length (substring 0 n s) = n.
Proof.
  induction s as [| c s IH]; intros n Hn.
  - destruct n; [reflexivity | cbn [String.length] in Hn; lia].
  - destruct n as [| n]; [reflexivity |].
    cbn [substring String.length] in *. f_equal. apply IH. lia.
Qed.

(** *** Reading what was laid out *)

Lemma decimal_digits_Z_to_string z :
  0 <= z -> decimal_digits (Z_to_string z) = Some z.
Proof.
  intros Hz. destruct (Z_to_string_pos z Hz) as (Ha & Hv & Hne).
  unfold decimal_digits.
  rewrite <- (append_nil_r (Z_to_string z)) at 1.
  rewrite scan_digits_app by exact Ha. cbn [scan_digits]. rewrite Hv.
  destruct (Z_to_string z) as [| c r]; [congruence |].
  unfold len. cbn [String.length]. rewrite Nat2Z.inj_succ.
  replace (0 <? 0 + Z.succ (Z.of_nat (String.length r))) with true by lia.
  reflexivity.
Qed.

Lemma exponent_part_exponent e : exponent_part (exponent e) = Some e.
Proof.
  unfold exponent. destruct (0 <=? e) eqn:E; cbn [append exponent_part signed_integer];
    rewrite decimal_digits_Z_to_string by lia; cbn [option_map]; f_equal; lia.
Qed.

Lemma exponent_shape e :
  starts_digit (exponent e) = false
  /\ (forall r, exponent e <> String "." r)
  /\ no_space (exponent e) = true.
Proof.
  unfold exponent.
  destruct (Z_to_string_pos (Z.abs e) (Z.abs_nonneg e)) as (Ha & _ & _).
  destruct (0 <=? e); cbn [append starts_digit no_space];
    (split; [reflexivity |]; split; [discriminate |]);
    apply all_digits_no_space in Ha; rewrite Ha; reflexivity.
Qed.

Lemma not_Infinity c r : is_digit c = true -> (String c r =? "Infinity")%string = false.
Proof.
  intros H. apply String.eqb_neq. intros E. injection E as -> _. discriminate H.
Qed.

(** Digits, a point, digits and an exponent or none. *)
Lemma unsigned_literal_point a f x e :
  all_digits a = true -> a <> "" -> all_digits f = true ->
  starts_digit x = false -> exponent_part x = Some e ->
  unsigned_literal (a ++ "." ++ f ++ x) = decimal (dec (dec 0 a) f) (e - len f).
Proof.
  intros Ha Hne Hf Hx He. unfold unsigned_literal.
  destruct a as [| c a]; [congruence |].
  assert (Hc : is_digit c = true).
  { cbn [all_digits] in Ha. apply andb_true_iff in Ha. apply Ha. }
  change (String c a ++ "." ++ f ++ x) with (String c (a ++ "." ++ f ++ x)).
  rewrite (not_Infinity c _ Hc).
  change (String c (a ++ "." ++ f ++ x)) with (String c a ++ String "." (f ++ x)).
  rewrite scan_digits_app by exact Ha.
  rewrite (scan_digits_stop (String "." (f ++ x))) by reflexivity.
  rewrite scan_digits_app by exact Hf.
  rewrite (scan_digits_stop x) by exact Hx.
  pose proof (len_nonneg f). pose proof (len_nonneg a).
  assert (Hl : len (String c a) = len a + 1).
  { unfold len. cbn [String.length]. lia. }
  rewrite Hl. replace (0 + (len a + 1) + (0 + len f) =? 0) with false by lia.
  rewrite He. f_equal; lia.
Qed.

(** Digits and an exponent or none. *)
Lemma unsigned_literal_whole a x e :
  all_digits a = true -> a <> "" ->
  starts_digit x = false -> (forall r, x <> String "." r) ->
  exponent_part x = Some e ->
  unsigned_literal (a ++ x) = decimal (dec 0 a) e.
Proof.
  intros Ha Hne Hx Hp He. unfold unsigned_literal.
  destruct a as [| c a]; [congruence |].
  assert (Hc : is_digit c = true).
  { cbn [all_digits] in Ha. apply andb_true_iff in Ha. apply Ha. }
  change (String c a ++ x) with (String c (a ++ x)).
  rewrite (not_Infinity c _ Hc).
  change (String c (a ++ x)) with (String c a ++ x).
  rewrite scan_digits_app by exact Ha.
  rewrite (scan_digits_stop x) by exact Hx.
  assert (Hl : len (String c a) = len a + 1).
  { unfold len. cbn [String.length]. lia. }
  pose proof (len_nonneg a).
  assert (E : match x with
              | String "." r => scan_digits (dec 0 (String c a)) 0 r
              | _ => (dec 0 (String c a), 0, x)
              end = (dec 0 (String c a), 0, x)).
  { destruct x as [| c' x']; [reflexivity |].
    destruct (Ascii.eqb_spec c' ".") as [-> | Hn];
      [exfalso; exact (Hp x' eq_refl) |].
    destruct c' as [[] [] [] [] [] [] [] []]; try reflexivity. congruence. }
  rewrite E, Hl. replace (0 + (len a + 1) + 0 =? 0) with false by lia.
  rewrite He. f_equal; lia.
Qed.

(** A literal that begins with a digit and is not in base 16 is a decimal
    literal. *)
Lemma str_numeric_literal_decimal c r :
  is_digit c = true ->
  (forall r', r <> String "x" r' /\ r <> String "X" r') ->
  str_numeric_literal (String c r) = unsigned_literal (String c r).
Proof.
  intros Hc Hx.
  destruct c as [[] [] [] [] [] [] [] []]; try discriminate Hc; try reflexivity.
  destruct r as [| c' r']; [reflexivity |].
  destruct (Hx r') as [H1 H2].
  destruct c' as [[] [] [] [] [] [] [] []]; try reflexivity; congruence.
Qed.

(** *** Written out and read again *)

Lemma digits_head a y :
  all_digits a = true -> a <> "" -> not_hex y ->
  exists c r, a ++ y = String c r /\ is_digit c = true /\ not_hex r.
Proof.
  intros Ha Hne Hy. destruct a as [| c a]; [congruence |].
  cbn [all_digits] in Ha. apply andb_true_iff in Ha. destruct Ha as [Hc Ha].
  exists c, (a ++ y). split; [reflexivity |]. split; [exact Hc |].
  destruct a as [| c' a]; [exact Hy |].
  cbn [all_digits] in Ha. apply andb_true_iff in Ha. destruct Ha as [Hc' _].
  intros r'. cbn [append].
  split; intros E; injection E as -> _; discriminate Hc'.
Qed.

Lemma not_hex_empty : not_hex "".
Proof. intros r'. split; discriminate. Qed.

Lemma not_hex_point r : not_hex (String "." r).
Proof. intros r'. split; discriminate. Qed.

Lemma not_hex_exponent e : not_hex (exponent e).
Proof. intros r'. unfold exponent. destruct (0 <=? e); split; discriminate. Qed.

Lemma StringToNumber_shape t :
  numeral_shape t -> StringToNumber t = unsigned_literal t.
Proof.
  intros (Hs & c & r & -> & Hc & Hx). unfold StringToNumber.
  rewrite (trim_no_space _ Hs). apply str_numeric_literal_decimal; assumption.
Qed.

Lemma decimal_shift s j : 0 < s -> 0 <= j -> decimal (s * 10 ^ j) 0 = decimal s j.
Proof.
  intros Hs Hj. unfold decimal.
  assert (0 < 10 ^ j) by (apply Z.pow_pos_nonneg; lia).
  replace (s * 10 ^ j <=? 0) with false by nia.
  replace (s <=? 0) with false by lia.
  replace (0 <=? j) with true by lia.
  cbn [Z.leb Z.compare]. rewrite Z.pow_0_r, Z.mul_1_r. reflexivity.
Qed.

(** What [layout] writes for [s * 10^p] reads as [s * 10^p]. *)
Lemma unsigned_literal_layout s p :
  0 < s ->
  numeral_shape (layout (Z_to_string s) p)
  /\ unsigned_literal (layout (Z_to_string s) p) = decimal s p.
Proof.
  intros Hs. destruct (Z_to_string_pos s) as (Ha & Hv & Hne); [lia |].
  remember (Z_to_string s) as ds eqn:Eds0. clear Eds0. unfold layout.
  fold (len ds). set (k := len ds).
  assert (Hk : 0 < k).
  { unfold k, len. destruct ds; [congruence |]. cbn [String.length]. lia. }
  pose proof (all_digits_no_space _ Ha) as Hns.
  set (n := p + k).
  destruct ((k <=? n) && (n <=? 21)) eqn:C6.
  { (* digits and zeros *)
    assert (Hz := zeros_digits (Z.to_nat (n - k))).
    assert (Hall : all_digits (ds ++ zeros (Z.to_nat (n - k))) = true)
      by (rewrite all_digits_app, Ha, Hz; reflexivity).
    split.
    - split; [apply all_digits_no_space, Hall |].
      rewrite <- (append_nil_r (ds ++ _)).
      apply digits_head; [exact Hall | | apply not_hex_empty].
      destruct ds; [congruence | discriminate].
    - rewrite <- (append_nil_r (ds ++ _)).
      rewrite (unsigned_literal_whole _ "" 0); try reflexivity;
        [| exact Hall | destruct ds; [congruence | discriminate] | discriminate].
      rewrite dec_app, dec_zeros, Hv, Z2Nat.id by lia.
      rewrite decimal_shift by lia. f_equal. lia. }
  destruct ((0 <? n) && (n <=? 21)) eqn:C7.
  { (* digits, a point, digits *)
    assert (Hn : (Z.to_nat n <= String.length ds)%nat).
    { unfold k, len in *. lia. }
    pose proof (substring_split ds _ Hn) as Hsplit.
    replace (String.length ds - Z.to_nat n)%nat with (Z.to_nat (k - n)) in Hsplit
      by (unfold k, len; lia).
    set (a := substring 0 (Z.to_nat n) ds) in *.
    set (f := substring (Z.to_nat n) (Z.to_nat (k - n)) ds) in *.
    assert (Hla : len a = n).
    { unfold len, a. rewrite len_substring by exact Hn. lia. }
    assert (Hlf : len f = k - n).
    { pose proof (len_app a f) as E. rewrite Hsplit in E. fold k in E. lia. }
    assert (Haf : all_digits a = true /\ all_digits f = true).
    { apply andb_true_iff. rewrite <- all_digits_app, Hsplit. exact Ha. }
    destruct Haf as [Haa Hf].
    assert (Hane : a <> "").
    { intros E. rewrite E in Hla. unfold len in Hla. cbn in Hla. lia. }
    split.
    - split.
      + rewrite !no_space_app, (all_digits_no_space _ Haa),
          (all_digits_no_space _ Hf). reflexivity.
      + apply digits_head; [exact Haa | exact Hane | apply not_hex_point].
    - rewrite <- (append_nil_r f) at 1.
      rewrite (unsigned_literal_point a f "" 0); try reflexivity; try assumption.
      rewrite <- dec_app, Hsplit, Hv. f_equal. lia. }
  destruct ((-6 <? n) && (n <=? 0)) eqn:C8.
  { (* a zero, a point, zeros and digits *)
    set (z := zeros (Z.to_nat (- n))).
    assert (Hz : all_digits z = true) by apply zeros_digits.
    assert (Hf : all_digits (z ++ ds) = true)
      by (rewrite all_digits_app, Hz, Ha; reflexivity).
    change ("0." ++ z ++ ds) with ("0" ++ "." ++ (z ++ ds)).
    split.
    - split.
      + rewrite !no_space_app, (all_digits_no_space _ Hz), Hns. reflexivity.
      + exists "0"%char, ("." ++ z ++ ds). split; [reflexivity |].
        split; [reflexivity | apply not_hex_point].
    - rewrite <- (append_nil_r (z ++ ds)).
      rewrite (unsigned_literal_point "0" (z ++ ds) "" 0); try reflexivity;
        [| discriminate | exact Hf].
      change (dec 0 "0") with 0.
      rewrite dec_app. unfold z at 1. rewrite dec_zeros, Z.mul_0_l, Hv.
      f_equal. rewrite len_app. unfold z. rewrite len_zeros. fold k. lia. }
  (* exponent notation *)
  fold (exponent (n - 1)).
  destruct (exponent_shape (n - 1)) as (Hx1 & Hx2 & Hx3).
  destruct ds as [| c r]; [congruence |].
  assert (Hc : is_digit c = true /\ all_digits r = true).
  { cbn [all_digits] in Ha. apply andb_true_iff in Ha. exact Ha. }
  destruct Hc as [Hc Hr].
  destruct r as [| c' r'].
  - split.
    + split; [rewrite no_space_app, Hns, Hx3; reflexivity |].
      apply digits_head; [exact Ha | discriminate | apply not_hex_exponent].
    + rewrite (unsigned_literal_whole _ _ (n - 1) Ha Hne Hx1 Hx2
                 (exponent_part_exponent _)).
      rewrite Hv. f_equal. unfold n, k, len. cbn [String.length]. lia.
  - set (r := String c' r') in *.
    change (String c ("." ++ r) ++ exponent (n - 1))
      with (String c "" ++ "." ++ r ++ exponent (n - 1)).
    split.
    + split.
      * rewrite !no_space_app, (all_digits_no_space _ Hr), Hx3.
        cbn [no_space]. rewrite (digit_not_space _ Hc). reflexivity.
      * exists c, ("." ++ r ++ exponent (n - 1)). split; [reflexivity |].
        split; [exact Hc | apply not_hex_point].
    + assert (Hc1 : all_digits (String c "") = true)
        by (cbn [all_digits]; rewrite Hc; reflexivity).
      assert (Hc2 : String c "" <> "") by discriminate.
      rewrite (unsigned_literal_point (String c "") r _ (n - 1) Hc1 Hc2 Hr Hx1
                 (exponent_part_exponent _)).
      rewrite <- dec_app. change (String c "" ++ r) with (String c r).
      rewrite Hv. f_equal. unfold n, k, len. cbn [String.length].
      unfold len. lia.
Qed.

Lemma StringToNumber_positive v :
  double v = true -> positive_finite v = true ->
  numeral_shape (positive_to_string v)
  /\ unsigned_literal (positive_to_string v) = v.
Proof.
  intros Hd Hp.
  destruct (positive_to_string_decimal v Hd Hp) as (s & p & Hs & E & ->).
  destruct (unsigned_literal_layout s p Hs) as [H1 H2].
  split; [exact H1 | rewrite H2; exact E].
Qed.

Lemma StringToNumber_minus t :
  numeral_shape t ->
  StringToNumber ("-" ++ t) = negate (unsigned_literal t).
Proof.
  intros (Hs & c & r & E & Hc & Hx). unfold StringToNumber.
  rewrite trim_no_space by (cbn [append no_space]; rewrite Hs; reflexivity).
  reflexivity.
Qed.

(** Written out and read again, a Number is what it was. *)
Lemma StringToNumber_num_to_string v :
  double v = true -> StringToNumber (num_to_string v) = v.
Proof.
  intros Hd. destruct v as [| [] | z | b m e]; try reflexivity.
  - destruct z as [| q | q]; [reflexivity | |].
    + cbn [num_to_string is_negative Z.ltb Z.compare].
      destruct (StringToNumber_positive (Int (Z.pos q)) Hd eq_refl) as [H1 H2].
      rewrite (StringToNumber_shape _ H1). exact H2.
    + cbn [num_to_string is_negative Z.ltb Z.compare negate Z.opp].
      destruct (StringToNumber_positive (Int (Z.pos q))) as [H1 H2];
        [exact Hd | reflexivity |].
      rewrite (StringToNumber_minus _ H1), H2. reflexivity.
  - destruct b.
    + cbn [num_to_string is_negative negate negb].
      destruct (StringToNumber_positive (Frac false m e)) as [H1 H2];
        [exact Hd | reflexivity |].
      rewrite (StringToNumber_minus _ H1), H2. reflexivity.
    + cbn [num_to_string is_negative].
      destruct (StringToNumber_positive (Frac false m e) Hd eq_refl) as [H1 H2].
      rewrite (StringToNumber_shape _ H1). exact H2.
Qed.

Lemma num_to_string_inj n1 n2 :
  double n1 = true -> double n2 = true ->
  num_to_string n1 = num_to_string n2 -> n1 = n2.
Proof.
  intros H1 H2 E.
  rewrite <- (StringToNumber_num_to_string n1 H1),
          <- (StringToNumber_num_to_string n2 H2), E.
  reflexivity.
Qed.

(** *** The characters of a number written out *)

Lemma has_char_zeros c n : has_char c "0" = false -> has_char c (zeros n) = false.
Proof.
  intros H. cbn [has_char] in H. rewrite orb_false_r in H.
  induction n as [| n IH]; [reflexivity |]. cbn [zeros has_char].
  rewrite H, IH. reflexivity.
Qed.

Lemma has_char_substring c s : forall n m,
  has_char c s = false -> has_char c (substring n m s) = false.
Proof.
  induction s as [| a s IH]; intros n m H.
  - destruct n, m; reflexivity.
  - cbn [has_char] in H. apply orb_false_iff in H. destruct H as [Ha Hs].
    destruct n as [| n]; [destruct m as [| m] |]; cbn [substring has_char];
      rewrite ?Ha, ?IH; auto.
Qed.

(** A character that no numeral has in it stays out of what [layout]
    writes. *)
Lemma has_char_layout c ds p :
  has_char c "-+.e0123456789" = false -> has_char c ds = false ->
  has_char c (layout ds p) = false.
Proof.
  intros H Hds.
  assert (H0 : has_char c "0" = false).
  { cbn [has_char] in *. repeat (apply orb_false_iff in H; destruct H as [? H]).
    rewrite orb_false_r. assumption. }
  assert (Hp : has_char c "." = false).
  { cbn [has_char] in *. repeat (apply orb_false_iff in H; destruct H as [? H]).
    rewrite orb_false_r. assumption. }
  assert (He : forall e, has_char c (exponent e) = false).
  { intros e. unfold exponent. rewrite has_char_app.
    rewrite has_char_Z_to_string.
    - rewrite orb_false_r.
      cbn [has_char] in *. repeat (apply orb_false_iff in H; destruct H as [? H]).
      destruct (0 <=? e); cbn [has_char];
        repeat match goal with E : _ = false |- _ => rewrite E; clear E end;
        reflexivity.
    - cbn [has_char] in *. repeat (apply orb_false_iff in H; destruct H as [? H]).
      repeat match goal with E : _ = false |- _ => rewrite E; clear E end;
        reflexivity. }
  assert (H0p : has_char c "0." = false).
  { cbn [has_char] in *. rewrite orb_false_r in *. rewrite H0, Hp. reflexivity. }
  unfold layout.
  destruct (_ && _); [rewrite has_char_app, has_char_zeros, Hds by exact H0;
                      reflexivity |].
  destruct (_ && _);
    [rewrite !has_char_app, !has_char_substring, Hp by exact Hds; reflexivity |].
  destruct (_ && _);
    [rewrite !has_char_app, has_char_zeros, H0p, Hds by exact H0; reflexivity |].
  fold (exponent (p + Z.of_nat (String.length ds) - 1)).
  destruct ds as [| a [| a' r]]; [reflexivity | |];
    cbn [has_char] in Hds; apply orb_false_iff in Hds; destruct Hds as [Ha Hr];
    rewrite has_char_app, He; cbn [has_char append]; rewrite Ha;
    [reflexivity |].
  cbn [has_char] in Hp. rewrite orb_false_r in Hp. rewrite Hp.
  cbn [has_char] in Hr. rewrite Hr. reflexivity.
Qed.

Lemma has_char_positive_to_string c v :
  has_char c "-+.e0123456789" = false ->
  has_char c (positive_to_string v) = false.
Proof.
  intros H. unfold positive_to_string.
  destruct (ratio v) as [a b].
  destruct (match shortest 17 v a b (magnitude a b) 1 with
            | Some r => r
            | None => match v with
                      | Frac _ m e => (Z.pos m * 5 ^ Z.pos e, - Z.pos e)
                      | _ => (a, 0)
                      end
            end) as [s p].
  apply has_char_layout; [exact H |]. apply has_char_Z_to_string.
  cbn [has_char] in *. repeat (apply orb_false_iff in H; destruct H as [? H]).
  repeat match goal with E : _ = false |- _ => rewrite E; clear E end.
  reflexivity.
Qed.

(** A character that occurs in no numeral occurs in no number written
    out. *)
Lemma has_char_num_to_string c n :
  has_char c "-+.e0123456789InfityNa" = false ->
  has_char c (num_to_string n) = false.
Proof.
  intros H.
  assert (Hn : has_char c "-+.e0123456789" = false
               /\ has_char c "-" = false /\ has_char c "Infinity" = false
               /\ has_char c "NaN" = false /\ has_char c "0" = false).
  { cbn [has_char] in *. repeat (apply orb_false_iff in H; destruct H as [? H]).
    repeat split;
      repeat match goal with E : _ = false |- _ => rewrite E; clear E end;
      reflexivity. }
  destruct Hn as (Hl & Hm & Hi & Hna & H0).
  assert (Hneg : forall v, has_char c ("-" ++ positive_to_string v) = false).
  { intros v. rewrite has_char_app, Hm, has_char_positive_to_string by exact Hl.
    reflexivity. }
  destruct n as [| [] | z | b m e]; cbn [num_to_string].
  - exact Hna.
  - change (has_char c ("-" ++ "Infinity") = false).
    rewrite has_char_app, Hm, Hi. reflexivity.
  - exact Hi.
  - destruct z; [exact H0 | |]; cbn [is_negative Z.ltb Z.compare];
      [apply has_char_positive_to_string; exact Hl | apply Hneg].
  - cbn [is_negative]. destruct b;
      [apply Hneg | apply has_char_positive_to_string; exact Hl].
Qed.

(** ** Validation *)

Lemma fold_apply_clause_throw l msg :
  fold_left apply_clause l (Throw msg) = Throw msg.
Proof. induction l as [| c l IH]; simpl; auto. Qed.

Lemma apply_clause_throws d c key value msg :
  clause c = (key, value) -> key <> EmptyString ->
  validate key value = Throw msg ->
  apply_clause (Ok d) c = Throw msg.
Proof.
  intros Hc Hk Hv. unfold apply_clause. simpl. rewrite Hc.
  destruct key; [contradiction |]. rewrite Hv. reflexivity.
Qed.

Lemma fold_apply_clause_aborts l c key value msg :
  In c l -> clause c = (key, value) -> key <> EmptyString ->
  validate key value = Throw msg ->
  forall acc, exists msg', fold_left apply_clause l acc = Throw msg'.
Proof.
  intros Hin Hc Hk Hv.
  induction l as [| x l IH]; [contradiction |].
  intros acc. simpl.
  destruct Hin as [-> | Hin].
  - destruct acc as [d | m].
    + rewrite (apply_clause_throws d c key value msg Hc Hk Hv).
      rewrite fold_apply_clause_throw. eauto.
    + simpl. rewrite fold_apply_clause_throw. eauto.
  - apply IH. exact Hin.
Qed.

Lemma index_from_In s l : forall i, 0 <= i ->
  (In s l -> 0 <= index_from i s l) /\ (~ In s l -> index_from i s l = -1).
Proof.
  induction l as [| x l IH]; intros i Hi; simpl.
  - split; [contradiction | reflexivity].
  - destruct (String.eqb_spec x s) as [-> | Hne].
    + split; [intros _; exact Hi | intros H; exfalso; apply H; auto].
    + destruct (IH (i + 1)) as [H1 H2]; [lia |].
      split.
      * intros [Heq | Hin]; [contradiction | auto].
      * intros Hn. apply H2. intros Hin. apply Hn. auto.
Qed.

(** The name of a member of [Object.prototype] passes validation, whatever
    the value. *)
Lemma validate_inherited_name value :
  validate "constructor" value = Ok value.
Proof. reflexivity. Qed.

(** C9, as the code has it.  [validate] throws for a key that is neither
    in the schema nor the name of a member of [Object.prototype] (so for
    [bogus]); for a numeric key it throws exactly when the value converts
    to [NaN] (so for [width] with [abc]) and otherwise returns the number;
    for an enumerated key it throws exactly when the value is not one of
    the allowed strings; for the boolean key the strings [false], [0] and
    the empty string and the absent value give [false] and every other
    string gives [true]; and when a part of the option string makes
    [validate] throw, [spritefunc] throws: no token is returned and the
    Sprite is left as it was. *)
Theorem validate_cases :
  (forall key value,
      assoc key keys = None -> ~ In key object_prototype ->
      validate key value = Throw ("Invalid key '" ++ key ++ "'"))
  /\ (forall value, validate "bogus" value = Throw "Invalid key 'bogus'")
  /\ (forall key value,
         assoc key keys = Some TNumber ->
         validate key value =
         if isNaN (ToNumber value)
         then Throw ("Invalid number value '" ++ key ++ "' for " ++ key)
         else Ok (VNum (ToNumber value)))
  /\ validate "width" (VStr "abc") = Throw "Invalid number value 'width' for width"
  /\ (forall key values value,
         assoc key keys = Some (TPredefined values) ->
         ((exists s, value = VStr s /\ In s values)
          /\ validate key value = Ok value)
         \/ (~ (exists s, value = VStr s /\ In s values)
             /\ exists msg, validate key value = Throw msg))
  /\ (forall key s,
         assoc key keys = Some TBoolean ->
         validate key (VStr s) =
         Ok (VBool (negb ((s =? "false") || (s =? "0") || (s =? ""))%string)))
  /\ (forall key,
         assoc key keys = Some TBoolean ->
         validate key (VNum (Int 0)) = Ok (VBool false))
  /\ validate "resize" (VStr "0") = Ok (VBool false)
  /\ (forall this filename options c key value msg,
         In c (split ";" (or_default options "")) ->
         clause c = (key, value) -> key <> EmptyString ->
         validate key value = Throw msg ->
         exists msg', spritefunc this filename options = Throw msg').
Proof.
  repeat match goal with |- _ /\ _ => split end.
  - intros key value Hk Hn. unfold validate, keys_get. rewrite Hk.
    destruct (existsb (String.eqb key) object_prototype) eqn:E; [| reflexivity].
    exfalso. apply Hn. apply existsb_exists in E. destruct E as (x & Hx & Heq).
    apply String.eqb_eq in Heq. subst. exact Hx.
  - reflexivity.
  - intros key value Hk. unfold validate, keys_get. rewrite Hk. reflexivity.
  - reflexivity.
  - intros key values value Hk. unfold validate, keys_get. rewrite Hk.
    destruct value as [n | s | b]; simpl.
    + right. split; [intros (s & Hs & _); discriminate | eauto].
    + destruct (in_dec String.string_dec s values) as [Hin | Hn].
      * left. split; [eauto |].
        destruct (index_from_In s values 0) as [H1 _]; [lia |].
        specialize (H1 Hin).
        destruct (Z.ltb_spec (index_from 0 s values) 0); [lia | reflexivity].
      * right. split.
        { intros (s' & Hs & Hin). inversion Hs. subst. contradiction. }
        destruct (index_from_In s values 0) as [_ H2]; [lia |].
        rewrite (H2 Hn). simpl. eauto.
    + right. split; [intros (s & Hs & _); discriminate | eauto].
  - intros key s Hk. unfold validate, keys_get. rewrite Hk.
    unfold loose_eq_str.
    destruct (s =? "false")%string; [reflexivity |].
    destruct (s =? "0")%string; [reflexivity |].
    destruct s; reflexivity.
  - intros key Hk. unfold validate, keys_get. rewrite Hk. reflexivity.
  - reflexivity.
  - intros this filename options c key value msg Hin Hc Hk Hv.
    unfold spritefunc, merged.
    destruct (fold_apply_clause_aborts _ c key value msg Hin Hc Hk Hv
                (Ok (JS.set "filename" (VStr (val filename)) getDefaults)))
      as (msg' & ->).
    simpl. eauto.
Qed.

Lemma validate_cases_witness :
  (assoc "colour" keys = None /\ ~ In "colour" object_prototype
   /\ validate "colour" (VStr "red") = Throw "Invalid key 'colour'")
  /\ (assoc "height" keys = Some TNumber
      /\ validate "height" (VStr " 40 ") = Ok (VNum (Int 40)))
  /\ (assoc "repeat" keys = Some (TPredefined ["no"; "x"; "y"])
      /\ validate "repeat" (VStr "z")
         = Throw "Unknown value 'z' for repeat, allowed: no,x,y")
  /\ (assoc "resize" keys = Some TBoolean
      /\ validate "resize" (VStr "yes") = Ok (VBool true)
      /\ validate "resize" (VNum (Int 0)) = Ok (VBool false))
  /\ (In "width:abc" (split ";" (or_default (Some "height:1;width:abc") ""))
      /\ clause "width:abc" = ("width", VStr "abc")
      /\ validate "width" (VStr "abc")
         = Throw "Invalid number value 'width' for width"
      /\ exists msg',
          spritefunc Example.sprite (Example.file "a.png")
                     (Some "height:1;width:abc") = Throw msg').
Proof.
  destruct validate_cases
    as (Hkey & _ & Hnum & _ & Henum & Hbool & Habsent & _ & Habort).
  assert (Hcolour : ~ In "colour" object_prototype).
  { intros H. simpl in H. intuition discriminate. }
  split; [| split; [| split; [| split]]].
  - split; [reflexivity |]. split; [exact Hcolour |].
    apply Hkey; [reflexivity | exact Hcolour].
  - split; [reflexivity |].
    rewrite (Hnum "height" (VStr " 40 ")); reflexivity.
  - split; reflexivity.
  - split; [reflexivity |]. split.
    + rewrite (Hbool "resize" "yes"); reflexivity.
    + apply (Habsent "resize"). reflexivity.
  - split; [simpl; auto |]. split; [reflexivity |]. split; [reflexivity |].
    apply (Habort Example.sprite (Example.file "a.png")
             (Some "height:1;width:abc") "width:abc" "width" (VStr "abc")
             "Invalid number value 'width' for width");
      [simpl; auto | reflexivity | discriminate | reflexivity].
Defined.

(** C9 as stated fails for a numeral that is not finite: [Infinity]
    converts to a number that is not [NaN], and [validate] returns it. *)
Lemma validate_accepts_Infinity :
  StringToNumber "Infinity" = Inf false
  /\ validate "width" (VStr "Infinity") = Ok (VNum (Inf false))
  /\ ~ (exists msg, validate "width" (VStr "Infinity") = Throw msg).
Proof.
  split; [reflexivity |]. split; [reflexivity |].
  intros (msg & H). discriminate H.
Qed.

(** Numerals with a fraction or an exponent are numbers, and a numeral of
    more than 53 bits is the nearest number that has 53. *)
Lemma validate_numerals :
  validate "width" (VStr "1.5") = Ok (VNum (Frac false 3 1))
  /\ validate "width" (VStr "1e3") = Ok (VNum (Int 1000))
  /\ validate "width" (VStr ".5") = Ok (VNum (Frac false 1 1))
  /\ validate "width" (VStr "-0x1F") = Throw "Invalid number value 'width' for width"
  /\ validate "width" (VStr "9007199254740993") = Ok (VNum (Int 9007199254740992))
  /\ map (fun s => num_to_string (StringToNumber s))
         ["1.50"; "1e21"; "0.000001"; "1e-7"; "18446744073709551616"; "1e309"]
     = ["1.5"; "1e+21"; "0.000001"; "1e-7"; "18446744073709552000"; "Infinity"].
Proof.
  repeat split; vm_compute; reflexivity.
Qed.

(** ** The registry *)

Lemma same_but_registry_refl this : same_but_registry this this.
Proof. repeat split. Qed.

Lemma same_but_registry_trans a b c :
  same_but_registry a b -> same_but_registry b c -> same_but_registry a c.
Proof.
  unfold same_but_registry. intros H1 H2.
  decompose [and] H1. decompose [and] H2. repeat split; congruence.
Qed.

Lemma cached_fold h l : forall acc,
  fold_left (fun found elm => if (hash elm =? h)%string then Some elm else found)
            l acc
  = match cached h l with
    | Some e => Some e
    | None => acc
    end.
Proof.
  unfold cached. induction l as [| x l IH]; intros acc; simpl; [reflexivity |].
  rewrite IH. rewrite (IH (if (hash x =? h)%string then Some x else None)).
  destruct (fold_left _ l None); [reflexivity |].
  destruct (hash x =? h)%string; reflexivity.
Qed.

Lemma cached_cons h x l :
  cached h (x :: l)
  = match cached h l with
    | Some e => Some e
    | None => if (hash x =? h)%string then Some x else None
    end.
Proof. unfold cached at 1. simpl. apply cached_fold. Qed.

Lemma cached_Some h l e : cached h l = Some e -> In e l /\ hash e = h.
Proof.
  induction l as [| x l IH]; [discriminate |].
  rewrite cached_cons. destruct (cached h l) as [e' |].
  - intros H. injection H as ->. destruct IH; auto. split; [right |]; auto.
  - destruct (String.eqb_spec (hash x) h); [| discriminate].
    intros H. injection H as ->. split; [left |]; auto.
Qed.

Lemma cached_None h l : cached h l = None -> forall e, In e l -> hash e <> h.
Proof.
  induction l as [| x l IH]; [contradiction |].
  rewrite cached_cons. destruct (cached h l) as [e' |]; [discriminate |].
  destruct (String.eqb_spec (hash x) h); [discriminate |].
  intros _ e [-> | Hin]; auto.
Qed.

Lemma cached_In h l e :
  In e l -> hash e = h -> exists e', cached h l = Some e'.
Proof.
  intros Hin Hh. destruct (cached h l) eqn:E; [eauto |].
  exfalso. exact (cached_None h l E e Hin Hh).
Qed.

(** What a successful call of [spritefunc] does. *)
Lemma spritefunc_inv this filename options tok this' :
  spritefunc this filename options = Ok (tok, this') ->
  exists r,
    merged (val filename) options = Ok r
    /\ same_but_registry this this'
    /\ ((exists e, cached (signature r) (images this) = Some e
                   /\ tok = token (placeholder this) (entry_id e)
                   /\ this' = this)
        \/ (cached (signature r) (images this) = None
            /\ tok = token (placeholder this) (_img_id this + 1)
            /\ _img_id this' = _img_id this + 1
            /\ images this'
               = (images this
                    ++ [ {| attrs := r; hash := signature r;
                            entry_id := _img_id this + 1;
                            entry_lineno := node_lineno filename |} ])%list)).
Proof.
  unfold spritefunc. destruct (merged (val filename) options) as [r | m];
    simpl; [| discriminate].
  intros H. exists r. split; [reflexivity |].
  destruct (cached (signature r) (images this)) as [e |] eqn:E.
  - injection H as <- <-. split; [apply same_but_registry_refl |].
    left. eauto.
  - injection H as <- <-. split; [repeat split |]. right. repeat split.
Qed.

Lemma spritefunc_merged this filename options r :
  merged (val filename) options = Ok r ->
  exists tok this', spritefunc this filename options = Ok (tok, this').
Proof.
  intros H. unfold spritefunc. rewrite H. simpl.
  destruct (cached (signature r) (images this)); eauto.
Qed.

Lemma ids_from_app n : forall first,
  ids_from first (n + 1) = (ids_from first n ++ [first + Z.of_nat n])%list.
Proof.
  induction n as [| n IH]; intros first; simpl.
  - f_equal. lia.
  - rewrite IH. do 2 f_equal. f_equal. lia.
Qed.

Lemma ids_from_bounds n : forall first id,
  In id (ids_from first n) -> first <= id < first + Z.of_nat n.
Proof.
  induction n as [| n IH]; intros first id; simpl; [contradiction |].
  intros [<- | Hin]; [lia |]. apply IH in Hin. lia.
Qed.

Lemma ids_from_NoDup n : forall first, NoDup (ids_from first n).
Proof.
  induction n as [| n IH]; intros first; simpl; constructor; auto.
  intros Hin. apply ids_from_bounds in Hin. lia.
Qed.

Lemma new_Sprite_inv o this :
  new_Sprite o = Ok this ->
  images this = [] /\ processedImages this = [] /\ _img_id this = 0
  /\ canvasWidth this = 0 /\ canvasHeight this = 0 /\ padding this = 10.
Proof.
  unfold new_Sprite.
  destruct (index_from 0 _ _ <? 0); [discriminate |].
  intros H. injection H as <-. repeat split.
Qed.

Lemma spritefunc_registry_ok this filename options tok this' :
  registry_ok this ->
  spritefunc this filename options = Ok (tok, this') ->
  registry_ok this'.
Proof.
  intros (Hids & Hn & Hnd) H.
  destruct (spritefunc_inv _ _ _ _ _ H) as (r & _ & _ & [(e & _ & _ & ->) | Hnew]).
  - repeat split; assumption.
  - destruct Hnew as (Hc & _ & Hid & Him).
    unfold registry_ok. rewrite Him, Hid, !map_app, length_app. simpl.
    rewrite ids_from_app, Hids, Hn. split; [| split].
    + do 2 f_equal. lia.
    + lia.
    + apply NoDup_app; [exact Hnd | repeat constructor; auto | ].
      intros h Hin [<- | []]. apply in_map_iff in Hin.
      destruct Hin as (e & He & Hin). exact (cached_None _ _ Hc e Hin He).
Qed.

Lemma later_trans a b c : later a b -> later b c -> later a c.
Proof.
  intros Hab Hbc. induction Hbc as [| this1 f o tok this2 _ IH Hcall].
  - exact Hab.
  - eapply later_call; [exact IH | exact Hcall].
Qed.

Lemma later_inv a b :
  later a b ->
  same_but_registry a b
  /\ (registry_ok a -> registry_ok b)
  /\ (exists more, images b = (images a ++ more)%list)
  /\ _img_id a <= _img_id b.
Proof.
  induction 1 as [| this1 f o tok this2 _ IH Hcall].
  - split; [apply same_but_registry_refl |]. split; [auto |].
    split; [exists []; rewrite app_nil_r; reflexivity | lia].
  - destruct IH as (Hs & Hok & (more & Hm) & Hle).
    destruct (spritefunc_inv _ _ _ _ _ Hcall)
      as (r & _ & Hs' & [(e & _ & _ & ->) | (_ & _ & Hid & Him)]).
    + split; [exact Hs |]. split; [exact Hok |]. split; [eauto | exact Hle].
    + split; [eapply same_but_registry_trans; eauto |].
      split; [intros Ha; exact (spritefunc_registry_ok _ _ _ _ _ (Hok Ha) Hcall) |].
      split; [| lia].
      rewrite Him, Hm, <- app_assoc. eauto.
Qed.

Lemma registered_inv this :
  registered this ->
  registry_ok this /\ processedImages this = [] /\ canvasWidth this = 0
  /\ canvasHeight this = 0 /\ padding this = 10.
Proof.
  intros (o & this0 & Hnew & Hl).
  destruct (new_Sprite_inv _ _ Hnew) as (Hi & Hp & Hid & Hw & Hh & Hpad).
  destruct (later_inv _ _ Hl) as (Hs & Hok & _ & _).
  unfold same_but_registry in Hs. decompose [and] Hs.
  split.
  - apply Hok. unfold registry_ok. rewrite Hi, Hid. simpl.
    repeat split. constructor.
  - repeat split; congruence.
Qed.

Lemma registered_later this this' :
  registered this -> later this this' -> registered this'.
Proof.
  intros (o & this0 & Hnew & Hl) Hl'. exists o, this0. split; [exact Hnew |].
  eapply later_trans; eauto.
Qed.

(** ** Sorting the keys *)

Lemma str_lt_irrefl a : ~ str_lt a a.
Proof.
  unfold str_lt. intros H.
  exact (StrictOrder_Irreflexive (R := String_as_OT.lt) a H).
Qed.

Lemma str_lt_trans a b c : str_lt a b -> str_lt b c -> str_lt a c.
Proof.
  unfold str_lt. intros H1 H2.
  exact (StrictOrder_Transitive (R := String_as_OT.lt) a b c H1 H2).
Qed.

Lemma str_leb_cases a b :
  (str_leb a b = true /\ (a = b \/ str_lt a b))
  \/ (str_leb a b = false /\ str_lt b a).
Proof.
  unfold str_leb.
  destruct (String_as_OT.compare_spec a b) as [Heq | Hlt | Hgt].
  - left. auto.
  - left. split; [reflexivity | right; exact Hlt].
  - right. split; [reflexivity | exact Hgt].
Qed.

Lemma insert_sorted_In x l : forall y,
  In y (insert_sorted x l) <-> y = x \/ In y l.
Proof.
  induction l as [| a l IH]; intros y; simpl.
  - intuition.
  - destruct (str_leb x a); simpl; [intuition |].
    rewrite IH. intuition.
Qed.

Lemma sort_In l : forall y, In y (sort l) <-> In y l.
Proof.
  induction l as [| a l IH]; intros y; simpl; [tauto |].
  rewrite insert_sorted_In, IH. intuition.
Qed.

Lemma insert_sorted_sorted x l :
  StronglySorted str_lt l -> ~ In x l ->
  StronglySorted str_lt (insert_sorted x l).
Proof.
  induction 1 as [| a l Hs IH Ha]; intros Hx; simpl.
  - repeat constructor.
  - destruct (str_leb_cases x a) as [(-> & [-> | Hlt]) | (-> & Hgt)].
    + exfalso. apply Hx. left. reflexivity.
    + constructor; [constructor; assumption |].
      constructor; [exact Hlt |].
      eapply Forall_impl; [| exact Ha]. intros b. apply str_lt_trans. exact Hlt.
    + constructor.
      * apply IH. intros H. apply Hx. right. exact H.
      * apply Forall_forall. intros y Hy. apply insert_sorted_In in Hy.
        destruct Hy as [-> | Hy]; [exact Hgt |].
        rewrite Forall_forall in Ha. auto.
Qed.

Lemma sort_sorted l : NoDup l -> StronglySorted str_lt (sort l).
Proof.
  induction 1 as [| a l Ha _ IH]; simpl; [constructor |].
  apply insert_sorted_sorted; [exact IH |].
  rewrite sort_In. exact Ha.
Qed.

(** Two strictly sorted lists with the same elements are the same list. *)
Lemma sorted_unique l1 : forall l2,
  StronglySorted str_lt l1 -> StronglySorted str_lt l2 ->
  (forall x, In x l1 <-> In x l2) -> l1 = l2.
Proof.
  induction l1 as [| a l1 IH]; intros [| b l2] H1 H2 Hin.
  - reflexivity.
  - exfalso. apply (Hin b). left. reflexivity.
  - exfalso. apply (Hin a). left. reflexivity.
  - inversion H1 as [| ? ? Hs1 Ha]. inversion H2 as [| ? ? Hs2 Hb]. subst.
    rewrite Forall_forall in Ha, Hb.
    assert (Hab : a = b).
    { destruct (proj1 (Hin a) (or_introl eq_refl)) as [Hba | Hal2];
        [auto |].
      destruct (proj2 (Hin b) (or_introl eq_refl)) as [Hba | Hbl1];
        [auto |].
      exfalso. apply (str_lt_irrefl a).
      eapply str_lt_trans; [apply Ha; exact Hbl1 | apply Hb; exact Hal2]. }
    subst b. f_equal. apply IH; [assumption | assumption |].
    intros x. split; intros Hx.
    + destruct (proj1 (Hin x) (or_intror Hx)) as [<- | H]; [| exact H].
      exfalso. exact (str_lt_irrefl _ (Ha _ Hx)).
    + destruct (proj2 (Hin x) (or_intror Hx)) as [<- | H]; [| exact H].
      exfalso. exact (str_lt_irrefl _ (Hb _ Hx)).
Qed.

Lemma filter_sorted (f : string -> bool) l :
  StronglySorted str_lt l -> StronglySorted str_lt (filter f l).
Proof.
  induction 1 as [| a l Hs IH Ha]; simpl; [constructor |].
  destruct (f a); [| exact IH].
  constructor; [exact IH |].
  rewrite Forall_forall in *. intros x Hx. apply filter_In in Hx.
  apply Ha. tauto.
Qed.

Lemma attribute_names_sorted : StronglySorted str_lt attribute_names.
Proof.
  apply sort_sorted.
  repeat constructor; simpl; intuition discriminate.
Qed.

Lemma existsb_eqb_In k l : existsb (String.eqb k) l = true <-> In k l.
Proof.
  rewrite existsb_exists. split.
  - intros (x & Hx & He). apply String.eqb_eq in He. subst. exact Hx.
  - intros H. exists k. split; [exact H | apply String.eqb_refl].
Qed.

(** The sorted keys of a record are the attribute names it has, in their
    fixed order. *)
Lemma sort_keys_filter l :
  NoDup l -> (forall k, In k l -> In k attribute_names) ->
  sort l = filter (fun k => existsb (String.eqb k) l) attribute_names.
Proof.
  intros Hnd Hsub. apply sorted_unique.
  - apply sort_sorted. exact Hnd.
  - apply filter_sorted. apply attribute_names_sorted.
  - intros x. rewrite sort_In, filter_In, existsb_eqb_In. split; [auto | tauto].
Qed.

(** ** Records *)

Lemma get_set_eq k v o : JS.get k (JS.set k v o) = Some v.
Proof.
  induction o as [| [k' v'] o IH]; simpl.
  - rewrite String.eqb_refl. reflexivity.
  - destruct (String.eqb_spec k' k) as [-> | Hne]; simpl.
    + rewrite String.eqb_refl. reflexivity.
    + destruct (String.eqb_spec k' k); [contradiction | exact IH].
Qed.

Lemma get_set_neq k k' v o :
  k <> k' -> JS.get k' (JS.set k v o) = JS.get k' o.
Proof.
  intros Hne. induction o as [| [k0 v0] o IH]; simpl.
  - destruct (String.eqb_spec k k'); [contradiction | reflexivity].
  - destruct (String.eqb_spec k0 k) as [-> | Hne0]; simpl.
    + destruct (String.eqb_spec k k'); [contradiction | reflexivity].
    + rewrite IH. reflexivity.
Qed.

Lemma keys_of_set_In k v o k' :
  In k' (keys_of (JS.set k v o)) <-> k' = k \/ In k' (keys_of o).
Proof.
  unfold keys_of. induction o as [| [k0 v0] o IH]; simpl.
  - intuition.
  - destruct (String.eqb_spec k0 k) as [-> | Hne]; simpl.
    + intuition.
    + rewrite IH. intuition.
Qed.

Lemma keys_of_set_NoDup k v o :
  NoDup (keys_of o) -> NoDup (keys_of (JS.set k v o)).
Proof.
  unfold keys_of. induction o as [| [k0 v0] o IH]; simpl; intros Hnd.
  - repeat constructor. intros [].
  - inversion Hnd as [| ? ? Hnotin Hnd']. subst.
    destruct (String.eqb_spec k0 k) as [-> | Hne]; simpl.
    + constructor; assumption.
    + constructor; [| apply IH; exact Hnd'].
      intros Hin. apply (keys_of_set_In k v o k0) in Hin.
      destruct Hin as [-> | Hin]; [contradiction | apply Hnotin; exact Hin].
Qed.

Lemma get_In_keys k o : JS.get k o <> None <-> In k (keys_of o).
Proof.
  unfold keys_of. induction o as [| [k0 v0] o IH]; simpl.
  - tauto.
  - destruct (String.eqb_spec k0 k) as [-> | Hne].
    + split; [auto | discriminate].
    + rewrite IH. intuition.
Qed.

Lemma get_Some_In_keys k v o : JS.get k o = Some v -> In k (keys_of o).
Proof. intros H. apply get_In_keys. rewrite H. discriminate. Qed.

Lemma In_keys_get k o : In k (keys_of o) -> exists v, JS.get k o = Some v.
Proof.
  intros H. apply get_In_keys in H.
  destruct (JS.get k o); [eauto | contradiction].
Qed.

Lemma same_record_keys r1 r2 :
  same_record r1 r2 -> forall k, In k (keys_of r1) <-> In k (keys_of r2).
Proof.
  intros H k. rewrite <- !get_In_keys, (H k). tauto.
Qed.

Lemma keys_get_Own key t : keys_get key = Own t <-> assoc key keys = Some t.
Proof.
  unfold keys_get. destruct (assoc key keys) as [t' |].
  - split; intros H; injection H as ->; reflexivity.
  - destruct (existsb _ _); split; discriminate.
Qed.

Lemma keys_get_Inherited key :
  keys_get key = Inherited -> In key object_prototype.
Proof.
  unfold keys_get. destruct (assoc key keys); [discriminate |].
  destruct (existsb (String.eqb key) object_prototype) eqn:E;
    [| discriminate].
  intros _. apply existsb_eqb_In. exact E.
Qed.

Lemma ToNumber_double value : proper value = true -> double (ToNumber value) = true.
Proof.
  destruct value as [n | s | []]; cbn [proper ToNumber]; intros H;
    [exact H | apply StringToNumber_double | reflexivity | reflexivity].
Qed.

(** What the parts of an option string hold is a string or the number 0. *)
Lemma clause_proper c : proper (snd (clause c)) = true.
Proof.
  unfold clause. destruct (split ":" c) as [| p0 parts]; [reflexivity |].
  destruct p0; [reflexivity |]. destruct parts; reflexivity.
Qed.

(** What [validate] returns has the form the schema prescribes. *)
Lemma validate_typed key value v :
  proper value = true ->
  validate key value = Ok v ->
  typed_ok key v = true \/ In key object_prototype.
Proof.
  intros Hp. unfold validate. destruct (keys_get key) as [t | |] eqn:E.
  - apply keys_get_Own in E. unfold typed_ok. rewrite E.
    destruct t as [| values |].
    + destruct (isNaN (ToNumber value)) eqn:En; [discriminate |].
      intros H. injection H as <-. left.
      rewrite En, (ToNumber_double _ Hp). reflexivity.
    + destruct (indexOf value values <? 0) eqn:Ei; [discriminate |].
      intros H. injection H as <-. left.
      destruct value as [n | s | b]; simpl in Ei; try discriminate.
      apply existsb_eqb_In.
      destruct (in_dec String.string_dec s values) as [Hin | Hn];
        [exact Hin |].
      destruct (index_from_In s values 0) as [_ H2]; [lia |].
      rewrite (H2 Hn) in Ei. discriminate.
    + intros H. injection H as <-. left. reflexivity.
  - intros _. right. apply keys_get_Inherited. exact E.
  - discriminate.
Qed.

Lemma assign_well_formed key v d :
  well_formed d ->
  typed_ok key v = true \/ In key object_prototype ->
  well_formed (assign key v d).
Proof.
  intros (Hnd & Hdef & Hty) Hv. unfold assign.
  destruct (key =? "__proto__")%string; [repeat split; assumption |].
  split; [apply keys_of_set_NoDup; exact Hnd |]. split.
  - intros k Hk. apply keys_of_set_In. right. auto.
  - intros k v' Hg. destruct (String.string_dec key k) as [-> | Hne].
    + rewrite get_set_eq in Hg. injection Hg as <-. exact Hv.
    + rewrite get_set_neq in Hg by exact Hne. eauto.
Qed.

Lemma apply_clause_well_formed d c d' :
  well_formed d -> apply_clause (Ok d) c = Ok d' -> well_formed d'.
Proof.
  intros Hwf. unfold apply_clause. simpl.
  pose proof (clause_proper c) as Hp.
  destruct (clause c) as [key value].
  destruct key as [| a key]; [intros H; injection H as <-; exact Hwf |].
  destruct (validate (String a key) value) as [v |] eqn:E; simpl;
    [| discriminate].
  intros H. injection H as <-.
  apply assign_well_formed; [exact Hwf |].
  eapply validate_typed; [exact Hp | exact E].
Qed.

Lemma fold_apply_clause_well_formed l : forall d r,
  well_formed d -> fold_left apply_clause l (Ok d) = Ok r -> well_formed r.
Proof.
  induction l as [| c l IH]; intros d r Hwf H; cbn [fold_left] in H.
  - injection H as <-. exact Hwf.
  - destruct (apply_clause (Ok d) c) as [d' | m] eqn:E.
    + eapply IH; [| exact H]. eapply apply_clause_well_formed; eauto.
    + rewrite fold_apply_clause_throw in H. discriminate.
Qed.

Lemma base_record f :
  JS.set "filename" (VStr f) getDefaults
  = [ ("width", VNum (Int 0));
      ("height", VNum (Int 0));
      ("align", VStr "block");
      ("valign", VStr "block");
      ("resize", VBool false);
      ("repeat", VStr "no");
      ("limit-repeat-y", VNum (Int 300));
      ("limit-repeat-x", VNum (Int 0));
      ("filename", VStr f) ].
Proof. reflexivity. Qed.

Lemma base_well_formed f :
  well_formed (JS.set "filename" (VStr f) getDefaults).
Proof.
  rewrite base_record. split; [| split].
  - simpl. repeat constructor; simpl; intuition discriminate.
  - intros k Hk. simpl in *. intuition.
  - intros k v H. left. cbn [JS.get] in H.
    repeat match type of H with
           | (if (?a =? k)%string then _ else _) = _ =>
               destruct (String.eqb_spec a k) as [<- | _];
               [injection H as <-; reflexivity |]
           end.
    discriminate.
Qed.

Lemma merged_well_formed f o r : merged f o = Ok r -> well_formed r.
Proof.
  unfold merged. apply fold_apply_clause_well_formed. apply base_well_formed.
Qed.

(** ** The signature *)

Lemma attribute_names_eq :
  attribute_names
  = [ "align"; "filename"; "height"; "limit-repeat-x"; "limit-repeat-y";
      "padheight"; "padwidth"; "repeat"; "resize"; "totalheight";
      "totalwidth"; "valign"; "width" ].
Proof. reflexivity. Qed.

Lemma join_cons x l : join ";" (x :: l) = x ++ tail_join l.
Proof.
  unfold join. revert x. induction l as [| y l IH]; intros x.
  - simpl. rewrite append_nil_r. reflexivity.
  - change (String.concat ";" (x :: y :: l))
      with (x ++ ";" ++ String.concat ";" (y :: l)).
    rewrite IH. reflexivity.
Qed.

Lemma signature_same_record r1 r2 :
  NoDup (keys_of r1) -> NoDup (keys_of r2) -> same_record r1 r2 ->
  signature r1 = signature r2.
Proof.
  intros H1 H2 Hs. unfold signature.
  assert (Hk : sort (keys_of r1) = sort (keys_of r2)).
  { apply sorted_unique; try (apply sort_sorted; assumption).
    intros x. rewrite !sort_In. apply same_record_keys. exact Hs. }
  rewrite Hk. f_equal. apply map_ext. intros k.
  unfold render, valstr. rewrite (Hs k). reflexivity.
Qed.

Lemma split_at c : forall a b x y,
  has_char c a = false -> has_char c b = false ->
  a ++ String c x = b ++ String c y -> a = b /\ x = y.
Proof.
  induction a as [| a0 a IH]; intros [| b0 b] x y Ha Hb H; simpl in *.
  - injection H as ->. auto.
  - injection H as <- _. rewrite Ascii.eqb_refl in Hb. discriminate.
  - injection H as -> _. rewrite Ascii.eqb_refl in Ha. discriminate.
  - apply orb_false_iff in Ha. apply orb_false_iff in Hb.
    injection H as -> H. destruct (IH b x y) as [-> ->]; tauto.
Qed.

Lemma append_tail_join_inj x y l1 l2 :
  has_char ";" x = false -> has_char ";" y = false ->
  x ++ tail_join l1 = y ++ tail_join l2 ->
  x = y /\ tail_join l1 = tail_join l2.
Proof.
  intros Hx Hy H. destruct l1 as [| z1 l1]; destruct l2 as [| z2 l2];
    cbn [tail_join] in *.
  - rewrite !append_nil_r in H. auto.
  - exfalso. rewrite append_nil_r in H. subst x.
    rewrite has_char_app in Hx. simpl in Hx.
    rewrite orb_true_r in Hx. discriminate.
  - exfalso. rewrite append_nil_r in H. subst y.
    rewrite has_char_app in Hy. simpl in Hy.
    rewrite orb_true_r in Hy. discriminate.
  - simpl in H. destruct (split_at ";" x y _ _ Hx Hy H) as [-> E].
    split; [reflexivity |]. simpl. f_equal. exact E.
Qed.

Lemma tail_join_inj l1 : forall l2,
  Forall (fun x => has_char ";" x = false) l1 ->
  Forall (fun x => has_char ";" x = false) l2 ->
  tail_join l1 = tail_join l2 -> l1 = l2.
Proof.
  induction l1 as [| x l1 IH]; intros [| y l2] H1 H2 H;
    try reflexivity; try discriminate H.
  inversion H1; inversion H2; subst. simpl in H. injection H as H.
  destruct (append_tail_join_inj x y l1 l2) as [-> E]; try assumption.
  f_equal. apply IH; assumption.
Qed.

Lemma prefix_app p s : String.prefix p (p ++ s) = true.
Proof.
  induction p as [| a p IH]; [destruct s; reflexivity |].
  apply prefix_cons. auto.
Qed.

Lemma occurs_prefix p s : String.prefix p s = true -> occurs p s = true.
Proof. intros H. destruct s; cbn [occurs]; rewrite H; reflexivity. Qed.

Lemma occurs_mid p a b : occurs p (a ++ p ++ b) = true.
Proof.
  induction a as [| c a IH]; cbn [append occurs].
  - apply occurs_prefix, prefix_app.
  - rewrite IH. apply orb_true_r.
Qed.

(** The file name ends where the last [;h] of the signature begins. *)
Lemma split_at_last_sh F1 : forall F2 X1 X2,
  occurs ";h" X1 = false -> occurs ";h" X2 = false ->
  F1 ++ ";h" ++ X1 = F2 ++ ";h" ++ X2 -> F1 = F2 /\ X1 = X2.
Proof.
  induction F1 as [| c F1 IH]; intros [| c2 F2] X1 X2 H1 H2 H.
  - simpl in H. injection H as ->. auto.
  - exfalso. simpl in H. injection H as <- H.
    destruct F2 as [| c3 F2]; simpl in H; [discriminate H |].
    injection H as <- ->. change (F2 ++ String ";" (String "h" X2))
      with (F2 ++ ";h" ++ X2) in H1.
    rewrite occurs_mid in H1. discriminate.
  - exfalso. simpl in H. injection H as -> H.
    destruct F1 as [| c3 F1]; simpl in H; [discriminate H |].
    injection H as -> <-. change (F1 ++ String ";" (String "h" X1))
      with (F1 ++ ";h" ++ X1) in H2.
    rewrite occurs_mid in H2. discriminate.
  - simpl in H. injection H as -> H.
    destruct (IH F2 X1 X2 H1 H2 H) as [-> ->]. auto.
Qed.

Lemma occurs_sh_skip a Y :
  has_char ";" a = false -> occurs ";h" (a ++ Y) = occurs ";h" Y.
Proof.
  induction a as [| c a IH]; intros Ha; [reflexivity |].
  simpl in Ha. apply orb_false_iff in Ha. destruct Ha as [Hc Ha].
  cbn [append occurs]. rewrite IH by exact Ha.
  destruct (String.prefix ";h" (String c (a ++ Y))) eqn:E; [| reflexivity].
  apply prefix_cons in E. destruct E as [<- _].
  rewrite Ascii.eqb_refl in Hc. discriminate.
Qed.

Lemma occurs_sh_tail_join l :
  Forall (fun x => has_char ";" x = false /\ String.prefix "h" x = false) l ->
  occurs ";h" (tail_join l) = false.
Proof.
  induction 1 as [| x l [Hs Hh] _ IH]; [reflexivity |].
  cbn [tail_join append occurs].
  rewrite occurs_sh_skip by exact Hs. rewrite IH, orb_false_r.
  destruct (String.prefix ";h" (String ";" (x ++ tail_join l))) eqn:E;
    [| reflexivity].
  apply prefix_cons in E. destruct E as [_ E].
  destruct x as [| c x].
  - destruct l; discriminate E.
  - cbn [append] in E. apply prefix_cons in E. destruct E as [<- _].
    assert (Ht : String.prefix "h" (String "h" x) = true).
    { apply prefix_cons. split; [reflexivity | destruct x; reflexivity]. }
    rewrite Ht in Hh. discriminate Hh.
Qed.

Lemma render_valstr r k : render r k = k ++ "=" ++ valstr r k.
Proof. reflexivity. Qed.

Lemma signature_render r :
  signature r = join ";" (map (render r) (sort (keys_of r))).
Proof. reflexivity. Qed.

Lemma assoc_keys_values k values :
  assoc k keys = Some (TPredefined values) ->
  Forall (fun s => has_char ";" s = false) values.
Proof.
  intros H. unfold keys in H. cbn [assoc] in H.
  repeat match type of H with
         | (if ?c then _ else _) = _ =>
             destruct c;
             [first [discriminate H
                    | injection H as <-; repeat constructor] |]
         end.
  discriminate H.
Qed.

Lemma typed_no_semi k v :
  typed_ok k v = true -> k <> "filename" ->
  has_char ";" (ToString v) = false.
Proof.
  unfold typed_ok. destruct (assoc k keys) as [[| values |] |] eqn:E.
  - destruct v as [n | |]; try discriminate. intros _ _.
    apply has_char_num_to_string. reflexivity.
  - destruct v as [| s |]; try discriminate. intros H _.
    apply existsb_eqb_In in H.
    pose proof (assoc_keys_values _ _ E) as Hf.
    rewrite Forall_forall in Hf. apply Hf. exact H.
  - destruct v as [| | [|]]; try discriminate; reflexivity.
  - destruct (String.eqb_spec k "filename"); [contradiction | discriminate].
Qed.

Lemma typed_inj k v1 v2 :
  typed_ok k v1 = true -> typed_ok k v2 = true ->
  ToString v1 = ToString v2 -> v1 = v2.
Proof.
  unfold typed_ok. destruct (assoc k keys) as [[| values |] |].
  - destruct v1 as [n1 | |]; try discriminate.
    destruct v2 as [n2 | |]; try discriminate.
    intros H1 H2 H. apply andb_true_iff in H1, H2. f_equal.
    apply num_to_string_inj; [apply H1 | apply H2 | exact H].
  - destruct v1 as [| s1 |]; try discriminate.
    destruct v2 as [| s2 |]; try discriminate.
    simpl. intros _ _ ->. reflexivity.
  - destruct v1 as [| | [|]]; try discriminate;
      destruct v2 as [| | [|]]; try discriminate;
      intros _ _ H; try reflexivity; discriminate H.
  - destruct (k =? "filename")%string; [| discriminate].
    destruct v1 as [| s1 |]; try discriminate.
    destruct v2 as [| s2 |]; try discriminate.
    simpl. intros _ _ ->. reflexivity.
Qed.

Lemma schema_only_In r k :
  schema_only r = true -> In k (keys_of r) -> In k attribute_names.
Proof.
  unfold schema_only. rewrite forallb_forall. intros H Hk.
  apply existsb_eqb_In. apply H. exact Hk.
Qed.

Lemma strong_typed r k v :
  well_formed r -> schema_only r = true -> JS.get k r = Some v ->
  typed_ok k v = true /\ In k attribute_names.
Proof.
  intros (_ & _ & Hty) Hs Hg.
  assert (Hk : In k attribute_names).
  { eapply schema_only_In; [exact Hs |]. eapply get_Some_In_keys. exact Hg. }
  split; [| exact Hk].
  destruct (Hty k v Hg) as [H | Hp]; [exact H |].
  exfalso. rewrite attribute_names_eq in Hk. simpl in Hk, Hp.
  intuition (subst; discriminate).
Qed.

Lemma attribute_names_chars k :
  In k attribute_names ->
  has_char "=" k = false /\ has_char ";" k = false.
Proof.
  rewrite attribute_names_eq. simpl.
  intuition (subst; reflexivity).
Qed.

Lemma sorted_keys_shape r :
  well_formed r -> schema_only r = true ->
  sort (keys_of r)
  = "align" :: "filename" :: "height"
      :: filter (fun k => existsb (String.eqb k) (keys_of r))
           [ "limit-repeat-x"; "limit-repeat-y"; "padheight"; "padwidth";
             "repeat"; "resize"; "totalheight"; "totalwidth"; "valign";
             "width" ].
Proof.
  intros (Hnd & Hdef & _) Hs.
  rewrite sort_keys_filter;
    [| exact Hnd | intros k; apply schema_only_In; exact Hs].
  rewrite attribute_names_eq. cbn [filter].
  assert (Hin : forall k, In k default_names ->
                          existsb (String.eqb k) (keys_of r) = true).
  { intros k Hk. apply existsb_eqb_In. auto. }
  rewrite (Hin "align"), (Hin "filename"), (Hin "height");
    [reflexivity | simpl; tauto ..].
Qed.

Lemma render_no_semi r k :
  well_formed r -> schema_only r = true ->
  In k (keys_of r) -> k <> "filename" ->
  has_char ";" (render r k) = false.
Proof.
  intros Hwf Hs Hk Hne. destruct (In_keys_get _ _ Hk) as (v & Hg).
  destruct (strong_typed _ _ _ Hwf Hs Hg) as (Hty & Hin).
  rewrite render_valstr, !has_char_app.
  rewrite (proj2 (attribute_names_chars k Hin)).
  unfold valstr. rewrite Hg.
  rewrite (typed_no_semi _ _ Hty Hne). reflexivity.
Qed.

Lemma map_render_inj r1 r2 l1 : forall l2,
  Forall (fun k => has_char "=" k = false) l1 ->
  Forall (fun k => has_char "=" k = false) l2 ->
  map (render r1) l1 = map (render r2) l2 ->
  l1 = l2 /\ forall k, In k l1 -> valstr r1 k = valstr r2 k.
Proof.
  induction l1 as [| k1 l1 IH]; intros [| k2 l2] H1 H2 H;
    try discriminate H.
  - split; [reflexivity | contradiction].
  - inversion H1; inversion H2; subst. simpl in H. injection H as Hk Hl.
    rewrite !render_valstr in Hk.
    destruct (split_at "=" k1 k2 _ _ ltac:(assumption) ltac:(assumption) Hk)
      as [-> Hv].
    destruct (IH l2 ltac:(assumption) ltac:(assumption) Hl) as [-> Hvs].
    split; [reflexivity |].
    intros k [<- | Hin]; [exact Hv | auto].
Qed.

Lemma filename_value r :
  well_formed r -> schema_only r = true ->
  exists F, JS.get "filename" r = Some (VStr F).
Proof.
  intros Hwf Hs.
  destruct Hwf as (Hnd & Hdef & Hty).
  destruct (In_keys_get "filename" r) as (v & Hg);
    [apply Hdef; simpl; tauto |].
  destruct (strong_typed r _ _ (conj Hnd (conj Hdef Hty)) Hs Hg) as (Ht & _).
  unfold typed_ok in Ht. simpl in Ht.
  destruct v as [| F |]; try discriminate. eauto.
Qed.

(** The signature determines the record. *)
Lemma signature_inj r1 r2 :
  well_formed r1 -> well_formed r2 ->
  schema_only r1 = true -> schema_only r2 = true ->
  signature r1 = signature r2 -> same_record r1 r2.
Proof.
  intros Hwf1 Hwf2 Hs1 Hs2 H.
  pose proof (sorted_keys_shape r1 Hwf1 Hs1) as Hk1.
  pose proof (sorted_keys_shape r2 Hwf2 Hs2) as Hk2.
  set (names := [ "limit-repeat-x"; "limit-repeat-y"; "padheight"; "padwidth";
                  "repeat"; "resize"; "totalheight"; "totalwidth"; "valign";
                  "width" ]) in *.
  set (tl1 := filter (fun k => existsb (String.eqb k) (keys_of r1)) names) in *.
  set (tl2 := filter (fun k => existsb (String.eqb k) (keys_of r2)) names) in *.
  assert (Hdef : forall r, well_formed r ->
            In "align" (keys_of r) /\ In "height" (keys_of r)).
  { intros r (_ & Hd & _). split; apply Hd; simpl; tauto. }
  assert (Htl : forall r, well_formed r -> schema_only r = true ->
            Forall (fun x => has_char ";" x = false
                             /\ String.prefix "h" x = false)
                   (map (render r)
                        (filter (fun k => existsb (String.eqb k) (keys_of r))
                                names))).
  { intros r Hwf Hs. apply Forall_forall. intros x Hx.
    apply in_map_iff in Hx. destruct Hx as (k & <- & Hk).
    apply filter_In in Hk. destruct Hk as (Hk & Hmem).
    apply existsb_eqb_In in Hmem. split.
    - apply render_no_semi; try assumption.
      intros ->. simpl in Hk. intuition discriminate.
    - simpl in Hk.
      repeat (destruct Hk as [<- | Hk]; [reflexivity |]). contradiction. }
  assert (Heq : forall r, well_formed r -> schema_only r = true ->
            Forall (fun k => has_char "=" k = false)
                   (filter (fun k => existsb (String.eqb k) (keys_of r))
                           names)).
  { intros r Hwf Hs. apply Forall_forall. intros k Hk.
    apply filter_In in Hk. destruct Hk as (Hk & _). simpl in Hk.
    repeat (destruct Hk as [<- | Hk]; [reflexivity |]). contradiction. }
  rewrite !signature_render, Hk1, Hk2 in H. cbn [map] in H.
  rewrite !join_cons in H. cbn [tail_join] in H.
  (* the item of align *)
  apply (split_at ";" (render r1 "align") (render r2 "align")) in H;
    [| apply render_no_semi; try assumption;
       [apply (Hdef r1 Hwf1) | discriminate]
     | apply render_no_semi; try assumption;
       [apply (Hdef r2 Hwf2) | discriminate] ].
  destruct H as [Halign H].
  rewrite !render_valstr in Halign.
  apply (append_inv_head "align") in Halign.
  apply (append_inv_head "=") in Halign.
  (* the item of filename *)
  rewrite !render_valstr in H.
  set (F1 := valstr r1 "filename") in *. set (F2 := valstr r2 "filename") in *.
  set (H1 := valstr r1 "height") in *. set (H2 := valstr r2 "height") in *.
  set (T1 := tail_join (map (render r1) tl1)) in *.
  set (T2 := tail_join (map (render r2) tl2)) in *.
  rewrite !append_assoc in H. apply append_inv_head in H.
  cbn [append] in H. injection H as H.
  assert (Hh : forall r, well_formed r -> schema_only r = true ->
            has_char ";" (valstr r "height") = false).
  { intros r Hwf Hs.
    pose proof (render_no_semi r "height" Hwf Hs (proj2 (Hdef r Hwf))
                  ltac:(discriminate)) as Hr.
    rewrite render_valstr, !has_char_app in Hr.
    apply orb_false_iff in Hr. destruct Hr as (_ & Hr).
    apply orb_false_iff in Hr. tauto. }
  apply (split_at_last_sh F1 F2 ("eight=" ++ H1 ++ T1) ("eight=" ++ H2 ++ T2))
    in H.
  2:{ rewrite (occurs_sh_skip "eight=") by reflexivity.
      rewrite occurs_sh_skip by (apply Hh; assumption).
      apply occurs_sh_tail_join. apply Htl; assumption. }
  2:{ rewrite (occurs_sh_skip "eight=") by reflexivity.
      rewrite occurs_sh_skip by (apply Hh; assumption).
      apply occurs_sh_tail_join. apply Htl; assumption. }
  destruct H as [HF H]. apply append_inv_head in H.
  apply append_tail_join_inj in H; try (apply Hh; assumption).
  destruct H as [HH HT].
  apply tail_join_inj in HT;
    try (eapply Forall_impl; [| apply Htl; eassumption]; simpl; tauto).
  apply map_render_inj in HT; try (apply Heq; assumption).
  destruct HT as [Htls Hvals].
  (* the records agree on every key *)
  assert (Hsorted : sort (keys_of r1) = sort (keys_of r2)).
  { rewrite Hk1, Hk2, Htls. reflexivity. }
  assert (Hv : forall k, In k (sort (keys_of r1)) ->
                         valstr r1 k = valstr r2 k).
  { intros k Hk. rewrite Hk1 in Hk.
    destruct Hk as [<- | [<- | [<- | Hk]]];
      [exact Halign | exact HF | exact HH | apply Hvals; exact Hk]. }
  intros k. destruct (in_dec String.string_dec k (sort (keys_of r1)))
    as [Hin | Hnot].
  - pose proof Hin as Hin2. rewrite Hsorted in Hin2.
    rewrite sort_In in Hin, Hin2.
    destruct (In_keys_get _ _ Hin) as (v1 & Hg1).
    destruct (In_keys_get _ _ Hin2) as (v2 & Hg2).
    rewrite Hg1, Hg2. f_equal.
    destruct (strong_typed _ _ _ Hwf1 Hs1 Hg1) as (Ht1 & _).
    destruct (strong_typed _ _ _ Hwf2 Hs2 Hg2) as (Ht2 & _).
    apply (typed_inj k); try assumption.
    specialize (Hv k ltac:(rewrite sort_In; exact Hin)).
    unfold valstr in Hv. rewrite Hg1, Hg2 in Hv. exact Hv.
  - pose proof Hnot as Hnot2. rewrite Hsorted in Hnot2.
    rewrite sort_In in Hnot, Hnot2.
    destruct (JS.get k r1) eqn:E1;
      [exfalso; apply Hnot; eapply get_Some_In_keys; eauto |].
    destruct (JS.get k r2) eqn:E2;
      [exfalso; apply Hnot2; eapply get_Some_In_keys; eauto |].
    reflexivity.
Qed.

(** ** Tokens and signatures *)

Lemma NoDup_map_inj {A B} (f : A -> B) l x y :
  NoDup (map f l) -> In x l -> In y l -> f x = f y -> x = y.
Proof.
  induction l as [| a l IH]; simpl; intros Hnd Hx Hy Hf; [contradiction |].
  inversion Hnd as [| ? ? Hnotin Hnd']. subst.
  destruct Hx as [-> | Hx]; destruct Hy as [-> | Hy].
  - reflexivity.
  - exfalso. apply Hnotin. rewrite Hf. apply in_map. exact Hy.
  - exfalso. apply Hnotin. rewrite <- Hf. apply in_map. exact Hx.
  - apply IH; assumption.
Qed.

(** After a successful call the record with the signature of the call is
    in the registry, under the id of the token. *)
Lemma spritefunc_recorded this filename options tok this' r :
  spritefunc this filename options = Ok (tok, this') ->
  merged (val filename) options = Ok r ->
  exists e, In e (images this') /\ hash e = signature r
            /\ tok = token (placeholder this) (entry_id e).
Proof.
  intros H Hm.
  destruct (spritefunc_inv _ _ _ _ _ H) as (r' & Hm' & _ & Hcase).
  rewrite Hm in Hm'. injection Hm' as <-.
  destruct Hcase as [(e & Hc & -> & ->) | (_ & -> & _ & Him)].
  - apply cached_Some in Hc. destruct Hc. eauto.
  - eexists. split; [rewrite Him; apply in_or_app; right; left; reflexivity |].
    split; reflexivity.
Qed.

Lemma registry_ids_bound this e :
  registry_ok this -> In e (images this) -> 1 <= entry_id e <= _img_id this.
Proof.
  intros (Hids & Hn & _) Hin. apply (in_map entry_id) in Hin.
  rewrite Hids in Hin. apply ids_from_bounds in Hin. lia.
Qed.

Lemma registry_ids_NoDup this :
  registry_ok this -> NoDup (map entry_id (images this)).
Proof. intros (Hids & _). rewrite Hids. apply ids_from_NoDup. Qed.

Lemma tokens_equal_iff this f1 o1 tok1 this1 this2 f2 o2 tok2 this3 r1 r2 :
  registered this ->
  spritefunc this f1 o1 = Ok (tok1, this1) ->
  later this1 this2 ->
  spritefunc this2 f2 o2 = Ok (tok2, this3) ->
  merged (val f1) o1 = Ok r1 ->
  merged (val f2) o2 = Ok r2 ->
  (tok1 = tok2 <-> signature r1 = signature r2).
Proof.
  intros Hreg Hc1 Hl Hc2 Hm1 Hm2.
  destruct (registered_inv _ Hreg) as (Hok & _).
  assert (Hok1 : registry_ok this1)
    by (eapply spritefunc_registry_ok; eauto).
  destruct (later_inv _ _ Hl) as (Hs12 & Hok2 & (more & Hmore) & _).
  specialize (Hok2 Hok1).
  destruct (spritefunc_recorded _ _ _ _ _ _ Hc1 Hm1) as (e1 & Hin1 & Hh1 & ->).
  assert (Hin12 : In e1 (images this2))
    by (rewrite Hmore; apply in_or_app; left; exact Hin1).
  assert (Hph : placeholder this2 = placeholder this).
  { destruct (spritefunc_inv _ _ _ _ _ Hc1) as (_ & _ & Hs01 & _).
    unfold same_but_registry in Hs01, Hs12.
    decompose [and] Hs01. decompose [and] Hs12. congruence. }
  destruct (spritefunc_inv _ _ _ _ _ Hc2) as (r & Hm & _ & Hcase).
  rewrite Hm2 in Hm. injection Hm as <-.
  destruct Hcase as [(e2 & Hc & -> & _) | (Hc & -> & _ & _)]; rewrite Hph.
  - apply cached_Some in Hc. destruct Hc as (Hin2 & Hh2). split.
    + intros Ht. apply token_inj in Ht.
      assert (e1 = e2).
      { eapply NoDup_map_inj;
          [apply registry_ids_NoDup; exact Hok2 | | | exact Ht]; assumption. }
      subst e2. congruence.
    + intros Hsig. f_equal.
      assert (e1 = e2).
      { destruct Hok2 as (_ & _ & Hnd).
        eapply NoDup_map_inj; [exact Hnd | | |]; try assumption. congruence. }
      subst e2. reflexivity.
  - split.
    + intros Ht. apply token_inj in Ht.
      pose proof (registry_ids_bound _ _ Hok2 Hin12). lia.
    + intros Hsig. exfalso.
      apply (cached_None _ _ Hc e1 Hin12). congruence.
Qed.

(** ** The order of the parts of the option string *)

Lemma same_record_refl r : same_record r r.
Proof. intros k. reflexivity. Qed.

Lemma same_record_trans a b c :
  same_record a b -> same_record b c -> same_record a c.
Proof. intros H1 H2 k. rewrite (H1 k). apply H2. Qed.

Lemma agree_refl a : agree a a.
Proof. destruct a; simpl; [apply same_record_refl | exact I]. Qed.

Lemma agree_trans a b c : agree a b -> agree b c -> agree a c.
Proof.
  destruct a, b, c; simpl; try tauto. apply same_record_trans.
Qed.

Lemma get_assign key v d k :
  JS.get k (assign key v d)
  = if (key =? "__proto__")%string then JS.get k d
    else if (key =? k)%string then Some v else JS.get k d.
Proof.
  unfold assign. destruct (key =? "__proto__")%string; [reflexivity |].
  destruct (String.eqb_spec key k) as [-> | Hne].
  - apply get_set_eq.
  - apply get_set_neq. exact Hne.
Qed.

Lemma assign_same_record key v d1 d2 :
  same_record d1 d2 -> same_record (assign key v d1) (assign key v d2).
Proof. intros H k. rewrite !get_assign, (H k). reflexivity. Qed.

Lemma assign_commute k1 v1 k2 v2 d1 d2 :
  k1 <> k2 -> same_record d1 d2 ->
  same_record (assign k1 v1 (assign k2 v2 d1)) (assign k2 v2 (assign k1 v1 d2)).
Proof.
  intros Hne H k. rewrite !get_assign, (H k).
  destruct (k1 =? "__proto__")%string; destruct (k2 =? "__proto__")%string;
    try reflexivity.
  destruct (String.eqb_spec k1 k) as [-> | H1];
    destruct (String.eqb_spec k2 k) as [-> | H2];
    try reflexivity. contradiction.
Qed.

Lemma apply_clause_agree a1 a2 c :
  agree a1 a2 -> agree (apply_clause a1 c) (apply_clause a2 c).
Proof.
  destruct a1 as [d1 | m1]; destruct a2 as [d2 | m2]; simpl; try tauto.
  intros H. unfold apply_clause. simpl.
  destruct (clause c) as [key value]. destruct key as [| a key]; [exact H |].
  destruct (validate (String a key) value); simpl; [| exact I].
  apply assign_same_record. exact H.
Qed.

Lemma fold_apply_clause_agree l : forall a1 a2,
  agree a1 a2 ->
  agree (fold_left apply_clause l a1) (fold_left apply_clause l a2).
Proof.
  induction l as [| c l IH]; intros a1 a2 H; cbn [fold_left]; [exact H |].
  apply IH. apply apply_clause_agree. exact H.
Qed.

Lemma apply_clause_swap a1 a2 x y :
  fst (clause x) = EmptyString \/ fst (clause x) <> fst (clause y) ->
  agree a1 a2 ->
  agree (apply_clause (apply_clause a1 y) x)
        (apply_clause (apply_clause a2 x) y).
Proof.
  intros Hk. destruct a1 as [d1 | m1]; destruct a2 as [d2 | m2]; simpl;
    try tauto.
  intros H. unfold apply_clause. simpl.
  destruct (clause x) as [kx vx]. destruct (clause y) as [ky vy].
  simpl in Hk.
  destruct kx as [| ax kx]; destruct ky as [| ay ky]; simpl.
  - exact H.
  - destruct (validate (String ay ky) vy); simpl; [| exact I].
    apply assign_same_record. exact H.
  - destruct (validate (String ax kx) vx); simpl; [| exact I].
    apply assign_same_record. exact H.
  - destruct (validate (String ay ky) vy); simpl;
      destruct (validate (String ax kx) vx); simpl; try exact I.
    apply assign_commute; [| exact H].
    destruct Hk as [Hk | Hk]; [discriminate | exact Hk].
Qed.

Lemma Permutation_filter {A} (f : A -> bool) l l' :
  Permutation l l' -> Permutation (filter f l) (filter f l').
Proof.
  induction 1 as [| x l l' _ IH | x y l | l l' l'' _ IH1 _ IH2]; simpl.
  - constructor.
  - destruct (f x); [constructor |]; exact IH.
  - destruct (f x); destruct (f y); try apply Permutation_refl.
    apply perm_swap.
  - eapply Permutation_trans; eauto.
Qed.

Lemma keys_distinct_tail x l : keys_distinct (x :: l) -> keys_distinct l.
Proof.
  unfold keys_distinct. simpl.
  destruct (negb (fst (clause x) =? "")%string); [| auto].
  intros H. inversion H. assumption.
Qed.

Lemma keys_distinct_head x y l :
  keys_distinct (y :: x :: l) ->
  fst (clause x) = EmptyString \/ fst (clause x) <> fst (clause y).
Proof.
  unfold keys_distinct. simpl.
  destruct (String.eqb_spec (fst (clause x)) ""); [left; assumption |].
  destruct (String.eqb_spec (fst (clause y)) ""); simpl; intros H.
  - right. congruence.
  - right. inversion H as [| ? ? Hnotin _]. subst. intros Heq.
    apply Hnotin. left. exact Heq.
Qed.

(** Parts with different keys can be applied in any order. *)
Lemma fold_apply_clause_perm l l' :
  Permutation l l' -> keys_distinct l ->
  forall a1 a2, agree a1 a2 ->
  agree (fold_left apply_clause l a1) (fold_left apply_clause l' a2).
Proof.
  induction 1 as [| x l l' _ IH | x y l | l l' l'' Hp IH1 _ IH2];
    intros Hd a1 a2 Ha; cbn [fold_left].
  - exact Ha.
  - apply IH; [eapply keys_distinct_tail; exact Hd |].
    apply apply_clause_agree. exact Ha.
  - apply fold_apply_clause_agree.
    apply apply_clause_swap; [| exact Ha].
    eapply keys_distinct_head. exact Hd.
  - eapply agree_trans; [apply IH1; [exact Hd | apply agree_refl] |].
    apply IH2; [| exact Ha].
    unfold keys_distinct in *.
    eapply Permutation_NoDup; [| exact Hd].
    apply Permutation_filter. apply Permutation_map. exact Hp.
Qed.

Lemma or_default_Some o : or_default (Some o) "" = o.
Proof. destruct o; reflexivity. Qed.

Lemma merged_perm f o1 o2 r1 :
  Permutation (split ";" o1) (split ";" o2) ->
  NoDup (clause_keys o1) ->
  merged f (Some o1) = Ok r1 ->
  exists r2, merged f (Some o2) = Ok r2 /\ same_record r1 r2.
Proof.
  unfold merged. rewrite !or_default_Some. intros Hp Hd H.
  pose proof (fold_apply_clause_perm _ _ Hp Hd _ _
                (agree_refl (Ok (JS.set "filename" (VStr f) getDefaults))))
    as Ha.
  rewrite H in Ha.
  destruct (fold_left apply_clause (split ";" o2) _) as [r2 | m];
    [| contradiction].
  exists r2. split; [reflexivity | exact Ha].
Qed.

(** ** White space in the option string *)

Lemma blank_no_colon w : blank w = true -> has_char ":" w = false.
Proof.
  induction w as [| c w IH]; [reflexivity |]. simpl.
  intros H. apply andb_true_iff in H. destruct H as [Hc Hw].
  rewrite (IH Hw), orb_false_r.
  destruct (Ascii.eqb_spec c ":") as [-> | _]; [discriminate Hc | reflexivity].
Qed.

Lemma trim_left_blank a s : blank a = true -> trim_left (a ++ s) = trim_left s.
Proof.
  induction a as [| c a IH]; [reflexivity |]. simpl.
  intros H. apply andb_true_iff in H. destruct H as [-> Ha]. auto.
Qed.

Lemma trim_left_all_blank b : blank b = true -> trim_left b = "".
Proof.
  intros H. rewrite <- (append_nil_r b). rewrite trim_left_blank by exact H.
  reflexivity.
Qed.

Lemma trim_right_all_blank b : blank b = true -> trim_right b = "".
Proof.
  induction b as [| c b IH]; [reflexivity |]. simpl.
  intros H. apply andb_true_iff in H. destruct H as [-> Hb].
  rewrite (IH Hb). reflexivity.
Qed.

Lemma trim_right_blank s b :
  blank b = true -> trim_right (s ++ b) = trim_right s.
Proof.
  intros Hb. induction s as [| c s IH]; simpl.
  - apply trim_right_all_blank. exact Hb.
  - rewrite IH. reflexivity.
Qed.

Lemma trim_left_app s b :
  blank b = true ->
  trim_left (s ++ b) = if blank s then "" else trim_left s ++ b.
Proof.
  intros Hb. induction s as [| c s IH]; simpl.
  - apply trim_left_all_blank. exact Hb.
  - destruct (is_space c); simpl; [exact IH | reflexivity].
Qed.

Lemma trim_pad a s b :
  blank a = true -> blank b = true -> trim (a ++ s ++ b) = trim s.
Proof.
  intros Ha Hb. unfold trim. rewrite trim_left_blank by exact Ha.
  rewrite trim_left_app by exact Hb.
  destruct (blank s) eqn:E.
  - rewrite (trim_left_all_blank s E). reflexivity.
  - apply trim_right_blank. exact Hb.
Qed.

Lemma split_no_sep c s : has_char c s = false -> split c s = [s].
Proof.
  induction s as [| a s IH]; [reflexivity |]. simpl.
  intros H. apply orb_false_iff in H. destruct H as [Ha Hs].
  rewrite Ha, (IH Hs). reflexivity.
Qed.

Lemma split_app c p rest :
  has_char c p = false ->
  split c (p ++ String c rest) = p :: split c rest.
Proof.
  induction p as [| a p IH]; simpl.
  - intros _. rewrite Ascii.eqb_refl. reflexivity.
  - intros H. apply orb_false_iff in H. destruct H as [Ha Hp].
    rewrite Ha, (IH Hp). reflexivity.
Qed.

Lemma split_not_nil c s : split c s <> [].
Proof.
  destruct s as [| a s]; simpl; [discriminate |].
  destruct (Ascii.eqb a c); [discriminate |].
  destruct (split c s); discriminate.
Qed.

Lemma join_split c s : join (String c "") (split c s) = s.
Proof.
  unfold join. induction s as [| a s IH]; [reflexivity |]. simpl.
  pose proof (split_not_nil c s) as Hne.
  destruct (Ascii.eqb_spec a c) as [-> | Hac].
  - destruct (split c s) as [| hd tl]; [contradiction |].
    change (String.concat (String c "") ("" :: hd :: tl))
      with ("" ++ String c "" ++ String.concat (String c "") (hd :: tl)).
    rewrite IH. reflexivity.
  - destruct (split c s) as [| hd tl]; [contradiction |].
    rewrite <- IH. destruct tl; reflexivity.
Qed.

Lemma has_char_blank_app a k b :
  blank a = true -> blank b = true -> has_char ":" k = false ->
  has_char ":" (a ++ k ++ b) = false.
Proof.
  intros Ha Hb Hk. rewrite !has_char_app, Hk.
  rewrite (blank_no_colon a Ha), (blank_no_colon b Hb). reflexivity.
Qed.

Lemma append_empty a b : a ++ b = "" -> a = "" /\ b = "".
Proof. destruct a; simpl; [auto | discriminate]. Qed.

Lemma toLowerCase_trim_blank w : blank w = true -> toLowerCase (trim w) = "".
Proof.
  intros H. unfold trim. rewrite (trim_left_all_blank w H). reflexivity.
Qed.

(** What a part [key : value] does, in terms of the key and the value
    without the white space around them. *)
Lemma apply_clause_pair acc a k b c v d :
  blank a = true -> blank b = true -> blank c = true -> blank d = true ->
  has_char ":" k = false ->
  apply_clause acc (a ++ k ++ b ++ ":" ++ c ++ v ++ d)
  = (r <- acc ;;
     match toLowerCase (trim k) with
     | EmptyString => Ok r
     | key => x <- validate key (VStr (trim v)) ;; Ok (assign key x r)
     end).
Proof.
  intros Ha Hb Hc Hd Hk. unfold apply_clause.
  destruct acc as [r | m]; [| reflexivity]. cbn [JS.bind].
  assert (Hs : split ":" (a ++ k ++ b ++ ":" ++ c ++ v ++ d)
               = (a ++ k ++ b) :: split ":" (c ++ v ++ d)).
  { replace (a ++ k ++ b ++ ":" ++ c ++ v ++ d)
      with ((a ++ k ++ b) ++ String ":" (c ++ v ++ d))
      by (rewrite !append_assoc; reflexivity).
    apply split_app. apply has_char_blank_app; assumption. }
  unfold clause. rewrite Hs.
  pose proof (split_not_nil ":" (c ++ v ++ d)) as Hne.
  destruct (a ++ k ++ b) as [| p0 ps] eqn:Ep.
  - apply append_empty in Ep. destruct Ep as [_ Ep].
    apply append_empty in Ep. destruct Ep as [-> _]. reflexivity.
  - rewrite <- Ep, (trim_pad a k b Ha Hb).
    destruct (split ":" (c ++ v ++ d)) as [| hd tl] eqn:Es; [contradiction |].
    rewrite <- Es, join_split, (trim_pad c v d Hc Hd).
    destruct (toLowerCase (trim k)); reflexivity.
Qed.

Lemma apply_clause_bare acc a k b :
  blank a = true -> blank b = true -> has_char ":" k = false ->
  apply_clause acc (a ++ k ++ b)
  = (r <- acc ;;
     match toLowerCase (trim k) with
     | EmptyString => Ok r
     | key => x <- validate key (VNum (Int 0)) ;; Ok (assign key x r)
     end).
Proof.
  intros Ha Hb Hk. unfold apply_clause.
  destruct acc as [r | m]; [| reflexivity]. cbn [JS.bind].
  unfold clause. rewrite split_no_sep by (apply has_char_blank_app; assumption).
  destruct (a ++ k ++ b) as [| p0 ps] eqn:Ep.
  - apply append_empty in Ep. destruct Ep as [_ Ep].
    apply append_empty in Ep. destruct Ep as [-> _]. reflexivity.
  - rewrite <- Ep, (trim_pad a k b Ha Hb).
    destruct (toLowerCase (trim k)); reflexivity.
Qed.

Lemma apply_clause_ws c c' acc :
  ws_variant c c' -> apply_clause acc c = apply_clause acc c'.
Proof.
  intros [k v a b x d a' b' x' d' Ha Hb Hx Hd Ha' Hb' Hx' Hd' Hk
         | k a b a' b' Ha Hb Ha' Hb' Hk].
  - rewrite !apply_clause_pair by assumption. reflexivity.
  - rewrite !apply_clause_bare by assumption. reflexivity.
Qed.

Lemma fold_apply_clause_ws l l' :
  Forall2 ws_variant l l' ->
  forall acc, fold_left apply_clause l acc = fold_left apply_clause l' acc.
Proof.
  induction 1 as [| c c' l l' Hc _ IH]; intros acc; cbn [fold_left];
    [reflexivity |].
  rewrite (apply_clause_ws c c' acc Hc). apply IH.
Qed.

Lemma merged_ws f o1 o2 :
  Forall2 ws_variant (split ";" o1) (split ";" o2) ->
  merged f (Some o1) = merged f (Some o2).
Proof.
  unfold merged. rewrite !or_default_Some. intros H.
  apply fold_apply_clause_ws. exact H.
Qed.

(** ** The dedup contract *)

Lemma validate_not_filename value v : validate "filename" value <> Ok v.
Proof. discriminate. Qed.

Lemma apply_clause_filename f d c d' :
  JS.get "filename" d = Some (VStr f) ->
  apply_clause (Ok d) c = Ok d' ->
  JS.get "filename" d' = Some (VStr f).
Proof.
  intros Hf. unfold apply_clause. simpl.
  destruct (clause c) as [key value].
  destruct key as [| a key]; [intros H; injection H as <-; exact Hf |].
  destruct (validate (String a key) value) as [v |] eqn:E; simpl;
    [| discriminate].
  intros H. injection H as <-. rewrite get_assign.
  destruct (String a key =? "__proto__")%string; [exact Hf |].
  destruct (String.eqb_spec (String a key) "filename") as [Heq | _];
    [| exact Hf].
  rewrite Heq in E. exfalso. exact (validate_not_filename _ _ E).
Qed.

Lemma merged_filename f o r :
  merged f o = Ok r -> JS.get "filename" r = Some (VStr f).
Proof.
  unfold merged.
  assert (Hbase : JS.get "filename" (JS.set "filename" (VStr f) getDefaults)
                  = Some (VStr f)) by apply get_set_eq.
  revert Hbase. generalize (JS.set "filename" (VStr f) getDefaults).
  induction (split ";" (or_default o "")) as [| c l IH]; intros d Hd H;
    cbn [fold_left] in H.
  - injection H as <-. exact Hd.
  - destruct (apply_clause (Ok d) c) as [d' | m] eqn:E.
    + eapply IH; [| exact H]. eapply apply_clause_filename; eauto.
    + rewrite fold_apply_clause_throw in H. discriminate.
Qed.

(** C1, as the code has it.  Two calls of [spritefunc] on a Sprite before
    any build, the second after the first: if the merged records are the
    same the tokens are the same; when the records have no property besides
    the file name and schema attributes, the converse holds too, and
    different file names give different tokens.  Option strings whose
    parts are a rearrangement of one another, no key being named twice,
    give the same record, and so do option strings that differ in white
    space around keys and values. *)
Theorem dedup_contract :
  (forall this f1 o1 tok1 this1 this2 f2 o2 tok2 this3 r1 r2,
      registered this ->
      spritefunc this f1 o1 = Ok (tok1, this1) ->
      later this1 this2 ->
      spritefunc this2 f2 o2 = Ok (tok2, this3) ->
      merged (val f1) o1 = Ok r1 ->
      merged (val f2) o2 = Ok r2 ->
      (same_record r1 r2 -> tok1 = tok2)
      /\ (schema_only r1 = true -> schema_only r2 = true ->
          tok1 = tok2 -> same_record r1 r2)
      /\ (schema_only r1 = true -> schema_only r2 = true ->
          val f1 <> val f2 -> tok1 <> tok2))
  /\ (forall f o1 o2 r1,
         Permutation (split ";" o1) (split ";" o2) ->
         NoDup (clause_keys o1) ->
         merged f (Some o1) = Ok r1 ->
         exists r2, merged f (Some o2) = Ok r2 /\ same_record r1 r2)
  /\ (forall f o1 o2,
         Forall2 ws_variant (split ";" o1) (split ";" o2) ->
         merged f (Some o1) = merged f (Some o2)).
Proof.
  split; [| split].
  - intros this f1 o1 tok1 this1 this2 f2 o2 tok2 this3 r1 r2
           Hreg Hc1 Hl Hc2 Hm1 Hm2.
    pose proof (tokens_equal_iff _ _ _ _ _ _ _ _ _ _ _ _
                  Hreg Hc1 Hl Hc2 Hm1 Hm2) as Hiff.
    pose proof (merged_well_formed _ _ _ Hm1) as Hwf1.
    pose proof (merged_well_formed _ _ _ Hm2) as Hwf2.
    assert (Hinj : schema_only r1 = true -> schema_only r2 = true ->
                   tok1 = tok2 -> same_record r1 r2).
    { intros Hs1 Hs2 Ht. apply signature_inj; try assumption.
      apply Hiff. exact Ht. }
    split; [| split].
    + intros Hs. apply Hiff. apply signature_same_record;
        [apply Hwf1 | apply Hwf2 | exact Hs].
    + exact Hinj.
    + intros Hs1 Hs2 Hne Ht. apply Hne.
      pose proof (Hinj Hs1 Hs2 Ht "filename") as Hf.
      rewrite (merged_filename _ _ _ Hm1), (merged_filename _ _ _ Hm2) in Hf.
      injection Hf. auto.
  - apply merged_perm.
  - apply merged_ws.
Qed.

(** C1 as stated fails for option strings that name a key twice: the
    later part wins, so the order of the parts matters. *)
Lemma duplicate_key_order_matters :
  Permutation (split ";" "width:1;width:2") (split ";" "width:2;width:1")
  /\ exists this1 this2,
      spritefunc Example.sprite (Example.file "a.png") (Some "width:1;width:2")
      = Ok ("SPRITE_PLACEHOLDER(1)", this1)
      /\ spritefunc this1 (Example.file "a.png") (Some "width:2;width:1")
         = Ok ("SPRITE_PLACEHOLDER(2)", this2).
Proof.
  split; [apply perm_swap |].
  do 2 eexists. split; reflexivity.
Qed.

(** Two numerals that round to the same number give the same record and
    the same token. *)
Lemma rounded_numerals_share_a_token :
  exists this1 this2,
    spritefunc Example.sprite (Example.file "a.png")
               (Some "width:9007199254740993")
    = Ok ("SPRITE_PLACEHOLDER(1)", this1)
    /\ spritefunc this1 (Example.file "a.png") (Some "width:9007199254740992")
       = Ok ("SPRITE_PLACEHOLDER(1)", this2)
    /\ merged "a.png" (Some "width:9007199254740993")
       = merged "a.png" (Some "width:9007199254740992").
Proof.
  let c1 := eval vm_compute in
              (spritefunc Example.sprite (Example.file "a.png")
                          (Some "width:9007199254740993")) in
  match c1 with
  | Ok (_, ?t1) =>
      let c2 := eval vm_compute in
                  (spritefunc t1 (Example.file "a.png")
                              (Some "width:9007199254740992")) in
      match c2 with
      | Ok (_, ?t2) => exists t1, t2
      end
  end.
  repeat split; vm_compute; reflexivity.
Qed.

Lemma dedup_contract_witness :
  (exists tok1 this1 tok2 this3 r1 r2,
      registered Example.sprite
      /\ spritefunc Example.sprite (Example.file "a.png")
                    (Some "align:right; height:40") = Ok (tok1, this1)
      /\ later this1 this1
      /\ spritefunc this1 (Example.file "a.png")
                    (Some " height : 40 ;align:right") = Ok (tok2, this3)
      /\ merged "a.png" (Some "align:right; height:40") = Ok r1
      /\ merged "a.png" (Some " height : 40 ;align:right") = Ok r2
      /\ schema_only r1 = true
      /\ schema_only r2 = true
      /\ tok1 = "SPRITE_PLACEHOLDER(1)"
      /\ tok2 = "SPRITE_PLACEHOLDER(1)"
      /\ (same_record r1 r2 -> tok1 = tok2)
      /\ (schema_only r1 = true -> schema_only r2 = true ->
          tok1 = tok2 -> same_record r1 r2)
      /\ (schema_only r1 = true -> schema_only r2 = true ->
          "a.png" <> "a.png" -> tok1 <> tok2))
  /\ (Permutation (split ";" "width:5;height:40") (split ";" "height:40;width:5")
      /\ NoDup (clause_keys "width:5;height:40")
      /\ exists r1,
          merged "a.png" (Some "width:5;height:40") = Ok r1
          /\ exists r2, merged "a.png" (Some "height:40;width:5") = Ok r2
                        /\ same_record r1 r2)
  /\ (Forall2 ws_variant (split ";" " height : 40 ;resize")
              (split ";" "height:40; resize ")
      /\ merged "a.png" (Some " height : 40 ;resize")
         = merged "a.png" (Some "height:40; resize ")).
Proof.
  destruct dedup_contract as (Hids & Hperm & Hws).
  split; [| split].
  - let c1 := eval vm_compute in
                (spritefunc Example.sprite (Example.file "a.png")
                            (Some "align:right; height:40")) in
    match c1 with
    | Ok (?tok1, ?t1) =>
        let c2 := eval vm_compute in
                    (spritefunc t1 (Example.file "a.png")
                                (Some " height : 40 ;align:right")) in
        match c2 with
        | Ok (?tok2, ?t3) =>
            let m1 := eval vm_compute in
                        (merged "a.png" (Some "align:right; height:40")) in
            let m2 := eval vm_compute in
                        (merged "a.png" (Some " height : 40 ;align:right")) in
            match m1 with
            | Ok ?r1 =>
                match m2 with
                | Ok ?r2 =>
                    exists tok1, t1, tok2, t3, r1, r2;
                    assert (C1 : spritefunc Example.sprite (Example.file "a.png")
                                   (Some "align:right; height:40")
                                 = Ok (tok1, t1)) by (vm_compute; reflexivity);
                    assert (C2 : spritefunc t1 (Example.file "a.png")
                                   (Some " height : 40 ;align:right")
                                 = Ok (tok2, t3)) by (vm_compute; reflexivity);
                    assert (M1 : merged "a.png" (Some "align:right; height:40")
                                 = Ok r1) by (vm_compute; reflexivity);
                    assert (M2 : merged "a.png" (Some " height : 40 ;align:right")
                                 = Ok r2) by (vm_compute; reflexivity);
                    split; [exact registered_new |];
                    split; [exact C1 |];
                    split; [constructor |];
                    split; [exact C2 |];
                    split; [exact M1 |];
                    split; [exact M2 |];
                    split; [reflexivity |];
                    split; [reflexivity |];
                    split; [reflexivity |];
                    split; [reflexivity |];
                    exact (Hids Example.sprite (Example.file "a.png") _ _ _ _
                                (Example.file "a.png") _ _ _ _ _
                                registered_new C1 (later_refl t1) C2 M1 M2)
                end
            end
        end
    end.
  - assert (P : Permutation (split ";" "width:5;height:40")
                            (split ";" "height:40;width:5"))
      by apply perm_swap.
    assert (N : NoDup (clause_keys "width:5;height:40")).
    { let l := eval vm_compute in (clause_keys "width:5;height:40") in
      change (NoDup l).
      repeat constructor; simpl; intuition discriminate. }
    split; [exact P |]. split; [exact N |].
    eexists. split; [reflexivity |].
    apply (Hperm "a.png" "width:5;height:40" "height:40;width:5" _ P N).
    reflexivity.
  - assert (W : Forall2 ws_variant (split ";" " height : 40 ;resize")
                        (split ";" "height:40; resize ")).
    { change (Forall2 ws_variant [" height : 40 "; "resize"]
                      ["height:40"; " resize "]).
      constructor.
      - apply (ws_pair "height" "40" " " " " " " " " "" "" "" "");
          reflexivity.
      - constructor; [| constructor].
        apply (ws_bare "resize" "" "" " " " "); reflexivity. }
    split; [exact W |].
    apply (Hws "a.png" " height : 40 ;resize" "height:40; resize " W).
Defined.

(** ** Block width *)

Lemma blockWidth_expr_cases repeat align limit_repeat_x width :
  blockWidth_expr repeat align limit_repeat_x width =
  if (repeat =? "x")%string && negb (limit_repeat_x =? 0)
  then VNum (Int limit_repeat_x) else VStr "100%".
Proof.
  unfold blockWidth_expr, or_, and_.
  destruct (repeat =? "x")%string; simpl.
  - destruct limit_repeat_x; reflexivity.
  - reflexivity.
Qed.

(** C2.  The claim gives [blockWidth] three cases, the last being the
    resolved numeric width when [repeat] is not [x] and [align] is
    [block].  The expression of [processImage] has the first operand of its
    outer [||] always true, so its value is the limit for [repeat:x] with a
    non-zero limit and the string [100%] in every other case; the image
    [a.png] (20x20) registered without options gets [100%], not 20. *)
Theorem blockWidth_never_width :
  (forall repeat align limit_repeat_x width,
      blockWidth_expr repeat align limit_repeat_x width =
      if (repeat =? "x")%string && negb (limit_repeat_x =? 0)
      then VNum (Int limit_repeat_x) else VStr "100%")
  /\ blockWidth_expr "no" "block" 0 20 = VStr "100%"
  /\ (exists tok this e this',
         spritefunc Example.sprite (Example.file "a.png") None = Ok (tok, this)
         /\ images this = [e]
         /\ processImage (set_images [] this) e 20 20 = Some this'
         /\ map Img.repeat (processedImages this') = ["no"]
         /\ map Img.align (processedImages this') = ["block"]
         /\ map Img.width (processedImages this') = [20]
         /\ map Img.blockWidth (processedImages this') = [VStr "100%"]).
Proof.
  split; [| split].
  - apply blockWidth_expr_cases.
  - reflexivity.
  - do 4 eexists. repeat split; reflexivity.
Qed.

(** ** Steps of [build] *)

Section BuildSteps.

Variable path_join : string -> string -> string.
Variable gd_open : string -> string -> opened.

Lemma build_pending_nil fuel this css trace :
  build_pending path_join gd_open fuel [] this css None trace
  = makeMap fuel this css trace.
Proof. reflexivity. Qed.

Lemma build_pending_opened fuel imgdata rest this css err trace filename w h this' :
  str_attr "filename" (attrs imgdata) = Some filename ->
  openImage gd_open (path_join (image_root this) filename) = Ok (Image w h) ->
  processImage (set_images rest this) imgdata w h = Some this' ->
  build_pending path_join gd_open fuel (imgdata :: rest) this css err trace
  = build_pending path_join gd_open fuel rest this' css None
      (match err with
       | Some message => trace ++ [CallbackError message]
       | None => trace
       end)%list.
Proof.
  intros Hf Ho Hp. cbn [build_pending]. rewrite Hf. cbn [obind].
  change (image_root (set_images rest this)) with (image_root this).
  rewrite Ho, Hp. reflexivity.
Qed.

Lemma build_pending_open_error fuel imgdata rest this css err trace filename message :
  str_attr "filename" (attrs imgdata) = Some filename ->
  openImage gd_open (path_join (image_root this) filename)
    = Ok (OpenError message) ->
  build_pending path_join gd_open fuel (imgdata :: rest) this css err trace
  = build_pending path_join gd_open fuel rest (set_images rest this) css
      (Some match message with
            | EmptyString => message
            | _ => message ++ "; CSS line nr #"
                     ++ Z_to_string (entry_lineno imgdata)
            end)
      (match err with
       | Some message => trace ++ [CallbackError message]
       | None => trace
       end)%list.
Proof.
  intros Hf Ho. cbn [build_pending]. rewrite Hf. cbn [obind].
  change (image_root (set_images rest this)) with (image_root this).
  rewrite Ho. reflexivity.
Qed.

End BuildSteps.

(** ** A failed open does not stop the build *)

(** C3.  The claim: when an image cannot be opened the callback gets the
    error, no sprite file is written and no success follows.  [build]
    reports the error and then goes on: with the single image
    [missing.png], which does not open, the callback is called with the
    error, the (empty) sprite is saved, and the callback is called again
    with the text. *)
Theorem build_goes_on_after_open_error :
  exists tok this this',
    spritefunc Example.sprite {| val := "missing.png"; node_lineno := 7 |} None
      = Ok (tok, this)
    /\ build Example.path_join Example.gd_open 0 this "a{b:'SPRITE_PLACEHOLDER(1)'}" None
       = Some (Completed this'
                 [ CallbackError
                     "ENOENT, no such file or directory 'missing.png'; CSS line nr #7";
                   SaveImage "png" "sprite.png" 5 5 [];
                   CallbackDone "a{b:'SPRITE_PLACEHOLDER(1)'}" ]).
Proof.
  do 3 eexists. split; reflexivity.
Qed.

(** ** The worked example *)

(** C8.  Two registrations, [sprite("a.png")] with [a.png] of 20x20 and
    then [sprite("b.png", "align:right; height:40")] with [b.png] of
    10x10: the ids issued are 1 and 2, the canvas height is 80, the second
    block is drawn at x = 20 - 10 and y = 20 + 10, and the text put in
    place of the second placeholder is [100% -30px]. *)
Theorem end_to_end_example path_join gd_open css :
  openImage gd_open (path_join "" "a.png") = Ok (Image 20 20) ->
  openImage gd_open (path_join "" "b.png") = Ok (Image 10 10) ->
  exists this1 this2 this',
    spritefunc Example.sprite (Example.file "a.png") None
      = Ok ("SPRITE_PLACEHOLDER(1)", this1)
    /\ spritefunc this1 (Example.file "b.png") (Some "align:right; height:40")
       = Ok ("SPRITE_PLACEHOLDER(2)", this2)
    /\ map entry_id (images this2) = [1; 2]
    /\ build path_join gd_open 0 this2 css None
       = Some (Completed this'
                 [ SaveImage "png" "sprite.png" 20 80
                     [ BlockCopy 1 0 0 20 20; SpriteCopy 1 0 0 20 20;
                       BlockCopy 2 0 15 10 10; SpriteCopy 2 10 30 10 40 ];
                   CallbackDone
                     (replace_all "'SPRITE_PLACEHOLDER(2)'" "100% -30px"
                        (replace_all "'SPRITE_PLACEHOLDER(1)'" "-0px -0px"
                           css)) ])
    /\ canvasHeight this' = 80
    /\ map Img._img_id (processedImages this') = [1; 2].
Proof.
  intros Ha Hb.
  pose (l1 := [("a.png", @None string)]).
  pose (l2 := (l1 ++ [("b.png", Some "align:right; height:40")])%list).
  exists (Example.after l1), (Example.after l2).
  eexists.
  split; [reflexivity |].
  split; [reflexivity |].
  split; [reflexivity |].
  split.
  - unfold build.
    let t := eval vm_compute in (Example.after l2) in
    change (Example.after l2) with t.
    cbn [images].
    eapply eq_trans.
    { eapply build_pending_opened;
        [reflexivity | exact Ha | vm_compute; reflexivity]. }
    eapply eq_trans.
    { eapply build_pending_opened;
        [reflexivity | exact Hb | vm_compute; reflexivity]. }
    reflexivity.
  - split; reflexivity.
Qed.

Lemma end_to_end_example_witness :
  openImage Example.gd_open (Example.path_join "" "a.png") = Ok (Image 20 20)
  /\ openImage Example.gd_open (Example.path_join "" "b.png")
     = Ok (Image 10 10)
  /\ exists this1 this2 this',
    spritefunc Example.sprite (Example.file "a.png") None
      = Ok ("SPRITE_PLACEHOLDER(1)", this1)
    /\ spritefunc this1 (Example.file "b.png") (Some "align:right; height:40")
       = Ok ("SPRITE_PLACEHOLDER(2)", this2)
    /\ map entry_id (images this2) = [1; 2]
    /\ build Example.path_join Example.gd_open 0 this2
             "a{background-position:'SPRITE_PLACEHOLDER(2)'}" None
       = Some (Completed this'
                 [ SaveImage "png" "sprite.png" 20 80
                     [ BlockCopy 1 0 0 20 20; SpriteCopy 1 0 0 20 20;
                       BlockCopy 2 0 15 10 10; SpriteCopy 2 10 30 10 40 ];
                   CallbackDone
                     (replace_all "'SPRITE_PLACEHOLDER(2)'" "100% -30px"
                        (replace_all "'SPRITE_PLACEHOLDER(1)'" "-0px -0px"
                           "a{background-position:'SPRITE_PLACEHOLDER(2)'}")) ])
    /\ canvasHeight this' = 80
    /\ map Img._img_id (processedImages this') = [1; 2].
Proof.
  split; [reflexivity |].
  split; [reflexivity |].
  apply (end_to_end_example Example.path_join Example.gd_open
           "a{background-position:'SPRITE_PLACEHOLDER(2)'}");
    reflexivity.
Defined.

Lemma end_to_end_text :
  replace_all "'SPRITE_PLACEHOLDER(2)'" "100% -30px"
    (replace_all "'SPRITE_PLACEHOLDER(1)'" "-0px -0px"
       "a{background-position:'SPRITE_PLACEHOLDER(2)'}")
  = "a{background-position:100% -30px}".
Proof. reflexivity. Qed.

(** ** Registered Sprites of the example world *)

Lemma calls_later l : forall this toks this',
  Example.calls this l = Ok (toks, this') -> later this this'.
Proof.
  induction l as [| [name options] l IH]; intros this toks this' H; simpl in H.
  - injection H as _ <-. constructor.
  - destruct (spritefunc this (Example.file name) options) as [[tok this1] |] eqn:E;
      [| discriminate H].
    simpl in H.
    destruct (Example.calls this1 l) as [[toks' this2] |] eqn:E';
      [| discriminate H].
    simpl in H. injection H as _ <-.
    eapply later_trans; [| eapply IH; exact E'].
    eapply later_call; [constructor | exact E].
Qed.

Lemma registered_after l : registered (Example.after l).
Proof.
  unfold Example.after.
  destruct (Example.calls Example.sprite l) as [[toks this] |] eqn:E.
  - eapply registered_later; [apply registered_new |].
    eapply calls_later; exact E.
  - apply registered_new.
Qed.

(** ** The resolution pass *)

Ltac split_ifs :=
  repeat match goal with
         | |- context [if ?c then _ else _] => destruct c eqn:?
         | H : context [if ?c then _ else _] |- _ => destruct c eqn:?
         end.

Ltac obind_inv H :=
  repeat match type of H with
         | obind ?o _ = Some _ =>
             let E := fresh "E" in
             destruct o eqn:E; [cbn [obind] in H | discriminate H]
         end.

Lemma processImage_inv this imgdata w h this' :
  processImage this imgdata w h = Some this' ->
  exists d,
    processedImages this' = (processedImages this ++ [d])%list
    /\ Img._img_id d = entry_id imgdata
    /\ Img.imageWidth d = w /\ Img.imageHeight d = h
    /\ Img.height d <= Img.blockHeight d
    /\ Img.blockWidth d
       = blockWidth_expr (Img.repeat d) (Img.align d) (Img.limit_repeat_x d)
                         (Img.width d)
    /\ canvasHeight this'
       = canvasHeight this + (Img.blockHeight d + padding this)
    /\ canvasWidth this <= canvasWidth this'
    /\ Img.width d <= canvasWidth this'
    /\ images this' = images this
    /\ _img_id this' = _img_id this
    /\ same_config this this'.
Proof.
  unfold processImage. intros H. obind_inv H.
  injection H as <-. eexists. split; [reflexivity |].
  cbn [Img._img_id Img.imageWidth Img.imageHeight Img.height Img.blockHeight
       Img.blockWidth Img.repeat Img.align Img.limit_repeat_x Img.width
       set_layout canvasHeight canvasWidth images _img_id].
  repeat match goal with |- _ /\ _ => split end; try reflexivity.
  - split_ifs; lia.
  - destruct (blockWidth_expr _ _ _ _) as [[| | bw |] | |]; split_ifs; lia.
  - destruct (blockWidth_expr _ _ _ _) as [[| | bw |] | |]; split_ifs; lia.
  - repeat split.
Qed.

Lemma total_app l1 l2 : total (l1 ++ l2) = total l1 + total l2.
Proof. unfold total. induction l1; simpl; lia. Qed.

Lemma processImage_layout_ok this imgdata w h this' :
  layout_ok this ->
  processImage this imgdata w h = Some this' ->
  layout_ok this'.
Proof.
  intros (Hh & Hw) H.
  destruct (processImage_inv _ _ _ _ _ H)
    as (d & Hp & _ & _ & _ & _ & _ & Hch & Hcw & Hwd & _ & _ & Hpad & _).
  unfold layout_ok. rewrite Hp, Hch, Hh, Hpad, map_app, total_app. simpl.
  split; [lia |].
  apply Forall_app. split; [| constructor; [exact Hwd | constructor]].
  eapply Forall_impl; [| exact Hw]. simpl. intros; lia.
Qed.

(** ** The drawing pass *)

Lemma place_inv fuel this c d c' :
  place fuel this c d = Some c' ->
  exists v startX startY,
    placed c' = (placed c ++ [set_blockWidth v d])%list
    /\ replaced c'
       = (replaced c ++ [(Img._img_id d, replacement d startX startY)])%list
    /\ text c'
       = replace_all (quoted_token (placeholder this) (Img._img_id d))
                     (replacement d startX startY) (text c).
Proof.
  unfold place. intros H.
  destruct (if loose_eq_str (Img.blockWidth d) "100%" then _ else _)
    as [bw |]; [cbn [obind] in H | discriminate H].
  destruct (Img.repeat d =? "no")%string.
  - destruct (Img.repeat d =? "x")%string.
    + destruct (tile_x _ _ _ _ _ _ _ _) as [[x dr] |];
        [cbn [obind] in H | discriminate H].
      destruct (Img.repeat d =? "y")%string.
      * destruct (tile_y _ _ _ _ _ _ _ _ _) as [[y dr'] |];
          [cbn [obind] in H | discriminate H].
        injection H as <-. do 3 eexists. repeat split.
      * cbn [obind] in H. injection H as <-. do 3 eexists. repeat split.
    + cbn [obind] in H.
      destruct (Img.repeat d =? "y")%string.
      * destruct (tile_y _ _ _ _ _ _ _ _ _) as [[y dr'] |];
          [cbn [obind] in H | discriminate H].
        injection H as <-. do 3 eexists. repeat split.
      * cbn [obind] in H. injection H as <-. do 3 eexists. repeat split.
  - destruct (Img.repeat d =? "x")%string.
    + destruct (tile_x _ _ _ _ _ _ _ _) as [[x dr] |];
        [cbn [obind] in H | discriminate H].
      destruct (Img.repeat d =? "y")%string.
      * destruct (tile_y _ _ _ _ _ _ _ _ _) as [[y dr'] |];
          [cbn [obind] in H | discriminate H].
        injection H as <-. do 3 eexists. repeat split.
      * cbn [obind] in H. injection H as <-. do 3 eexists. repeat split.
    + cbn [obind] in H.
      destruct (Img.repeat d =? "y")%string.
      * destruct (tile_y _ _ _ _ _ _ _ _ _) as [[y dr'] |];
          [cbn [obind] in H | discriminate H].
        injection H as <-. do 3 eexists. repeat split.
      * cbn [obind] in H. injection H as <-. do 3 eexists. repeat split.
Qed.

(** The images in [l'] are those in [l], up to [blockWidth]. *)
Lemma place_all_inv fuel this l : forall c c',
  place_all fuel this c l = Some c' ->
  exists l' reps,
    placed c' = (placed c ++ l')%list
    /\ Forall2 (fun d d' => exists v, d' = set_blockWidth v d) l l'
    /\ text c' = replace_each reps (text c)
    /\ Forall2 (fun d pr =>
                  fst pr = quoted_token (placeholder this) (Img._img_id d)
                  /\ exists startX startY,
                      snd pr = replacement d startX startY) l reps.
Proof.
  induction l as [| d l IH]; intros c c' H; simpl in H.
  - injection H as <-. exists [], []. rewrite app_nil_r.
    repeat split; constructor.
  - destruct (place fuel this c d) as [c1 |] eqn:E;
      [cbn [obind] in H | discriminate H].
    destruct (place_inv _ _ _ _ _ E) as (v & sx & sy & Hp & _ & Ht).
    destruct (IH _ _ H) as (l' & reps & Hp' & Hf & Ht' & Hr).
    exists (set_blockWidth v d :: l'),
           ((quoted_token (placeholder this) (Img._img_id d),
             replacement d sx sy) :: reps).
    split; [rewrite Hp', Hp, <- app_assoc; reflexivity |].
    split; [constructor; eauto |].
    split; [simpl; rewrite Ht', Ht; reflexivity |].
    constructor; [simpl; eauto | exact Hr].
Qed.

Lemma replacement_set_blockWidth v d x y :
  replacement (set_blockWidth v d) x y = replacement d x y.
Proof. reflexivity. Qed.

Lemma makeMap_inv fuel this css trace out :
  makeMap fuel this css trace = Some out ->
  exists l' reps drawn,
    regex_plain (placeholder this) = true
    /\ pngcrush this = None
    /\ Forall2 (fun d d' => exists v, d' = set_blockWidth v d)
               (processedImages this) l'
    /\ Forall2 (fun d pr =>
                  fst pr = quoted_token (placeholder this) (Img._img_id d)
                  /\ exists startX startY,
                      snd pr = replacement d startX startY)
               (processedImages this) reps
    /\ out = Completed
               (set_layout l' (canvasWidth this) (canvasHeight this) this)
               (trace ++
                  [ SaveImage (output_format this) (output_file this)
                              (JS.max (canvasWidth this) 5)
                              (JS.max (canvasHeight this) 5) drawn;
                    CallbackDone (replace_each reps css) ]).
Proof.
  unfold makeMap. intros H.
  destruct (regex_plain (placeholder this)); [| discriminate H].
  destruct (pngcrush this); [discriminate H |]. simpl in H.
  destruct (place_all _ _ _ _) as [c |] eqn:E;
    [cbn [obind] in H | discriminate H].
  destruct (place_all_inv _ _ _ _ _ E) as (l' & reps & Hp & Hf & Ht & Hr).
  simpl in Hp, Ht. injection H as <-.
  exists l', reps, (drawn c). rewrite Hp, Ht. repeat split; assumption.
Qed.

Lemma Forall2_set_blockWidth_map {A} (f : Img.t -> A) l l' :
  (forall v d, f (set_blockWidth v d) = f d) ->
  Forall2 (fun d d' => exists v, d' = set_blockWidth v d) l l' ->
  map f l' = map f l.
Proof.
  intros Hf. induction 1 as [| d d' l l' (v & ->) _ IH]; simpl;
    [reflexivity |].
  rewrite Hf, IH. reflexivity.
Qed.

Section BuildInvariant.

Variable path_join : string -> string -> string.
Variable gd_open : string -> string -> opened.

(** What a run of [build] that reaches its last callback has done. *)
Lemma build_pending_inv fuel pending :
  forall this css err trace this' tr,
    images this = pending ->
    build_pending path_join gd_open fuel pending this css err trace
    = Some (Completed this' tr) ->
    images this' = []
    /\ _img_id this' = _img_id this
    /\ same_config this this'
    /\ canvasWidth this <= canvasWidth this'
    /\ (layout_ok this -> layout_ok this')
    /\ exists mid reps drawn,
        tr = (trace ++ error_event err ++ mid
                ++ [ SaveImage (output_format this) (output_file this)
                               (JS.max (canvasWidth this') 5)
                               (JS.max (canvasHeight this') 5) drawn;
                     CallbackDone (replace_each reps css) ])%list
        /\ Forall2 (fun d pr =>
                      fst pr = quoted_token (placeholder this) (Img._img_id d)
                      /\ exists startX startY,
                          snd pr = replacement d startX startY)
                   (processedImages this') reps
        /\ (forallb (fun e => negb (is_error e)) (error_event err ++ mid) = true ->
            map Img._img_id (processedImages this')
            = (map Img._img_id (processedImages this)
                 ++ map entry_id pending)%list).
Proof.
  induction pending as [| imgdata rest IH];
    intros this css err trace this' tr Himg H.
  - assert (Ht : (match err with
                  | Some message => trace ++ [CallbackError message]
                  | None => trace
                  end)%list = (trace ++ error_event err)%list).
    { destruct err; simpl; [reflexivity | rewrite app_nil_r; reflexivity]. }
    cbn [build_pending] in H. rewrite Ht in H.
    destruct (makeMap_inv _ _ _ _ _ H)
      as (l' & reps & dr & _ & _ & Hf & Hr & Hout).
    injection Hout as -> ->.
    cbn [set_layout images _img_id canvasWidth canvasHeight processedImages].
    split; [exact Himg |]. split; [reflexivity |].
    split; [repeat split |]. split; [lia |].
    split.
    { intros (Hh & Hw). unfold layout_ok.
      cbn [set_layout canvasWidth canvasHeight processedImages padding].
      rewrite (Forall2_set_blockWidth_map
                 (fun d => Img.blockHeight d + padding this) _ _
                 (fun _ _ => eq_refl) Hf).
      split; [exact Hh |].
      clear - Hf Hw. induction Hf as [| d d' l l' (v & ->) _ IHf];
        [constructor |].
      inversion Hw; subst. constructor; [assumption | auto]. }
    exists [], reps, dr. rewrite <- app_assoc.
    split; [reflexivity |]. split.
    { clear - Hf Hr. revert reps Hr.
      induction Hf as [| d d' l l' (v & ->) _ IHf]; intros reps Hr;
        inversion Hr; subst; constructor; auto. }
    intros _. rewrite app_nil_r.
    apply (Forall2_set_blockWidth_map Img._img_id _ _ (fun _ _ => eq_refl) Hf).
  - cbn [build_pending] in H.
    destruct (str_attr "filename" (attrs imgdata)) as [filename |];
      [cbn [obind] in H | discriminate H].
    change (image_root (set_images rest this)) with (image_root this) in H.
    assert (Ht : (match err with
                  | Some message => trace ++ [CallbackError message]
                  | None => trace
                  end)%list = (trace ++ error_event err)%list).
    { destruct err; simpl; [reflexivity | rewrite app_nil_r; reflexivity]. }
    rewrite Ht in H.
    destruct (openImage gd_open (path_join (image_root this) filename))
      as [[message | w h] | msg]; [| | discriminate H].
    + apply IH in H; [| reflexivity].
      destruct H as (Hi & Hid & Hc & Hcw & Hl & mid & reps & dr & Htr & Hr & Hids).
      split; [exact Hi |]. split; [exact Hid |]. split; [exact Hc |].
      split; [exact Hcw |]. split; [exact Hl |].
      eexists (_ :: mid)%list, reps, dr. split; [| split].
      * rewrite Htr. cbn [error_event set_images output_format output_file app].
        rewrite <- !app_assoc. reflexivity.
      * exact Hr.
      * intros Hne. rewrite forallb_app in Hne.
        apply andb_true_iff in Hne. destruct Hne as (_ & Hne).
        simpl in Hne. discriminate Hne.
    + destruct (processImage (set_images rest this) imgdata w h)
        as [this1 |] eqn:Ep; [cbn [obind] in H | discriminate H].
      destruct (processImage_inv _ _ _ _ _ Ep)
        as (d & Hp & Hdid & _ & _ & _ & _ & _ & Hcw1 & _ & Hi1 & Hid1 & Hc1).
      apply IH in H; [| rewrite Hi1; reflexivity].
      destruct H as (Hi & Hid & Hc & Hcw & Hl & mid & reps & dr & Htr & Hr & Hids).
      unfold same_config in Hc1, Hc.
      cbn [set_images padding image_root output_file placeholder
           output_format pngcrush canvasWidth _img_id] in Hc1, Hid1, Hcw1.
      decompose [and] Hc1. decompose [and] Hc.
      split; [exact Hi |]. split; [congruence |].
      split; [repeat split; congruence |]. split; [lia |].
      split.
      { intros Hok. apply Hl.
        eapply processImage_layout_ok; [| exact Ep]. exact Hok. }
      exists mid, reps, dr. split; [| split].
      * rewrite Htr. cbn [error_event app]. rewrite <- !app_assoc.
        replace (output_format this1) with (output_format this) by congruence.
        replace (output_file this1) with (output_file this) by congruence.
        reflexivity.
      * replace (placeholder this) with (placeholder this1) by congruence.
        exact Hr.
      * intros Hne. rewrite forallb_app in Hne.
        apply andb_true_iff in Hne. destruct Hne as (_ & Hne).
        rewrite Hids by exact Hne.
        rewrite Hp. cbn [set_images processedImages map].
        rewrite map_app, <- app_assoc. simpl. rewrite Hdid. reflexivity.
Qed.

End BuildInvariant.

(** ** Canvas height *)

(** C5.  After [build] has resolved the registered images and drawn them,
    [canvasHeight] is the sum over the processed records of their
    [blockHeight] plus the padding, 10; when no image failed to open these
    records are the registered ones in the order of registration (ids 1,
    2, ...), each counted once, whatever its repeat mode. *)
Theorem canvasHeight_is_sum path_join gd_open fuel this css this' tr :
  registered this ->
  build path_join gd_open fuel this css None = Some (Completed this' tr) ->
  canvasHeight this'
  = total (map (fun d => Img.blockHeight d + 10) (processedImages this'))
  /\ (forallb (fun e => negb (is_error e)) tr = true ->
      map Img._img_id (processedImages this') = map entry_id (images this))
  /\ map entry_id (images this) = ids_from 1 (List.length (images this)).
Proof.
  intros Hreg Hb.
  destruct (registered_inv _ Hreg) as ((Hids & _ & _) & Hp & Hw & Hh & Hpad).
  unfold build in Hb.
  destruct (build_pending_inv _ _ _ _ _ _ _ _ _ _ eq_refl Hb)
    as (_ & _ & Hc & _ & Hl & mid & reps & dr & Htr & _ & Hid).
  destruct Hl as (Hsum & _).
  { unfold layout_ok. rewrite Hp, Hh. split; [reflexivity | constructor]. }
  destruct Hc as (Hpad' & _).
  split; [| split].
  - rewrite Hsum, Hpad', Hpad. reflexivity.
  - intros Hne. rewrite Hid, Hp; [reflexivity |].
    rewrite Htr in Hne. simpl in Hne. rewrite forallb_app in Hne.
    apply andb_true_iff in Hne. simpl. apply Hne.
  - exact Hids.
Qed.

Lemma canvasHeight_is_sum_witness :
  exists this' tr,
    registered (Example.after
                  [("a.png", None);
                   ("b.png", Some "repeat:y; height:40; limit-repeat-y:95")])
    /\ build Example.path_join Example.gd_open 3
             (Example.after
                [("a.png", None);
                 ("b.png", Some "repeat:y; height:40; limit-repeat-y:95")])
             "" None
       = Some (Completed this' tr)
    /\ canvasHeight this' = 135
    /\ canvasHeight this'
       = total (map (fun d => Img.blockHeight d + 10) (processedImages this'))
    /\ (forallb (fun e => negb (is_error e)) tr = true ->
        map Img._img_id (processedImages this')
        = map entry_id
              (images (Example.after
                         [("a.png", None);
                          ("b.png", Some "repeat:y; height:40; limit-repeat-y:95")])))
    /\ map entry_id
           (images (Example.after
                      [("a.png", None);
                       ("b.png", Some "repeat:y; height:40; limit-repeat-y:95")]))
       = ids_from 1
           (List.length
              (images (Example.after
                         [("a.png", None);
                          ("b.png", Some "repeat:y; height:40; limit-repeat-y:95")]))).
Proof.
  pose (l := [("a.png", @None string);
              ("b.png", Some "repeat:y; height:40; limit-repeat-y:95")]).
  fold l.
  let o := eval vm_compute in
             (build Example.path_join Example.gd_open 3 (Example.after l) "" None) in
  match o with
  | Some (Completed ?t ?tr) =>
      exists t, tr;
      assert (B : build Example.path_join Example.gd_open 3 (Example.after l)
                        "" None = Some (Completed t tr))
        by (vm_compute; reflexivity);
      split; [apply registered_after |];
      split; [exact B |];
      split; [reflexivity |];
      exact (canvasHeight_is_sum _ _ _ _ _ _ _ (registered_after l) B)
  end.
Defined.

(** ** Canvas width *)

(** C6, as the code has it.  After [build], [canvasWidth] is at least the
    resolved [width] of every processed record; the resolved width is the
    requested width, or the width of the image file when the requested
    width is 0. *)
Theorem canvasWidth_covers_widths :
  (forall path_join gd_open fuel this css this' tr,
      registered this ->
      build path_join gd_open fuel this css None = Some (Completed this' tr) ->
      Forall (fun d => Img.width d <= canvasWidth this') (processedImages this'))
  /\ (forall this imgdata w h this',
         processImage this imgdata w h = Some this' ->
         exists requested d,
           int_attr "width" (attrs imgdata) = Some requested
           /\ processedImages this' = (processedImages this ++ [d])%list
           /\ Img.imageWidth d = w
           /\ Img.width d = (if requested =? 0 then w else requested)
           /\ Img.width d <= canvasWidth this').
Proof.
  split.
  - intros path_join gd_open fuel this css this' tr Hreg Hb.
    destruct (registered_inv _ Hreg) as (_ & Hp & Hw & Hh & Hpad).
    unfold build in Hb.
    destruct (build_pending_inv _ _ _ _ _ _ _ _ _ _ eq_refl Hb)
      as (_ & _ & _ & _ & Hl & _).
    apply Hl. unfold layout_ok. rewrite Hp, Hh.
    split; [reflexivity | constructor].
  - intros this imgdata w h this' H.
    destruct (processImage_inv _ _ _ _ _ H)
      as (d & Hp & _ & Hiw & _ & _ & _ & _ & _ & Hwd & _).
    unfold processImage in H. obind_inv H. injection H as <-.
    cbn [set_layout processedImages] in Hp.
    apply app_inv_head in Hp. injection Hp as <-.
    do 2 eexists. split; [reflexivity |]. split; [reflexivity |].
    split; [reflexivity |]. split; [reflexivity |]. exact Hwd.
Qed.

Lemma canvasWidth_covers_widths_witness :
  exists this' tr,
    registered (Example.after [("a.png", Some "width:5"); ("b.png", None)])
    /\ build Example.path_join Example.gd_open 0
             (Example.after [("a.png", Some "width:5"); ("b.png", None)])
             "" None
       = Some (Completed this' tr)
    /\ canvasWidth this' = 10
    /\ Forall (fun d => Img.width d <= canvasWidth this') (processedImages this').
Proof.
  pose (l := [("a.png", Some "width:5"); ("b.png", @None string)]).
  fold l.
  let o := eval vm_compute in
             (build Example.path_join Example.gd_open 0 (Example.after l) "" None) in
  match o with
  | Some (Completed ?t ?tr) =>
      exists t, tr;
      assert (B : build Example.path_join Example.gd_open 0 (Example.after l)
                        "" None = Some (Completed t tr))
        by (vm_compute; reflexivity);
      split; [apply registered_after |];
      split; [exact B |];
      split; [reflexivity |];
      exact (proj1 canvasWidth_covers_widths _ _ _ _ _ _ _
                   (registered_after l) B)
  end.
Defined.

(** C6 as stated fails when a width smaller than the image is requested:
    [a.png] is 20 wide, [width:5] is asked for, and the canvas is 5
    wide. *)
Lemma canvasWidth_below_image_width :
  exists this' tr,
    build Example.path_join Example.gd_open 0
          (Example.after [("a.png", Some "width:5")]) "" None
    = Some (Completed this' tr)
    /\ canvasWidth this' = 5
    /\ map Img.imageWidth (processedImages this') = [20]
    /\ ~ Forall (fun d => Img.imageWidth d <= canvasWidth this')
                (processedImages this').
Proof.
  do 2 eexists. split; [reflexivity |]. split; [reflexivity |].
  split; [reflexivity |].
  intros H. inversion H as [| d l Hd _]. simpl in Hd. lia.
Qed.

(** ** Tiling along x *)

Lemma tile_x_spec id w h bw curY :
  0 < w ->
  forall n curX drawn fuel,
    (Z.of_nat n - 1) * w < bw - curX <= Z.of_nat n * w ->
    (n <= fuel)%nat ->
    tile_x fuel id w h bw curX curY drawn
    = Some (curX + Z.of_nat n * w,
            (drawn ++ x_tiles id w h bw curY n curX)%list).
Proof.
  intros Hw. induction n as [| n IH]; intros curX drawn fuel Hn Hfuel.
  - assert (Hge : bw <= curX) by lia.
    destruct fuel; cbn [tile_x x_tiles];
      (destruct (Z.ltb_spec curX bw); [exfalso; lia |]);
      rewrite app_nil_r; repeat f_equal; lia.
  - destruct fuel as [| fuel]; [lia |].
    cbn [tile_x].
    destruct (Z.ltb_spec curX bw); [| exfalso; nia].
    rewrite (IH (curX + w)); [| nia | lia].
    rewrite <- app_assoc. cbn [x_tiles app].
    assert (Hx : curX + w + Z.of_nat n * w = curX + Z.of_nat (S n) * w) by nia.
    rewrite Hx.
    assert (Ht : (if curX + w <? bw then w else bw - curX)
                 = match n with O => bw - curX | S _ => w end).
    { destruct n; destruct (Z.ltb_spec (curX + w) bw);
        try reflexivity; exfalso; nia. }
    rewrite Ht. reflexivity.
Qed.

Lemma tile_x_needs_fuel id w h bw curY :
  0 < w ->
  forall n curX drawn fuel,
    (Z.of_nat n - 1) * w < bw - curX <= Z.of_nat n * w ->
    (fuel < n)%nat ->
    tile_x fuel id w h bw curX curY drawn = None.
Proof.
  intros Hw. induction n as [| n IH]; intros curX drawn fuel Hn Hfuel; [lia |].
  destruct fuel as [| fuel]; cbn [tile_x];
    (destruct (Z.ltb_spec curX bw); [| exfalso; nia]); [reflexivity |].
  apply IH; [nia | lia].
Qed.

Lemma iterations_exist w D :
  0 < w -> 0 <= D ->
  exists n : nat, (Z.of_nat n - 1) * w < D <= Z.of_nat n * w.
Proof.
  intros Hw HD. exists (Z.to_nat ((D + w - 1) / w)).
  assert (Hq : 0 <= (D + w - 1) / w) by (apply Z.div_pos; lia).
  rewrite Z2Nat.id by exact Hq.
  pose proof (Z.div_mod (D + w - 1) w ltac:(lia)) as Hdm.
  pose proof (Z.mod_pos_bound (D + w - 1) w Hw) as Hm.
  nia.
Qed.

Lemma x_tiles_total id w h bw curY :
  forall n curX,
    total (map copy_width (x_tiles id w h bw curY n curX))
    = match n with
      | O => 0
      | S n' => bw - curX
      end.
Proof.
  induction n as [| n IH]; intros curX; [reflexivity |].
  simpl. rewrite IH. destruct n; lia.
Qed.

Lemma x_tiles_right id w h bw curY :
  0 < w ->
  forall n curX,
    (Z.of_nat n - 1) * w < bw - curX ->
    Forall (fun t => copy_right t <= bw) (x_tiles id w h bw curY n curX).
Proof.
  intros Hw. induction n as [| n IH]; intros curX Hn; simpl; constructor.
  - simpl. destruct n; lia.
  - apply IH. lia.
Qed.

(** C7.  A [repeat:x] image with [limit-repeat-x] 0 and a positive width,
    drawn on a canvas [canvasWidth] wide: its block width is the canvas
    width; the loop makes [n] copies, where [n] is the first count with
    [n * width >= canvasWidth] (it stops exactly when [curX] reaches the
    block width, and with less fuel than [n] it is still running); the
    copies start at 0 and are [width] apart, each [width] wide but the
    last, which is [blockWidth - curX] wide; their widths add up to the
    canvas width when it is positive and none reaches beyond it; [curY]
    then advances once by [height + padding]. *)
Theorem repeat_x_fills_canvas this c d :
  Img.repeat d = "x" ->
  Img.limit_repeat_x d = 0 ->
  Img.blockWidth d
  = blockWidth_expr (Img.repeat d) (Img.align d) (Img.limit_repeat_x d)
                    (Img.width d) ->
  0 < Img.width d ->
  0 < canvasWidth this ->
  exists (n : nat) block,
    let tiles := x_tiles (Img._img_id d) (Img.width d) (Img.height d)
                         (canvasWidth this) (curY c) n 0 in
    (Z.of_nat n - 1) * Img.width d < canvasWidth this <= Z.of_nat n * Img.width d
    /\ (forall fuel, (n <= fuel)%nat ->
        exists c', place fuel this c d = Some c'
                   /\ drawn c' = (drawn c ++ block :: tiles)%list
                   /\ curY c' = curY c + (Img.height d + padding this)
                   /\ map Img.blockWidth (placed c')
                      = (map Img.blockWidth (placed c)
                           ++ [VNum (Int (canvasWidth this))])%list)
    /\ (forall fuel, (fuel < n)%nat -> place fuel this c d = None)
    /\ total (map copy_width tiles) = canvasWidth this
    /\ Forall (fun t => copy_right t <= canvasWidth this) tiles.
Proof.
  intros Hrep Hlim Hbw Hw Hcw.
  destruct (iterations_exist (Img.width d) (canvasWidth this) Hw ltac:(lia))
    as (n & Hn).
  rewrite Hrep, Hlim in Hbw. rewrite blockWidth_expr_cases in Hbw.
  simpl in Hbw.
  exists n. eexists. cbv zeta.
  split; [exact Hn |].
  split; [| split; [| split]].
  - intros fuel Hfuel. unfold place. rewrite Hbw, Hrep. simpl.
    rewrite (tile_x_spec _ _ _ _ _ Hw n); [| lia | exact Hfuel].
    simpl. eexists. split; [reflexivity |]. simpl.
    split; [rewrite <- app_assoc; reflexivity |].
    split; [reflexivity |].
    rewrite map_app. reflexivity.
  - intros fuel Hfuel. unfold place. rewrite Hbw, Hrep. simpl.
    rewrite (tile_x_needs_fuel _ _ _ _ _ Hw n); [reflexivity | lia | exact Hfuel].
  - rewrite x_tiles_total. destruct n; lia.
  - apply x_tiles_right; [exact Hw | lia].
Qed.

Lemma repeat_x_fills_canvas_witness :
  Img.repeat Example.stripe = "x"
  /\ Img.limit_repeat_x Example.stripe = 0
  /\ Img.blockWidth Example.stripe
     = blockWidth_expr (Img.repeat Example.stripe) (Img.align Example.stripe)
                       (Img.limit_repeat_x Example.stripe)
                       (Img.width Example.stripe)
  /\ 0 < Img.width Example.stripe
  /\ 0 < canvasWidth (set_layout [] 33 30 Example.sprite)
  /\ exists (n : nat) block,
      let tiles := x_tiles 1 7 20 33 0 n 0 in
      (Z.of_nat n - 1) * 7 < 33 <= Z.of_nat n * 7
      /\ (forall fuel, (n <= fuel)%nat ->
          exists c',
            place fuel (set_layout [] 33 30 Example.sprite)
                  (Example.start "") Example.stripe = Some c'
            /\ drawn c' = (drawn (Example.start "") ++ block :: tiles)%list
            /\ curY c' = curY (Example.start "") + (20 + 10)
            /\ map Img.blockWidth (placed c')
               = (map Img.blockWidth (placed (Example.start ""))
                    ++ [VNum (Int 33)])%list)
      /\ (forall fuel, (fuel < n)%nat ->
          place fuel (set_layout [] 33 30 Example.sprite)
                (Example.start "") Example.stripe = None)
      /\ total (map copy_width tiles) = 33
      /\ Forall (fun t => copy_right t <= 33) tiles.
Proof.
  split; [reflexivity |]. split; [reflexivity |]. split; [reflexivity |].
  split; [reflexivity |]. split; [reflexivity |].
  apply (repeat_x_fills_canvas (set_layout [] 33 30 Example.sprite)
           (Example.start "") Example.stripe);
    reflexivity.
Defined.

(** ** After a build *)

(** C10.  [build] takes the records off [this.images] one by one, so when
    it has made its last callback the list is empty; a call of
    [spritefunc] after that, with the file name and options of a call made
    before the build, finds nothing cached and returns a token with a
    fresh id, different from the one returned before. *)
Theorem build_empties_registry path_join gd_open fuel
        this0 filename options tok this1 this2 css err this' tr :
  registered this0 ->
  spritefunc this0 filename options = Ok (tok, this1) ->
  later this1 this2 ->
  build path_join gd_open fuel this2 css err = Some (Completed this' tr) ->
  images this' = []
  /\ exists this'',
      spritefunc this' filename options
      = Ok (token (placeholder this') (_img_id this' + 1), this'')
      /\ token (placeholder this') (_img_id this' + 1) <> tok
      /\ map entry_id (images this'') = [_img_id this' + 1].
Proof.
  intros Hreg Hcall Hlater Hb.
  destruct (registered_inv _ Hreg) as ((Hids & Hn & _) & _).
  destruct (later_inv _ _ Hlater) as (Hs & _ & _ & Hle).
  unfold build in Hb.
  destruct (build_pending_inv _ _ _ _ _ _ _ _ _ _ eq_refl Hb)
    as (Hi & Hid & Hc & _).
  destruct (spritefunc_inv _ _ _ _ _ Hcall) as (r & Hm & Hs0 & Hcase).
  assert (Hph : placeholder this' = placeholder this0).
  { unfold same_config in Hc. unfold same_but_registry in Hs, Hs0.
    decompose [and] Hc. decompose [and] Hs. decompose [and] Hs0. congruence. }
  assert (Hold : exists id, tok = token (placeholder this0) id
                            /\ id <= _img_id this1).
  { destruct Hcase as [(e & Hc' & -> & ->) | (_ & -> & Hid1 & _)].
    - exists (entry_id e). split; [reflexivity |].
      apply cached_Some in Hc'. destruct Hc' as (Hin & _).
      apply (in_map entry_id) in Hin. rewrite Hids in Hin.
      apply ids_from_bounds in Hin. lia.
    - exists (_img_id this0 + 1). split; [reflexivity | lia]. }
  destruct Hold as (id & -> & Hidle).
  split; [exact Hi |].
  unfold spritefunc. rewrite Hm, Hi. simpl.
  eexists. split; [reflexivity |]. split.
  - rewrite Hph. intros H. apply token_inj in H. lia.
  - reflexivity.
Qed.

Lemma build_empties_registry_witness :
  exists tok this1 this' tr,
    registered Example.sprite
    /\ spritefunc Example.sprite (Example.file "a.png") (Some "height:40")
       = Ok (tok, this1)
    /\ later this1 this1
    /\ build Example.path_join Example.gd_open 0 this1 "" None
       = Some (Completed this' tr)
    /\ tok = "SPRITE_PLACEHOLDER(1)"
    /\ images this' = []
    /\ exists this'',
        spritefunc this' (Example.file "a.png") (Some "height:40")
        = Ok (token (placeholder this') (_img_id this' + 1), this'')
        /\ token (placeholder this') (_img_id this' + 1) <> tok
        /\ map entry_id (images this'') = [_img_id this' + 1].
Proof.
  let o := eval vm_compute in
             (spritefunc Example.sprite (Example.file "a.png")
                         (Some "height:40")) in
  match o with
  | Ok (?tok, ?t1) =>
      let b := eval vm_compute in
                 (build Example.path_join Example.gd_open 0 t1 "" None) in
      match b with
      | Some (Completed ?t ?tr) =>
          exists tok, t1, t, tr;
          assert (C : spritefunc Example.sprite (Example.file "a.png")
                                 (Some "height:40") = Ok (tok, t1))
            by (vm_compute; reflexivity);
          assert (B : build Example.path_join Example.gd_open 0 t1 "" None
                      = Some (Completed t tr))
            by (vm_compute; reflexivity);
          split; [exact registered_new |];
          split; [exact C |];
          split; [constructor |];
          split; [exact B |];
          split; [reflexivity |];
          exact (build_empties_registry _ _ _ _ _ _ _ _ _ _ _ _ _
                   registered_new C (later_refl t1) B)
      end
  end.
Defined.

(** ** Replacing placeholders *)

Section Replace.

(** [q] delimits the patterns; [sp] is a character every replacement has
    and no pattern has. *)
Variables q sp : ascii.
Variables pat rep : string.
Hypothesis rep_no_q : has_char q rep = false.
Hypothesis rep_sp : has_char sp rep = true.

Lemma occurs_skip T X :
  forall r, has_char q r = false ->
  occurs (String q T) (r ++ X) = true -> occurs (String q T) X = true.
Proof.
  induction r as [| a r IH]; intros Hr H; [exact H |].
  simpl in Hr. apply orb_false_iff in Hr. destruct Hr as [Ha Hr].
  cbn [append occurs] in H. apply orb_true_iff in H.
  destruct H as [H | H].
  - apply prefix_cons in H. destruct H as [<- _].
    rewrite Ascii.eqb_refl in Ha. discriminate.
  - apply IH; assumption.
Qed.

Lemma prefix_not_across X :
  forall r u, has_char q r = false -> has_char sp r = true ->
  has_char sp u = false ->
  String.prefix (u ++ String q "") (r ++ X) = false.
Proof.
  induction r as [| a r IH]; intros u Hq Hsp Hu; [discriminate Hsp |].
  simpl in Hq, Hsp. apply orb_false_iff in Hq. destruct Hq as [Ha Hq].
  destruct (String.prefix (u ++ String q "") (String a r ++ X)) eqn:E;
    [| reflexivity].
  exfalso. destruct u as [| b u].
  - apply prefix_cons in E. destruct E as [<- _].
    rewrite Ascii.eqb_refl in Ha. discriminate.
  - cbn [append] in E. apply prefix_cons in E. destruct E as [<- E].
    simpl in Hu. apply orb_false_iff in Hu. destruct Hu as [Hb Hu].
    rewrite Hb in Hsp. simpl in Hsp.
    rewrite (IH u Hq Hsp Hu) in E. discriminate.
Qed.

Lemma prefix_through u :
  has_char sp u = false ->
  forall s,
    String.prefix (u ++ String q "") (replace_from pat rep 0 s) = true ->
    String.prefix (u ++ String q "") s = true.
Proof.
  induction u as [| a u IH]; intros Hu s H.
  - destruct s as [| c s]; [discriminate H |].
    cbn [replace_from] in H.
    destruct (String.prefix pat (String c s)).
    + rewrite (prefix_not_across _ rep "" rep_no_q rep_sp eq_refl) in H.
      discriminate.
    + cbn [append] in *. apply prefix_cons in H. destruct H as [-> _].
      apply prefix_cons. split; [reflexivity | destruct s; reflexivity].
  - simpl in Hu. apply orb_false_iff in Hu. destruct Hu as [Ha Hu].
    destruct s as [| c s]; [discriminate H |].
    cbn [replace_from] in H.
    destruct (String.prefix pat (String c s)).
    + rewrite (prefix_not_across _ rep (String a u) rep_no_q rep_sp) in H;
        [discriminate |].
      simpl. rewrite Ha, Hu. reflexivity.
    + cbn [append] in *. apply prefix_cons in H. destruct H as [-> H].
      apply prefix_cons. split; [reflexivity | apply IH; assumption].
Qed.

(** A quoted text found after the replacement was there before, at a place
    where the pattern did not match; so it is not the pattern. *)
Lemma occurs_replace_from N :
  has_char sp N = false ->
  forall s k,
    occurs (String q (N ++ String q "")) (replace_from pat rep k s) = true ->
    occurs (String q (N ++ String q "")) s = true
    /\ String q (N ++ String q "") <> pat.
Proof.
  intros HN. induction s as [| c s IH]; intros k H; [discriminate H |].
  cbn [replace_from] in H. destruct k as [| k].
  - destruct (String.prefix pat (String c s)) eqn:E.
    + apply (occurs_skip _ _ rep rep_no_q) in H. apply IH in H.
      destruct H as [H Hne]. split; [| exact Hne].
      cbn [occurs]. rewrite H. apply orb_true_r.
    + cbn [occurs] in H. apply orb_true_iff in H. destruct H as [H | H].
      * apply prefix_cons in H. destruct H as [<- H].
        apply (prefix_through N HN) in H.
        assert (Hp : String.prefix (String q (N ++ String q "")) (String q s)
                     = true) by (apply prefix_cons; auto).
        split.
        { cbn [occurs]. rewrite Hp. reflexivity. }
        { intros <-. rewrite Hp in E. discriminate. }
      * apply IH in H. destruct H as [H Hne]. split; [| exact Hne].
        cbn [occurs]. rewrite H. apply orb_true_r.
  - apply IH in H. destruct H as [H Hne]. split; [| exact Hne].
    cbn [occurs]. rewrite H. apply orb_true_r.
Qed.

Lemma occurs_replace_all N s :
  has_char sp N = false ->
  occurs (String q (N ++ String q "")) (replace_all pat rep s) = true ->
  occurs (String q (N ++ String q "")) s = true
  /\ String q (N ++ String q "") <> pat.
Proof.
  intros HN. unfold replace_all. destruct pat eqn:E.
  - intros H. split; [exact H | discriminate].
  - rewrite <- E. apply occurs_replace_from. exact HN.
Qed.

End Replace.

Lemma replacement_no_quote d x y : has_char "'" (replacement d x y) = false.
Proof.
  unfold replacement, appendMargin.
  destruct (Img.align d =? "right")%string;
    destruct (Img.align d =? "center")%string;
    destruct (Img.totalwidth d); destruct (Img.totalheight d);
    destruct (Img.padwidth d); destruct (Img.padheight d);
    split_ifs;
    repeat (rewrite has_char_app
            || rewrite has_char_Z_to_string by reflexivity);
    reflexivity.
Qed.

(** No [$] in a replacement: it is put in as it is. *)
Lemma replacement_no_dollar d x y : has_char "$" (replacement d x y) = false.
Proof.
  unfold replacement, appendMargin.
  destruct (Img.align d =? "right")%string;
    destruct (Img.align d =? "center")%string;
    destruct (Img.totalwidth d); destruct (Img.totalheight d);
    destruct (Img.padwidth d); destruct (Img.padheight d);
    split_ifs;
    repeat (rewrite has_char_app
            || rewrite has_char_Z_to_string by reflexivity);
    reflexivity.
Qed.

Lemma replacement_space d x y : has_char " " (replacement d x y) = true.
Proof.
  unfold replacement. rewrite has_char_app. apply orb_true_iff. right.
  reflexivity.
Qed.

Lemma quoted_token_shape p id :
  quoted_token p id
  = String "'" ((p ++ "(" ++ Z_to_string id ++ ")") ++ String "'" "").
Proof.
  unfold quoted_token. simpl. f_equal.
  repeat (rewrite append_assoc; simpl). reflexivity.
Qed.

Lemma token_no_space p id :
  has_char " " p = false ->
  has_char " " (p ++ "(" ++ Z_to_string id ++ ")") = false.
Proof.
  intros H.
  repeat (rewrite has_char_app
          || rewrite has_char_Z_to_string by reflexivity).
  rewrite H. reflexivity.
Qed.

Lemma replace_each_keeps_absent p id reps :
  has_char " " p = false ->
  Forall (fun pr => position_text (snd pr)) reps ->
  forall s,
    occurs (quoted_token p id) s = false ->
    occurs (quoted_token p id) (replace_each reps s) = false.
Proof.
  intros Hp Hreps. induction Hreps as [| [pat rep] reps [Hq Hsp] _ IH];
    intros s Hs; [exact Hs |].
  cbn [replace_each fold_left fst snd]. apply IH.
  destruct (occurs (quoted_token p id) (replace_all pat rep s)) eqn:E;
    [| reflexivity].
  rewrite quoted_token_shape in E, Hs.
  apply (occurs_replace_all "'" " " pat rep Hq Hsp) in E;
    [| apply token_no_space; exact Hp].
  destruct E as [E _]. rewrite E in Hs. discriminate.
Qed.

Lemma replace_each_clears p id reps :
  has_char " " p = false ->
  Forall (fun pr => position_text (snd pr)) reps ->
  (exists rep, In (quoted_token p id, rep) reps) ->
  forall s, occurs (quoted_token p id) (replace_each reps s) = false.
Proof.
  intros Hp Hreps. induction Hreps as [| [pat rep] reps [Hq Hsp] Hreps IH];
    intros (r & Hin) s; [contradiction |].
  cbn [replace_each fold_left fst snd].
  destruct Hin as [Heq | Hin].
  - injection Heq as -> ->.
    apply replace_each_keeps_absent; [exact Hp | exact Hreps |].
    destruct (occurs (quoted_token p id)
                     (replace_all (quoted_token p id) r s)) eqn:E;
      [| reflexivity].
    rewrite quoted_token_shape in E.
    apply (occurs_replace_all "'" " " _ r Hq Hsp) in E;
      [| apply token_no_space; exact Hp].
    destruct E as [_ E]. contradiction.
  - apply IH. eauto.
Qed.

Lemma Forall2_In_left {A B} (R : A -> B -> Prop) l l' a :
  Forall2 R l l' -> In a l -> exists b, In b l' /\ R a b.
Proof.
  induction 1 as [| x y l l' Hxy _ IH]; [contradiction |].
  intros [<- | Hin].
  - exists y. split; [left; reflexivity | exact Hxy].
  - destruct (IH Hin) as (b & Hb & HR). exists b. split; [right |]; auto.
Qed.

Lemma Forall2_right {A B} (R : A -> B -> Prop) (P : B -> Prop) l l' :
  Forall2 R l l' -> (forall a b, R a b -> P b) -> Forall P l'.
Proof. induction 1; intros HP; constructor; eauto. Qed.

(** A text without the character a pattern begins with is left as it
    is. *)
Lemma replace_all_absent q T rep s :
  has_char q s = false -> replace_all (String q T) rep s = s.
Proof.
  unfold replace_all. induction s as [| c s IH]; [reflexivity |].
  cbn [has_char]. intros H. apply orb_false_iff in H. destruct H as [Hc Hs].
  cbn [replace_from].
  destruct (String.prefix (String q T) (String c s)) eqn:E.
  - apply prefix_cons in E. destruct E as [<- _].
    rewrite Ascii.eqb_refl in Hc. discriminate.
  - f_equal. apply IH. exact Hs.
Qed.

Lemma replace_each_absent p reps :
  Forall (fun pr => exists id, fst pr = quoted_token p id) reps ->
  forall s, has_char "'" s = false -> replace_each reps s = s.
Proof.
  induction 1 as [| [pat rep] reps (id & Hpat) _ IH]; intros s Hs;
    [reflexivity |].
  cbn [replace_each fold_left fst snd] in *. subst pat.
  rewrite quoted_token_shape, replace_all_absent by exact Hs.
  apply IH. exact Hs.
Qed.

(** C4, as the code has it.  The pattern [makeMap] builds for an image is
    its token between single quotes, the form in which the style sheet
    compiler prints the string [spritefunc] returned.  When the
    placeholder prefix has in it neither a character with a meaning of its
    own in a regular expression nor a space, the text handed to the last
    callback has no occurrence of the quoted token of any image that was
    processed; when no image failed to open, that is every registered
    image.  A text without a single quote in it is handed over as it is,
    the tokens in it with it. *)
Theorem quoted_placeholders_replaced path_join gd_open fuel this css this' tr :
  registered this ->
  regex_plain (placeholder this) = true ->
  has_char " " (placeholder this) = false ->
  build path_join gd_open fuel this css None = Some (Completed this' tr) ->
  exists mid save css',
    tr = (mid ++ [save; CallbackDone css'])%list
    /\ (forall d, In d (processedImages this') ->
        occurs (quoted_token (placeholder this) (Img._img_id d)) css' = false)
    /\ (forallb (fun e => negb (is_error e)) tr = true ->
        forall e, In e (images this) ->
        occurs (quoted_token (placeholder this) (entry_id e)) css' = false)
    /\ (has_char "'" css = false -> css' = css).
Proof.
  intros Hreg _ Hp Hb.
  destruct (registered_inv _ Hreg) as (_ & Hproc & _).
  unfold build in Hb.
  destruct (build_pending_inv _ _ _ _ _ _ _ _ _ _ eq_refl Hb)
    as (_ & _ & _ & _ & _ & mid & reps & dr & Htr & Hr & Hid).
  simpl in Htr.
  assert (Hreps : Forall (fun pr => position_text (snd pr)) reps).
  { apply (Forall2_right _ _ _ _ Hr). intros d pr (_ & x & y & ->).
    split; [apply replacement_no_quote | apply replacement_space]. }
  assert (Hdone : forall d, In d (processedImages this') ->
            occurs (quoted_token (placeholder this) (Img._img_id d))
                   (replace_each reps css) = false).
  { intros d Hd. apply replace_each_clears; [exact Hp | exact Hreps |].
    destruct (Forall2_In_left _ _ _ _ Hr Hd) as ([pat rep] & Hin & Hpat & _).
    simpl in Hpat. subst pat. eauto. }
  assert (Hsame : has_char "'" css = false -> replace_each reps css = css).
  { apply (replace_each_absent (placeholder this)).
    apply (Forall2_right _ _ _ _ Hr). intros d pr (Hpat & _). eauto. }
  do 3 eexists. split; [exact Htr |]. split; [exact Hdone |].
  split; [| exact Hsame].
  intros Hne e He.
  assert (Hids : map Img._img_id (processedImages this')
                 = map entry_id (images this)).
  { rewrite Hid, Hproc; [reflexivity |].
    rewrite Htr in Hne. rewrite forallb_app in Hne.
    apply andb_true_iff in Hne. simpl. apply Hne. }
  apply (in_map entry_id) in He. rewrite <- Hids in He.
  apply in_map_iff in He. destruct He as (d & <- & Hd). apply Hdone. exact Hd.
Qed.

Lemma quoted_placeholders_replaced_witness :
  exists this' tr,
    registered (Example.after [("a.png", None); ("b.png", Some "align:center")])
    /\ regex_plain (placeholder (Example.after
                                   [("a.png", None);
                                    ("b.png", Some "align:center")])) = true
    /\ has_char " " (placeholder (Example.after
                                    [("a.png", None);
                                     ("b.png", Some "align:center")])) = false
    /\ build Example.path_join Example.gd_open 0
             (Example.after [("a.png", None); ("b.png", Some "align:center")])
             "a{p:'SPRITE_PLACEHOLDER(1)'} b{p:'SPRITE_PLACEHOLDER(2)'}" None
       = Some (Completed this' tr)
    /\ exists mid save css',
        tr = (mid ++ [save; CallbackDone css'])%list
        /\ (forall d, In d (processedImages this') ->
            occurs (quoted_token
                      (placeholder (Example.after
                                      [("a.png", None);
                                       ("b.png", Some "align:center")]))
                      (Img._img_id d)) css' = false)
        /\ (forallb (fun e => negb (is_error e)) tr = true ->
            forall e,
              In e (images (Example.after
                              [("a.png", None); ("b.png", Some "align:center")])) ->
              occurs (quoted_token
                        (placeholder (Example.after
                                        [("a.png", None);
                                         ("b.png", Some "align:center")]))
                        (entry_id e)) css' = false)
        /\ (has_char "'" "a{p:'SPRITE_PLACEHOLDER(1)'} b{p:'SPRITE_PLACEHOLDER(2)'}"
            = false ->
            css' = "a{p:'SPRITE_PLACEHOLDER(1)'} b{p:'SPRITE_PLACEHOLDER(2)'}").
Proof.
  pose (l := [("a.png", @None string); ("b.png", Some "align:center")]).
  fold l.
  let o := eval vm_compute in
             (build Example.path_join Example.gd_open 0 (Example.after l)
                    "a{p:'SPRITE_PLACEHOLDER(1)'} b{p:'SPRITE_PLACEHOLDER(2)'}"
                    None) in
  match o with
  | Some (Completed ?t ?tr) =>
      exists t, tr;
      assert (B : build Example.path_join Example.gd_open 0 (Example.after l)
                    "a{p:'SPRITE_PLACEHOLDER(1)'} b{p:'SPRITE_PLACEHOLDER(2)'}"
                    None = Some (Completed t tr))
        by (vm_compute; reflexivity);
      split; [apply registered_after |];
      split; [reflexivity |];
      split; [reflexivity |];
      split; [exact B |];
      exact (quoted_placeholders_replaced _ _ _ _ _ _ _
               (registered_after l) eq_refl eq_refl B)
  end.
Defined.

(** C4 as stated fails for a token that stands in the text without
    quotes: it is a literal part of the text handed to [build], and it is
    still there in the text handed to the callback. *)
Lemma unquoted_token_stays :
  exists this this',
    spritefunc Example.sprite (Example.file "a.png") None
    = Ok ("SPRITE_PLACEHOLDER(1)", this)
    /\ occurs "SPRITE_PLACEHOLDER(1)" "a{p:SPRITE_PLACEHOLDER(1)}" = true
    /\ build Example.path_join Example.gd_open 0 this
             "a{p:SPRITE_PLACEHOLDER(1)}" None
       = Some (Completed this'
                 [ SaveImage "png" "sprite.png" 20 30
                     [BlockCopy 1 0 0 20 20; SpriteCopy 1 0 0 20 20];
                   CallbackDone "a{p:SPRITE_PLACEHOLDER(1)}" ]).
Proof.
  do 2 eexists. split; [reflexivity |]. split; reflexivity.
Qed.

(* ===================================================================== *)
(** * Further properties *)
(* ===================================================================== *)

(** ** File name extensions *)

Lemma split_snoc c a b : split c (a ++ String c b) = (split c a ++ split c b)%list.
Proof.
  induction a as [|x a IH]; simpl.
  - rewrite Ascii.eqb_refl. reflexivity.
  - destruct (Ascii.eqb x c).
    + rewrite IH. reflexivity.
    + rewrite IH. destruct (split c a) eqn:E.
      * exfalso. exact (split_not_nil c a E).
      * reflexivity.
Qed.

Lemma last_app_cons {A} (l : list A) x l' d : last (l ++ x :: l') d = last (x :: l') d.
Proof.
  induction l as [|y l IH]; [reflexivity |].
  cbn [app]. rewrite <- IH. destruct (l ++ x :: l')%list eqn:E; [|reflexivity].
  destruct l; discriminate.
Qed.

Lemma pop_split_extension stem ext :
  has_char "." ext = false -> pop (split "." (stem ++ "." ++ ext)) = ext.
Proof.
  intros H. change (stem ++ "." ++ ext) with (stem ++ String "." ext).
  rewrite split_snoc, (split_no_sep _ _ H). unfold pop.
  rewrite last_app_cons. reflexivity.
Qed.

Lemma pop_split_plain ext : has_char "." ext = false -> pop (split "." ext) = ext.
Proof.
  intros H. rewrite (split_no_sep _ _ H). reflexivity.
Qed.

Lemma append_not_empty a c b : a ++ String c b <> "".
Proof.
  destruct a; discriminate.
Qed.

Lemma or_default_nonempty s d : s <> "" -> or_default (Some s) d = s.
Proof.
  destruct s; [congruence | reflexivity].
Qed.

(** X1.  The output file is the [output_file] of the options, and
    [sprite.png] when there is none or it is empty.  The constructor takes
    the output format from the text after the last dot of its name, from
    the whole name when there is no dot in it, in lower case, and [png]
    when that text is empty.  It succeeds exactly when the format is one
    of [png], [jpeg], [jpg] and [gif]; otherwise it throws, naming the
    format.  A [pngcrush] setting that is not empty is kept when the
    format is [png] and dropped when it is not. *)
Theorem new_Sprite_extension o stem ext :
  let file := or_default (opt_output_file o) "sprite.png" in
  file = ext \/ file = stem ++ "." ++ ext ->
  has_char "." ext = false ->
  let format := or_default (Some (toLowerCase ext)) "png" in
  (In format ["png"; "jpeg"; "jpg"; "gif"] ->
   exists this, new_Sprite o = Ok this
     /\ output_format this = format
     /\ output_file this = file
     /\ pngcrush this
        = (if (format =? "png")%string
           then match opt_pngcrush o with
                | Some c => if (c =? "")%string then None else Some c
                | None => None
                end
           else None))
  /\ (~ In format ["png"; "jpeg"; "jpg"; "gif"] ->
      new_Sprite o = Throw ("Invalid output format '" ++ format ++ "'")).
Proof.
  intros file Hf Hext format. unfold new_Sprite. fold file.
  assert (Hpop : pop (split "." file) = ext).
  { destruct Hf as [-> | ->];
      [apply pop_split_plain | apply pop_split_extension]; exact Hext. }
  rewrite Hpop. fold format.
  destruct (index_from_In format ["png"; "jpeg"; "jpg"; "gif"] 0 (Z.le_refl 0))
    as [Hin Hout].
  split; intros H.
  - apply Hin in H.
    destruct (index_from 0 format ["png"; "jpeg"; "jpg"; "gif"] <? 0) eqn:E; [lia |].
    eexists. split; [reflexivity |]. cbn [output_format output_file pngcrush].
    repeat split.
    destruct (format =? "png")%string; [| reflexivity].
    destruct (opt_pngcrush o) as [[| a c] |]; reflexivity.
  - rewrite (Hout H). reflexivity.
Qed.

Lemma new_Sprite_extension_witness :
  (or_default (opt_output_file
                 {| opt_image_root := None;
                    opt_output_file := Some "out/sprite.PNG";
                    opt_placeholder := None;
                    opt_pngcrush := Some "pngcrush -q" |}) "sprite.png" = "PNG"
   \/ or_default (opt_output_file
                    {| opt_image_root := None;
                       opt_output_file := Some "out/sprite.PNG";
                       opt_placeholder := None;
                       opt_pngcrush := Some "pngcrush -q" |}) "sprite.png"
      = "out/sprite" ++ "." ++ "PNG")
  /\ has_char "." "PNG" = false
  /\ In "png" ["png"; "jpeg"; "jpg"; "gif"]
  /\ exists this,
      new_Sprite {| opt_image_root := None;
                    opt_output_file := Some "out/sprite.PNG";
                    opt_placeholder := None;
                    opt_pngcrush := Some "pngcrush -q" |} = Ok this
      /\ output_format this = "png"
      /\ output_file this = "out/sprite.PNG"
      /\ pngcrush this = Some "pngcrush -q".
Proof.
  assert (Hin : In "png" ["png"; "jpeg"; "jpg"; "gif"]) by (left; reflexivity).
  split; [right; reflexivity |]. split; [reflexivity |]. split; [exact Hin |].
  exact (proj1 (new_Sprite_extension
                  {| opt_image_root := None;
                     opt_output_file := Some "out/sprite.PNG";
                     opt_placeholder := None;
                     opt_pngcrush := Some "pngcrush -q" |}
                  "out/sprite" "PNG" (or_intror eq_refl) eq_refl) Hin).
Defined.

(** X2.  [openImage] picks the function of the image library by the text
    after the last dot of the file name, whatever its letter case; a name
    without a dot counts as its own extension.  Any other extension than
    [png], [gif], [jpg] and [jpeg] makes it throw. *)
Theorem openImage_extension gd_open stem ext :
  has_char "." ext = false ->
  forall image, image = ext \/ image = stem ++ "." ++ ext ->
  openImage gd_open image =
    if (toLowerCase ext =? "png")%string then Ok (gd_open "openPng" image)
    else if (toLowerCase ext =? "gif")%string then Ok (gd_open "openGif" image)
    else if (toLowerCase ext =? "jpg")%string || (toLowerCase ext =? "jpeg")%string
         then Ok (gd_open "openJpeg" image)
         else Throw "Unknown file type".
Proof.
  intros H image [-> | ->]; unfold openImage.
  - rewrite (pop_split_plain _ H). reflexivity.
  - rewrite (pop_split_extension _ _ H). reflexivity.
Qed.

Lemma openImage_extension_witness :
  has_char "." "JPEG" = false
  /\ ("img/star.JPEG" = "JPEG" \/ "img/star.JPEG" = "img/star" ++ "." ++ "JPEG")
  /\ openImage Example.gd_open "img/star.JPEG"
     = Ok (Example.gd_open "openJpeg" "img/star.JPEG")
  /\ openImage Example.gd_open "notes.txt" = Throw "Unknown file type".
Proof.
  split; [reflexivity |]. split; [right; reflexivity |]. split.
  - exact (openImage_extension Example.gd_open "img/star" "JPEG" eq_refl _
             (or_intror eq_refl)).
  - exact (openImage_extension Example.gd_open "notes" "txt" eq_refl _
             (or_intror eq_refl)).
Defined.

(** ** Parts of the option string *)

Lemma keyless_key c : keyless c = true -> fst (clause c) = "".
Proof.
  unfold keyless, clause. destruct (split ":" c) as [|p0 parts]; [reflexivity |].
  cbn [hd]. intros H. destruct p0 as [|a p0]; [reflexivity |].
  cbn [fst]. apply toLowerCase_trim_blank. exact H.
Qed.

Lemma apply_clause_keyless d c : fst (clause c) = "" -> apply_clause (Ok d) c = Ok d.
Proof.
  unfold apply_clause. cbn [JS.bind]. destruct (clause c) as [k v].
  cbn [fst]. intros ->. reflexivity.
Qed.

(** X3.  A part of the option string that has only white space before its
    first colon, or is white space altogether, is skipped.  So an option
    string made of such parts registers the same record as no option
    string: the defaults and the file name. *)
Theorem keyless_parts_ignored f o :
  forallb keyless (split ";" o) = true ->
  merged f (Some o) = Ok (defaults ++ [("filename", VStr f)])%list
  /\ merged f None = Ok (defaults ++ [("filename", VStr f)])%list.
Proof.
  intros H. split; [|reflexivity].
  unfold merged. rewrite or_default_Some, base_record.
  change (defaults ++ [("filename", VStr f)])%list with
    [ ("width", VNum (Int 0)); ("height", VNum (Int 0)); ("align", VStr "block");
      ("valign", VStr "block"); ("resize", VBool false); ("repeat", VStr "no");
      ("limit-repeat-y", VNum (Int 300)); ("limit-repeat-x", VNum (Int 0));
      ("filename", VStr f) ].
  generalize dependent (split ";" o). intros l.
  induction l as [|c l IH]; intros H; [reflexivity |].
  cbn [forallb] in H. apply andb_true_iff in H. destruct H as [Hc Hl].
  cbn [fold_left]. rewrite apply_clause_keyless by (apply keyless_key; exact Hc).
  apply IH. exact Hl.
Qed.

Lemma keyless_parts_ignored_witness :
  forallb keyless (split ";" " ; : 5 ;") = true
  /\ merged "a.png" (Some " ; : 5 ;") = merged "a.png" None.
Proof.
  split; [reflexivity |].
  destruct (keyless_parts_ignored "a.png" " ; : 5 ;" eq_refl) as [H1 H2].
  rewrite H1, H2. reflexivity.
Defined.

(** X4.  A part without a colon names a key and gives it the number 0:
    a number key is set to 0, the boolean key [resize] to [false], and for
    an enumerated key the registration throws. *)
Theorem bare_key_takes_zero d opts key :
  has_char ":" opts = false -> toLowerCase (trim opts) = key -> key <> "" ->
  (assoc key keys = Some TNumber ->
   apply_clause (Ok d) opts = Ok (assign key (VNum (Int 0)) d))
  /\ (assoc key keys = Some TBoolean ->
      apply_clause (Ok d) opts = Ok (assign key (VBool false) d))
  /\ (forall values, assoc key keys = Some (TPredefined values) ->
      apply_clause (Ok d) opts
      = Throw ("Unknown value '0' for " ++ key ++ ", allowed: " ++ join "," values)).
Proof.
  intros Hc Hk Hne.
  pose proof (apply_clause_bare (Ok d) "" opts "" eq_refl eq_refl Hc) as E.
  cbn [append] in E. rewrite append_nil_r in E. rewrite E, Hk. cbn [JS.bind].
  destruct key as [|a key]; [congruence |].
  repeat split; intros; unfold validate;
    match goal with
    | H : assoc _ keys = Some _ |- _ => apply keys_get_Own in H; rewrite H
    end; reflexivity.
Qed.

Lemma bare_key_takes_zero_witness :
  has_char ":" " Resize " = false
  /\ toLowerCase (trim " Resize ") = "resize"
  /\ "resize" <> ""
  /\ assoc "resize" keys = Some TBoolean
  /\ apply_clause (Ok defaults) " Resize "
     = Ok (assign "resize" (VBool false) defaults).
Proof.
  assert (Hne : "resize" <> "") by discriminate.
  split; [reflexivity |]. split; [reflexivity |]. split; [exact Hne |].
  split; [reflexivity |].
  exact (proj1 (proj2 (bare_key_takes_zero defaults " Resize " "resize"
                         eq_refl eq_refl Hne)) eq_refl).
Defined.

(** ** Letter case *)

Lemma lower_char_idem c : lower_char (lower_char c) = lower_char c.
Proof.
  destruct c as [[] [] [] [] [] [] [] []]; reflexivity.
Qed.

Lemma is_space_lower c : is_space (lower_char c) = is_space c.
Proof.
  destruct c as [[] [] [] [] [] [] [] []]; reflexivity.
Qed.

Lemma lower_char_colon c : Ascii.eqb (lower_char c) ":" = Ascii.eqb c ":".
Proof.
  destruct c as [[] [] [] [] [] [] [] []]; reflexivity.
Qed.

Lemma toLowerCase_idem s : toLowerCase (toLowerCase s) = toLowerCase s.
Proof.
  induction s; simpl; [reflexivity |]. rewrite lower_char_idem, IHs. reflexivity.
Qed.

Lemma has_colon_lower s : has_char ":" (toLowerCase s) = has_char ":" s.
Proof.
  induction s; simpl; [reflexivity |]. rewrite lower_char_colon, IHs. reflexivity.
Qed.

Lemma trim_left_lower s : trim_left (toLowerCase s) = toLowerCase (trim_left s).
Proof.
  induction s as [|c s IH]; simpl; [reflexivity |].
  rewrite is_space_lower. destruct (is_space c); [exact IH | reflexivity].
Qed.

Lemma trim_right_lower s : trim_right (toLowerCase s) = toLowerCase (trim_right s).
Proof.
  induction s as [|c s IH]; simpl; [reflexivity |].
  rewrite IH, is_space_lower.
  destruct (trim_right s); simpl; [destruct (is_space c) |]; reflexivity.
Qed.

Lemma trim_lower s : trim (toLowerCase s) = toLowerCase (trim s).
Proof.
  unfold trim. rewrite trim_left_lower, trim_right_lower. reflexivity.
Qed.

Lemma predefined_values_lower key values s :
  assoc key keys = Some (TPredefined values) -> In s values -> toLowerCase s = s.
Proof.
  unfold keys. cbn [assoc].
  repeat match goal with
         | |- context [if (?a =? key)%string then _ else _] =>
             destruct (a =? key)%string
         end; intros H; inversion H; subst; cbn [In]; intros Hs;
    repeat (destruct Hs as [<- | Hs]; [reflexivity |]); contradiction.
Qed.

(** X5.  Keys are read without regard to letter case and always stored in
    lower case.  Enumerated values are compared as they are written: a
    value with a capital letter in it is rejected. *)
Theorem keys_ignore_case :
  (forall acc k v, has_char ":" k = false ->
     apply_clause acc (toLowerCase k ++ ":" ++ v) = apply_clause acc (k ++ ":" ++ v))
  /\ (forall c, toLowerCase (fst (clause c)) = fst (clause c))
  /\ (forall key values s, assoc key keys = Some (TPredefined values) ->
        toLowerCase s <> s ->
        validate key (VStr s)
        = Throw ("Unknown value '" ++ s ++ "' for " ++ key ++ ", allowed: "
                 ++ join "," values)).
Proof.
  split; [|split].
  - intros acc k v H.
    pose proof (apply_clause_pair acc "" k "" "" v "" eq_refl eq_refl eq_refl
                  eq_refl H) as E1.
    assert (H' : has_char ":" (toLowerCase k) = false)
      by (rewrite has_colon_lower; exact H).
    pose proof (apply_clause_pair acc "" (toLowerCase k) "" "" v "" eq_refl
                  eq_refl eq_refl eq_refl H') as E2.
    cbn [append] in E1, E2. rewrite append_nil_r in E1, E2.
    change (k ++ ":" ++ v) with (k ++ String ":" v).
    change (toLowerCase k ++ ":" ++ v) with (toLowerCase k ++ String ":" v).
    rewrite E1, E2, trim_lower, toLowerCase_idem. reflexivity.
  - intros c. unfold clause. destruct (split ":" c) as [|p0 parts]; [reflexivity |].
    destruct p0; [reflexivity |]. cbn [fst]. apply toLowerCase_idem.
  - intros key values s Hk Hs. unfold validate.
    rewrite (proj2 (keys_get_Own key _) Hk). cbn [indexOf ToString].
    destruct (index_from_In s values 0 (Z.le_refl 0)) as [_ Hout].
    rewrite Hout; [reflexivity |].
    intros Hin. apply Hs. exact (predefined_values_lower _ _ _ Hk Hin).
Qed.

Lemma keys_ignore_case_witness :
  has_char ":" "WIDTH" = false
  /\ apply_clause (Ok defaults) (toLowerCase "WIDTH" ++ ":" ++ " 5")
     = apply_clause (Ok defaults) ("WIDTH" ++ ":" ++ " 5")
  /\ assoc "align" keys = Some (TPredefined ["block"; "left"; "center"; "right"])
  /\ toLowerCase "Left" <> "Left"
  /\ validate "align" (VStr "Left")
     = Throw "Unknown value 'Left' for align, allowed: block,left,center,right".
Proof.
  assert (Hne : toLowerCase "Left" <> "Left")
    by (intros H; vm_compute in H; discriminate H).
  split; [reflexivity |].
  split; [exact (proj1 keys_ignore_case (Ok defaults) "WIDTH" " 5" eq_refl) |].
  split; [reflexivity |]. split; [exact Hne |].
  exact (proj2 (proj2 keys_ignore_case) "align" _ "Left" eq_refl Hne).
Defined.

(** ** Numerals *)

(** X6.  What [validate] returns for a schema key, written out as the
    signature writes it and validated again, comes back as itself; so does
    the value itself.  The value handed in is any string, boolean or
    Number. *)
Theorem validate_prints_back key t value v :
  assoc key keys = Some t ->
  proper value = true ->
  validate key value = Ok v ->
  validate key (VStr (ToString v)) = Ok v /\ validate key v = Ok v.
Proof.
  intros Hk Hp. unfold validate. rewrite (proj2 (keys_get_Own key _) Hk).
  destruct t as [|values|].
  - destruct (isNaN (ToNumber value)) eqn:E; intros H; inversion H; subst.
    cbn [ToString ToNumber].
    rewrite (StringToNumber_num_to_string _ (ToNumber_double _ Hp)), E.
    split; reflexivity.
  - destruct (indexOf value values <? 0) eqn:E; intros H; inversion H; subst.
    destruct v as [n|s|b]; cbn [indexOf] in E; try discriminate E.
    cbn [ToString indexOf]. rewrite E. split; reflexivity.
  - intros H. inversion H; subst.
    destruct (loose_eq_str value "false" || loose_eq_str value "0"
              || negb (ToBoolean value)); split; reflexivity.
Qed.

Lemma validate_prints_back_witness :
  assoc "width" keys = Some TNumber
  /\ proper (VStr " 2.50 ") = true
  /\ validate "width" (VStr " 2.50 ") = Ok (VNum (Frac false 5 1))
  /\ ToString (VNum (Frac false 5 1)) = "2.5"
  /\ validate "width" (VStr (ToString (VNum (Frac false 5 1))))
     = Ok (VNum (Frac false 5 1))
  /\ validate "width" (VNum (Frac false 5 1)) = Ok (VNum (Frac false 5 1)).
Proof.
  assert (V : validate "width" (VStr " 2.50 ") = Ok (VNum (Frac false 5 1)))
    by (vm_compute; reflexivity).
  split; [reflexivity |]. split; [reflexivity |]. split; [exact V |].
  split; [vm_compute; reflexivity |].
  exact (validate_prints_back "width" TNumber (VStr " 2.50 ")
           (VNum (Frac false 5 1)) eq_refl eq_refl V).
Defined.

(** ** Registering again *)

Lemma cached_last h l e : hash e = h -> cached h (l ++ [e]) = Some e.
Proof.
  intros H. unfold cached. rewrite fold_left_app. cbn [fold_left].
  rewrite H, String.eqb_refl. reflexivity.
Qed.

(** X7.  Registering the same file with the same option string again
    returns the same token and leaves the Sprite as it is; the record keeps
    the line number of the first registration. *)
Theorem spritefunc_again this filename options tok this1 filename' :
  spritefunc this filename options = Ok (tok, this1) ->
  val filename' = val filename ->
  spritefunc this1 filename' options = Ok (tok, this1).
Proof.
  unfold spritefunc. intros H Hv. rewrite Hv.
  destruct (merged (val filename) options) as [r | msg]; [| discriminate H].
  cbn [JS.bind] in *.
  destruct (cached (signature r) (images this)) as [elm |] eqn:E.
  - injection H as <- <-. rewrite E. reflexivity.
  - injection H as <- <-. cbn [images placeholder].
    rewrite cached_last by reflexivity. reflexivity.
Qed.

Lemma spritefunc_again_witness :
  exists tok this1,
    spritefunc Example.sprite (Example.file "a.png") (Some "width:7")
    = Ok (tok, this1)
    /\ val {| val := "a.png"; node_lineno := 9 |} = val (Example.file "a.png")
    /\ spritefunc this1 {| val := "a.png"; node_lineno := 9 |} (Some "width:7")
       = Ok (tok, this1).
Proof.
  let o := eval vm_compute in
             (spritefunc Example.sprite (Example.file "a.png") (Some "width:7")) in
  match o with
  | Ok (?tok, ?t1) =>
      exists tok, t1;
      assert (C : spritefunc Example.sprite (Example.file "a.png")
                             (Some "width:7") = Ok (tok, t1))
        by (vm_compute; reflexivity);
      split; [exact C |]; split; [reflexivity |];
      exact (spritefunc_again _ _ _ _ _ {| val := "a.png"; node_lineno := 9 |}
               C eq_refl)
  end.
Defined.

(** ** Block height *)

(** X8.  The height of a processed image is the height asked for, or that
    of the image file when 0 was asked for.  Its block is as high as that,
    except for [repeat:y] with a limit other than 0, where it is the limit
    or the height, whichever is greater.  The canvas grows by the block
    height and the padding. *)
Theorem blockHeight_cases this imgdata w h this' :
  processImage this imgdata w h = Some this' ->
  exists requested d,
    int_attr "height" (attrs imgdata) = Some requested
    /\ processedImages this' = (processedImages this ++ [d])%list
    /\ Img.imageHeight d = h
    /\ Img.height d = (if requested =? 0 then h else requested)
    /\ Img.blockHeight d
       = (if (Img.repeat d =? "y")%string && negb (Img.limit_repeat_y d =? 0)
          then Z.max (Img.limit_repeat_y d) (Img.height d)
          else Img.height d)
    /\ canvasHeight this' = canvasHeight this + (Img.blockHeight d + padding this).
Proof.
  unfold processImage. intros H. obind_inv H.
  injection H as <-. do 2 eexists. split; [reflexivity |].
  split; [reflexivity |].
  cbn [Img.imageHeight Img.height Img.blockHeight Img.repeat Img.limit_repeat_y
       set_layout canvasHeight].
  repeat split.
  match goal with
  | E : number_of (blockHeight_expr ?r ?l ?hh) = Some ?b |- _ =>
      unfold blockHeight_expr, or_, and_ in E; cbn [ToBoolean] in E;
      destruct (r =? "y")%string; cbn [andb negb ToBoolean] in *;
      [destruct l; cbn [Z.eqb negb] | ];
      injection E as <-; split_ifs; lia
  end.
Qed.

Lemma blockHeight_cases_witness :
  exists e this',
    images (Example.after
              [("b.png", Some "repeat:y; height:40; limit-repeat-y:95")]) = [e]
    /\ processImage Example.sprite e 10 10 = Some this'
    /\ map Img.blockHeight (processedImages this') = [95]
    /\ exists requested d,
        int_attr "height" (attrs e) = Some requested
        /\ processedImages this' = (processedImages Example.sprite ++ [d])%list
        /\ Img.imageHeight d = 10
        /\ Img.height d = (if requested =? 0 then 10 else requested)
        /\ Img.blockHeight d
           = (if (Img.repeat d =? "y")%string && negb (Img.limit_repeat_y d =? 0)
              then Z.max (Img.limit_repeat_y d) (Img.height d)
              else Img.height d)
        /\ canvasHeight this'
           = canvasHeight Example.sprite
             + (Img.blockHeight d + padding Example.sprite).
Proof.
  let l := eval vm_compute in
             (images (Example.after
                        [("b.png", Some "repeat:y; height:40; limit-repeat-y:95")])) in
  match l with
  | [?e] =>
      let p := eval vm_compute in (processImage Example.sprite e 10 10) in
      match p with
      | Some ?t =>
          exists e, t;
          assert (P : processImage Example.sprite e 10 10 = Some t)
            by (vm_compute; reflexivity);
          split; [vm_compute; reflexivity |];
          split; [exact P |];
          split; [reflexivity |];
          exact (blockHeight_cases _ _ _ _ _ P)
      end
  end.
Defined.

(** ** The loop of [makeMap] *)

Lemma place_eq fuel this c d :
  place fuel this c d =
  (blockWidth <-? resolved_blockWidth this d ;;
   let id := Img._img_id d in
   let curX := aligned_x this d in
   let startY := curY c in
   let drawn := (drawn c ++ [block_draw d])%list in
   let '(curY1, drawn) :=
     if (Img.repeat d =? "no")%string
     then (curY c + (Img.height d + padding this),
           (drawn ++ [SpriteCopy id curX (curY c) (Img.width d) (Img.height d)])%list)
     else (curY c, drawn) in
   '(startX, curX, curY2, drawn) <-?
     (if (Img.repeat d =? "x")%string
      then '(x, drawn') <-? tile_x fuel id (Img.width d) (Img.height d)
                                    blockWidth 0 curY1 drawn ;;
           Some (0, x, curY1 + (Img.height d + padding this), drawn')
      else Some (curX, curX, curY1, drawn)) ;;
   '(curY3, drawn) <-?
     (if (Img.repeat d =? "y")%string
      then '(y, drawn') <-? tile_y fuel id (Img.width d) (Img.height d)
                                    (Img.blockHeight d) startY curX curY2 drawn ;;
           Some (y + padding this, drawn')
      else Some (curY2, drawn)) ;;
   let position := replacement d startX startY in
   Some {| text := replace_all (quoted_token (placeholder this) id) position (text c);
           curY := curY3;
           drawn := drawn;
           placed := placed c ++ [set_blockWidth (VNum (Int blockWidth)) d];
           replaced := replaced c ++ [(id, position)] |}).
Proof.
  reflexivity.
Qed.

Lemma place_cases fuel this c d c' :
  place fuel this c d = Some c' ->
  exists bw startX,
    resolved_blockWidth this d = Some bw
    /\ placed c' = (placed c ++ [set_blockWidth (VNum (Int bw)) d])%list
    /\ replaced c'
       = (replaced c ++ [(Img._img_id d, replacement d startX (curY c))])%list
    /\ text c'
       = replace_all (quoted_token (placeholder this) (Img._img_id d))
                     (replacement d startX (curY c)) (text c)
    /\ ((Img.repeat d = "no" /\ startX = aligned_x this d
         /\ drawn c' = (drawn c ++ [block_draw d;
                                    SpriteCopy (Img._img_id d) (aligned_x this d)
                                      (curY c) (Img.width d) (Img.height d)])%list
         /\ curY c' = curY c + (Img.height d + padding this))
        \/ (Img.repeat d = "x" /\ startX = 0
            /\ (exists x,
                 tile_x fuel (Img._img_id d) (Img.width d) (Img.height d) bw 0
                        (curY c) (drawn c ++ [block_draw d])
                 = Some (x, drawn c'))
            /\ curY c' = curY c + (Img.height d + padding this))
        \/ (Img.repeat d = "y" /\ startX = aligned_x this d
            /\ exists y,
                 tile_y fuel (Img._img_id d) (Img.width d) (Img.height d)
                        (Img.blockHeight d) (curY c) (aligned_x this d) (curY c)
                        (drawn c ++ [block_draw d])
                 = Some (y, drawn c')
                 /\ curY c' = y + padding this)
        \/ (Img.repeat d <> "no" /\ Img.repeat d <> "x" /\ Img.repeat d <> "y"
            /\ startX = aligned_x this d
            /\ drawn c' = (drawn c ++ [block_draw d])%list
            /\ curY c' = curY c)).
Proof.
  rewrite place_eq. intros H.
  destruct (resolved_blockWidth this d) as [bw |]; [cbn [obind] in H | discriminate H].
  exists bw.
  destruct (String.eqb_spec (Img.repeat d) "no") as [E | E1].
  - rewrite E in H. change ("no" =? "x")%string with false in H.
    change ("no" =? "y")%string with false in H. cbn [obind] in H.
    injection H as <-. eexists. cbn [placed replaced text drawn curY].
    repeat (split; [reflexivity |]). left. rewrite <- app_assoc. repeat split.
    exact E.
  - destruct (String.eqb_spec (Img.repeat d) "x") as [E | E2].
    + rewrite E in H. change ("x" =? "y")%string with false in H.
      destruct (tile_x _ _ _ _ _ _ _ _) as [[x dr] |] eqn:T;
        [cbn [obind] in H | discriminate H].
      injection H as <-. eexists. cbn [placed replaced text drawn curY].
      repeat (split; [reflexivity |]). right. left.
      repeat split; [exact E |]. exists x. first [exact T | reflexivity].
    + cbn [obind] in H.
      destruct (String.eqb_spec (Img.repeat d) "y") as [E | E3].
      * destruct (tile_y _ _ _ _ _ _ _ _ _) as [[y dr] |] eqn:T;
          [cbn [obind] in H | discriminate H].
        injection H as <-. eexists. cbn [placed replaced text drawn curY].
        repeat (split; [reflexivity |]). right. right. left.
        repeat split; [exact E |]. exists y. split; [first [exact T | reflexivity] | reflexivity].
      * cbn [obind] in H. injection H as <-. eexists.
        cbn [placed replaced text drawn curY].
        repeat (split; [reflexivity |]). right. right. right.
        repeat split; assumption.
Qed.

(** Tiling loops *)

Lemma tile_x_stuck id w h bw curY : w <= 0 ->
  forall fuel curX drawn, curX < bw -> tile_x fuel id w h bw curX curY drawn = None.
Proof.
  intros Hw. induction fuel as [|fuel IH]; intros curX drawn H; cbn [tile_x];
    (destruct (curX <? bw) eqn:E; [| lia]); [reflexivity |].
  apply IH. lia.
Qed.

Lemma tile_y_stuck id w h bh startY curX : h <= 0 ->
  forall fuel curY drawn, curY < startY + bh ->
    tile_y fuel id w h bh startY curX curY drawn = None.
Proof.
  intros Hh. induction fuel as [|fuel IH]; intros curY drawn H; cbn [tile_y];
    (destruct (curY <? startY + bh) eqn:E; [| lia]); [reflexivity |].
  destruct (curY + h <? startY + bh) eqn:E'; [| lia].
  apply IH. lia.
Qed.

Lemma tile_x_within id w h bw curY top bottom :
  top <= curY -> curY + h <= bottom ->
  forall fuel curX drawn x dr,
    0 <= curX ->
    tile_x fuel id w h bw curX curY drawn = Some (x, dr) ->
    exists tiles, dr = (drawn ++ tiles)%list
                  /\ Forall (within id bw top bottom) tiles.
Proof.
  intros Ht Hb. induction fuel as [|fuel IH]; intros curX drawn x dr H0 H;
    cbn [tile_x] in H; destruct (curX <? bw) eqn:E;
    try discriminate H;
    try (injection H as <- <-; exists []; rewrite app_nil_r; split; constructor).
  destruct (Z_le_gt_dec w 0) as [Hw | Hw].
  - rewrite (tile_x_stuck id w h bw curY Hw) in H by lia. discriminate H.
  - apply IH in H; [| lia]. destruct H as (tiles & -> & Hf).
    eexists (_ :: tiles). rewrite <- app_assoc. split; [reflexivity |].
    constructor; [| exact Hf]. cbn [within].
    destruct (curX + w <? bw) eqn:E'; lia.
Qed.

Lemma tile_y_within id w h bh startY curX left :
  0 <= curX -> curX + w <= left ->
  forall fuel curY drawn y dr,
    startY <= curY ->
    tile_y fuel id w h bh startY curX curY drawn = Some (y, dr) ->
    y = Z.max curY (startY + bh)
    /\ exists tiles, dr = (drawn ++ tiles)%list
                     /\ Forall (within id left startY (startY + bh)) tiles.
Proof.
  intros Hx Hr. induction fuel as [|fuel IH]; intros curY drawn y dr H0 H;
    cbn [tile_y] in H; destruct (curY <? startY + bh) eqn:E;
    try discriminate H;
    try (injection H as <- <-; split; [lia |]; exists []; rewrite app_nil_r;
         split; constructor).
  destruct (Z_le_gt_dec h 0) as [Hh | Hh].
  - destruct (curY + h <? startY + bh) eqn:E'; [| lia].
    rewrite (tile_y_stuck id w h bh startY curX Hh) in H by lia. discriminate H.
  - apply IH in H; [| destruct (curY + h <? startY + bh); lia].
    destruct H as (Hy & tiles & -> & Hf). split.
    { destruct (curY + h <? startY + bh) eqn:E'; lia. }
    eexists (_ :: tiles). rewrite <- app_assoc. split; [reflexivity |].
    constructor; [| exact Hf]. cbn [within].
    destruct (curY + h <? startY + bh) eqn:E'; lia.
Qed.

Lemma aligned_x_bounds this d :
  Img.width d <= canvasWidth this ->
  0 <= aligned_x this d /\ aligned_x this d + Img.width d <= canvasWidth this.
Proof.
  intros H. unfold aligned_x, round_half_diff.
  destruct (Img.align d =? "center")%string; [| destruct (Img.align d =? "right")%string].
  - pose proof (Z.div_mod (canvasWidth this - Img.width d + 1) 2 ltac:(lia)).
    pose proof (Z.mod_pos_bound (canvasWidth this - Img.width d + 1) 2 ltac:(lia)).
    lia.
  - lia.
  - lia.
Qed.

(** What the loop of [makeMap] adds for one image. *)
Lemma place_band fuel this c d c' :
  place fuel this c d = Some c' ->
  Img.width d <= canvasWidth this ->
  (forall bw, Img.blockWidth d = VNum (Int bw) -> bw <= canvasWidth this) ->
  0 <= Img.height d <= Img.blockHeight d ->
  0 <= padding this ->
  curY c <= curY c'
  /\ curY c' <= curY c + (Img.blockHeight d + padding this)
  /\ exists new,
       drawn c' = (drawn c ++ new)%list
       /\ Forall (within (Img._img_id d) (canvasWidth this) (curY c)
                         (curY c' - padding this)) new.
Proof.
  intros H Hw Hbw Hh Hp.
  destruct (aligned_x_bounds this d Hw) as [Hx0 Hx1].
  destruct (place_cases _ _ _ _ _ H)
    as (bw & startX & Ebw & _ & _ & _ &
        [(Er & _ & Ed & Ey) | [(Er & _ & (x & T) & Ey) |
         [(Er & _ & y & T & Ey) | (_ & _ & _ & _ & Ed & Ey)]]]).
  - split; [lia |]. split; [lia |]. eexists. split; [exact Ed |].
    constructor; [destruct (block_draw d) eqn:B; unfold block_draw in B;
                  destruct (Img.resize d); try discriminate B; exact I |].
    constructor; [| constructor]. cbn [within]. lia.
  - assert (Hle : bw <= canvasWidth this).
    { unfold resolved_blockWidth in Ebw.
      destruct (loose_eq_str (Img.blockWidth d) "100%").
      - injection Ebw as <-. lia.
      - destruct (Img.blockWidth d) as [[| |z |]| |]; try discriminate Ebw.
        injection Ebw as <-. apply Hbw. reflexivity. }
    split; [lia |]. split; [lia |].
    destruct (tile_x_within (Img._img_id d) (Img.width d) (Img.height d) bw
                (curY c) (curY c) (curY c' - padding this)
                ltac:(lia) ltac:(lia) _ _ _ _ _ (Z.le_refl 0) T)
      as (tiles & Hd & Hf).
    exists (block_draw d :: tiles). rewrite Hd, <- app_assoc.
    split; [reflexivity |]. constructor.
    { unfold block_draw. destruct (Img.resize d); exact I. }
    eapply Forall_impl; [| exact Hf]. intros [] Ht; cbn [within] in *; try exact I.
    lia.
  - destruct (tile_y_within _ _ _ _ _ _ (canvasWidth this) Hx0 Hx1 _ _ _ _ _
                (Z.le_refl _) T) as (Hy & tiles & Hd & Hf).
    split; [lia |]. split; [lia |].
    exists (block_draw d :: tiles). rewrite Hd, <- app_assoc.
    split; [reflexivity |]. constructor.
    { unfold block_draw. destruct (Img.resize d); exact I. }
    eapply Forall_impl; [| exact Hf]. intros [] Ht; cbn [within] in *; try exact I.
    lia.
  - split; [lia |]. split; [lia |]. exists [block_draw d].
    split; [exact Ed |]. constructor; [| constructor].
    unfold block_draw. destruct (Img.resize d); exact I.
Qed.

Lemma tile_x_extends id w h bw curY :
  forall fuel curX drawn x dr,
    tile_x fuel id w h bw curX curY drawn = Some (x, dr) ->
    exists tiles, dr = (drawn ++ tiles)%list.
Proof.
  induction fuel as [| fuel IH]; intros curX drawn x dr H; cbn [tile_x] in H;
    destruct (curX <? bw); try discriminate H;
    try (injection H as <- <-; exists []; rewrite app_nil_r; reflexivity).
  apply IH in H. destruct H as (tiles & ->). rewrite <- app_assoc. eauto.
Qed.

Lemma tile_y_extends id w h bh startY curX :
  forall fuel curY drawn y dr,
    tile_y fuel id w h bh startY curX curY drawn = Some (y, dr) ->
    exists tiles, dr = (drawn ++ tiles)%list.
Proof.
  induction fuel as [| fuel IH]; intros curY drawn y dr H; cbn [tile_y] in H;
    destruct (curY <? startY + bh); try discriminate H;
    try (injection H as <- <-; exists []; rewrite app_nil_r; reflexivity).
  apply IH in H. destruct H as (tiles & ->). rewrite <- app_assoc. eauto.
Qed.

Lemma tile_x_first fuel id w h bw curY drawn x dr :
  tile_x fuel id w h bw 0 curY drawn = Some (x, dr) ->
  0 < bw ->
  exists r rest, dr = (drawn ++ SpriteCopy id 0 curY r h :: rest)%list.
Proof.
  intros H Hbw. destruct fuel as [| fuel]; cbn [tile_x] in H;
    (destruct (0 <? bw) eqn:E; [| lia]); [discriminate H |].
  apply tile_x_extends in H. destruct H as (tiles & ->).
  rewrite <- app_assoc. cbn [app]. eauto.
Qed.

Lemma tile_y_first fuel id w h bh curX curY drawn y dr :
  tile_y fuel id w h bh curY curX curY drawn = Some (y, dr) ->
  0 < bh ->
  exists r rest, dr = (drawn ++ SpriteCopy id curX curY w r :: rest)%list.
Proof.
  intros H Hbh. destruct fuel as [| fuel]; cbn [tile_y] in H;
    (destruct (curY <? curY + bh) eqn:E; [| lia]); [discriminate H |].
  apply tile_y_extends in H. destruct H as (tiles & ->).
  rewrite <- app_assoc. cbn [app]. eauto.
Qed.

Lemma place_drawn_grows fuel this c d c' :
  place fuel this c d = Some c' ->
  exists rest, drawn c' = (drawn c ++ block_draw d :: rest)%list.
Proof.
  intros H.
  destruct (place_cases _ _ _ _ _ H)
    as (bw & startX & _ & _ & _ & _ &
        [(_ & _ & Ed & _) | [(_ & _ & (x & T) & _) |
         [(_ & _ & y & T & _) | (_ & _ & _ & _ & Ed & _)]]]).
  - eexists. rewrite Ed. reflexivity.
  - apply tile_x_extends in T. destruct T as (tiles & ->).
    rewrite <- app_assoc. cbn [app]. eauto.
  - apply tile_y_extends in T. destruct T as (tiles & ->).
    rewrite <- app_assoc. cbn [app]. eauto.
  - eexists. rewrite Ed. reflexivity.
Qed.

Lemma place_all_drawn_grows fuel this l :
  forall c c', place_all fuel this c l = Some c' ->
               exists more, drawn c' = (drawn c ++ more)%list.
Proof.
  induction l as [| d l IH]; intros c c' H; cbn [place_all] in H.
  - injection H as <-. exists []. rewrite app_nil_r. reflexivity.
  - destruct (place fuel this c d) as [c1 |] eqn:E; [cbn [obind] in H | discriminate H].
    destruct (place_drawn_grows _ _ _ _ _ E) as (rest & E1).
    destruct (IH _ _ H) as (more & E2). rewrite E2, E1, <- app_assoc. eauto.
Qed.

Lemma half_up D : 0 <= D -> 0 <= (D + 1) / 2 <= D /\ 0 <= 2 * ((D + 1) / 2) - D <= 1.
Proof.
  intros H. pose proof (Z.div_mod (D + 1) 2 ltac:(lia)).
  pose proof (Z.mod_pos_bound (D + 1) 2 ltac:(lia)). lia.
Qed.

(** X9.  The first thing [makeMap] draws for an image is its block.  With
    [resize] the image file is stretched over the block.  Without it the
    file is copied in one piece: centred to the pixel across a block that
    is wider, at the left edge of one that is narrower; down a higher block
    at the top, at the bottom or centred as [valign] says ([block] counting
    as [middle]). *)
Theorem image_placed_in_block fuel this c d c' :
  place fuel this c d = Some c' ->
  exists b rest,
    drawn c' = (drawn c ++ b :: rest)%list
    /\ (Img.resize d = true ->
        b = BlockResampled (Img._img_id d) (Img.width d) (Img.height d)
                           (Img.imageWidth d) (Img.imageHeight d))
    /\ (Img.resize d = false ->
        exists px py,
          b = BlockCopy (Img._img_id d) px py (Img.imageWidth d) (Img.imageHeight d)
          /\ 0 <= px /\ 0 <= py
          /\ (Img.imageWidth d <= Img.width d ->
              px + Img.imageWidth d <= Img.width d
              /\ 0 <= px - (Img.width d - Img.imageWidth d - px) <= 1)
          /\ (Img.width d <= Img.imageWidth d -> px = 0)
          /\ (Img.imageHeight d <= Img.height d ->
              py + Img.imageHeight d <= Img.height d
              /\ (Img.valign d = "top" -> py = 0)
              /\ (Img.valign d = "bottom" -> py + Img.imageHeight d = Img.height d)
              /\ (Img.valign d <> "top" -> Img.valign d <> "bottom" ->
                  0 <= py - (Img.height d - Img.imageHeight d - py) <= 1))
          /\ (Img.height d <= Img.imageHeight d -> py = 0)).
Proof.
  intros H. destruct (place_drawn_grows _ _ _ _ _ H) as (rest & ->).
  exists (block_draw d), rest. split; [reflexivity |].
  unfold block_draw. split; intros Hr; rewrite Hr; [reflexivity |].
  exists (posX d), (posY d). split; [reflexivity |].
  unfold posX, posY, round_half_diff.
  destruct (Z.gtb_spec (Img.width d) (Img.imageWidth d)) as [Hw | Hw];
    destruct (Z.gtb_spec (Img.height d) (Img.imageHeight d)) as [Hh | Hh];
    destruct (String.eqb_spec (Img.valign d) "top") as [Et | Et];
    destruct (String.eqb_spec (Img.valign d) "bottom") as [Eb | Eb];
    try (pose proof (half_up (Img.width d - Img.imageWidth d) ltac:(lia)));
    try (pose proof (half_up (Img.height d - Img.imageHeight d) ltac:(lia)));
    repeat split; intros; try congruence; try lia.
Qed.

Lemma image_placed_in_block_witness :
  exists c',
    place 0 (set_layout [] 20 80 Example.sprite) (Example.start "") Example.tall
    = Some c'
    /\ Img.resize Example.tall = false
    /\ exists px py rest,
        drawn c' = BlockCopy 2 px py 10 10 :: rest
        /\ px = 0
        /\ py + 10 <= 40
        /\ 0 <= py - (40 - 10 - py) <= 1.
Proof.
  let o := eval vm_compute in
             (place 0 (set_layout [] 20 80 Example.sprite) (Example.start "")
                    Example.tall) in
  match o with
  | Some ?c =>
      exists c;
      assert (P : place 0 (set_layout [] 20 80 Example.sprite) (Example.start "")
                        Example.tall = Some c)
        by (vm_compute; reflexivity);
      split; [exact P |]; split; [reflexivity |];
      destruct (image_placed_in_block _ _ _ _ _ P) as (b & rest & Hd & _ & Hcopy);
      destruct (Hcopy eq_refl) as (px & py & Hb & _ & _ & _ & Hw0 & Hh & _);
      exists px, py, rest;
      split; [rewrite Hd, Hb; reflexivity |];
      split; [apply Hw0; cbn; lia |];
      assert (Hi : Img.imageHeight Example.tall <= Img.height Example.tall)
        by (cbn; lia);
      destruct (Hh Hi) as (H1 & _ & _ & H4);
      split; [exact H1 |];
      apply H4; discriminate
  end.
Defined.

(** ** Margins *)

(** X10.  With [totalwidth] and [totalheight] both given and not 0, the
    margins written make up, with the size of the image file, just that
    total size, the sides differing by one pixel at most; the [width] and
    [height] written are those of the image file plus [padwidth] and
    [padheight].  With one of the two missing or 0 nothing is appended. *)
Theorem appendMargin_cases d :
  (forall tw th,
      Img.totalwidth d = Some tw -> Img.totalheight d = Some th ->
      tw <> 0 -> th <> 0 ->
      exists top right bottom left h w,
        appendMargin d
        = ";margin:" ++ Z_to_string top ++ "px " ++ Z_to_string right ++ "px "
            ++ Z_to_string bottom ++ "px " ++ Z_to_string left
            ++ "px !important;"
            ++ "height:" ++ Z_to_string h ++ "px !important;"
            ++ "width:" ++ Z_to_string w ++ "px !important"
        /\ top + Img.imageHeight d + bottom = th
        /\ left + Img.imageWidth d + right = tw
        /\ 0 <= top - bottom <= 1
        /\ 0 <= left - right <= 1
        /\ h = Img.imageHeight d
               + match Img.padheight d with Some p => p | None => 0 end
        /\ w = Img.imageWidth d
               + match Img.padwidth d with Some p => p | None => 0 end)
  /\ (Img.totalwidth d = None \/ Img.totalwidth d = Some 0
      \/ Img.totalheight d = None \/ Img.totalheight d = Some 0 ->
      appendMargin d = "").
Proof.
  split.
  - intros tw th Hw Hh Htw Hth. unfold appendMargin. rewrite Hw, Hh.
    unfold given, floor_half.
    destruct (Z.eqb_spec tw 0) as [| _]; [contradiction |].
    destruct (Z.eqb_spec th 0) as [| _]; [contradiction |]. cbn [negb andb].
    do 6 eexists. split; [reflexivity |].
    pose proof (Z.div_mod (th - Img.imageHeight d) 2 ltac:(lia)).
    pose proof (Z.mod_pos_bound (th - Img.imageHeight d) 2 ltac:(lia)).
    pose proof (Z.div_mod (th - Img.imageHeight d + 1) 2 ltac:(lia)).
    pose proof (Z.mod_pos_bound (th - Img.imageHeight d + 1) 2 ltac:(lia)).
    pose proof (Z.div_mod (tw - Img.imageWidth d) 2 ltac:(lia)).
    pose proof (Z.mod_pos_bound (tw - Img.imageWidth d) 2 ltac:(lia)).
    pose proof (Z.div_mod (tw - Img.imageWidth d + 1) 2 ltac:(lia)).
    pose proof (Z.mod_pos_bound (tw - Img.imageWidth d + 1) 2 ltac:(lia)).
    repeat split; try lia;
      [destruct (Img.padheight d) as [p |] | destruct (Img.padwidth d) as [p |]];
      try (destruct (Z.eqb_spec p 0)); cbn [negb]; lia.
  - intros H. unfold appendMargin.
    destruct H as [-> | [-> | [-> | ->]]]; destruct (Img.totalwidth d);
      try destruct (Img.totalheight d); try reflexivity;
      unfold given; rewrite ?andb_false_r; reflexivity.
Qed.

Lemma appendMargin_cases_witness :
  Img.totalwidth Example.framed = Some 25
  /\ Img.totalheight Example.framed = Some 16
  /\ 25 <> 0 /\ 16 <> 0
  /\ appendMargin Example.framed
     = ";margin:3px 7px 3px 8px !important;height:10px !important;width:12px !important"
  /\ exists top right bottom left,
      top + 10 + bottom = 16 /\ left + 10 + right = 25
      /\ 0 <= top - bottom <= 1 /\ 0 <= left - right <= 1.
Proof.
  assert (H25 : 25 <> 0) by discriminate.
  assert (H16 : 16 <> 0) by discriminate.
  split; [reflexivity |]. split; [reflexivity |]. split; [exact H25 |].
  split; [exact H16 |]. split; [reflexivity |].
  destruct (proj1 (appendMargin_cases Example.framed) 25 16 eq_refl eq_refl H25 H16)
    as (top & right & bottom & left & h & w & _ & Ht & Hl & Htb & Hlr & _).
  exists top, right, bottom, left.
  split; [exact Ht |]. split; [exact Hl |]. split; [exact Htb | exact Hlr].
Defined.

(** ** Tiling along y *)

Lemma tile_y_spec id w h bottom curX startY bh :
  0 < h -> bottom = startY + bh ->
  forall n curY drawn fuel,
    (Z.of_nat n - 1) * h < bottom - curY <= Z.of_nat n * h ->
    (n <= fuel)%nat ->
    tile_y fuel id w h bh startY curX curY drawn
    = Some (Z.max curY bottom,
            (drawn ++ y_tiles id w h bottom curX n curY)%list).
Proof.
  intros Hh ->. induction n as [| n IH]; intros curY drawn fuel Hn Hfuel.
  - destruct fuel; cbn [tile_y y_tiles];
      (destruct (Z.ltb_spec curY (startY + bh)); [exfalso; lia |]);
      rewrite app_nil_r; repeat f_equal; lia.
  - destruct fuel as [| fuel]; [lia |].
    cbn [tile_y].
    destruct (Z.ltb_spec curY (startY + bh)); [| exfalso; nia].
    destruct n as [| n].
    + destruct (Z.ltb_spec (curY + h) (startY + bh)); [exfalso; nia |].
      rewrite (IH (curY + (startY + bh - curY))); [| lia | lia].
      rewrite <- app_assoc. cbn [y_tiles app].
      replace (Z.max (curY + (startY + bh - curY)) (startY + bh))
        with (Z.max curY (startY + bh)) by lia.
      reflexivity.
    + destruct (Z.ltb_spec (curY + h) (startY + bh)); [| exfalso; nia].
      rewrite (IH (curY + h)); [| nia | lia].
      rewrite <- app_assoc. cbn [y_tiles app].
      replace (Z.max (curY + h) (startY + bh))
        with (Z.max curY (startY + bh)) by lia.
      reflexivity.
Qed.

Lemma tile_y_needs_fuel id w h curX startY bh :
  0 < h ->
  forall n curY drawn fuel,
    (Z.of_nat n - 1) * h < startY + bh - curY <= Z.of_nat n * h ->
    (fuel < n)%nat ->
    tile_y fuel id w h bh startY curX curY drawn = None.
Proof.
  intros Hh. induction n as [| n IH]; intros curY drawn fuel Hn Hfuel; [lia |].
  destruct fuel as [| fuel]; cbn [tile_y];
    (destruct (Z.ltb_spec curY (startY + bh)); [| exfalso; nia]); [reflexivity |].
  destruct n as [| n]; [lia |].
  destruct (Z.ltb_spec (curY + h) (startY + bh)); [| exfalso; nia].
  apply IH; [nia | lia].
Qed.

Lemma y_tiles_total id w h bottom curX :
  forall n curY,
    total (map copy_height (y_tiles id w h bottom curX n curY))
    = match n with
      | O => 0
      | S n' => bottom - curY
      end.
Proof.
  induction n as [| n IH]; intros curY; [reflexivity |].
  simpl. rewrite IH. destruct n; lia.
Qed.

(** X11.  For [repeat:y] with a positive height the loop makes the least
    number of copies that reach the block height, each of the full height
    but the last, which is cut at the end of the block; the heights add up
    to the block height and [curY] moves on by block height and padding.
    With less fuel than copies the loop has not ended. *)
Theorem repeat_y_fills_block this c d :
  Img.repeat d = "y" ->
  0 < Img.height d <= Img.blockHeight d ->
  resolved_blockWidth this d <> None ->
  exists n : nat,
    let tiles := y_tiles (Img._img_id d) (Img.width d) (Img.height d)
                         (curY c + Img.blockHeight d) (aligned_x this d) n (curY c) in
    (Z.of_nat n - 1) * Img.height d < Img.blockHeight d <= Z.of_nat n * Img.height d
    /\ (forall fuel, (n <= fuel)%nat ->
        exists c',
          place fuel this c d = Some c'
          /\ drawn c' = (drawn c ++ block_draw d :: tiles)%list
          /\ curY c' = curY c + (Img.blockHeight d + padding this))
    /\ (forall fuel, (fuel < n)%nat -> place fuel this c d = None)
    /\ total (map copy_height tiles) = Img.blockHeight d.
Proof.
  intros Hrep Hh Hbw.
  destruct (iterations_exist (Img.height d) (Img.blockHeight d) ltac:(lia) ltac:(lia))
    as (n & Hn).
  exists n. cbv zeta. split; [exact Hn |].
  destruct (resolved_blockWidth this d) as [bw |] eqn:Ebw; [| congruence].
  split; [| split].
  - intros fuel Hfuel. rewrite place_eq, Ebw, Hrep. cbn [obind].
    change ("y" =? "no")%string with false. change ("y" =? "x")%string with false.
    change ("y" =? "y")%string with true. cbn [obind].
    rewrite (tile_y_spec (Img._img_id d) (Img.width d) (Img.height d)
               (curY c + Img.blockHeight d) (aligned_x this d) (curY c)
               (Img.blockHeight d) ltac:(lia) eq_refl n);
      [| lia | exact Hfuel].
    cbn [obind]. eexists. split; [reflexivity |]. cbn [drawn curY].
    split; [rewrite <- app_assoc; reflexivity | lia].
  - intros fuel Hfuel. rewrite place_eq, Ebw, Hrep. cbn [obind].
    change ("y" =? "no")%string with false. change ("y" =? "x")%string with false.
    change ("y" =? "y")%string with true. cbn [obind].
    rewrite (tile_y_needs_fuel (Img._img_id d) (Img.width d) (Img.height d)
               (aligned_x this d) (curY c) (Img.blockHeight d) ltac:(lia) n);
      [reflexivity | lia | exact Hfuel].
  - rewrite y_tiles_total. destruct n; lia.
Qed.

Lemma repeat_y_fills_block_witness :
  Img.repeat Example.column = "y"
  /\ 0 < Img.height Example.column <= Img.blockHeight Example.column
  /\ resolved_blockWidth (set_layout [] 20 105 Example.sprite) Example.column
     <> None
  /\ exists n : nat,
      (Z.of_nat n - 1) * 40 < 95 <= Z.of_nat n * 40
      /\ forall fuel, (n <= fuel)%nat ->
         exists c',
           place fuel (set_layout [] 20 105 Example.sprite) (Example.start "")
                 Example.column = Some c'
           /\ curY c' = 0 + (95 + 10).
Proof.
  assert (H1 : 0 < Img.height Example.column <= Img.blockHeight Example.column)
    by (cbn; lia).
  assert (H2 : resolved_blockWidth (set_layout [] 20 105 Example.sprite)
                                   Example.column <> None)
    by discriminate.
  split; [reflexivity |]. split; [exact H1 |]. split; [exact H2 |].
  pose proof (repeat_y_fills_block (set_layout [] 20 105 Example.sprite)
                (Example.start "") Example.column eq_refl H1 H2) as W.
  cbv zeta in W. destruct W as (n & Hn & Hp & _).
  exists n. split; [exact Hn |]. intros fuel Hf.
  destruct (Hp fuel Hf) as (c' & P & _ & Hy). exists c'.
  split; [exact P | exact Hy].
Defined.

(** ** Loops that do not end *)

(** X12.  With a width of 0 or less and room left in the block, the loop
    of [repeat:x] never ends: whatever the fuel, it is spent before the
    loop is left.  The same holds for [repeat:y] and a height of 0 or
    less.  ([validate] accepts negative numbers.) *)
Theorem tiling_loops_do_not_end :
  (forall fuel id w h bw curX curY drawn,
      w <= 0 -> curX < bw ->
      tile_x fuel id w h bw curX curY drawn = None)
  /\ (forall fuel id w h bh startY curX curY drawn,
         h <= 0 -> curY < startY + bh ->
         tile_y fuel id w h bh startY curX curY drawn = None)
  /\ (forall fuel this c d bw,
         resolved_blockWidth this d = Some bw ->
         (Img.repeat d = "x" /\ Img.width d <= 0 /\ 0 < bw)
         \/ (Img.repeat d = "y" /\ Img.height d <= 0 /\ 0 < Img.blockHeight d) ->
         place fuel this c d = None).
Proof.
  split; [| split].
  - intros fuel id w h bw curX curY drawn Hw H. apply tile_x_stuck; assumption.
  - intros fuel id w h bh startY curX curY drawn Hh H. apply tile_y_stuck; assumption.
  - intros fuel this c d bw Ebw H. rewrite place_eq, Ebw. cbn [obind].
    destruct H as [(Hr & Hw & Hbw) | (Hr & Hh & Hbh)]; rewrite Hr.
    + change ("x" =? "no")%string with false. change ("x" =? "x")%string with true.
      cbn [obind]. rewrite (tile_x_stuck _ _ _ _ _ Hw) by lia. reflexivity.
    + change ("y" =? "no")%string with false. change ("y" =? "x")%string with false.
      change ("y" =? "y")%string with true. cbn [obind].
      rewrite (tile_y_stuck _ _ _ _ _ _ Hh) by lia. reflexivity.
Qed.

Lemma tiling_loops_do_not_end_witness :
  -5 <= 0 /\ 0 < 0 + 300
  /\ tile_y 1000 2 10 (-5) 300 0 0 0 [] = None
  /\ resolved_blockWidth (set_layout [] 10 310 Example.sprite) Example.sunken
     = Some 10
  /\ Img.repeat Example.sunken = "y"
  /\ place 1000 (set_layout [] 10 310 Example.sprite) (Example.start "")
           Example.sunken = None.
Proof.
  assert (H1 : -5 <= 0) by lia.
  assert (H2 : 0 < 0 + 300) by lia.
  split; [exact H1 |]. split; [exact H2 |].
  split; [exact (proj1 (proj2 tiling_loops_do_not_end) 1000%nat 2 10 (-5) 300 0 0 0
                   [] H1 H2) |].
  split; [reflexivity |]. split; [reflexivity |].
  exact (proj2 (proj2 tiling_loops_do_not_end) 1000%nat
           (set_layout [] 10 310 Example.sprite) (Example.start "") Example.sunken
           10 eq_refl (or_intror (conj eq_refl (conj H1 H2)))).
Defined.

(** ** From [build] to [makeMap] *)

Lemma processImage_fits this imgdata w h this' :
  processImage this imgdata w h = Some this' ->
  exists d,
    processedImages this' = (processedImages this ++ [d])%list
    /\ fits this' d
    /\ canvasWidth this <= canvasWidth this'.
Proof.
  unfold processImage. intros H. obind_inv H.
  injection H as <-. eexists. split; [reflexivity |].
  unfold fits.
  cbn [Img.height Img.blockHeight Img.blockWidth Img.width set_layout canvasWidth].
  repeat match goal with |- _ /\ _ => split end.
  - destruct (blockWidth_expr _ _ _ _) as [[| | bw |] | |]; split_ifs; lia.
  - intros bw Hbw. rewrite Hbw. split_ifs; lia.
  - split_ifs; lia.
  - destruct (blockWidth_expr _ _ _ _) as [[| | bw |] | |]; split_ifs; lia.
Qed.

Lemma fits_wider this this' d :
  canvasWidth this <= canvasWidth this' -> fits this d -> fits this' d.
Proof.
  intros H (Hw & Hb & Hh). repeat split; [lia | | exact Hh].
  intros bw E. specialize (Hb bw E). lia.
Qed.

Lemma processImage_resolution_ok this imgdata w h this' :
  resolution_ok this ->
  processImage this imgdata w h = Some this' ->
  resolution_ok this'.
Proof.
  intros (Hl & Hf & Hp) H. split; [exact (processImage_layout_ok _ _ _ _ _ Hl H) |].
  destruct (processImage_fits _ _ _ _ _ H) as (d & Hd & Hfd & Hcw).
  destruct (processImage_inv _ _ _ _ _ H)
    as (_ & _ & _ & _ & _ & _ & _ & _ & _ & _ & _ & _ & (Hpad & _)).
  split; [| congruence].
  rewrite Hd. apply Forall_app. split; [| constructor; [exact Hfd | constructor]].
  eapply Forall_impl; [| exact Hf]. intros a. apply fits_wider. exact Hcw.
Qed.

Lemma set_images_resolution_ok l this :
  resolution_ok this -> resolution_ok (set_images l this).
Proof.
  intros H. exact H.
Qed.

Lemma registered_resolution_ok this : registered this -> resolution_ok this.
Proof.
  intros H. destruct (registered_inv _ H) as (_ & Hp & Hw & Hh & Hpad).
  unfold resolution_ok, layout_ok. rewrite Hp, Hh. repeat split; auto.
Qed.

Section BuildToMakeMap.

Variable path_join : string -> string -> string.
Variable gd_open : string -> string -> opened.

(** A build that completes has called [makeMap], on a Sprite for which
    everything holds that holds at the start and that [processImage]
    keeps. *)
Lemma build_pending_makeMap (P : Sprite -> Prop) fuel :
  (forall this l, P this -> P (set_images l this)) ->
  (forall this e w h this', P this -> processImage this e w h = Some this' ->
                            P this') ->
  forall pending this css err trace this' tr,
    P this ->
    build_pending path_join gd_open fuel pending this css err trace
    = Some (Completed this' tr) ->
    exists thisM trace',
      P thisM /\ makeMap fuel thisM css trace' = Some (Completed this' tr).
Proof.
  intros Hset Hproc.
  induction pending as [| imgdata rest IH]; intros this css err trace this' tr HP H.
  - cbn [build_pending] in H. eauto.
  - cbn [build_pending] in H.
    destruct (str_attr "filename" (attrs imgdata)) as [filename |];
      [cbn [obind] in H | discriminate H].
    destruct (openImage gd_open _) as [[message | w h] | msg]; [| | discriminate H].
    + eapply IH; [| exact H]. apply Hset, HP.
    + destruct (processImage (set_images rest this) imgdata w h) as [this1 |] eqn:E;
        [cbn [obind] in H | discriminate H].
      eapply IH; [| exact H]. eapply Hproc; [| exact E]. apply Hset, HP.
Qed.

End BuildToMakeMap.

Lemma makeMap_cursor fuel this css trace this' tr :
  makeMap fuel this css trace = Some (Completed this' tr) ->
  exists c,
    place_all fuel this
              {| text := css; curY := 0; drawn := []; placed := []; replaced := [] |}
              (processedImages this) = Some c
    /\ this' = set_layout (placed c) (canvasWidth this) (canvasHeight this) this
    /\ tr = (trace ++ [ SaveImage (output_format this) (output_file this)
                                  (JS.max (canvasWidth this) 5)
                                  (JS.max (canvasHeight this) 5) (drawn c);
                        CallbackDone (text c) ])%list.
Proof.
  unfold makeMap. intros H.
  destruct (negb (regex_plain (placeholder this))); [discriminate H |].
  destruct (pngcrush this); [discriminate H |].
  destruct (place_all _ _ _ _) as [c |]; [cbn [obind] in H | discriminate H].
  injection H as <- <-. exists c. repeat split.
Qed.

Lemma StronglySorted_app {A} (R : A -> A -> Prop) l1 l2 :
  StronglySorted R l1 -> StronglySorted R l2 ->
  (forall a b, In a l1 -> In b l2 -> R a b) ->
  StronglySorted R (l1 ++ l2).
Proof.
  induction l1 as [| x l1 IH]; intros H1 H2 H; [exact H2 |].
  inversion H1; subst. cbn [app]. constructor.
  - apply IH; [assumption | assumption |]. intros a b Ha Hb. apply H; [right |]; assumption.
  - apply Forall_app. split; [assumption |].
    apply Forall_forall. intros b Hb. apply H; [left; reflexivity | exact Hb].
Qed.

Lemma within_sorted id w top bottom p l :
  Forall (within id w top bottom) l -> StronglySorted (apart p) l.
Proof.
  induction 1 as [| a l Ha Hl IH]; constructor; [exact IH |].
  apply Forall_forall. intros b Hb.
  rewrite Forall_forall in Hl. specialize (Hl b Hb).
  destruct a, b; cbn [apart within] in *; try exact I.
  intros Hne. exfalso. apply Hne. destruct Ha as [-> _], Hl as [-> _]. reflexivity.
Qed.

Lemma place_drawing_ok fuel this c d c' :
  0 <= padding this ->
  fits this d -> 0 <= Img.height d ->
  drawing_ok this c ->
  place fuel this c d = Some c' ->
  drawing_ok this c'
  /\ curY c' <= curY c + (Img.blockHeight d + padding this).
Proof.
  intros Hp (Hw & Hb & Hh) H0 (Hy & Hin & Hs) H.
  destruct (place_band _ _ _ _ _ H Hw Hb ltac:(lia) Hp)
    as (Hle & Hup & new & Hd & Hnew).
  split; [| exact Hup]. unfold drawing_ok. rewrite Hd.
  split; [lia |]. split.
  - apply Forall_app. split.
    + eapply Forall_impl; [| exact Hin]. intros []; cbn [inside]; try exact (fun x => x).
      lia.
    + eapply Forall_impl; [| exact Hnew].
      intros []; cbn [inside within]; try exact (fun x => x). lia.
  - apply StronglySorted_app; [exact Hs | exact (within_sorted _ _ _ _ _ _ Hnew) |].
    intros a b Ha Hb'. rewrite Forall_forall in Hin, Hnew.
    specialize (Hin a Ha). specialize (Hnew b Hb').
    destruct a, b; cbn [apart inside within] in *; try exact I. lia.
Qed.

Lemma place_all_drawing_ok fuel this l :
  0 <= padding this ->
  Forall (fits this) l -> Forall (fun d => 0 <= Img.height d) l ->
  forall c c',
    drawing_ok this c ->
    place_all fuel this c l = Some c' ->
    drawing_ok this c'
    /\ curY c' <= curY c + total (map (fun d => Img.blockHeight d + padding this) l).
Proof.
  intros Hp Hf Hh. induction l as [| d l IH]; intros c c' Hc H.
  - cbn [place_all] in H. injection H as <-. split; [exact Hc |]. cbn. lia.
  - cbn [place_all] in H.
    destruct (place fuel this c d) as [c1 |] eqn:E; [cbn [obind] in H | discriminate H].
    apply Forall_cons_iff in Hf. destruct Hf as [Hfd Hfl].
    apply Forall_cons_iff in Hh. destruct Hh as [Hhd Hhl].
    destruct (place_drawing_ok _ _ _ _ _ Hp Hfd Hhd Hc E) as (Hc1 & Hy1).
    destruct (IH Hfl Hhl _ _ Hc1 H) as (Hc' & Hy').
    split; [exact Hc' |]. cbn [map total fold_right] in *. unfold total in Hy'. lia.
Qed.

Lemma placed_heights fuel this l :
  forall c c',
    place_all fuel this c l = Some c' ->
    exists l', placed c' = (placed c ++ l')%list
               /\ map Img.height l' = map Img.height l.
Proof.
  intros c c' H. destruct (place_all_inv _ _ _ _ _ H) as (l' & reps & Hp & Hf & _).
  exists l'. split; [exact Hp |].
  apply (Forall2_set_blockWidth_map Img.height _ _ (fun _ _ => eq_refl) Hf).
Qed.

Lemma Forall_map_eq {A B} (f : A -> B) (P : B -> Prop) l l' :
  map f l = map f l' -> Forall (fun a => P (f a)) l -> Forall (fun a => P (f a)) l'.
Proof.
  intros E H. apply Forall_map. rewrite <- E. apply Forall_map. exact H.
Qed.

Section BuildDrawing.

Variable path_join : string -> string -> string.
Variable gd_open : string -> string -> opened.

(** The copies a build has made onto the sprite. *)
Lemma build_drawing fuel this css this' mid fmt file W H drawn css' :
  registered this ->
  build path_join gd_open fuel this css None
  = Some (Completed this' (mid ++ [SaveImage fmt file W H drawn; CallbackDone css'])) ->
  Forall (fun d => 0 <= Img.height d) (processedImages this') ->
  W = JS.max (canvasWidth this') 5 /\ H = JS.max (canvasHeight this') 5
  /\ Forall (inside (canvasWidth this') (canvasHeight this' - 10)) drawn
  /\ StronglySorted (apart 10) drawn.
Proof.
  intros Hreg Hb Hh. unfold build in Hb.
  destruct (build_pending_makeMap path_join gd_open resolution_ok fuel
              (fun this l => set_images_resolution_ok l this)
              processImage_resolution_ok _ _ _ _ _ _ _
              (registered_resolution_ok _ Hreg) Hb)
    as (thisM & trace' & (Hl & Hf & Hp) & HM).
  destruct (makeMap_cursor _ _ _ _ _ _ HM) as (c & Hc & -> & Htr).
  cbn [set_layout canvasWidth canvasHeight processedImages] in *.
  change (mid ++ [SaveImage fmt file W H drawn; CallbackDone css'])%list
    with (mid ++ [SaveImage fmt file W H drawn] ++ [CallbackDone css'])%list in Htr.
  change (trace' ++ [?a; ?b])%list with (trace' ++ [a] ++ [b])%list in Htr.
  rewrite !app_assoc in Htr. apply app_inj_tail in Htr. destruct Htr as [Htr _].
  apply app_inj_tail in Htr. destruct Htr as [_ Htr]. injection Htr as -> -> -> -> ->.
  destruct (placed_heights _ _ _ _ _ Hc) as (l' & Hpl & Hhe). cbn [placed app] in Hpl.
  rewrite Hpl in Hh.
  assert (Hh' : Forall (fun d => 0 <= Img.height d) (processedImages thisM)).
  { exact (Forall_map_eq Img.height (fun z => 0 <= z) _ _ Hhe Hh). }
  assert (H0 : drawing_ok thisM
                 {| text := css; curY := 0; drawn := []; placed := [];
                    replaced := [] |}).
  { repeat split; cbn; [lia | constructor | constructor]. }
  destruct (place_all_drawing_ok fuel thisM _ ltac:(lia) Hf Hh' _ _ H0 Hc)
    as ((Hy & Hin & Hs) & Hle).
  destruct Hl as [Hch _]. rewrite <- Hch in Hle. cbn [curY] in Hle.
  rewrite Hp in *. repeat split; [| exact Hs].
  eapply Forall_impl; [| exact Hin]. intros []; cbn [inside]; try exact (fun x => x).
  lia.
Qed.

End BuildDrawing.

Lemma tile_x_has_size id w h bw curY :
  0 <= h ->
  forall fuel curX drawn x dr,
    Forall has_size drawn ->
    tile_x fuel id w h bw curX curY drawn = Some (x, dr) ->
    Forall has_size dr.
Proof.
  intros Hh. induction fuel as [| fuel IH]; intros curX drawn x dr Hd H;
    cbn [tile_x] in H; destruct (curX <? bw) eqn:E;
    try discriminate H; try (injection H as <- <-; exact Hd).
  destruct (Z_le_gt_dec w 0) as [Hw | Hw].
  - rewrite (tile_x_stuck id w h bw curY Hw) in H by lia. discriminate H.
  - apply IH in H; [exact H |]. apply Forall_app. split; [exact Hd |].
    constructor; [| constructor]. cbn [has_size].
    destruct (curX + w <? bw) eqn:E'; lia.
Qed.

Lemma tile_y_has_size id w h bh startY curX :
  0 <= w ->
  forall fuel curY drawn y dr,
    Forall has_size drawn ->
    tile_y fuel id w h bh startY curX curY drawn = Some (y, dr) ->
    Forall has_size dr.
Proof.
  intros Hw. induction fuel as [| fuel IH]; intros curY drawn y dr Hd H;
    cbn [tile_y] in H; destruct (curY <? startY + bh) eqn:E;
    try discriminate H; try (injection H as <- <-; exact Hd).
  destruct (Z_le_gt_dec h 0) as [Hh | Hh].
  - destruct (curY + h <? startY + bh) eqn:E'; [| lia].
    rewrite (tile_y_stuck id w h bh startY curX Hh) in H by lia. discriminate H.
  - apply IH in H; [exact H |]. apply Forall_app. split; [exact Hd |].
    constructor; [| constructor]. cbn [has_size].
    destruct (curY + h <? startY + bh) eqn:E'; lia.
Qed.

Lemma block_draw_has_size d : has_size (block_draw d).
Proof. unfold block_draw. destruct (Img.resize d); exact I. Qed.

(** The copies made for an image of no negative width or height are
    copies of rectangles. *)
Lemma place_has_size fuel this c d c' :
  0 <= Img.width d -> 0 <= Img.height d ->
  Forall has_size (drawn c) ->
  place fuel this c d = Some c' ->
  Forall has_size (drawn c').
Proof.
  intros Hw Hh Hd H.
  assert (Hb : Forall has_size (drawn c ++ [block_draw d])).
  { apply Forall_app. split; [exact Hd |].
    constructor; [apply block_draw_has_size | constructor]. }
  destruct (place_cases _ _ _ _ _ H)
    as (bw & startX & _ & _ & _ & _ &
        [(_ & _ & Ed & _) | [(_ & _ & (x & T) & _) |
         [(_ & _ & y & T & _) | (_ & _ & _ & _ & Ed & _)]]]).
  - rewrite Ed. apply Forall_app. split; [exact Hd |].
    constructor; [apply block_draw_has_size |].
    constructor; [| constructor]. cbn [has_size]. lia.
  - exact (tile_x_has_size _ _ _ _ _ Hh _ _ _ _ _ Hb T).
  - exact (tile_y_has_size _ _ _ _ _ _ Hw _ _ _ _ _ Hb T).
  - rewrite Ed. exact Hb.
Qed.

Lemma place_all_has_size fuel this l :
  Forall (fun d => 0 <= Img.width d /\ 0 <= Img.height d) l ->
  forall c c',
    Forall has_size (drawn c) ->
    place_all fuel this c l = Some c' ->
    Forall has_size (drawn c').
Proof.
  induction 1 as [| d l [Hw Hh] _ IH]; intros c c' Hd H; cbn [place_all] in H.
  - injection H as <-. exact Hd.
  - destruct (place fuel this c d) as [c1 |] eqn:E;
      [cbn [obind] in H | discriminate H].
    eapply IH; [| exact H]. exact (place_has_size _ _ _ _ _ Hw Hh Hd E).
Qed.

Section Drawing.

Variable path_join : string -> string -> string.
Variable gd_open : string -> string -> opened.

(** The copies a build makes onto the sprite are copies of rectangles
    when its images have no negative width or height. *)
Lemma build_sizes fuel this css this' mid fmt file W H drawn css' :
  build path_join gd_open fuel this css None
  = Some (Completed this' (mid ++ [SaveImage fmt file W H drawn; CallbackDone css'])) ->
  Forall (fun d => 0 <= Img.width d /\ 0 <= Img.height d) (processedImages this') ->
  Forall has_size drawn.
Proof.
  intros Hb Hs. unfold build in Hb.
  destruct (build_pending_makeMap path_join gd_open (fun _ => True) fuel
              (fun _ _ _ => I) (fun _ _ _ _ _ _ _ => I) _ _ _ _ _ _ _ I Hb)
    as (thisM & trace' & _ & HM).
  destruct (makeMap_cursor _ _ _ _ _ _ HM) as (c & Hc & -> & Htr).
  cbn [set_layout processedImages] in Hs.
  change (mid ++ [SaveImage fmt file W H drawn; CallbackDone css'])%list
    with (mid ++ [SaveImage fmt file W H drawn] ++ [CallbackDone css'])%list in Htr.
  change (trace' ++ [?a; ?b])%list with (trace' ++ [a] ++ [b])%list in Htr.
  rewrite !app_assoc in Htr. apply app_inj_tail in Htr. destruct Htr as [Htr _].
  apply app_inj_tail in Htr. destruct Htr as [_ Htr]. injection Htr as _ _ _ _ ->.
  destruct (place_all_inv _ _ _ _ _ Hc) as (l' & reps & Hpl & Hf & _).
  cbn [placed app] in Hpl. rewrite Hpl in Hs.
  assert (Hs' : Forall (fun d => 0 <= Img.width d /\ 0 <= Img.height d)
                       (processedImages thisM)).
  { pose proof (Forall2_set_blockWidth_map
                  (fun d => (Img.width d, Img.height d)) _ _
                  (fun _ _ => eq_refl) Hf) as E.
    exact (Forall_map_eq (fun d => (Img.width d, Img.height d))
             (fun p => 0 <= fst p /\ 0 <= snd p) _ _ E Hs). }
  exact (place_all_has_size _ _ _ Hs'
           {| text := css; curY := 0; drawn := []; placed := []; replaced := [] |}
           _ (Forall_nil _) Hc).
Qed.

(** X13.  When no processed image has a negative width or height, every
    copy a build makes onto the sprite is the copy of a rectangle that
    lies within the canvas, indeed above the last padding; the image saved
    is of the size of the canvas, or 5 where that is less. *)
Theorem copies_stay_on_canvas fuel this css this' mid fmt file W H drawn css' :
  registered this ->
  build path_join gd_open fuel this css None
  = Some (Completed this' (mid ++ [SaveImage fmt file W H drawn; CallbackDone css'])) ->
  Forall (fun d => 0 <= Img.width d /\ 0 <= Img.height d) (processedImages this') ->
  Forall (on_canvas (canvasWidth this') (canvasHeight this' - 10)) drawn
  /\ W = JS.max (canvasWidth this') 5 /\ H = JS.max (canvasHeight this') 5
  /\ Forall (on_canvas W H) drawn.
Proof.
  intros Hreg Hb Hs.
  assert (Hh : Forall (fun d => 0 <= Img.height d) (processedImages this')).
  { eapply Forall_impl; [| exact Hs]. intros d [_ Hd]. exact Hd. }
  destruct (build_drawing path_join gd_open _ _ _ _ _ _ _ _ _ _ _ Hreg Hb Hh)
    as (HW & HH & Hin & _).
  pose proof (build_sizes _ _ _ _ _ _ _ _ _ _ _ Hb Hs) as Hsz.
  assert (Hon : Forall (on_canvas (canvasWidth this') (canvasHeight this' - 10))
                       drawn).
  { rewrite Forall_forall in *. intros t Ht.
    specialize (Hin t Ht). specialize (Hsz t Ht).
    destruct t; cbn [on_canvas inside has_size] in *; try exact I. lia. }
  split; [exact Hon |]. split; [exact HW |]. split; [exact HH |].
  eapply Forall_impl; [| exact Hon]. unfold JS.max in *.
  intros []; cbn [on_canvas]; try exact (fun x => x). lia.
Qed.

(** X14.  The copies of different images are stacked in the order the
    images were processed: a copy drawn later, of another image, begins at
    least the padding of 10 rows below the end of one drawn before. *)
Theorem images_stacked_apart fuel this css this' mid fmt file W H drawn css' :
  registered this ->
  build path_join gd_open fuel this css None
  = Some (Completed this' (mid ++ [SaveImage fmt file W H drawn; CallbackDone css'])) ->
  Forall (fun d => 0 <= Img.height d) (processedImages this') ->
  StronglySorted (apart 10) drawn.
Proof.
  intros Hreg Hb Hh.
  exact (proj2 (proj2 (proj2
    (build_drawing path_join gd_open _ _ _ _ _ _ _ _ _ _ _ Hreg Hb Hh)))).
Qed.

End Drawing.

Lemma copies_stay_on_canvas_witness :
  exists this' fmt file W H drawn css',
    registered (Example.after
                  [("a.png", None);
                   ("b.png", Some "repeat:y; height:40; limit-repeat-y:95")])
    /\ build Example.path_join Example.gd_open 3
             (Example.after
                [("a.png", None);
                 ("b.png", Some "repeat:y; height:40; limit-repeat-y:95")])
             "" None
       = Some (Completed this'
                 ([] ++ [SaveImage fmt file W H drawn; CallbackDone css']))
    /\ Forall (fun d => 0 <= Img.width d /\ 0 <= Img.height d)
              (processedImages this')
    /\ W = 20 /\ H = 135
    /\ Forall (on_canvas (canvasWidth this') (canvasHeight this' - 10)) drawn
    /\ W = JS.max (canvasWidth this') 5 /\ H = JS.max (canvasHeight this') 5
    /\ Forall (on_canvas W H) drawn.
Proof.
  pose (l := [("a.png", @None string);
              ("b.png", Some "repeat:y; height:40; limit-repeat-y:95")]).
  fold l.
  let o := eval vm_compute in
             (build Example.path_join Example.gd_open 3 (Example.after l) "" None) in
  match o with
  | Some (Completed ?t [SaveImage ?f ?fi ?W ?H ?dr; CallbackDone ?c]) =>
      exists t, f, fi, W, H, dr, c;
      assert (B : build Example.path_join Example.gd_open 3 (Example.after l)
                        "" None
                  = Some (Completed t ([] ++ [SaveImage f fi W H dr;
                                              CallbackDone c])))
        by (vm_compute; reflexivity);
      assert (Hh : Forall (fun d => 0 <= Img.width d /\ 0 <= Img.height d)
                          (processedImages t))
        by (repeat (apply Forall_cons; [cbn; lia |]); apply Forall_nil);
      split; [apply registered_after |];
      split; [exact B |];
      split; [exact Hh |];
      split; [reflexivity |];
      split; [reflexivity |];
      exact (copies_stay_on_canvas Example.path_join Example.gd_open
               _ _ _ _ _ _ _ _ _ _ _ (registered_after l) B Hh)
  end.
Defined.

Lemma images_stacked_apart_witness :
  exists this' fmt file W H drawn css',
    registered (Example.after
                  [("a.png", Some "repeat:x; width:7"); ("b.png", None)])
    /\ build Example.path_join Example.gd_open 3
             (Example.after
                [("a.png", Some "repeat:x; width:7"); ("b.png", None)])
             "" None
       = Some (Completed this'
                 ([] ++ [SaveImage fmt file W H drawn; CallbackDone css']))
    /\ Forall (fun d => 0 <= Img.height d) (processedImages this')
    /\ StronglySorted (apart 10) drawn.
Proof.
  pose (l := [("a.png", Some "repeat:x; width:7"); ("b.png", @None string)]).
  fold l.
  let o := eval vm_compute in
             (build Example.path_join Example.gd_open 3 (Example.after l) "" None) in
  match o with
  | Some (Completed ?t [SaveImage ?f ?fi ?W ?H ?dr; CallbackDone ?c]) =>
      exists t, f, fi, W, H, dr, c;
      assert (B : build Example.path_join Example.gd_open 3 (Example.after l)
                        "" None
                  = Some (Completed t ([] ++ [SaveImage f fi W H dr;
                                              CallbackDone c])))
        by (vm_compute; reflexivity);
      assert (Hh : Forall (fun d => 0 <= Img.height d) (processedImages t))
        by (repeat (apply Forall_cons; [cbn; lia |]); apply Forall_nil);
      split; [apply registered_after |];
      split; [exact B |];
      split; [exact Hh |];
      exact (images_stacked_apart Example.path_join Example.gd_open
               _ _ _ _ _ _ _ _ _ _ _ (registered_after l) B Hh)
  end.
Defined.

(** ** The width of the canvas *)

Lemma widest_snoc l d : widest (l ++ [d]) = Z.max (widest l) (needed_width d).
Proof.
  unfold widest. induction l as [| a l IH]; cbn [app map fold_right] in *; [lia |].
  rewrite IH. lia.
Qed.

Lemma processImage_widest this imgdata w h this' :
  processImage this imgdata w h = Some this' ->
  canvasWidth this = widest (processedImages this) ->
  canvasWidth this' = widest (processedImages this').
Proof.
  unfold processImage. intros H Hc. obind_inv H.
  injection H as <-. cbn [set_layout canvasWidth processedImages].
  rewrite widest_snoc, <- Hc. unfold needed_width.
  cbn [Img.repeat Img.limit_repeat_x Img.width].
  rewrite blockWidth_expr_cases. split_ifs; cbn [andb negb] in *; try lia; congruence.
Qed.

Section CanvasWidth.

Variable path_join : string -> string -> string.
Variable gd_open : string -> string -> opened.

(** X15.  After a build of a registered Sprite the width of the canvas
    is the greatest among 0 and the widths the processed images need, an
    image needing its width and, for [repeat:x] with a limit other than
    0, that limit: no image needs more, and the canvas is 0 wide or as
    wide as one of them needs. *)
Theorem canvasWidth_is_widest fuel this css this' tr :
  registered this ->
  build path_join gd_open fuel this css None = Some (Completed this' tr) ->
  canvasWidth this' = widest (processedImages this')
  /\ (forall d, In d (processedImages this') -> needed_width d <= canvasWidth this')
  /\ (canvasWidth this' = 0
      \/ exists d, In d (processedImages this')
                   /\ needed_width d = canvasWidth this').
Proof.
  intros Hreg Hb. unfold build in Hb.
  assert (H0 : canvasWidth this = widest (processedImages this)).
  { destruct (registered_inv _ Hreg) as (_ & -> & -> & _). reflexivity. }
  destruct (build_pending_makeMap path_join gd_open
              (fun s => canvasWidth s = widest (processedImages s)) fuel
              (fun s l E => E)
              (fun s e w h s' E Hp => processImage_widest _ _ _ _ _ Hp E)
              _ _ _ _ _ _ _ H0 Hb)
    as (thisM & trace' & HM0 & HM).
  destruct (makeMap_cursor _ _ _ _ _ _ HM) as (c & Hc & -> & _).
  destruct (place_all_inv _ _ _ _ _ Hc) as (l' & reps & Hpl & Hf & _).
  cbn [placed app] in Hpl. cbn [set_layout canvasWidth processedImages].
  assert (E : widest (placed c) = widest (processedImages thisM)).
  { unfold widest. rewrite Hpl.
    rewrite (Forall2_set_blockWidth_map needed_width _ _ (fun _ _ => eq_refl) Hf).
    reflexivity. }
  rewrite HM0, <- E. split; [reflexivity |].
  generalize (placed c). intros l. unfold widest. split.
  - induction l as [| a l IH]; intros d Hd; [contradiction |].
    cbn [map fold_right]. destruct Hd as [-> | Hd]; [lia |].
    specialize (IH d Hd). lia.
  - induction l as [| a l IH]; [left; reflexivity |].
    cbn [map fold_right].
    destruct (Z_le_gt_dec (fold_right Z.max 0 (map needed_width l)) (needed_width a))
      as [Hle | Hgt].
    + right. exists a. split; [left; reflexivity | lia].
    + destruct IH as [IH | (d & Hd & IH)].
      * lia.
      * right. exists d. split; [right; exact Hd | lia].
Qed.

End CanvasWidth.

Lemma canvasWidth_is_widest_witness :
  exists this' tr,
    registered (Example.after
                  [("a.png", Some "width:5");
                   ("b.png", Some "repeat:x; limit-repeat-x:33")])
    /\ build Example.path_join Example.gd_open 4
             (Example.after
                [("a.png", Some "width:5");
                 ("b.png", Some "repeat:x; limit-repeat-x:33")])
             "" None
       = Some (Completed this' tr)
    /\ canvasWidth this' = 33
    /\ canvasWidth this' = widest (processedImages this')
    /\ (forall d, In d (processedImages this') ->
                  needed_width d <= canvasWidth this')
    /\ (canvasWidth this' = 0
        \/ exists d, In d (processedImages this')
                     /\ needed_width d = canvasWidth this').
Proof.
  pose (l := [("a.png", Some "width:5");
              ("b.png", Some "repeat:x; limit-repeat-x:33")]).
  fold l.
  let o := eval vm_compute in
             (build Example.path_join Example.gd_open 4 (Example.after l) "" None) in
  match o with
  | Some (Completed ?t ?tr) =>
      exists t, tr;
      assert (B : build Example.path_join Example.gd_open 4 (Example.after l)
                        "" None = Some (Completed t tr))
        by (vm_compute; reflexivity);
      split; [apply registered_after |];
      split; [exact B |];
      split; [reflexivity |];
      exact (canvasWidth_is_widest Example.path_join Example.gd_open
               _ _ _ _ _ (registered_after l) B)
  end.
Defined.

(** ** Positions and copies *)

Lemma block_draw_set_blockWidth v d : block_draw (set_blockWidth v d) = block_draw d.
Proof.
  reflexivity.
Qed.

(** The position written for an image is the corner of its first copy. *)
Lemma place_position fuel this c d c' :
  place fuel this c d = Some c' ->
  exists d' x,
    placed c' = (placed c ++ [d'])%list
    /\ (exists v, d' = set_blockWidth v d)
    /\ replaced c'
       = (replaced c ++ [(Img._img_id d, replacement d x (curY c))])%list
    /\ text c'
       = replace_all (quoted_token (placeholder this) (Img._img_id d))
                     (replacement d x (curY c)) (text c)
    /\ (copied d' ->
        exists w h rest,
          drawn c' = (drawn c ++ block_draw d
                        :: SpriteCopy (Img._img_id d) x (curY c) w h :: rest)%list).
Proof.
  intros H.
  destruct (place_cases _ _ _ _ _ H)
    as (bw & startX & Ebw & Hpl & Hre & Hte &
        [(Er & Ex & Ed & _) | [(Er & Ex & (x & T) & _) |
         [(Er & Ex & y & T & _) | (E1 & E2 & E3 & _ & Ed & _)]]]).
  - exists (set_blockWidth (VNum (Int bw)) d), startX.
    split; [exact Hpl |]. split; [eauto |]. split; [exact Hre |].
    split; [exact Hte |]. intros _. subst startX. rewrite Ed. cbn [app]. eauto.
  - exists (set_blockWidth (VNum (Int bw)) d), startX.
    split; [exact Hpl |]. split; [eauto |]. split; [exact Hre |].
    split; [exact Hte |]. subst startX.
    intros [Hc | [(_ & b & Hb & Hpos) | (Hc & _)]];
      cbn [set_blockWidth Img.repeat Img.blockWidth] in *; try congruence.
    injection Hb as <-.
    destruct (tile_x_first _ _ _ _ _ _ _ _ _ T Hpos) as (r & rest & ->).
    rewrite <- app_assoc. cbn [app]. eauto.
  - exists (set_blockWidth (VNum (Int bw)) d), startX.
    split; [exact Hpl |]. split; [eauto |]. split; [exact Hre |].
    split; [exact Hte |]. subst startX.
    intros [Hc | [(Hc & _) | (_ & Hpos)]];
      cbn [set_blockWidth Img.repeat Img.blockHeight] in *; try congruence.
    destruct (tile_y_first _ _ _ _ _ _ _ _ _ _ T Hpos) as (r & rest & ->).
    rewrite <- app_assoc. cbn [app]. eauto.
  - exists (set_blockWidth (VNum (Int bw)) d), startX.
    split; [exact Hpl |]. split; [eauto |]. split; [exact Hre |].
    split; [exact Hte |].
    intros [Hc | [(Hc & _) | (Hc & _)]]; cbn [set_blockWidth Img.repeat] in Hc;
      congruence.
Qed.

Lemma place_all_positions fuel this l :
  forall c c',
    place_all fuel this c l = Some c' ->
    exists l' reps,
      placed c' = (placed c ++ l')%list
      /\ text c' = replace_each reps (text c)
      /\ Forall2 (fun d' pr =>
                    fst pr = quoted_token (placeholder this) (Img._img_id d')
                    /\ exists x y,
                        snd pr = replacement d' x y
                        /\ (copied d' ->
                            exists w h before rest,
                              drawn c'
                              = (before ++ block_draw d'
                                   :: SpriteCopy (Img._img_id d') x y w h
                                   :: rest)%list))
                 l' reps.
Proof.
  induction l as [| d l IH]; intros c c' H; cbn [place_all] in H.
  - injection H as <-. exists [], []. rewrite app_nil_r. repeat split. constructor.
  - destruct (place fuel this c d) as [c1 |] eqn:E; [cbn [obind] in H | discriminate H].
    destruct (place_position _ _ _ _ _ E) as (d' & x & Hpl & (v & ->) & _ & Hte & Hco).
    destruct (IH _ _ H) as (l' & reps & Hpl' & Hte' & Hf).
    destruct (place_all_drawn_grows _ _ _ _ _ H) as (more & Hmore).
    exists (set_blockWidth v d :: l'),
      ((quoted_token (placeholder this) (Img._img_id d),
        replacement d x (curY c)) :: reps).
    split; [rewrite Hpl', Hpl, <- app_assoc; reflexivity |].
    split; [rewrite Hte', Hte; reflexivity |].
    constructor; [| exact Hf]. cbn [fst snd]. split; [reflexivity |].
    exists x, (curY c). split; [reflexivity |].
    intros Hc. destruct (Hco Hc) as (w & h & rest & Hd).
    exists w, h, (drawn c), (rest ++ more)%list.
    rewrite Hmore, Hd, <- app_assoc. reflexivity.
Qed.

Lemma reps_by_id p (Q : Img.t -> string -> Prop) l reps :
  Forall2 (fun d pr => fst pr = quoted_token p (Img._img_id d) /\ Q d (snd pr))
          l reps ->
  exists ids,
    reps = map (fun r => (quoted_token p (fst r), snd r)) ids
    /\ Forall2 (fun d (r : Z * string) => fst r = Img._img_id d /\ Q d (snd r))
               l ids.
Proof.
  induction 1 as [| d [pat rep] l reps [Hp HQ] _ (ids & -> & IH)].
  - exists []. split; constructor.
  - cbn [fst snd] in Hp, HQ. subst pat.
    exists ((Img._img_id d, rep) :: ids). split; [reflexivity |].
    constructor; [split; [reflexivity | exact HQ] | exact IH].
Qed.

Lemma tail_two {A} (l l' : list A) a b a' b' :
  (l ++ [a; b] = l' ++ [a'; b'])%list -> a = a' /\ b = b'.
Proof.
  change (l ++ [a; b])%list with (l ++ [a] ++ [b])%list.
  change (l' ++ [a'; b'])%list with (l' ++ [a'] ++ [b'])%list.
  rewrite !app_assoc. intros H. apply app_inj_tail in H. destruct H as [H ->].
  apply app_inj_tail in H. destruct H as [_ ->]. split; reflexivity.
Qed.

Lemma processImage_placeholder this imgdata w h this' :
  processImage this imgdata w h = Some this' ->
  placeholder this' = placeholder this.
Proof.
  intros H. destruct (processImage_inv _ _ _ _ _ H)
    as (_ & _ & _ & _ & _ & _ & _ & _ & _ & _ & _ & _ & (_ & _ & _ & Hp & _)).
  exact Hp.
Qed.

Section BuildText.

Variable path_join : string -> string -> string.
Variable gd_open : string -> string -> opened.

(** What a completed build has drawn and written. *)
Lemma build_positions fuel this css this' mid fmt file W H drawn css' :
  build path_join gd_open fuel this css None
  = Some (Completed this' (mid ++ [SaveImage fmt file W H drawn; CallbackDone css'])) ->
  exists reps,
    css' = replace_each reps css
    /\ Forall2 (fun d pr =>
                  fst pr = quoted_token (placeholder this) (Img._img_id d)
                  /\ exists x y,
                      snd pr = replacement d x y
                      /\ (copied d ->
                          exists w h before rest,
                            drawn = (before ++ block_draw d
                                       :: SpriteCopy (Img._img_id d) x y w h
                                       :: rest)%list))
               (processedImages this') reps.
Proof.
  intros Hb. unfold build in Hb.
  destruct (build_pending_makeMap path_join gd_open
              (fun s => placeholder s = placeholder this) fuel
              (fun s l E => E)
              (fun s e w h s' E Hp =>
                 eq_trans (processImage_placeholder _ _ _ _ _ Hp) E)
              _ _ _ _ _ _ _ eq_refl Hb)
    as (thisM & trace' & Hp & HM).
  destruct (makeMap_cursor _ _ _ _ _ _ HM) as (c & Hc & -> & Htr).
  apply tail_two in Htr. destruct Htr as [Hs Hd].
  injection Hs as -> -> -> -> ->. injection Hd as ->.
  destruct (place_all_positions _ _ _ _ _ Hc) as (l' & reps & Hpl & Hte & Hf).
  cbn [placed app text] in Hpl, Hte. cbn [set_layout processedImages].
  exists reps. rewrite Hpl, <- Hp. split; [exact Hte | exact Hf].
Qed.

(** X16.  When the placeholder prefix has no character in it with a
    meaning of its own in a regular expression, the text returned is the
    style sheet after one replacement for each processed image, in order:
    that of its quoted token by a position, which names the place of the
    first copy of the image on the sprite ([x] being written [100%] or
    [center] for those alignments). *)
Theorem positions_point_at_copies fuel this css this' mid fmt file W H drawn css' :
  regex_plain (placeholder this) = true ->
  build path_join gd_open fuel this css None
  = Some (Completed this' (mid ++ [SaveImage fmt file W H drawn; CallbackDone css'])) ->
  exists reps,
    css' = replace_each reps css
    /\ Forall2 (fun d pr =>
                  fst pr = quoted_token (placeholder this) (Img._img_id d)
                  /\ exists x y,
                      snd pr = replacement d x y
                      /\ (copied d ->
                          exists w h before rest,
                            drawn = (before ++ block_draw d
                                       :: SpriteCopy (Img._img_id d) x y w h
                                       :: rest)%list))
               (processedImages this') reps.
Proof.
  intros _. apply build_positions.
Qed.

End BuildText.

Lemma positions_point_at_copies_witness :
  exists this' fmt file W H drawn css',
    regex_plain (placeholder
                   (Example.after
                      [("a.png", None); ("b.png", Some "align:right; height:40")]))
    = true
    /\ build Example.path_join Example.gd_open 0
          (Example.after [("a.png", None); ("b.png", Some "align:right; height:40")])
          "b{background:'SPRITE_PLACEHOLDER(2)'}" None
    = Some (Completed this'
              ([] ++ [SaveImage fmt file W H drawn; CallbackDone css']))
    /\ css' = "b{background:100% -30px}"
    /\ exists reps,
        css' = replace_each reps "b{background:'SPRITE_PLACEHOLDER(2)'}"
        /\ Forall2 (fun d pr =>
                      fst pr = quoted_token "SPRITE_PLACEHOLDER" (Img._img_id d)
                      /\ exists x y,
                          snd pr = replacement d x y
                          /\ (copied d ->
                              exists w h before rest,
                                drawn = (before ++ block_draw d
                                           :: SpriteCopy (Img._img_id d) x y w h
                                           :: rest)%list))
                   (processedImages this') reps.
Proof.
  pose (l := [("a.png", @None string); ("b.png", Some "align:right; height:40")]).
  fold l.
  let o := eval vm_compute in
             (build Example.path_join Example.gd_open 0 (Example.after l)
                    "b{background:'SPRITE_PLACEHOLDER(2)'}" None) in
  match o with
  | Some (Completed ?t [SaveImage ?f ?fi ?W ?H ?dr; CallbackDone ?c]) =>
      exists t, f, fi, W, H, dr, c;
      assert (B : build Example.path_join Example.gd_open 0 (Example.after l)
                        "b{background:'SPRITE_PLACEHOLDER(2)'}" None
                  = Some (Completed t ([] ++ [SaveImage f fi W H dr;
                                              CallbackDone c])))
        by (vm_compute; reflexivity);
      split; [reflexivity |];
      split; [exact B |];
      split; [reflexivity |];
      exact (positions_point_at_copies Example.path_join Example.gd_open
               _ (Example.after l) _ _ _ _ _ _ _ _ _ eq_refl B)
  end.
Defined.

(** ** Style sheets *)

Section ReplaceToken.

Variable q : ascii.
Variables N rep : string.
Hypothesis N_no_q : has_char q N = false.

Let pat := String q (N ++ String q "").

Lemma replace_from_plain a : forall X,
  has_char q a = false ->
  replace_from pat rep 0 (a ++ X) = a ++ replace_from pat rep 0 X.
Proof.
  induction a as [| c a IH]; intros X H; [reflexivity |].
  simpl in H. apply orb_false_iff in H. destruct H as [Hc Ha].
  cbn [append replace_from].
  destruct (String.prefix pat (String c (a ++ X))) eqn:E.
  - apply prefix_cons in E. destruct E as [<- _].
    rewrite Ascii.eqb_refl in Hc. discriminate.
  - rewrite (IH X Ha). reflexivity.
Qed.

Lemma replace_from_skip a : forall X,
  replace_from pat rep (String.length a) (a ++ X) = replace_from pat rep 0 X.
Proof.
  induction a as [| c a IH]; intros X; [reflexivity |].
  cbn [String.length append replace_from]. apply IH.
Qed.

Lemma replace_from_match X :
  replace_from pat rep 0 (pat ++ X) = rep ++ replace_from pat rep 0 X.
Proof.
  clear N_no_q. unfold pat at 2. cbn [append replace_from].
  change (String q ((N ++ String q "") ++ X)) with (pat ++ X).
  rewrite prefix_app. f_equal.
  unfold pat at 2. cbn [String.length].
  replace (S (String.length (N ++ String q "")) - 1)%nat
    with (String.length (N ++ String q "")) by lia.
  apply replace_from_skip.
Qed.

Lemma prefix_upto_q s : forall M Z,
  has_char q s = false -> has_char q M = false ->
  String.prefix (M ++ String q "") (s ++ String q Z) = true -> M = s.
Proof.
  induction s as [| c s IH]; intros M Z Hs HM H.
  - destruct M as [| b M]; [reflexivity |].
    cbn [append] in H. apply prefix_cons in H. destruct H as [-> _].
    simpl in HM. rewrite Ascii.eqb_refl in HM. discriminate.
  - simpl in Hs. apply orb_false_iff in Hs. destruct Hs as [Hc Hs].
    destruct M as [| b M].
    + cbn [append] in H. apply prefix_cons in H. destruct H as [<- _].
      rewrite Ascii.eqb_refl in Hc. discriminate.
    + simpl in HM. apply orb_false_iff in HM. destruct HM as [_ HM].
      cbn [append] in H. apply prefix_cons in H. destruct H as [-> H].
      f_equal. exact (IH M Z Hs HM H).
Qed.

Lemma prefix_q_plain s : forall M,
  has_char q s = false -> String.prefix (M ++ String q "") s = false.
Proof.
  induction s as [| c s IH]; intros M Hs.
  - destruct M; reflexivity.
  - simpl in Hs. apply orb_false_iff in Hs. destruct Hs as [Hc Hs].
    destruct (String.prefix (M ++ String q "") (String c s)) eqn:E; [| reflexivity].
    destruct M as [| b M]; cbn [append] in E; apply prefix_cons in E.
    + destruct E as [<- _]. rewrite Ascii.eqb_refl in Hc. discriminate.
    + destruct E as [_ E]. rewrite (IH M Hs) in E. discriminate.
Qed.

(** A token that is not the pattern stays, when nothing that follows its
    closing quote completes the pattern. *)
Lemma replace_from_other M X :
  has_char q M = false -> M <> N ->
  String.prefix (N ++ String q "") X = false ->
  replace_from pat rep 0 (String q (M ++ String q "") ++ X)
  = String q (M ++ String q "") ++ replace_from pat rep 0 X.
Proof.
  intros HM Hne HX. cbn [append replace_from].
  destruct (String.prefix pat (String q ((M ++ String q "") ++ X))) eqn:E.
  - exfalso. apply prefix_cons in E. destruct E as [_ E].
    rewrite append_assoc in E. cbn [append] in E.
    apply Hne. symmetry. exact (prefix_upto_q M N X HM N_no_q E).
  - f_equal. rewrite !append_assoc. rewrite (replace_from_plain M _ HM).
    f_equal. cbn [append replace_from].
    assert (E' : String.prefix pat (String q X) = false).
    { destruct (String.prefix pat (String q X)) eqn:E'; [| reflexivity].
      apply prefix_cons in E'. destruct E' as [_ E']. congruence. }
    rewrite E'. reflexivity.
Qed.

End ReplaceToken.

Lemma token_no_quote p id : has_char "'" p = false -> has_char "'" (token p id) = false.
Proof.
  intros H. unfold token.
  repeat (rewrite has_char_app || rewrite has_char_Z_to_string by reflexivity).
  rewrite H. reflexivity.
Qed.

Lemma quoted_token_token p id :
  quoted_token p id = String "'" (token p id ++ String "'" "").
Proof.
  exact (quoted_token_shape p id).
Qed.

Lemma position_of_cases p id rep m j :
  Forall (fun r => position_text (snd r)) m ->
  (position_of p m j = quoted_token p j
   /\ position_of p (m ++ [(id, rep)]) j
      = if id =? j then rep else quoted_token p j)
  \/ (position_text (position_of p m j)
      /\ position_of p (m ++ [(id, rep)]) j = position_of p m j).
Proof.
  induction 1 as [| [i r] m Hr Hm IH]; cbn [position_of app].
  - left. split; reflexivity.
  - destruct (i =? j); [right; split; [exact Hr | reflexivity] | exact IH].
Qed.

Section ReplaceRefs.

Variable p : string.
Hypothesis p_no_quote : has_char "'" p = false.
Hypothesis p_no_space : has_char " " p = false.

Lemma tail_safe id m s l :
  Forall (fun r => position_text (snd r)) m ->
  has_char "'" s = false -> s <> token p id ->
  String.prefix (token p id ++ String "'" "")
                (s ++ write_refs (position_of p m) l) = false.
Proof.
  intros Hm Hs Hne. destruct l as [| [k s'] l]; cbn [write_refs].
  - rewrite append_nil_r. apply prefix_q_plain. exact Hs.
  - destruct (position_of_cases p id "" m k Hm) as [[E _] | [[Hq Hsp] _]].
    + rewrite E, quoted_token_token. cbn [append].
      destruct (String.prefix _ _) eqn:P; [| reflexivity].
      exfalso. apply Hne. symmetry.
      eapply (prefix_upto_q "'"); [exact Hs | | exact P].
      apply token_no_quote, p_no_quote.
    + rewrite <- (append_assoc s).
      apply (prefix_not_across "'" " ").
      * rewrite has_char_app, Hs, Hq. reflexivity.
      * rewrite has_char_app, Hsp. apply orb_true_r.
      * apply token_no_space, p_no_space.
Qed.

Lemma replace_token_refs id rep m l :
  position_text rep ->
  Forall (fun r => position_text (snd r)) m ->
  plain_refs p l ->
  replace_from (quoted_token p id) rep 0 (write_refs (position_of p m) l)
  = write_refs (position_of p (m ++ [(id, rep)])) l.
Proof.
  intros Hrep Hm. induction 1 as [| [j s] l [Hs Hne] Hl IH]; [reflexivity |].
  cbn [snd] in Hs, Hne. cbn [write_refs].
  rewrite quoted_token_token in IH. rewrite quoted_token_token.
  destruct (position_of_cases p id rep m j Hm) as [[E E'] | [[Hq Hsp] E']];
    rewrite E'.
  - rewrite E. destruct (Z.eqb_spec id j) as [<- | Hij].
    + rewrite quoted_token_token.
      rewrite (replace_from_match "'" (token p id) rep).
      rewrite (replace_from_plain "'" (token p id) rep s _ Hs).
      rewrite IH. reflexivity.
    + rewrite (quoted_token_token p j).
      rewrite (replace_from_other "'" (token p id) rep
                 (token_no_quote p id p_no_quote) (token p j)).
      * rewrite (replace_from_plain "'" (token p id) rep s _ Hs).
        rewrite IH. reflexivity.
      * apply token_no_quote, p_no_quote.
      * intros Et. apply Hij. symmetry. exact (token_inj _ _ _ Et).
      * apply tail_safe; [exact Hm | exact Hs | apply Hne].
  - rewrite (replace_from_plain "'" (token p id) rep _ _ Hq).
    rewrite (replace_from_plain "'" (token p id) rep s _ Hs).
    rewrite IH. reflexivity.
Qed.

Lemma replace_each_refs sh reps :
  has_char "'" (lead sh) = false -> plain_refs p (refs sh) ->
  Forall (fun r => position_text (snd r)) reps ->
  forall m,
    Forall (fun r => position_text (snd r)) m ->
    replace_each (map (fun r => (quoted_token p (fst r), snd r)) reps)
                 (write (position_of p m) sh)
    = write (position_of p (m ++ reps)) sh.
Proof.
  intros Hlead Hrefs. induction 1 as [| [id rep] reps Hr Hreps IH]; intros m Hm.
  - rewrite app_nil_r. reflexivity.
  - cbn [map fst snd]. unfold replace_each in *. cbn [fold_left fst snd].
    assert (E : replace_all (quoted_token p id) rep (write (position_of p m) sh)
                = write (position_of p (m ++ [(id, rep)])) sh).
    { pose proof (replace_token_refs id rep m _ Hr Hm Hrefs) as R.
      rewrite quoted_token_token in R.
      unfold replace_all. rewrite quoted_token_token. unfold write.
      rewrite (replace_from_plain "'" (token p id) rep _ _ Hlead).
      rewrite R. reflexivity. }
    rewrite E, IH.
    + rewrite <- app_assoc. reflexivity.
    + apply Forall_app. split; [exact Hm | constructor; [exact Hr | constructor]].
Qed.

End ReplaceRefs.

Section SheetText.

Variable path_join : string -> string -> string.
Variable gd_open : string -> string -> opened.

(** X17.  Let the placeholder prefix have in it no character with a
    meaning of its own in a regular expression, no single quote and no
    space.  For a style sheet that consists of quoted tokens and of text
    with no quote in it, no text after a token being a bare token itself,
    the text returned is the same sheet with the position of the image
    written where the token of a processed image stood, all else as it
    was. *)
Theorem build_writes_positions fuel this sh this' mid fmt file W H drawn css' :
  regex_plain (placeholder this) = true ->
  has_char "'" (placeholder this) = false ->
  has_char " " (placeholder this) = false ->
  plain_sheet (placeholder this) sh ->
  build path_join gd_open fuel this (write (quoted_token (placeholder this)) sh) None
  = Some (Completed this' (mid ++ [SaveImage fmt file W H drawn; CallbackDone css'])) ->
  exists reps,
    css' = write (position_of (placeholder this) reps) sh
    /\ Forall2 (fun d (r : Z * string) =>
                  fst r = Img._img_id d
                  /\ exists x y, snd r = replacement d x y)
               (processedImages this') reps.
Proof.
  intros _ Hq Hsp (Hlead & Hrefs) Hb.
  destruct (build_positions path_join gd_open _ _ _ _ _ _ _ _ _ _ _ Hb)
    as (reps & -> & Hf).
  destruct (reps_by_id (placeholder this)
              (fun d s => exists x y, s = replacement d x y
                            /\ (copied d ->
                                exists w h before rest,
                                  drawn = (before ++ block_draw d
                                             :: SpriteCopy (Img._img_id d) x y w h
                                             :: rest)%list))
              _ _ Hf) as (ids & -> & Hids).
  exists ids. split.
  - change (write (quoted_token (placeholder this)) sh)
      with (write (position_of (placeholder this) []) sh).
    rewrite (replace_each_refs (placeholder this) Hq Hsp sh ids Hlead Hrefs);
      [reflexivity | | constructor].
    clear - Hids. induction Hids as [| d r l ids (_ & x & y & E & _) _ IH];
      constructor; [| exact IH].
    rewrite E. split; [apply replacement_no_quote | apply replacement_space].
  - clear - Hids. induction Hids as [| d r l ids (Hi & x & y & E & _) _ IH];
      constructor; [| exact IH].
    split; [exact Hi |]. eauto.
Qed.

End SheetText.

Lemma build_writes_positions_witness :
  exists this' fmt file W H drawn css',
    regex_plain "SPRITE_PLACEHOLDER" = true
    /\ has_char "'" "SPRITE_PLACEHOLDER" = false
    /\ has_char " " "SPRITE_PLACEHOLDER" = false
    /\ plain_sheet "SPRITE_PLACEHOLDER" Example.two_rules
    /\ write (quoted_token "SPRITE_PLACEHOLDER") Example.two_rules
       = "a{background:'SPRITE_PLACEHOLDER(1)'} b{background:'SPRITE_PLACEHOLDER(2)'}"
    /\ build Example.path_join Example.gd_open 0
             (Example.after
                [("a.png", None); ("b.png", Some "align:right; height:40")])
             (write (quoted_token "SPRITE_PLACEHOLDER") Example.two_rules) None
       = Some (Completed this'
                 ([] ++ [SaveImage fmt file W H drawn; CallbackDone css']))
    /\ css' = "a{background:-0px -0px} b{background:100% -30px}"
    /\ exists reps,
        css' = write (position_of "SPRITE_PLACEHOLDER" reps) Example.two_rules
        /\ Forall2 (fun d (r : Z * string) =>
                      fst r = Img._img_id d
                      /\ exists x y, snd r = replacement d x y)
                   (processedImages this') reps.
Proof.
  pose (l := [("a.png", @None string); ("b.png", Some "align:right; height:40")]).
  fold l.
  assert (Hs : plain_sheet "SPRITE_PLACEHOLDER" Example.two_rules).
  { split; [reflexivity |].
    repeat (apply Forall_cons;
            [split; [reflexivity | intros id E; vm_compute in E; discriminate E] |]).
    apply Forall_nil. }
  let o := eval vm_compute in
             (build Example.path_join Example.gd_open 0 (Example.after l)
                    (write (quoted_token "SPRITE_PLACEHOLDER") Example.two_rules)
                    None) in
  match o with
  | Some (Completed ?t [SaveImage ?f ?fi ?W ?H ?dr; CallbackDone ?c]) =>
      exists t, f, fi, W, H, dr, c;
      assert (B : build Example.path_join Example.gd_open 0 (Example.after l)
                        (write (quoted_token (placeholder (Example.after l)))
                               Example.two_rules) None
                  = Some (Completed t ([] ++ [SaveImage f fi W H dr;
                                              CallbackDone c])))
        by (vm_compute; reflexivity);
      split; [reflexivity |];
      split; [reflexivity |];
      split; [reflexivity |];
      split; [exact Hs |];
      split; [reflexivity |];
      split; [exact B |];
      split; [reflexivity |];
      exact (build_writes_positions Example.path_join Example.gd_open
               0%nat (Example.after l) Example.two_rules
               _ _ _ _ _ _ _ _ eq_refl eq_refl eq_refl Hs B)
  end.
Defined.

(** ** Callbacks *)

Section CallbackProofs.

Variable path_join : string -> string -> string.
Variable gd_open : string -> string -> opened.

Lemma makeMap_completed fuel this css trace out :
  makeMap fuel this css trace = Some out ->
  exists this' drawn css',
    out = Completed this'
            (trace ++ [ SaveImage (output_format this) (output_file this)
                                  (JS.max (canvasWidth this) 5)
                                  (JS.max (canvasHeight this) 5) drawn;
                        CallbackDone css' ])%list
    /\ map Img._img_id (processedImages this')
       = map Img._img_id (processedImages this)
    /\ canvasWidth this' = canvasWidth this
    /\ canvasHeight this' = canvasHeight this.
Proof.
  intros H. destruct (makeMap_inv _ _ _ _ _ H)
    as (l' & reps & dr & _ & _ & Hf & _ & ->).
  do 3 eexists. split; [reflexivity |].
  cbn [set_layout processedImages canvasWidth canvasHeight].
  split; [| split; reflexivity].
  apply (Forall2_set_blockWidth_map Img._img_id _ _ (fun _ _ => eq_refl) Hf).
Qed.

Lemma error_trace err trace :
  (match err with
   | Some message => trace ++ [CallbackError message]
   | None => trace
   end)%list = (trace ++ error_event err)%list.
Proof.
  destruct err; simpl; [reflexivity | rewrite app_nil_r; reflexivity].
Qed.

Lemma open_failures_cons root e l :
  open_failures path_join gd_open root (e :: l)
  = match open_failure path_join gd_open root e with
    | Some message => message :: open_failures path_join gd_open root l
    | None => open_failures path_join gd_open root l
    end.
Proof.
  unfold open_failures. cbn [flat_map].
  destruct (open_failure path_join gd_open root e); reflexivity.
Qed.

Lemma filter_opens_cons root e l :
  filter (opens path_join gd_open root) (e :: l)
  = match open_failure path_join gd_open root e with
    | Some _ => filter (opens path_join gd_open root) l
    | None => e :: filter (opens path_join gd_open root) l
    end.
Proof.
  cbn [filter]. unfold opens at 1.
  destruct (open_failure path_join gd_open root e); reflexivity.
Qed.

(** The callbacks of a build that completes. *)
Lemma build_pending_callbacks fuel pending :
  forall this css err trace this' tr,
    build_pending path_join gd_open fuel pending this css err trace
    = Some (Completed this' tr) ->
    exists drawn css',
      tr = (trace ++ error_event err
              ++ map CallbackError (open_failures path_join gd_open
                                                  (image_root this) pending)
              ++ [ SaveImage (output_format this) (output_file this)
                             (JS.max (canvasWidth this') 5)
                             (JS.max (canvasHeight this') 5) drawn;
                   CallbackDone css' ])%list
      /\ map Img._img_id (processedImages this')
         = (map Img._img_id (processedImages this)
              ++ map entry_id (filter (opens path_join gd_open (image_root this))
                                      pending))%list.
Proof.
  induction pending as [| imgdata rest IH]; intros this css err trace this' tr H.
  - cbn [build_pending] in H. rewrite error_trace in H.
    destruct (makeMap_completed _ _ _ _ _ H)
      as (this1 & dr & css' & Hout & Hids & Hw & Hh).
    injection Hout as <- ->. exists dr, css'.
    cbn [open_failures flat_map map filter app]. rewrite Hw, Hh, Hids, app_nil_r.
    rewrite <- app_assoc. split; reflexivity.
  - cbn [build_pending] in H. rewrite error_trace in H.
    rewrite open_failures_cons, filter_opens_cons. unfold open_failure.
    destruct (str_attr "filename" (attrs imgdata)) as [filename |];
      [cbn [obind] in H | discriminate H].
    change (image_root (set_images rest this)) with (image_root this) in H.
    destruct (openImage gd_open (path_join (image_root this) filename))
      as [[message | w h] | msg]; [| | discriminate H].
    + apply IH in H. destruct H as (dr & css' & -> & Hids).
      exists dr, css'.
      cbn [set_images image_root output_format output_file processedImages
           error_event app map] in *.
      split; [| exact Hids]. rewrite <- !app_assoc. reflexivity.
    + destruct (processImage (set_images rest this) imgdata w h) as [this1 |] eqn:E;
        [cbn [obind] in H | discriminate H].
      apply IH in H. destruct H as (dr & css' & -> & Hids).
      destruct (processImage_inv _ _ _ _ _ E)
        as (d & Hp & Hid & _ & _ & _ & _ & _ & _ & _ & _ & _
            & (_ & Hroot & Hfile & _ & Hfmt & _)).
      cbn [set_images image_root output_format output_file processedImages] in *.
      exists dr, css'. rewrite Hroot, Hfile, Hfmt in *.
      cbn [error_event app map]. split; [rewrite <- ?app_assoc; reflexivity |].
      rewrite Hids, Hp, map_app. cbn [map]. rewrite Hid, <- app_assoc. reflexivity.
Qed.

(** An exception nobody catches comes from [openImage]. *)
Lemma build_pending_uncaught fuel pending :
  forall this css err trace msg this' tr,
    build_pending path_join gd_open fuel pending this css err trace
    = Some (Uncaught msg this' tr) ->
    msg = "Unknown file type"
    /\ Exists (unknown_type path_join gd_open (image_root this)) pending
    /\ exists errors, tr = (trace ++ map CallbackError errors)%list.
Proof.
  induction pending as [| imgdata rest IH]; intros this css err trace msg this' tr H.
  - cbn [build_pending] in H.
    destruct (makeMap_completed _ _ _ _ _ H) as (? & ? & ? & Hout & _). discriminate Hout.
  - cbn [build_pending] in H. rewrite error_trace in H.
    destruct (str_attr "filename" (attrs imgdata)) as [filename |] eqn:Ef;
      [cbn [obind] in H | discriminate H].
    change (image_root (set_images rest this)) with (image_root this) in H.
    destruct (openImage gd_open (path_join (image_root this) filename))
      as [[message | w h] | m] eqn:Eo.
    + apply IH in H. destruct H as (-> & Hex & errors & ->).
      split; [reflexivity |]. split; [apply Exists_cons_tl; exact Hex |].
      destruct err as [e |]; cbn [error_event].
      * exists (e :: errors). rewrite <- app_assoc. reflexivity.
      * exists errors. rewrite app_nil_r. reflexivity.
    + destruct (processImage (set_images rest this) imgdata w h) as [this1 |] eqn:E;
        [cbn [obind] in H | discriminate H].
      destruct (processImage_inv _ _ _ _ _ E)
        as (_ & _ & _ & _ & _ & _ & _ & _ & _ & _ & _ & _ & (_ & Hroot & _)).
      apply IH in H. destruct H as (-> & Hex & errors & ->).
      rewrite Hroot in Hex. cbn [set_images image_root] in Hex.
      split; [reflexivity |]. split; [apply Exists_cons_tl; exact Hex |].
      destruct err as [e |]; cbn [error_event].
      * exists (e :: errors). rewrite <- app_assoc. reflexivity.
      * exists errors. rewrite app_nil_r. reflexivity.
    + injection H as <- <- <-.
      assert (Hm : m = "Unknown file type").
      { unfold openImage in Eo.
        repeat match type of Eo with
               | (if ?c then _ else _) = _ => destruct c; try discriminate Eo
               end.
        injection Eo as <-. reflexivity. }
      subst m. split; [reflexivity |].
      split; [apply Exists_cons_hd; exists filename; split; assumption |].
      destruct err as [e |]; cbn [error_event].
      * exists [e]. reflexivity.
      * exists []. cbn [map]. rewrite ?app_nil_r. reflexivity.
Qed.

End CallbackProofs.

Section CallbackTheorems.

Variable path_join : string -> string -> string.
Variable gd_open : string -> string -> opened.

(** X18.  A build that completes has called back once with an error for
    each file that did not open, in the order of registration, then saved
    the sprite and called back with the text.  The images processed are
    those whose files opened. *)
Theorem build_calls_back_for_each_failure fuel this css this' tr :
  build path_join gd_open fuel this css None = Some (Completed this' tr) ->
  exists drawn css',
    tr = (map CallbackError
              (open_failures path_join gd_open (image_root this) (images this))
            ++ [ SaveImage (output_format this) (output_file this)
                           (JS.max (canvasWidth this') 5)
                           (JS.max (canvasHeight this') 5) drawn;
                 CallbackDone css' ])%list
    /\ map Img._img_id (processedImages this')
       = (map Img._img_id (processedImages this)
            ++ map entry_id (filter (opens path_join gd_open (image_root this))
                                    (images this)))%list.
Proof.
  intros H. exact (build_pending_callbacks path_join gd_open _ _ _ _ _ _ _ _ H).
Qed.

Lemma build_pending_known fuel pending :
  forall this css err trace this' tr,
    build_pending path_join gd_open fuel pending this css err trace
    = Some (Completed this' tr) ->
    Forall (fun e => ~ unknown_type path_join gd_open (image_root this) e) pending.
Proof.
  induction pending as [| imgdata rest IH]; intros this css err trace this' tr H;
    [constructor |].
  cbn [build_pending] in H.
  destruct (str_attr "filename" (attrs imgdata)) as [filename |] eqn:Ef;
    [cbn [obind] in H | discriminate H].
  change (image_root (set_images rest this)) with (image_root this) in H.
  destruct (openImage gd_open (path_join (image_root this) filename))
    as [[message | w h] | m] eqn:Eo; [| | discriminate H].
  - constructor; [| exact (IH _ _ _ _ _ _ H)].
    intros (f & Hf & Ht). congruence.
  - destruct (processImage (set_images rest this) imgdata w h) as [this1 |] eqn:E;
      [cbn [obind] in H | discriminate H].
    destruct (processImage_inv _ _ _ _ _ E)
      as (_ & _ & _ & _ & _ & _ & _ & _ & _ & _ & _ & _ & (_ & Hroot & _)).
    constructor.
    + intros (f & Hf & Ht). congruence.
    + apply IH in H. rewrite Hroot in H. exact H.
Qed.

(** X19.  Without [pngcrush], with a placeholder prefix that has no
    character in it with a meaning of its own in a regular expression, and
    with a callback that returns: a build that comes to an end ends in an
    exception exactly when a pending file has a name [openImage] does not
    take; the exception is [Unknown file type], nothing is saved and the
    text is never handed over. *)
Theorem unknown_file_type_ends_build fuel this css out :
  pngcrush this = None ->
  regex_plain (placeholder this) = true ->
  build path_join gd_open fuel this css None = Some out ->
  match out with
  | Completed _ _ =>
      Forall (fun e => ~ unknown_type path_join gd_open (image_root this) e)
             (images this)
  | Uncaught msg _ tr =>
      msg = "Unknown file type"
      /\ Exists (unknown_type path_join gd_open (image_root this)) (images this)
      /\ forallb is_error tr = true
  end.
Proof.
  unfold build. intros _ _ H. destruct out as [this' tr | msg this' tr].
  - exact (build_pending_known _ _ _ _ _ _ _ _ H).
  - destruct (build_pending_uncaught path_join gd_open _ _ _ _ _ _ _ _ _ H)
      as (Hm & Hex & errors & ->).
    split; [exact Hm |]. split; [exact Hex |].
    cbn [app]. clear. induction errors as [| a errors IH]; [reflexivity | exact IH].
Qed.

Lemma build_pending_rethrowing_error fuel pending this css message trace :
  build_pending_rethrowing path_join gd_open fuel pending this css (Some message)
                           trace
  = Some (Uncaught message this (trace ++ [CallbackError message])).
Proof.
  destruct pending; reflexivity.
Qed.

Lemma openImage_throws image msg :
  openImage gd_open image = Throw msg -> msg = "Unknown file type".
Proof.
  unfold openImage. intros H.
  repeat match type of H with
         | (if ?c then _ else _) = _ => destruct c; try discriminate H
         end.
  injection H as <-. reflexivity.
Qed.

Lemma build_pending_rethrowing_cases fuel pending :
  forall this css trace out,
    build_pending_rethrowing path_join gd_open fuel pending this css None trace
    = Some out ->
    match out with
    | Completed this' tr =>
        open_failures path_join gd_open (image_root this) pending = []
        /\ build_pending path_join gd_open fuel pending this css None trace
           = Some out
    | Uncaught msg this' tr =>
        (msg = "Unknown file type" /\ tr = trace
         /\ Exists (unknown_type path_join gd_open (image_root this)) pending)
        \/ (tr = (trace ++ [CallbackError msg])%list
            /\ exists rest,
                open_failures path_join gd_open (image_root this) pending
                = msg :: rest)
    end.
Proof.
  induction pending as [| imgdata rest IH]; intros this css trace out H.
  - cbn [build_pending_rethrowing] in H.
    destruct (makeMap_completed _ _ _ _ _ H) as (this' & dr & css' & -> & _).
    split; [reflexivity | exact H].
  - cbn [build_pending_rethrowing] in H. cbn [build_pending].
    rewrite open_failures_cons. unfold open_failure.
    destruct (str_attr "filename" (attrs imgdata)) as [filename |] eqn:Ef;
      [cbn [obind] in * | discriminate H].
    change (image_root (set_images rest this)) with (image_root this) in *.
    destruct (openImage gd_open (path_join (image_root this) filename))
      as [[message | w h] | m] eqn:Eo.
    + rewrite build_pending_rethrowing_error in H. injection H as <-.
      right. split; [reflexivity |]. eauto.
    + destruct (processImage (set_images rest this) imgdata w h) as [this1 |] eqn:E;
        [cbn [obind] in * | discriminate H].
      destruct (processImage_inv _ _ _ _ _ E)
        as (_ & _ & _ & _ & _ & _ & _ & _ & _ & _ & _ & _ & (_ & Hroot & _)).
      apply IH in H. rewrite Hroot in H.
      change (image_root (set_images rest this)) with (image_root this) in H.
      destruct out as [this' tr | msg this' tr]; [exact H |].
      destruct H as [(Hm & Ht & Hex) | Hr]; [left | right; exact Hr].
      split; [exact Hm |]. split; [exact Ht |]. apply Exists_cons_tl. exact Hex.
    + injection H as <-. left. pose proof (openImage_throws _ _ Eo) as Hm.
      split; [exact Hm |]. split; [reflexivity |].
      apply Exists_cons_hd. exists filename. split; [exact Ef |].
      rewrite Eo, Hm. reflexivity.
Qed.

(** X20.  Without [pngcrush] and with a placeholder prefix that has no
    character in it with a meaning of its own in a regular expression:
    with a callback that throws the error it is handed, a build that comes
    to an end either goes through with no file failing to open, making
    the one save and the one callback with the text that it makes with any
    callback, or ends in an exception with nothing saved and no text
    handed over.  The exception is then either [Unknown file type], with
    no callback made and a pending file that has a name [openImage] does
    not take, or the error of the first file that does not open, with the
    one callback that hands over that error made. *)
Theorem rethrowing_callback_all_or_nothing fuel this css out :
  pngcrush this = None ->
  regex_plain (placeholder this) = true ->
  build_rethrowing path_join gd_open fuel this css = Some out ->
  match out with
  | Completed this' tr =>
      open_failures path_join gd_open (image_root this) (images this) = []
      /\ build path_join gd_open fuel this css None = Some out
      /\ exists save css', is_save save = true /\ tr = [save; CallbackDone css']
  | Uncaught msg this' tr =>
      existsb is_save tr = false /\ existsb is_done tr = false
      /\ ((msg = "Unknown file type" /\ tr = []
           /\ Exists (unknown_type path_join gd_open (image_root this))
                     (images this))
          \/ (tr = [CallbackError msg]
              /\ exists rest,
                  open_failures path_join gd_open (image_root this) (images this)
                  = msg :: rest))
  end.
Proof.
  unfold build_rethrowing, build. intros _ _ H.
  pose proof (build_pending_rethrowing_cases _ _ _ _ _ _ H) as Hc.
  destruct out as [this' tr | msg this' tr].
  - destruct Hc as [Hf Hb]. split; [exact Hf |]. split; [exact Hb |].
    destruct (build_pending_callbacks path_join gd_open _ _ _ _ _ _ _ _ Hb)
      as (dr & css' & -> & _).
    rewrite Hf. cbn [map app error_event]. do 2 eexists.
    split; cycle 1; reflexivity.
  - destruct Hc as [(-> & -> & Hex) | [-> Hr]].
    + split; [reflexivity |]. split; [reflexivity |]. left.
      split; [reflexivity |]. split; [reflexivity | exact Hex].
    + split; [reflexivity |]. split; [reflexivity |]. right. split; [reflexivity |].
      exact Hr.
Qed.

End CallbackTheorems.

Lemma build_calls_back_for_each_failure_witness :
  exists this' tr,
    build Example.path_join Example.gd_open 0
          (Example.after [("missing.png", None); ("a.png", None)]) "" None
    = Some (Completed this' tr)
    /\ open_failures Example.path_join Example.gd_open ""
         (images (Example.after [("missing.png", None); ("a.png", None)]))
       = ["ENOENT, no such file or directory 'missing.png'; CSS line nr #1"]
    /\ map Img._img_id (processedImages this') = [2]
    /\ exists drawn css',
        tr = (map CallbackError
                  (open_failures Example.path_join Example.gd_open
                     (image_root
                        (Example.after [("missing.png", None); ("a.png", None)]))
                     (images
                        (Example.after [("missing.png", None); ("a.png", None)])))
                ++ [ SaveImage
                       (output_format
                          (Example.after [("missing.png", None); ("a.png", None)]))
                       (output_file
                          (Example.after [("missing.png", None); ("a.png", None)]))
                       (JS.max (canvasWidth this') 5)
                       (JS.max (canvasHeight this') 5) drawn;
                     CallbackDone css' ])%list
        /\ map Img._img_id (processedImages this')
           = (map Img._img_id
                  (processedImages
                     (Example.after [("missing.png", None); ("a.png", None)]))
                ++ map entry_id
                     (filter (opens Example.path_join Example.gd_open
                                (image_root
                                   (Example.after
                                      [("missing.png", None); ("a.png", None)])))
                             (images
                                (Example.after
                                   [("missing.png", None); ("a.png", None)]))))%list.
Proof.
  pose (l := [("missing.png", @None string); ("a.png", @None string)]).
  fold l.
  let o := eval vm_compute in
             (build Example.path_join Example.gd_open 0 (Example.after l) "" None) in
  match o with
  | Some (Completed ?t ?tr) =>
      exists t, tr;
      assert (B : build Example.path_join Example.gd_open 0 (Example.after l)
                        "" None = Some (Completed t tr))
        by (vm_compute; reflexivity);
      split; [exact B |];
      split; [vm_compute; reflexivity |];
      split; [reflexivity |];
      exact (build_calls_back_for_each_failure Example.path_join Example.gd_open
               _ _ _ _ _ B)
  end.
Defined.

Lemma unknown_file_type_ends_build_witness :
  exists msg this' tr,
    pngcrush
      (Example.after [("missing.png", None); ("notes.txt", None); ("a.png", None)])
    = None
    /\ regex_plain
         (placeholder
            (Example.after
               [("missing.png", None); ("notes.txt", None); ("a.png", None)]))
       = true
    /\ build Example.path_join Example.gd_open 0
          (Example.after [("missing.png", None); ("notes.txt", None); ("a.png", None)])
          "" None
    = Some (Uncaught msg this' tr)
    /\ tr = [CallbackError
               "ENOENT, no such file or directory 'missing.png'; CSS line nr #1"]
    /\ msg = "Unknown file type"
    /\ Exists (unknown_type Example.path_join Example.gd_open
                 (image_root
                    (Example.after
                       [("missing.png", None); ("notes.txt", None); ("a.png", None)])))
              (images
                 (Example.after
                    [("missing.png", None); ("notes.txt", None); ("a.png", None)]))
    /\ forallb is_error tr = true.
Proof.
  pose (l := [("missing.png", @None string); ("notes.txt", @None string);
              ("a.png", @None string)]).
  fold l.
  let o := eval vm_compute in
             (build Example.path_join Example.gd_open 0 (Example.after l) "" None) in
  match o with
  | Some (Uncaught ?m ?t ?tr) =>
      exists m, t, tr;
      assert (B : build Example.path_join Example.gd_open 0 (Example.after l)
                        "" None = Some (Uncaught m t tr))
        by (vm_compute; reflexivity);
      split; [reflexivity |];
      split; [reflexivity |];
      split; [exact B |];
      split; [reflexivity |];
      exact (unknown_file_type_ends_build Example.path_join Example.gd_open
               _ (Example.after l) _ _ eq_refl eq_refl B)
  end.
Defined.

Lemma rethrowing_callback_all_or_nothing_witness :
  exists msg this' tr,
    pngcrush
      (Example.after [("a.png", None); ("missing.png", None); ("b.png", None)])
    = None
    /\ regex_plain
         (placeholder
            (Example.after
               [("a.png", None); ("missing.png", None); ("b.png", None)]))
       = true
    /\ build_rethrowing Example.path_join Example.gd_open 0
      (Example.after [("a.png", None); ("missing.png", None); ("b.png", None)]) ""
    = Some (Uncaught msg this' tr)
    /\ msg = "ENOENT, no such file or directory 'missing.png'; CSS line nr #1"
    /\ existsb is_save tr = false /\ existsb is_done tr = false
    /\ ((msg = "Unknown file type" /\ tr = []
         /\ Exists (unknown_type Example.path_join Example.gd_open
                      (image_root
                         (Example.after
                            [("a.png", None); ("missing.png", None);
                             ("b.png", None)])))
                   (images
                      (Example.after
                         [("a.png", None); ("missing.png", None);
                          ("b.png", None)])))
        \/ (tr = [CallbackError msg]
            /\ exists rest,
                open_failures Example.path_join Example.gd_open
                  (image_root
                     (Example.after
                        [("a.png", None); ("missing.png", None); ("b.png", None)]))
                  (images
                     (Example.after
                        [("a.png", None); ("missing.png", None); ("b.png", None)]))
                = msg :: rest)).
Proof.
  pose (l := [("a.png", @None string); ("missing.png", @None string);
              ("b.png", @None string)]).
  fold l.
  let o := eval vm_compute in
             (build_rethrowing Example.path_join Example.gd_open 0
                               (Example.after l) "") in
  match o with
  | Some (Uncaught ?m ?t ?tr) =>
      exists m, t, tr;
      assert (B : build_rethrowing Example.path_join Example.gd_open 0
                                   (Example.after l) ""
                  = Some (Uncaught m t tr))
        by (vm_compute; reflexivity);
      split; [reflexivity |];
      split; [reflexivity |];
      split; [exact B |];
      split; [reflexivity |];
      exact (rethrowing_callback_all_or_nothing Example.path_join Example.gd_open
               _ (Example.after l) _ _ eq_refl eq_refl B)
  end.
Defined.

(** ** Termination *)

Lemma later_records (P : entry -> Prop) :
  (forall f o r id line, merged f o = Ok r ->
      P {| attrs := r; hash := signature r; entry_id := id; entry_lineno := line |}) ->
  forall a b, later a b -> Forall P (images a) -> Forall P (images b).
Proof.
  intros HP a b H Ha. induction H as [| this1 filename options tok this2 _ IH Hcall];
    [exact Ha |].
  destruct (spritefunc_inv _ _ _ _ _ Hcall)
    as (r & Hm & _ & [(e & _ & _ & ->) | (_ & _ & _ & ->)]); [exact IH |].
  apply Forall_app. split; [exact IH |]. constructor; [| constructor].
  eapply HP. exact Hm.
Qed.

Lemma registered_records this :
  registered this -> Forall (fun e => well_formed (attrs e)) (images this).
Proof.
  intros (o & this0 & Hnew & Hl).
  apply (later_records (fun e => well_formed (attrs e))
           (fun f o r _ _ H => merged_well_formed f o r H) _ _ Hl).
  destruct (new_Sprite_inv _ _ Hnew) as (-> & _). constructor.
Qed.

Lemma well_formed_typed r k :
  well_formed r -> assoc k keys <> None \/ k = "filename" ->
  forall v, JS.get k r = Some v -> typed_ok k v = true.
Proof.
  intros (_ & _ & Ht) Hk v Hv. destruct (Ht k v Hv) as [H | H]; [exact H |].
  exfalso. destruct Hk as [Hk | ->].
  - apply Hk. unfold object_prototype in H. cbn [In] in H.
    repeat (destruct H as [<- | H]; [reflexivity |]). contradiction.
  - cbn [In object_prototype] in H.
    repeat (destruct H as [H | H]; [discriminate H |]). contradiction.
Qed.

Lemma well_formed_default r k :
  well_formed r -> In k default_names -> exists v, JS.get k r = Some v.
Proof.
  intros (_ & Hd & _) H. apply In_keys_get, Hd, H.
Qed.

Lemma int_attr_total r k :
  well_formed r -> finite r -> In k default_names ->
  assoc k keys = Some TNumber ->
  exists z, int_attr k r = Some z.
Proof.
  intros Hw Hf Hd Hk. destruct (well_formed_default r k Hw Hd) as (v & Hv).
  assert (Hne : assoc k keys <> None) by congruence.
  pose proof (well_formed_typed r k Hw (or_introl Hne) v Hv) as Ht.
  unfold typed_ok in Ht. rewrite Hk in Ht.
  destruct v as [n | |]; try discriminate Ht.
  destruct (Hf k n Hv) as (z & ->). exists z. unfold int_attr. rewrite Hv. reflexivity.
Qed.

Lemma opt_int_attr_total r k :
  well_formed r -> finite r -> assoc k keys = Some TNumber ->
  exists z, opt_int_attr k r = Some z.
Proof.
  intros Hw Hf Hk. unfold opt_int_attr.
  destruct (JS.get k r) as [v |] eqn:Hv; [| eauto].
  assert (Hne : assoc k keys <> None) by congruence.
  pose proof (well_formed_typed r k Hw (or_introl Hne) v Hv) as Ht.
  unfold typed_ok in Ht. rewrite Hk in Ht.
  destruct v as [n | |]; try discriminate Ht.
  destruct (Hf k n Hv) as (z & ->). eauto.
Qed.

Lemma str_attr_total r k values :
  well_formed r -> In k default_names ->
  assoc k keys = Some (TPredefined values) ->
  exists s, str_attr k r = Some s.
Proof.
  intros Hw Hd Hk. destruct (well_formed_default r k Hw Hd) as (v & Hv).
  assert (Hne : assoc k keys <> None) by congruence.
  pose proof (well_formed_typed r k Hw (or_introl Hne) v Hv) as Ht.
  unfold typed_ok in Ht. rewrite Hk in Ht.
  destruct v as [| s |]; try discriminate Ht.
  exists s. unfold str_attr. rewrite Hv. reflexivity.
Qed.

Lemma filename_attr_total r :
  well_formed r -> exists s, str_attr "filename" r = Some s.
Proof.
  intros Hw.
  destruct (well_formed_default r "filename" Hw ltac:(left; reflexivity)) as (v & Hv).
  pose proof (well_formed_typed r "filename" Hw (or_intror eq_refl) v Hv) as Ht.
  unfold typed_ok in Ht. cbn in Ht.
  destruct v as [| s |]; try discriminate Ht.
  exists s. unfold str_attr. rewrite Hv. reflexivity.
Qed.

Lemma blockHeight_expr_number repeat limit height :
  exists b, number_of (blockHeight_expr repeat limit height) = Some b.
Proof.
  unfold blockHeight_expr, or_, and_.
  destruct (repeat =? "y")%string; cbn [ToBoolean];
    [destruct limit |]; cbn; eauto.
Qed.

(** Resolving a registered record whose numbers are integers succeeds. *)
Lemma processImage_total this imgdata w h :
  well_formed (attrs imgdata) -> finite (attrs imgdata) ->
  exists this', processImage this imgdata w h = Some this'.
Proof.
  intros Hw Hf. unfold processImage.
  destruct (filename_attr_total _ Hw) as (filename & ->). cbn [obind].
  destruct (int_attr_total _ "width" Hw Hf ltac:(cbn; tauto) eq_refl) as (width & ->).
  destruct (int_attr_total _ "height" Hw Hf ltac:(cbn; tauto) eq_refl) as (height & ->).
  destruct (str_attr_total _ "align" _ Hw ltac:(cbn; tauto) eq_refl) as (align & ->).
  destruct (str_attr_total _ "valign" _ Hw ltac:(cbn; tauto) eq_refl) as (valign & ->).
  destruct (well_formed_default _ "resize" Hw ltac:(cbn; tauto)) as (rv & Hrv).
  unfold bool_attr at 1. rewrite Hrv.
  destruct (str_attr_total _ "repeat" _ Hw ltac:(cbn; tauto) eq_refl) as (repeat & ->).
  destruct (int_attr_total _ "limit-repeat-x" Hw Hf ltac:(cbn; tauto) eq_refl)
    as (lx & ->).
  destruct (int_attr_total _ "limit-repeat-y" Hw Hf ltac:(cbn; tauto) eq_refl)
    as (ly & ->).
  destruct (opt_int_attr_total _ "totalwidth" Hw Hf eq_refl) as (tw & ->).
  destruct (opt_int_attr_total _ "totalheight" Hw Hf eq_refl) as (th & ->).
  destruct (opt_int_attr_total _ "padwidth" Hw Hf eq_refl) as (pw & ->).
  destruct (opt_int_attr_total _ "padheight" Hw Hf eq_refl) as (ph & ->).
  cbn [obind].
  destruct (blockHeight_expr_number repeat ly (if height =? 0 then h else height))
    as (b & ->).
  cbn [obind]. eauto.
Qed.

Lemma processImage_drawable this imgdata w h this' :
  processImage this imgdata w h = Some this' ->
  0 < w -> 0 < h ->
  (forall z, int_attr "width" (attrs imgdata) = Some z -> 0 <= z) ->
  (forall z, int_attr "height" (attrs imgdata) = Some z -> 0 <= z) ->
  exists d, processedImages this' = (processedImages this ++ [d])%list
            /\ drawable d.
Proof.
  intros H Hw Hh Hrw Hrh.
  destruct (processImage_inv _ _ _ _ _ H)
    as (d & Hp & _ & _ & _ & Hbh & Hbw & _).
  exists d. split; [exact Hp |].
  revert H. unfold processImage. intros H. obind_inv H.
  injection H as <-. apply app_inj_tail in Hp. destruct Hp as [_ <-].
  unfold drawable.
  cbn [Img.width Img.height Img.blockHeight Img.blockWidth] in *.
  pose proof (Hrw _ eq_refl). pose proof (Hrh _ eq_refl).
  split; [split_ifs; lia |]. split; [split; [split_ifs; lia | exact Hbh] |].
  rewrite blockWidth_expr_cases. split_ifs; eauto.
Qed.

Lemma resolved_blockWidth_total this d :
  drawable d -> exists bw, resolved_blockWidth this d = Some bw.
Proof.
  intros (_ & _ & [E | (bw & E)]); unfold resolved_blockWidth; rewrite E.
  - exists (canvasWidth this). reflexivity.
  - exists bw. reflexivity.
Qed.

Lemma tile_x_total id w h bw curY drawn :
  0 < w ->
  exists N r, forall fuel, (N <= fuel)%nat ->
    tile_x fuel id w h bw 0 curY drawn = Some r.
Proof.
  intros Hw. destruct (Z_le_gt_dec bw 0) as [Hb | Hb].
  - exists O. eexists. intros fuel _.
    destruct fuel; cbn [tile_x]; (destruct (0 <? bw) eqn:E; [lia |]); reflexivity.
  - destruct (iterations_exist w bw Hw ltac:(lia)) as (n & Hn).
    exists n. eexists. intros fuel Hf.
    apply (tile_x_spec id w h bw curY Hw n 0 drawn fuel); [lia | exact Hf].
Qed.

Lemma tile_y_total id w h bh curX curY drawn :
  0 < h <= bh ->
  exists N r, forall fuel, (N <= fuel)%nat ->
    tile_y fuel id w h bh curY curX curY drawn = Some r.
Proof.
  intros Hh. destruct (iterations_exist h bh ltac:(lia) ltac:(lia)) as (n & Hn).
  exists n. eexists. intros fuel Hf.
  apply (tile_y_spec id w h (curY + bh) curX curY bh ltac:(lia) eq_refl n curY drawn fuel);
    [lia | exact Hf].
Qed.

Lemma place_total this c d :
  drawable d ->
  exists N c', forall fuel, (N <= fuel)%nat -> place fuel this c d = Some c'.
Proof.
  intros Hd. destruct (resolved_blockWidth_total this d Hd) as (bw & Ebw).
  destruct Hd as (Hw & Hh & _).
  destruct (String.eqb_spec (Img.repeat d) "no") as [E | E1].
  - exists O. eexists. intros fuel _. rewrite place_eq, Ebw, E. cbn [obind].
    change ("no" =? "no")%string with true. change ("no" =? "x")%string with false.
    change ("no" =? "y")%string with false. cbn [obind]. reflexivity.
  - destruct (String.eqb_spec (Img.repeat d) "x") as [E | E2].
    + destruct (tile_x_total (Img._img_id d) (Img.width d) (Img.height d) bw (curY c)
                  (drawn c ++ [block_draw d]) Hw) as (N & [x dr] & HN).
      exists N. eexists. intros fuel Hf. rewrite place_eq, Ebw, E. cbn [obind].
      change ("x" =? "no")%string with false. change ("x" =? "x")%string with true.
      change ("x" =? "y")%string with false. cbn [obind].
      rewrite (HN fuel Hf). cbn [obind]. reflexivity.
    + destruct (String.eqb_spec (Img.repeat d) "y") as [E | E3].
      * destruct (tile_y_total (Img._img_id d) (Img.width d) (Img.height d)
                    (Img.blockHeight d) (aligned_x this d) (curY c)
                    (drawn c ++ [block_draw d]) Hh) as (N & [y dr] & HN).
        exists N. eexists. intros fuel Hf. rewrite place_eq, Ebw, E. cbn [obind].
        change ("y" =? "no")%string with false. change ("y" =? "x")%string with false.
        change ("y" =? "y")%string with true. cbn [obind].
        rewrite (HN fuel Hf). cbn [obind]. reflexivity.
      * exists O. eexists. intros fuel _. rewrite place_eq, Ebw. cbn [obind].
        apply String.eqb_neq in E1, E2, E3. rewrite E1, E2, E3. cbn [obind].
        reflexivity.
Qed.

Lemma place_all_total this l :
  Forall drawable l ->
  forall c, exists N c', forall fuel, (N <= fuel)%nat ->
    place_all fuel this c l = Some c'.
Proof.
  induction 1 as [| d l Hd _ IH]; intros c.
  - exists O, c. reflexivity.
  - destruct (place_total this c d Hd) as (N1 & c1 & H1).
    destruct (IH c1) as (N2 & c2 & H2).
    exists (Nat.max N1 N2), c2. intros fuel Hf. cbn [place_all].
    rewrite (H1 fuel ltac:(lia)). cbn [obind]. apply H2. lia.
Qed.

Lemma makeMap_total this css trace :
  regex_plain (placeholder this) = true -> pngcrush this = None ->
  Forall drawable (processedImages this) ->
  exists N this' tr, forall fuel, (N <= fuel)%nat ->
    makeMap fuel this css trace = Some (Completed this' tr).
Proof.
  intros Hp Hc Hd.
  destruct (place_all_total this _ Hd
              {| text := css; curY := 0; drawn := []; placed := []; replaced := [] |})
    as (N & c & HN).
  exists N. do 2 eexists. intros fuel Hf. unfold makeMap.
  rewrite Hp, Hc, (HN fuel Hf). cbn [negb obind]. reflexivity.
Qed.

Section BuildTotal.

Variable path_join : string -> string -> string.
Variable gd_open : string -> string -> opened.

Lemma build_pending_total pending :
  forall this css err trace,
    regex_plain (placeholder this) = true -> pngcrush this = None ->
    Forall drawable (processedImages this) ->
    Forall (fun e => well_formed (attrs e)) pending ->
    Forall (resolvable path_join gd_open (image_root this)) pending ->
    exists N this' tr, forall fuel, (N <= fuel)%nat ->
      build_pending path_join gd_open fuel pending this css err trace
      = Some (Completed this' tr).
Proof.
  induction pending as [| e rest IH]; intros this css err trace Hp Hc Hd Hwf Hr.
  - cbn [build_pending]. apply makeMap_total; assumption.
  - apply Forall_cons_iff in Hr. destruct Hr as [(Hf & Hrw & Hrh & Ho) Hr].
    apply Forall_cons_iff in Hwf. destruct Hwf as [Hw Hwf].
    destruct (filename_attr_total _ Hw) as (filename & Ef).
    specialize (Ho filename Ef).
    destruct (openImage gd_open (path_join (image_root this) filename))
      as [[message | w h] | msg] eqn:Eo; [| | contradiction].
    + destruct (IH (set_images rest this) css
                  (Some match message with
                        | EmptyString => message
                        | _ => message ++ "; CSS line nr #"
                                 ++ Z_to_string (entry_lineno e)
                        end)
                  (match err with
                   | Some m => trace ++ [CallbackError m]
                   | None => trace
                   end)%list Hp Hc Hd Hwf Hr) as (N & this' & tr & HN).
      exists N, this', tr. intros fuel Hfl. cbn [build_pending]. rewrite Ef.
      cbn [obind]. change (image_root (set_images rest this)) with (image_root this).
      rewrite Eo. apply HN, Hfl.
    + destruct (processImage_total (set_images rest this) e w h Hw Hf) as (this1 & E).
      destruct (processImage_drawable _ _ _ _ _ E (proj1 Ho) (proj2 Ho) Hrw Hrh)
        as (d & Hpd & Hdd).
      destruct (processImage_inv _ _ _ _ _ E)
        as (_ & _ & _ & _ & _ & _ & _ & _ & _ & _ & _ & _
            & (_ & Hroot & _ & Hph & _ & Hcr)).
      destruct (IH this1 css None
                  (match err with
                   | Some m => trace ++ [CallbackError m]
                   | None => trace
                   end)%list) as (N & this' & tr & HN).
      * rewrite Hph. exact Hp.
      * rewrite Hcr. exact Hc.
      * rewrite Hpd. apply Forall_app. split; [exact Hd | constructor; [exact Hdd | constructor]].
      * exact Hwf.
      * rewrite Hroot. exact Hr.
      * exists N, this', tr. intros fuel Hfl. cbn [build_pending]. rewrite Ef.
        cbn [obind]. change (image_root (set_images rest this)) with (image_root this).
        rewrite Eo, E. cbn [obind]. apply HN, Hfl.
Qed.

End BuildTotal.

Section Completion.

Variable path_join : string -> string -> string.
Variable gd_open : string -> string -> opened.

(** X21.  [build] comes to an end and calls back with the text, given
    enough fuel, for every registered Sprite whose records have integers
    for numbers and no negative width or height, and whose files open as
    images of positive size or fail to open. *)
Theorem build_completes this css :
  registered this ->
  regex_plain (placeholder this) = true -> pngcrush this = None ->
  Forall (resolvable path_join gd_open (image_root this)) (images this) ->
  exists N this' tr, forall fuel, (N <= fuel)%nat ->
    build path_join gd_open fuel this css None = Some (Completed this' tr).
Proof.
  intros Hreg Hp Hc Hr. unfold build.
  apply build_pending_total; try assumption.
  - destruct (registered_inv _ Hreg) as (_ & -> & _). constructor.
  - apply registered_records, Hreg.
Qed.

End Completion.

Lemma build_completes_witness :
  registered (Example.after [("a.png", Some "repeat:x; width:7"); ("b.png", None)])
  /\ regex_plain
       (placeholder
          (Example.after [("a.png", Some "repeat:x; width:7"); ("b.png", None)]))
     = true
  /\ pngcrush
       (Example.after [("a.png", Some "repeat:x; width:7"); ("b.png", None)])
     = None
  /\ Forall (resolvable Example.path_join Example.gd_open
               (image_root
                  (Example.after
                     [("a.png", Some "repeat:x; width:7"); ("b.png", None)])))
            (images
               (Example.after
                  [("a.png", Some "repeat:x; width:7"); ("b.png", None)]))
  /\ exists N this' tr,
      forall fuel, (N <= fuel)%nat ->
        build Example.path_join Example.gd_open fuel
              (Example.after [("a.png", Some "repeat:x; width:7"); ("b.png", None)])
              "" None
        = Some (Completed this' tr).
Proof.
  pose (l := [("a.png", Some "repeat:x; width:7"); ("b.png", @None string)]).
  fold l.
  assert (Hr : Forall (resolvable Example.path_join Example.gd_open
                         (image_root (Example.after l)))
                      (images (Example.after l))).
  { let imgs := eval vm_compute in (images (Example.after l)) in
    assert (E : images (Example.after l) = imgs) by (vm_compute; reflexivity);
    rewrite E.
    repeat (apply Forall_cons;
            [ split;
              [ intros k n G; cbn [attrs JS.get] in G;
                repeat match type of G with
                       | (if ?c then _ else _) = _ =>
                           destruct c; [inversion G; eauto |]
                       end;
                discriminate G
              | split; [intros z G; vm_compute in G; injection G as <-; lia |];
                split; [intros z G; vm_compute in G; injection G as <-; lia |];
                intros filename G; vm_compute in G; injection G as <-;
                vm_compute; split; reflexivity ]
            | ]).
    apply Forall_nil. }
  split; [apply registered_after |]. split; [reflexivity |].
  split; [reflexivity |]. split; [exact Hr |].
  exact (build_completes Example.path_join Example.gd_open (Example.after l) ""
           (registered_after l) eq_refl eq_refl Hr).
Defined.

(** ** The calls on node-gd *)

(** X22.  Every function of the image library the Sprite calls is one
    node-gd defines, and the callback is passed where the wrapper looks
    for it, so the call is asynchronous and calls back. *)
Theorem gd_calls_find_their_callback :
  (forall gd_open image,
      match open_call image with
      | Ok (name, arguments) =>
          Gd.call Gd.open_wrappers name arguments = Gd.Asynchronous
          /\ openImage gd_open image = Ok (gd_open name image)
      | Throw msg => openImage gd_open image = Throw msg
      end)
  /\ (forall this,
         Gd.call Gd.save_wrappers (fst (save_call this)) (snd (save_call this))
         = Gd.Asynchronous).
Proof.
  split.
  - intros gd_open image. unfold open_call, openImage.
    destruct (_ =? "png")%string; [split; reflexivity |].
    destruct (_ =? "gif")%string; [split; reflexivity |].
    destruct ((_ =? "jpg")%string || _); [split; reflexivity | reflexivity].
  - intros this. unfold save_call.
    destruct (_ =? "gif")%string; [reflexivity |].
    destruct ((_ =? "jpg")%string || _); reflexivity.
Qed.
